(** * Starpass vault: master-key protocol, entry cipher, session cache
      and history capacity

    A shallow embedding of [PasswordHistoryManager] (history.js, Starpass
    v2.2) and of the key derivation of the beta history module.  The
    browser platform (WebCrypto, IndexedDB, the clock, the random source,
    the text codecs) is modelled by its documented behaviour; the functions
    of the program are transcribed one by one on top of it.  The [async]
    functions of the vault are given twice: as they run when nothing
    interrupts them, and with the places where they wait, so that
    requests that overlap can be followed. *)

From Stdlib Require Import String Ascii ZArith List Bool Lia.
From Stdlib Require Import Permutation.
Import ListNotations.
Open Scope Z_scope.

(* ================================================================== *)
(** * JavaScript values *)

(** A byte buffer ([Uint8Array], [ArrayBuffer]): octets as integers. *)
Definition bytes := list Z.

(** A JavaScript string: a sequence of 16-bit UTF-16 code units. *)
Definition jsstring := list Z.

Definition unit_of_ascii (c : ascii) : Z := Z.of_N (N_of_ascii c).

(** A string literal of the source (ASCII only) as a JavaScript string. *)
Fixpoint js (s : string) : jsstring :=
  match s with
  | EmptyString => []
  | String c s' => unit_of_ascii c :: js s'
  end.

(** [a === b] on strings. *)
Definition js_eqb (a b : jsstring) : bool :=
  if list_eq_dec Z.eq_dec a b then true else false.

(** [!s] for a string: only the empty string is falsy. *)
Definition js_falsy (s : jsstring) : bool :=
  match s with [] => true | _ :: _ => false end.

(** Exceptions the program throws or receives from the platform. *)
Inductive JsError : Type :=
| Error (message : string)          (* [new Error(message)] *)
| TypeError (message : string)      (* e.g. a property read on [null] *)
| DOMException (name : string).     (* WebCrypto failures *)

Definition err_message (e : JsError) : string :=
  match e with
  | Error m => m
  | TypeError m => m
  | DOMException _ => EmptyString
  end.

(* ================================================================== *)
(** * Text codecs: [TextEncoder.encode] and [TextDecoder.decode] *)

Module Encoding.

Definition REPLACEMENT : Z := 0xFFFD.
Definition BOM : Z := 0xFEFF.

Definition is_lead (u : Z) : bool := (0xD800 <=? u) && (u <=? 0xDBFF).
Definition is_trail (u : Z) : bool := (0xDC00 <=? u) && (u <=? 0xDFFF).
Definition is_unit (u : Z) : bool := (0 <=? u) && (u <=? 0xFFFF).

Definition pair_value (hi lo : Z) : Z :=
  0x10000 + Z.shiftl (hi - 0xD800) 10 + (lo - 0xDC00).

(** Conversion of a string to scalar values, as [encode] does on its
    argument: a surrogate pair is one code point, a surrogate on its
    own becomes U+FFFD. *)
Fixpoint to_scalars (s : jsstring) : list Z :=
  match s with
  | [] => []
  | u :: rest =>
      if is_lead u then
        match rest with
        | t :: rest' =>
            if is_trail t then pair_value u t :: to_scalars rest'
            else REPLACEMENT :: to_scalars rest
        | [] => [REPLACEMENT]
        end
      else if is_trail u then REPLACEMENT :: to_scalars rest
      else u :: to_scalars rest
  end.

(** The continuation bytes of the UTF-8 encoder. *)
Fixpoint utf8_tail (count : nat) (cp : Z) : bytes :=
  match count with
  | O => []
  | S c =>
      Z.lor 0x80 (Z.land (Z.shiftr cp (6 * Z.of_nat c)) 0x3F)
        :: utf8_tail c cp
  end.

(** The UTF-8 encoder on one scalar value. *)
Definition utf8_encode_cp (cp : Z) : bytes :=
  if cp <=? 0x7F then [cp]
  else
    let '(count, offset) :=
      if cp <=? 0x7FF then (1%nat, 0xC0)
      else if cp <=? 0xFFFF then (2%nat, 0xE0)
      else (3%nat, 0xF0) in
    (Z.shiftr cp (6 * Z.of_nat count) + offset) :: utf8_tail count cp.

(** [new TextEncoder().encode(s)]. *)
Definition encode (s : jsstring) : bytes :=
  flat_map utf8_encode_cp (to_scalars s).

(** State of the UTF-8 decoder inside a multi-byte sequence: the code
    point so far, the continuation bytes still needed, and the bounds
    the next byte must lie in. *)
Record Pending : Type := mkPending {
  code_point : Z;
  bytes_left : nat;
  lower : Z;
  upper : Z
}.

Inductive Lead : Type :=
| Emit (cp : Z)
| Start (p : Pending)
| Bad.

(** The decoder on a byte when no sequence is pending. *)
Definition utf8_lead (b : Z) : Lead :=
  if (0 <=? b) && (b <=? 0x7F) then Emit b
  else if (0xC2 <=? b) && (b <=? 0xDF) then
    Start (mkPending (Z.land b 0x1F) 1 0x80 0xBF)
  else if (0xE0 <=? b) && (b <=? 0xEF) then
    Start (mkPending (Z.land b 0xF) 2
             (if b =? 0xE0 then 0xA0 else 0x80)
             (if b =? 0xED then 0x9F else 0xBF))
  else if (0xF0 <=? b) && (b <=? 0xF4) then
    Start (mkPending (Z.land b 0x7) 3
             (if b =? 0xF0 then 0x90 else 0x80)
             (if b =? 0xF4 then 0x8F else 0xBF))
  else Bad.

(** The UTF-8 decoder with replacement of malformed input: a byte that
    cannot continue the pending sequence yields U+FFFD and is then read
    again as a first byte; input that ends inside a sequence yields
    U+FFFD. *)
Fixpoint utf8_decode (st : option Pending) (bs : bytes) : list Z :=
  match bs with
  | [] => match st with None => [] | Some _ => [REPLACEMENT] end
  | b :: rest =>
      let fresh :=
        match utf8_lead b with
        | Emit cp => cp :: utf8_decode None rest
        | Start p => utf8_decode (Some p) rest
        | Bad => REPLACEMENT :: utf8_decode None rest
        end in
      match st with
      | None => fresh
      | Some p =>
          if (lower p <=? b) && (b <=? upper p) then
            let cp := Z.lor (Z.shiftl (code_point p) 6) (Z.land b 0x3F) in
            match bytes_left p with
            | S (S n) => utf8_decode (Some (mkPending cp (S n) 0x80 0xBF)) rest
            | _ => cp :: utf8_decode None rest
            end
          else REPLACEMENT :: fresh
      end
  end.

(** A decoded code point as UTF-16 code units. *)
Definition units_of_cp (cp : Z) : jsstring :=
  if cp <=? 0xFFFF then [cp]
  else [0xD800 + Z.shiftr (cp - 0x10000) 10;
        0xDC00 + Z.land (cp - 0x10000) 0x3FF].

(** A decoder with the default options consumes a leading byte order
    mark. *)
Definition strip_bom (cps : list Z) : list Z :=
  match cps with
  | c :: rest => if c =? BOM then rest else cps
  | [] => []
  end.

(** [new TextDecoder().decode(buf)]: UTF-8, not fatal, BOM not kept. *)
Definition decode (b : bytes) : jsstring :=
  flat_map units_of_cp (strip_bom (utf8_decode None b)).

(** [s.isWellFormed()]: every code unit is 16 bits wide and every
    surrogate is half of a pair. *)
Fixpoint well_formed (s : jsstring) : bool :=
  match s with
  | [] => true
  | u :: rest =>
      is_unit u &&
      (if is_lead u then
         match rest with
         | t :: rest' => is_trail t && well_formed rest'
         | [] => false
         end
       else negb (is_trail u) && well_formed rest)
  end.

Definition starts_with_bom (s : jsstring) : bool :=
  match s with
  | u :: _ => u =? BOM
  | [] => false
  end.

End Encoding.

(* ================================================================== *)
(** * WebCrypto objects *)

Inductive HashAlg : Type := SHA_1 | SHA_256 | SHA_384 | SHA_512.
Inductive AlgName : Type := PBKDF2 | AES_GCM.
Inductive KeyUsage : Type :=
  UseEncrypt | UseDecrypt | UseDeriveKey | UseDeriveBits.

Definition AlgName_eqb (a b : AlgName) : bool :=
  match a, b with
  | PBKDF2, PBKDF2 | AES_GCM, AES_GCM => true
  | _, _ => false
  end.

Definition KeyUsage_eqb (a b : KeyUsage) : bool :=
  match a, b with
  | UseEncrypt, UseEncrypt | UseDecrypt, UseDecrypt
  | UseDeriveKey, UseDeriveKey | UseDeriveBits, UseDeriveBits => true
  | _, _ => false
  end.

Definition has_usage (u : KeyUsage) (us : list KeyUsage) : bool :=
  existsb (KeyUsage_eqb u) us.

(** A [CryptoKey]: its algorithm, its length in bits (for a cipher key),
    the [extractable] flag, the permitted usages and the key bits
    themselves, which the program never reads. *)
Record CryptoKey : Type := mkKey {
  key_algorithm : AlgName;
  key_length : Z;
  key_extractable : bool;
  key_usages : list KeyUsage;
  key_material : bytes
}.

(** The first argument of [crypto.subtle.deriveKey]:
    [{ name: 'PBKDF2', salt, iterations, hash }]. *)
Record Pbkdf2Params : Type := mkPbkdf2 {
  kdf_salt : bytes;
  kdf_iterations : Z;
  kdf_hash : HashAlg
}.

(** The third argument of [crypto.subtle.deriveKey]:
    [{ name: 'AES-GCM', length }]. *)
Record DerivedKeyParams : Type := mkDerived {
  derived_name : AlgName;
  derived_length : Z
}.

(** One run of the key derivation function, as the platform saw it. *)
Record KdfCall : Type := mkKdfCall {
  call_params : Pbkdf2Params;
  call_derived : DerivedKeyParams
}.

(** The primitives the browser supplies.  [pbkdf2 hash iterations salt
    password bits] is the key derivation function, [gcm_encrypt key iv
    plaintext] and [gcm_decrypt key iv ciphertext] are AES-GCM, [entropy]
    is the stream of octets behind [crypto.getRandomValues] and [clock]
    the successive readings of [Date.now()]. *)
Record Platform : Type := mkPlatform {
  pbkdf2 : HashAlg -> Z -> bytes -> bytes -> Z -> bytes;
  gcm_encrypt : bytes -> bytes -> bytes -> bytes;
  gcm_decrypt : bytes -> bytes -> bytes -> option bytes;
  entropy : nat -> Z;
  clock : nat -> Z
}.

(** The contract of the authenticated cipher that the vault relies on:
    opening a sealed message with the same key and nonce gives the
    message back. *)
Definition gcm_correct (pf : Platform) : Prop :=
  forall key iv plaintext,
    gcm_decrypt pf key iv (gcm_encrypt pf key iv plaintext) = Some plaintext.

(* ================================================================== *)
(** * The IndexedDB database *)

(** The row of the [meta] store (key path [id]). *)
Record MasterRecord : Type := mkMaster {
  m_id : Z;
  m_salt : bytes;
  m_iv : bytes;
  m_encryptedData : bytes
}.

(** A row of the [history] store (key path [id], auto-increment). *)
Record Entry : Type := mkEntry {
  e_id : Z;
  e_type : jsstring;
  e_iv : bytes;
  e_encryptedData : bytes;
  e_timestamp : Z
}.

(** Both object stores hold their rows in ascending key order, which is
    the order [getAll] returns them in; [keygen] is the key generator of
    the [history] store, the next identifier it will hand out. *)
Record Database : Type := mkDatabase {
  meta : list MasterRecord;
  history : list Entry;
  keygen : Z
}.

(** The database right after [onupgradeneeded] created the two stores. *)
Definition empty_database : Database := mkDatabase [] [] 1.

(** [objectStore(META_STORE).get(key)]. *)
Definition meta_get (key : Z) (rows : list MasterRecord) : option MasterRecord :=
  find (fun r => m_id r =? key) rows.

(** [objectStore(META_STORE).put(r)]: replaces the row with the same key
    or inserts a new one at its place in key order. *)
Fixpoint meta_put (r : MasterRecord) (rows : list MasterRecord)
  : list MasterRecord :=
  match rows with
  | [] => [r]
  | x :: rows' =>
      if m_id x =? m_id r then r :: rows'
      else if m_id r <? m_id x then r :: rows
      else x :: meta_put r rows'
  end.

(** [objectStore(STORE_NAME).get(key)]. *)
Definition history_get (key : Z) (rows : list Entry) : option Entry :=
  find (fun e => e_id e =? key) rows.

(** [objectStore(STORE_NAME).delete(key)]. *)
Definition history_delete (key : Z) (rows : list Entry) : list Entry :=
  filter (fun e => negb (e_id e =? key)) rows.

(** [Array.prototype.sort((a, b) => a.id - b.id)]: a stable sort on the
    identifier. *)
Fixpoint insert_by_id (e : Entry) (l : list Entry) : list Entry :=
  match l with
  | [] => [e]
  | x :: l' => if e_id e <=? e_id x then e :: l else x :: insert_by_id e l'
  end.

Definition sort_by_id (l : list Entry) : list Entry :=
  fold_right insert_by_id [] l.

(** [Array.prototype.slice(0, stop)]: a negative [stop] counts from the
    end of the array. *)
Definition slice0 {A : Type} (stop : Z) (l : list A) : list A :=
  if stop <? 0 then firstn (Z.to_nat (Z.of_nat (length l) + stop)) l
  else firstn (Z.to_nat stop) l.

(* ================================================================== *)
(** * The state of the page *)

(** The module variables of [PasswordHistoryManager] ([db], [_cachedKey],
    [_keyExpiry]) together with what the platform keeps: how many octets
    were drawn from the random source, how many times the clock was read,
    the key derivations that were run, the toasts that were shown, and
    whether the script defining [showPassphraseModal] is loaded. *)
Record World : Type := mkWorld {
  db : option Database;
  _cachedKey : option CryptoKey;
  _keyExpiry : option Z;
  drawn : nat;
  ticks : nat;
  kdf_calls : list KdfCall;
  toasts : list (string * bool);
  uiLoaded : bool
}.

Definition set_db (d : option Database) (w : World) : World :=
  mkWorld d (_cachedKey w) (_keyExpiry w) (drawn w) (ticks w)
          (kdf_calls w) (toasts w) (uiLoaded w).

Definition set_cache (k : option CryptoKey) (e : option Z) (w : World) : World :=
  mkWorld (db w) k e (drawn w) (ticks w) (kdf_calls w) (toasts w) (uiLoaded w).

Definition set_drawn (n : nat) (w : World) : World :=
  mkWorld (db w) (_cachedKey w) (_keyExpiry w) n (ticks w)
          (kdf_calls w) (toasts w) (uiLoaded w).

Definition set_ticks (n : nat) (w : World) : World :=
  mkWorld (db w) (_cachedKey w) (_keyExpiry w) (drawn w) n
          (kdf_calls w) (toasts w) (uiLoaded w).

Definition set_kdf_calls (l : list KdfCall) (w : World) : World :=
  mkWorld (db w) (_cachedKey w) (_keyExpiry w) (drawn w) (ticks w)
          l (toasts w) (uiLoaded w).

Definition set_toasts (l : list (string * bool)) (w : World) : World :=
  mkWorld (db w) (_cachedKey w) (_keyExpiry w) (drawn w) (ticks w)
          (kdf_calls w) l (uiLoaded w).

(** The page once [initDB] has opened a new database. *)
Definition fresh_world : World :=
  mkWorld (Some empty_database) None None 0 0 [] [] true.

(* ================================================================== *)
(** * Computations: state and exceptions *)

Inductive Res (A : Type) : Type :=
| Ok (a : A)
| Throw (e : JsError).
Arguments Ok {A} a.
Arguments Throw {A} e.

(** An [async] function of the source, from its call to the moment it
    settles with nothing else running in between: it runs on the state
    of the page and either returns or throws (its promise resolves or
    rejects).  Where such a function waits, and what may run meanwhile,
    is the matter of [Async] further down. *)
Definition M (A : Type) : Type := World -> Res A * World.

Definition ret {A : Type} (a : A) : M A := fun w => (Ok a, w).

Definition throw {A : Type} (e : JsError) : M A := fun w => (Throw e, w).

Definition bind {A B : Type} (m : M A) (k : A -> M B) : M B :=
  fun w =>
    match m w with
    | (Ok a, w') => k a w'
    | (Throw e, w') => (Throw e, w')
    end.

(** [try { m } catch (err) { h err }]. *)
Definition try_catch {A : Type} (m : M A) (h : JsError -> M A) : M A :=
  fun w =>
    match m w with
    | (Ok a, w') => (Ok a, w')
    | (Throw e, w') => h e w'
    end.

Definition gets {A : Type} (f : World -> A) : M A := fun w => (Ok (f w), w).

Definition modify (f : World -> World) : M unit := fun w => (Ok tt, f w).

(** [l.forEach(f)]. *)
Fixpoint forEach {A : Type} (l : list A) (f : A -> M unit) : M unit :=
  match l with
  | [] => ret tt
  | x :: l' => bind (f x) (fun _ => forEach l' f)
  end.

Declare Scope vault_scope.
Delimit Scope vault_scope with vault.
Notation "x <- m ;; k" := (bind m (fun x => k))
  (at level 61, m at next level, right associativity) : vault_scope.
Notation "' p <- m ;; k" := (bind m (fun p => k))
  (at level 61, p pattern, m at next level, right associativity) : vault_scope.
Notation "m ;; k" := (bind m (fun _ => k))
  (at level 61, right associativity) : vault_scope.
Open Scope vault_scope.

(* ================================================================== *)
(** * The platform calls *)

Section Vault.

Variable pf : Platform.

(** [crypto.getRandomValues(new Uint8Array(n))]: the next [n] octets of
    the random source. *)
Definition getRandomValues (n : nat) : M bytes :=
  fun w => (Ok (map (entropy pf) (seq (drawn w) n)),
            set_drawn (drawn w + n) w).

(** [Date.now()]. *)
Definition Date_now : M Z :=
  fun w => (Ok (clock pf (ticks w)), set_ticks (S (ticks w)) w).

(** [crypto.subtle.importKey('raw', data, { name }, extractable, usages)].
    A password for a derivation function can never be extracted and only
    serves to derive; a raw cipher key has 128, 192 or 256 bits and
    serves to encrypt and decrypt. *)
Definition subtle_importKey (data : bytes) (name : AlgName)
    (extractable : bool) (usages : list KeyUsage) : M CryptoKey :=
  match name with
  | PBKDF2 =>
      if extractable then throw (DOMException "SyntaxError")
      else if forallb (fun u => KeyUsage_eqb u UseDeriveKey
                                || KeyUsage_eqb u UseDeriveBits) usages
      then ret (mkKey PBKDF2 0 false usages data)
      else throw (DOMException "SyntaxError")
  | AES_GCM =>
      let bits := 8 * Z.of_nat (length data) in
      if negb (forallb (fun u => KeyUsage_eqb u UseEncrypt
                                 || KeyUsage_eqb u UseDecrypt) usages)
      then throw (DOMException "SyntaxError")
      else if negb ((bits =? 128) || (bits =? 192) || (bits =? 256))
      then throw (DOMException "DataError")
      else
        match usages with
        | [] => throw (DOMException "SyntaxError")
        | _ :: _ => ret (mkKey AES_GCM bits extractable usages data)
        end
  end.

(** [crypto.subtle.deriveKey(params, baseKey, derived, extractable,
    usages)] with PBKDF2 parameters and an AES-GCM target: the base key
    must be a PBKDF2 key that may derive, the target length one of the
    AES lengths and the iteration count positive; the bits are then
    derived, and the key is made from them if the usages asked for are
    those of a cipher key. *)
Definition subtle_deriveKey (params : Pbkdf2Params) (baseKey : CryptoKey)
    (derived : DerivedKeyParams) (extractable : bool)
    (usages : list KeyUsage) : M CryptoKey :=
  if negb (AlgName_eqb (derived_name derived) AES_GCM) then
    throw (DOMException "NotSupportedError")
  else if negb (AlgName_eqb (key_algorithm baseKey) PBKDF2) then
    throw (DOMException "InvalidAccessError")
  else if negb (has_usage UseDeriveKey (key_usages baseKey)) then
    throw (DOMException "InvalidAccessError")
  else if negb ((derived_length derived =? 128)
                || (derived_length derived =? 192)
                || (derived_length derived =? 256)) then
    throw (DOMException "OperationError")
  else if kdf_iterations params <=? 0 then
    throw (DOMException "OperationError")
  else
    modify (fun w => set_kdf_calls
                       (kdf_calls w ++ [mkKdfCall params derived]) w) ;;
    if negb (forallb (fun u => KeyUsage_eqb u UseEncrypt
                               || KeyUsage_eqb u UseDecrypt) usages)
       || match usages with [] => true | _ => false end
    then throw (DOMException "SyntaxError")
    else
      ret (mkKey AES_GCM (derived_length derived) extractable usages
             (pbkdf2 pf (kdf_hash params) (kdf_iterations params)
                (kdf_salt params) (key_material baseKey)
                (derived_length derived))).

(** [crypto.subtle.encrypt({ name: 'AES-GCM', iv }, key, data)]. *)
Definition subtle_encrypt (iv : bytes) (key : CryptoKey) (data : bytes)
  : M bytes :=
  if AlgName_eqb (key_algorithm key) AES_GCM
     && has_usage UseEncrypt (key_usages key)
  then ret (gcm_encrypt pf (key_material key) iv data)
  else throw (DOMException "InvalidAccessError").

(** [crypto.subtle.decrypt({ name: 'AES-GCM', iv }, key, data)]: fails
    with [OperationError] when the tag does not validate. *)
Definition subtle_decrypt (iv : bytes) (key : CryptoKey) (data : bytes)
  : M bytes :=
  if AlgName_eqb (key_algorithm key) AES_GCM
     && has_usage UseDecrypt (key_usages key)
  then
    match gcm_decrypt pf (key_material key) iv data with
    | Some plain => ret plain
    | None => throw (DOMException "OperationError")
    end
  else throw (DOMException "InvalidAccessError").

(** [db.transaction(...)]: throws while [db] is still [null]. *)
Definition transaction : M Database :=
  fun w =>
    match db w with
    | Some d => (Ok d, w)
    | None => (Throw (TypeError "Cannot read properties of null"), w)
    end.

(** A write request inside a transaction, and its commit. *)
Definition commit (f : Database -> Database) : M unit :=
  d <- transaction ;;
  modify (set_db (Some (f d))).

(** [objectStore(META_STORE).put(r)] in a read-write transaction. *)
Definition put_meta (r : MasterRecord) : M unit :=
  commit (fun d => mkDatabase (meta_put r (meta d)) (history d) (keygen d)).

(** [st.delete(key)] on the [history] store. *)
Definition delete_history (key : Z) : M unit :=
  commit (fun d =>
            mkDatabase (meta d) (history_delete key (history d)) (keygen d)).

(** [add(...)] of an object without [id] on the [history] store: the key
    generator supplies the key, larger than every key handed out
    before, so the row goes last. *)
Definition add_history (type : jsstring) (iv data : bytes) (timestamp : Z)
  : M unit :=
  commit (fun d =>
            mkDatabase (meta d)
              (history d ++ [mkEntry (keygen d) type iv data timestamp])
              (keygen d + 1)).

(** [toast(msg, ok)]. *)
Definition toast (msg : string) (ok : bool) : M unit :=
  modify (fun w => set_toasts (toasts w ++ [(msg, ok)]) w).

(* ================================================================ *)
(** * history.js *)

Definition MAX_HISTORY : Z := 100.
Definition SESSION_MINS : Z := 30.
Definition PBKDF2_ITERS : Z := 250000.
Definition VERIFY_PLAIN : jsstring := js "starpass-v2-verify".

Definition deriveKey (passphrase : jsstring) (salt : bytes) : M CryptoKey :=
  raw <- subtle_importKey (Encoding.encode passphrase) PBKDF2 false
           [UseDeriveKey] ;;
  subtle_deriveKey (mkPbkdf2 salt PBKDF2_ITERS SHA_512) raw
    (mkDerived AES_GCM 256) false [UseEncrypt; UseDecrypt].

(** Returns [{ iv, encryptedData }]. *)
Definition aesEncrypt (plaintext : jsstring) (key : CryptoKey)
  : M (bytes * bytes) :=
  iv <- getRandomValues 12 ;;
  data <- subtle_encrypt iv key (Encoding.encode plaintext) ;;
  ret (iv, data).

Definition aesDecrypt (iv encryptedData : bytes) (key : CryptoKey)
  : M jsstring :=
  buf <- subtle_decrypt iv key encryptedData ;;
  ret (Encoding.decode buf).

Definition getMasterRecord : M (option MasterRecord) :=
  d <- transaction ;;
  ret (meta_get 1 (meta d)).

Definition deriveAndVerify (passphrase : jsstring) : M CryptoKey :=
  record <- getMasterRecord ;;
  match record with
  | None =>
      salt <- getRandomValues 32 ;;
      key <- deriveKey passphrase salt ;;
      '(iv, encryptedData) <- aesEncrypt VERIFY_PLAIN key ;;
      put_meta (mkMaster 1 salt iv encryptedData) ;;
      ret key
  | Some record =>
      key <- deriveKey passphrase (m_salt record) ;;
      try_catch
        (plain <- aesDecrypt (m_iv record) (m_encryptedData record) key ;;
         if negb (js_eqb plain VERIFY_PLAIN) then throw (Error "mismatch")
         else ret key)
        (fun _ => throw (Error "incorrect-password"))
  end.

(** [x > y] where [x] may be [null], which compares as [0]. *)
Definition to_number (x : option Z) : Z :=
  match x with Some n => n | None => 0 end.

Definition getCachedKey : M (option CryptoKey) :=
  cached <- gets _cachedKey ;;
  match cached with
  | None => ret None
  | Some k =>
      expiry <- gets _keyExpiry ;;
      now <- Date_now ;;
      if now <? to_number expiry then ret (Some k) else ret None
  end.

Definition setCachedKey (k : CryptoKey) : M unit :=
  now <- Date_now ;;
  modify (set_cache (Some k) (Some (now + SESSION_MINS * 60000))).

Definition clearKeyCache : M unit :=
  modify (set_cache None None).

(** What the passphrase dialog hands to its callback: the passphrase
    ([None] for [null], when the dialog was dismissed) and the
    "remember" flag ([false] also when the dialog passes none). *)
Record PromptReply : Type := mkReply {
  reply_passphrase : option jsstring;
  reply_remember : bool
}.

(** [!passphrase]: [null] and the empty string. *)
Definition no_passphrase (r : PromptReply) : bool :=
  match reply_passphrase r with
  | None => true
  | Some p => js_falsy p
  end.

(** The callback given to [showPassphraseModal], run on the reply.
    The spinner ([setLoading]) and [console.error] are left out. *)
Definition onPassphrase (r : PromptReply) : M (option CryptoKey) :=
  match reply_passphrase r with
  | None => ret None
  | Some passphrase =>
      if js_falsy passphrase then ret None
      else
        try_catch
          (key <- deriveAndVerify passphrase ;;
           (if reply_remember r then setCachedKey key else ret tt) ;;
           ret (Some key))
          (fun err =>
             (if String.eqb (err_message err) "incorrect-password"
              then toast "Wrong master password." false
              else toast "Key derivation failed." false) ;;
             ret None)
  end.

Definition getMasterKey (r : PromptReply) : M (option CryptoKey) :=
  cached <- getCachedKey ;;
  match cached with
  | Some k => ret (Some k)
  | None =>
      ui <- gets uiLoaded ;;
      if negb ui then toast "UI module not loaded." false ;; ret None
      else onPassphrase r
  end.

Definition enforceLimit : M unit :=
  d <- transaction ;;
  let all := history d in
  if MAX_HISTORY <=? Z.of_nat (length all) then
    forEach
      (slice0 (Z.of_nat (length all) - MAX_HISTORY + 1) (sort_by_id all))
      (fun item => delete_history (e_id item))
  else ret tt.

(** The re-rendering of the panel after a save ([loadAndDisplay], which
    only reads) is left out. *)
Definition addToHistory (value type : jsstring) (r : PromptReply) : M unit :=
  if js_falsy value then toast "Nothing to save." false
  else
    handle <- gets db ;;
    match handle with
    | None => toast "Database not ready." false
    | Some _ =>
        key <- getMasterKey r ;;
        match key with
        | None => toast "Save cancelled." false
        | Some key =>
            try_catch
              (enforceLimit ;;
               '(iv, encryptedData) <- aesEncrypt value key ;;
               timestamp <- Date_now ;;
               add_history type iv encryptedData timestamp ;;
               toast "Saved!" true)
              (fun _ => toast "Save failed — see console." false)
        end
    end.

(** Returns the text put into the row's value element, if any; the
    state of the button is left out. *)
Definition viewItem (id : Z) (r : PromptReply) : M (option jsstring) :=
  key <- getMasterKey r ;;
  match key with
  | None => ret None
  | Some key =>
      try_catch
        (d <- transaction ;;
         match history_get id (history d) with
         | None => toast "Item not found." false ;; ret None
         | Some item =>
             plain <- aesDecrypt (e_iv item) (e_encryptedData item) key ;;
             ret (Some plain)
         end)
        (fun _ =>
           clearKeyCache ;;
           toast "Decryption failed — wrong password or corrupted entry." false ;;
           ret None)
  end.

Definition deleteItem (id : Z) (r : PromptReply) : M unit :=
  key <- getMasterKey r ;;
  match key with
  | None => ret tt
  | Some _ =>
      try_catch
        (delete_history id ;;
         toast "Entry deleted." true)
        (fun _ => toast "Delete failed." false)
  end.

End Vault.

Arguments mkReply _ _ : clear implicits.

(* ================================================================== *)
(** * history.js: where the async functions wait

    The functions of the module are [async].  A call runs at once up to
    its first [await]; there it is suspended, and it goes on piece by
    piece, one piece for each [await], whenever it is resumed.  Whatever
    else the page does in the meantime, other calls included, happens
    between two pieces.  The definitions of the vault above are these
    functions run without interruption; the ones below keep the places
    where they wait. *)

(** A call of an [async] function: settled, with a value or an
    exception, or suspended, with the piece it runs when it is resumed.
    The piece returns the call as it is afterwards. *)
#[warnings="-register-all"] Inductive Task (A : Type) : Type :=
| Settled (r : Res A)
| Suspended (piece : World -> Task A * World).
Arguments Settled {A} r.
Arguments Suspended {A} piece.

(** An [async] function, to be called: the call runs up to the first
    [await]. *)
Definition Async (A : Type) : Type := World -> Task A * World.

(** Code that does not wait. *)
Definition sync {A : Type} (m : M A) : Async A :=
  fun w => let (r, w') := m w in (Settled r, w').

(** What a function does with the outcome of a call it started. *)
Fixpoint on_settled {A B : Type} (t : Task A) (k : Res A -> Async B)
    (w : World) {struct t} : Task B * World :=
  match t with
  | Settled r => k r w
  | Suspended piece =>
      (Suspended (fun w1 => let (t', w2) := piece w1 in on_settled t' k w2),
       w)
  end.

Definition settled_then {A B : Type} (m : Async A) (k : Res A -> Async B)
  : Async B :=
  fun w => let (t, w') := m w in on_settled t k w'.

(** Sequencing: an exception ends the function. *)
Definition abind {A B : Type} (m : Async A) (k : A -> Async B) : Async B :=
  settled_then m
    (fun r => match r with Ok a => k a | Throw e => sync (throw e) end).

(** [try { m } catch (err) { h err }]. *)
Definition atry {A : Type} (m : Async A) (h : JsError -> Async A) : Async A :=
  settled_then m
    (fun r => match r with Ok a => sync (ret a) | Throw e => h e end).

(** The function is suspended and resumes with the outcome [r]. *)
Definition resumes_with {A : Type} (r : Res A) : Async A :=
  fun w => (Suspended (fun w' => (Settled r, w')), w).

(** [await m]: the function waits for the call [m] to settle, stays
    suspended once more even when [m] has settled already, and resumes
    with the value of [m] or its exception. *)
Definition await {A : Type} (m : Async A) : Async A :=
  settled_then m resumes_with.

(** A promise of the platform ([crypto.subtle], an IndexedDB request or
    transaction): the request is made at once and served at some moment
    of the wait.  [promised m] is the piece that serves it; the [await]
    around it is the piece in which the caller goes on.  Other calls may
    so run before the request is served, and again before the caller
    sees the answer. *)
Definition promised {A : Type} (m : M A) : Async A :=
  fun w => (Suspended (fun w' => let (r, w2) := m w' in (Settled r, w2)), w).

Declare Scope async_scope.
Delimit Scope async_scope with async.
Notation "x <- m ;; k" := (abind m (fun x => k))
  (at level 61, m at next level, right associativity) : async_scope.
Notation "' p <- m ;; k" := (abind m (fun p => k))
  (at level 61, p pattern, m at next level, right associativity) : async_scope.
Notation "m ;; k" := (abind m (fun _ => k))
  (at level 61, right associativity) : async_scope.

(** A call resumed again and again until it settles, nothing else
    running in between. *)
Fixpoint finish {A : Type} (t : Task A) (w : World) {struct t}
  : Res A * World :=
  match t with
  | Settled r => (r, w)
  | Suspended piece => let (t', w') := piece w in finish t' w'
  end.

(** An [async] function called and left to run alone until it settles. *)
Definition alone {A : Type} (m : Async A) : M A :=
  fun w => let (t, w') := m w in finish t w'.

Module Async.

Section Vault.

Variable pf : Platform.

Definition deriveKey (passphrase : jsstring) (salt : bytes) : Async CryptoKey :=
  (raw <- await (promised (subtle_importKey (Encoding.encode passphrase)
                             PBKDF2 false [UseDeriveKey])) ;;
   promised (subtle_deriveKey pf (mkPbkdf2 salt PBKDF2_ITERS SHA_512) raw
               (mkDerived AES_GCM 256) false [UseEncrypt; UseDecrypt]))%async.

(** The nonce is drawn when the function is called; the cipher works
    while it waits. *)
Definition aesEncrypt (plaintext : jsstring) (key : CryptoKey)
  : Async (bytes * bytes) :=
  (iv <- sync (getRandomValues pf 12) ;;
   data <- await (promised (subtle_encrypt pf iv key
                              (Encoding.encode plaintext))) ;;
   sync (ret (iv, data)))%async.

Definition aesDecrypt (iv encryptedData : bytes) (key : CryptoKey)
  : Async jsstring :=
  (buf <- await (promised (subtle_decrypt pf iv key encryptedData)) ;;
   sync (ret (Encoding.decode buf)))%async.

(** The read-only transaction and its [get(1)].  The handle [db] is set
    once, by [initDB], so it makes no difference that the model looks at
    it when the request is served and not when it is made. *)
Definition getMasterRecord : Async (option MasterRecord) :=
  promised getMasterRecord.

(** Between the read of the record and the [put] of a new one the
    function waits four times: for the record, for the key, for the
    cipher, and for the [put] itself. *)
Definition deriveAndVerify (passphrase : jsstring) : Async CryptoKey :=
  (record <- await getMasterRecord ;;
   match record with
   | None =>
       salt <- sync (getRandomValues pf 32) ;;
       key <- await (deriveKey passphrase salt) ;;
       '(iv, encryptedData) <- await (aesEncrypt VERIFY_PLAIN key) ;;
       await (promised (put_meta (mkMaster 1 salt iv encryptedData))) ;;
       await (promised (ret tt)) ;;
       sync (ret key)
   | Some record =>
       key <- await (deriveKey passphrase (m_salt record)) ;;
       atry
         (plain <- await (aesDecrypt (m_iv record) (m_encryptedData record)
                            key) ;;
          if negb (js_eqb plain VERIFY_PLAIN)
          then sync (throw (Error "mismatch"))
          else sync (ret key))
         (fun _ => sync (throw (Error "incorrect-password")))
   end)%async.

(** The callback given to [showPassphraseModal], itself [async]. *)
Definition onPassphrase (r : PromptReply) : Async (option CryptoKey) :=
  match reply_passphrase r with
  | None => sync (ret None)
  | Some passphrase =>
      if js_falsy passphrase then sync (ret None)
      else
        atry
          (key <- await (deriveAndVerify passphrase) ;;
           sync (if reply_remember r then setCachedKey pf key else ret tt) ;;
           sync (ret (Some key)))%async
          (fun err =>
             sync ((if String.eqb (err_message err) "incorrect-password"
                    then toast "Wrong master password." false
                    else toast "Key derivation failed." false) ;;
                   ret None)%vault)
  end.

(** [new Promise(resolve => showPassphraseModal(...))]: the call waits
    for the dialog to call back. *)
Definition showPassphraseModal : Async unit := promised (ret tt).

Definition getMasterKey (r : PromptReply) : Async (option CryptoKey) :=
  (cached <- sync (getCachedKey pf) ;;
   match cached with
   | Some k => sync (ret (Some k))
   | None =>
       ui <- sync (gets uiLoaded) ;;
       if negb ui
       then sync (toast "UI module not loaded." false ;; ret None)%vault
       else showPassphraseModal ;; onPassphrase r
   end)%async.

(** One read-write transaction: [getAll()] is served during the first
    wait, the deletions asked for on its result during the wait for the
    transaction to complete.  No other transaction on the store runs
    between the two; nothing below relies on it, other calls may run
    there as at every wait. *)
Definition enforceLimit : Async unit :=
  (all <- await (promised (d <- transaction ;; ret (history d))%vault) ;;
   if MAX_HISTORY <=? Z.of_nat (length all) then
     await (promised
              (forEach
                 (slice0 (Z.of_nat (length all) - MAX_HISTORY + 1)
                    (sort_by_id all))
                 (fun item => delete_history (e_id item))))
   else sync (ret tt))%async.

(** The count of [enforceLimit] and the [add] are two transactions, and
    the function waits in between, for the cipher among others. *)
Definition addToHistory (value type : jsstring) (r : PromptReply)
  : Async unit :=
  if js_falsy value then sync (toast "Nothing to save." false)
  else
    (handle <- sync (gets db) ;;
     match handle with
     | None => sync (toast "Database not ready." false)
     | Some _ =>
         key <- await (getMasterKey r) ;;
         match key with
         | None => sync (toast "Save cancelled." false)
         | Some key =>
             atry
               (await enforceLimit ;;
                '(iv, encryptedData) <- await (aesEncrypt value key) ;;
                timestamp <- sync (Date_now pf) ;;
                await (promised
                         (add_history type iv encryptedData timestamp)) ;;
                await (promised (ret tt)) ;;
                sync (toast "Saved!" true))
               (fun _ => sync (toast "Save failed — see console." false))
         end
     end)%async.

Definition viewItem (id : Z) (r : PromptReply) : Async (option jsstring) :=
  (key <- await (getMasterKey r) ;;
   match key with
   | None => sync (ret None)
   | Some key =>
       atry
         (item <- await (promised
                           (d <- transaction ;;
                            ret (history_get id (history d)))%vault) ;;
          match item with
          | None => sync (toast "Item not found." false ;; ret None)%vault
          | Some item =>
              plain <- await (aesDecrypt (e_iv item) (e_encryptedData item)
                                key) ;;
              sync (ret (Some plain))
          end)
         (fun _ =>
            sync (clearKeyCache ;;
                  toast "Decryption failed — wrong password or corrupted entry."
                        false ;;
                  ret None)%vault)
   end)%async.

Definition deleteItem (id : Z) (r : PromptReply) : Async unit :=
  (key <- await (getMasterKey r) ;;
   match key with
   | None => sync (ret tt)
   | Some _ =>
       atry
         (await (promised (delete_history id)) ;;
          sync (toast "Entry deleted." true))
         (fun _ => sync (toast "Delete failed." false))
   end)%async.

End Vault.

End Async.

(* ================================================================== *)
(** * beta/history.js: key derivation *)

Module Beta.

Section Derivation.

Variable pf : Platform.

Definition PBKDF2_ITERATIONS : Z := 100000.

(** [handleError(error, defaultMessage)] shows the message chosen by
    the name of the error, or the default one. *)
Definition handleError (error : JsError) (defaultMessage : string)
  : M unit :=
  match error with
  | TypeError _ =>
      toast "Invalid input type. Please check your inputs." false
  | DOMException "QuotaExceededError" =>
      toast "Storage limit exceeded. Please clear history or reduce entries."
            false
  | _ => toast defaultMessage false
  end.

(** Returns [{ key, salt }], or [null] on error. *)
Definition deriveKeyFromPassphrase (passphrase : jsstring) (salt : bytes)
  : M (option (CryptoKey * bytes)) :=
  try_catch
    (keyMaterial <- subtle_importKey (Encoding.encode passphrase) PBKDF2
                      false [UseDeriveBits; UseDeriveKey] ;;
     key <- subtle_deriveKey pf
              (mkPbkdf2 salt PBKDF2_ITERATIONS SHA_256) keyMaterial
              (mkDerived AES_GCM 256) false [UseEncrypt; UseDecrypt] ;;
     ret (Some (key, salt)))
    (fun error =>
       handleError error "Failed to derive encryption key." ;;
       ret None).

End Derivation.

End Beta.

(* ================================================================== *)
(** * Vocabulary of the specification *)

(** The last [n] elements of a list. *)
Definition lastn {A : Type} (n : nat) (l : list A) : list A :=
  skipn (length l - n) l.

(** The rows of the [history] store, none while the database is closed. *)
Definition rows (w : World) : list Entry :=
  match db w with Some d => history d | None => [] end.

Definition master_rows (w : World) : list MasterRecord :=
  match db w with Some d => meta d | None => [] end.

Definition next_id (w : World) : Z :=
  match db w with Some d => keygen d | None => 1 end.

(** A key usable with the cipher: an AES-GCM key allowed to encrypt and
    to decrypt. *)
Definition valid_key (k : CryptoKey) : bool :=
  AlgName_eqb (key_algorithm k) AES_GCM
  && has_usage UseEncrypt (key_usages k)
  && has_usage UseDecrypt (key_usages k).

(** The identifiers of the rows increase strictly, start at [lo] or above
    and stay below [hi]. *)
Fixpoint ids_between (lo : Z) (l : list Entry) (hi : Z) : bool :=
  match l with
  | [] => lo <=? hi
  | e :: l' => (lo <=? e_id e) && ids_between (e_id e + 1) l' hi
  end.

(** States the page can be in while the vault is in use: the database is
    open, the [history] store is in key order below its key generator,
    and the cache, when filled, holds a cipher key. *)
Definition world_ok (w : World) : bool :=
  match db w with
  | Some d => ids_between 1 (history d) (keygen d)
  | None => false
  end
  && match _cachedKey w with Some k => valid_key k | None => true end.

(** The key derivations run between two states. *)
Definition new_kdf_calls (w w' : World) : list KdfCall :=
  skipn (length (kdf_calls w)) (kdf_calls w').

(** What the specification asks of a derivation: PBKDF2 with at least
    250,000 iterations of SHA-512, for a 256-bit AES-GCM key. *)
Definition strong_kdf (c : KdfCall) : Prop :=
  250000 <= kdf_iterations (call_params c)
  /\ kdf_hash (call_params c) = SHA_512
  /\ derived_name (call_derived c) = AES_GCM
  /\ derived_length (call_derived c) = 256.

(** A request of the user to the history panel.  The reset of the whole
    vault ([clearAll]), which ends the life of a vault, is not one of
    them. *)
Inductive Request : Type :=
| Save (value type : jsstring) (reply : PromptReply)
| View (id : Z) (reply : PromptReply)
| Delete (id : Z) (reply : PromptReply).

Definition perform (pf : Platform) (q : Request) : M unit :=
  match q with
  | Save value type reply => addToHistory pf value type reply
  | View id reply => viewItem pf id reply ;; ret tt
  | Delete id reply => deleteItem pf id reply
  end.

(** The state after a sequence of requests made one at a time, each
    run without interruption and settled before the next is made. *)
Fixpoint run (pf : Platform) (qs : list Request) (w : World) : World :=
  match qs with
  | [] => w
  | q :: qs' => run pf qs' (snd (perform pf q w))
  end.

(** One call of [addToHistory]. *)
Record SaveCall : Type := mkSave {
  save_value : jsstring;
  save_type : jsstring;
  save_reply : PromptReply
}.

(** The state a call of [addToHistory] leaves when it has settled, no
    other call having run while it waited. *)
Definition save (pf : Platform) (c : SaveCall) (w : World) : World :=
  snd (alone (Async.addToHistory pf (save_value c) (save_type c)
                (save_reply c)) w).

(** Calls of [addToHistory] made in turn: each is made when the one
    before has settled, and left alone until it settles. *)
Fixpoint saves_in_turn (pf : Platform) (cs : list SaveCall) (w : World)
  : World :=
  match cs with
  | [] => w
  | c :: cs' => saves_in_turn pf cs' (save pf c w)
  end.

(** The rows present in [w'] whose identifier had not been handed out
    yet in [w]: the rows inserted in between. *)
Definition inserted (w w' : World) : list Entry :=
  filter (fun e => next_id w <=? e_id e) (rows w').

(** All rows inserted by a sequence of calls made in turn, in insertion
    order. *)
Fixpoint journal (pf : Platform) (cs : list SaveCall) (w : World)
  : list Entry :=
  match cs with
  | [] => []
  | c :: cs' => inserted w (save pf c w) ++ journal pf cs' (save pf c w)
  end.

(** The key [deriveKey] computes for a passphrase and a salt. *)
Definition derived_key (pf : Platform) (passphrase : jsstring) (salt : bytes)
  : CryptoKey :=
  mkKey AES_GCM 256 false [UseEncrypt; UseDecrypt]
    (pbkdf2 pf SHA_512 PBKDF2_ITERS salt (Encoding.encode passphrase) 256).

(** The record of the derivation [deriveKey] runs on a salt. *)
Definition vault_kdf_call (salt : bytes) : KdfCall :=
  mkKdfCall (mkPbkdf2 salt PBKDF2_ITERS SHA_512) (mkDerived AES_GCM 256).

(** The state once one more derivation has been run. *)
Definition after_kdf (c : KdfCall) (w : World) : World :=
  set_kdf_calls (kdf_calls w ++ [c]) w.

(** The next [n] octets the random source will give in state [w]. *)
Definition next_random (pf : Platform) (n : nat) (w : World) : bytes :=
  map (entropy pf) (seq (drawn w) n).

(** The text a stored ciphertext opens to under a key: [None] when the
    tag does not validate. *)
Definition recovered (pf : Platform) (key : CryptoKey) (iv data : bytes)
  : option jsstring :=
  option_map Encoding.decode (gcm_decrypt pf (key_material key) iv data).

(** The session cache as a pair. *)
Definition cache (w : World) : option CryptoKey * option Z :=
  (_cachedKey w, _keyExpiry w).

(** A computation moves every state to one related to it by [R]. *)
Definition steps (R : World -> World -> Prop) {A : Type} (m : M A) : Prop :=
  forall w, R w (snd (m w)).

(** The log of derivations only grows, and by strong derivations. *)
Definition kdf_grows (w w' : World) : Prop :=
  exists l, kdf_calls w' = kdf_calls w ++ l /\ Forall strong_kdf l.

(** Once the master record exists the [meta] store stays as it is. *)
Definition meta_kept (w w' : World) : Prop :=
  (exists r, meta_get 1 (master_rows w) = Some r) ->
  master_rows w' = master_rows w.

(** Octets of the random source are consumed in order, never again. *)
Definition drawn_grows (w w' : World) : Prop := (drawn w <= drawn w')%nat.

(** Key and expiry of the session cache are set together. *)
Definition cache_paired (w : World) : Prop :=
  _cachedKey w = None <-> _keyExpiry w = None.

(** The derivation the beta module runs on a salt. *)
Definition beta_kdf_call (salt : bytes) : KdfCall :=
  mkKdfCall (mkPbkdf2 salt Beta.PBKDF2_ITERATIONS SHA_256)
            (mkDerived AES_GCM 256).

(** The key the beta module derives. *)
Definition beta_derived_key (pf : Platform) (passphrase : jsstring)
    (salt : bytes) : CryptoKey :=
  mkKey AES_GCM 256 false [UseEncrypt; UseDecrypt]
    (pbkdf2 pf SHA_256 Beta.PBKDF2_ITERATIONS salt
       (Encoding.encode passphrase) 256).

(** Two states with the same database, session cache, derivation log and
    position in the random source: they differ at most by the clock and
    the toasts shown. *)
Definition same_vault (w w' : World) : Prop :=
  db w' = db w /\ cache w' = cache w
  /\ kdf_calls w' = kdf_calls w /\ drawn w' = drawn w.

(** A Unicode scalar value: a code point that is not a surrogate. *)
Definition is_scalar (cp : Z) : Prop :=
  0 <= cp <= 0x10FFFF /\ ~ (0xD800 <= cp <= 0xDFFF).

(** [aesDecrypt] applied to what [aesEncrypt] returned, with the same
    key. *)
Definition seal_then_open (pf : Platform) (plaintext : jsstring)
    (key : CryptoKey) (w : World) : Res jsstring :=
  match aesEncrypt pf plaintext key w with
  | (Ok (iv, encryptedData), w1) => fst (aesDecrypt pf iv encryptedData key w1)
  | (Throw e, _) => Throw e
  end.

(* ================================================================== *)
(** * A platform to run the model on

    Stand-ins for the primitives, simple enough to evaluate: the derived
    key is the salt followed by the password, a sealed message is the key
    and the nonce followed by the message, and opening checks that
    prefix. *)

Module Demo.

Fixpoint strip_prefix (p l : bytes) : option bytes :=
  match p, l with
  | [], _ => Some l
  | x :: p', y :: l' => if x =? y then strip_prefix p' l' else None
  | _ :: _, [] => None
  end.

Definition seal (key iv plaintext : bytes) : bytes :=
  (key ++ iv) ++ plaintext.

Definition open (key iv sealed : bytes) : option bytes :=
  strip_prefix (key ++ iv) sealed.

Definition platform : Platform :=
  mkPlatform
    (fun _ _ salt password _ => salt ++ password)
    seal open
    (fun n => Z.of_nat n mod 256)
    (fun n => 1000 * Z.of_nat n).

Definition hunter2 : PromptReply := mkReply (Some (js "hunter2")) true.
Definition cancelled : PromptReply := mkReply None false.
Definition mistyped : PromptReply := mkReply (Some (js "wrong")) false.

(** A save of a generated password, answered with "hunter2". *)
Definition a_save : SaveCall := mkSave (js "x7!Qp") (js "password") hunter2.

(** The vault after a first save with passphrase "hunter2". *)
Definition first_save : World :=
  Eval vm_compute in
    snd (addToHistory platform (js "Tr0ub4dor&3") (js "password")
           hunter2 fresh_world).

Definition first_db : Database :=
  Eval vm_compute in
    match db first_save with Some d => d | None => empty_database end.

Definition master : MasterRecord :=
  Eval vm_compute in
    match meta first_db with r :: _ => r | [] => mkMaster 0 [] [] [] end.

(** The key of that vault. *)
Definition key : CryptoKey :=
  derived_key platform (js "hunter2") (m_salt master).

(** The same vault once the session has been forgotten. *)
Definition locked : World := set_cache None None first_save.

(** The same vault with a key derived from another passphrase left in
    the cache. *)
Definition stale : World :=
  set_cache (Some (derived_key platform (js "other") (m_salt master)))
            (Some 1800000) first_save.

End Demo.

(* ================================================================== *)
(** * history.js: the rest of the vault *)

Definition hasMasterPassword : M bool :=
  rec <- getMasterRecord ;;
  ret (match rec with Some _ => true | None => false end).

(** [clearAll()]; [confirmed] is the answer to the [confirm] dialog.
    [clear()] empties a store and leaves its key generator alone. *)
Definition clearAll (confirmed : bool) : M unit :=
  if negb confirmed then ret tt
  else
    clearKeyCache ;;
    commit (fun d => mkDatabase (meta d) [] (keygen d)) ;;
    commit (fun d => mkDatabase [] (history d) (keygen d)) ;;
    toast "Vault cleared." true.

(** [s.replace(/c/g, by)] for a single character [c]. *)
Definition replace_unit (c : Z) (by_ : jsstring) (s : jsstring) : jsstring :=
  flat_map (fun u => if u =? c then by_ else [u]) s.

(** [esc(s)] on a string: the four replacements, in the order of the
    source. *)
Definition esc (s : jsstring) : jsstring :=
  replace_unit 34 (js "&quot;")
    (replace_unit 62 (js "&gt;")
       (replace_unit 60 (js "&lt;")
          (replace_unit 38 (js "&amp;") s))).

(** The entries and the key generator are what they were. *)
Definition same_history (w w' : World) : Prop :=
  rows w' = rows w /\ next_id w' = next_id w.

(** Rows with an identifier handed out before [w] were already there in
    [w], and the key generator has not gone back. *)
Definition ids_not_reused (w w' : World) : Prop :=
  next_id w <= next_id w'
  /\ forall e, In e (rows w') -> e_id e < next_id w -> In e (rows w).

(** The toasts shown between two states. *)
Definition new_toasts (w w' : World) : list (string * bool) :=
  skipn (length (toasts w)) (toasts w').

(** The session cache is what it was. *)
Definition same_cache (w w' : World) : Prop := cache w' = cache w.

(** A computation that returns in every state: it never throws. *)
Definition returns {A : Type} (m : M A) : Prop :=
  forall w, exists a w', m w = (Ok a, w').

(** Toasts are only ever added. *)
Definition toast_grows (w w' : World) : Prop :=
  exists l, toasts w' = toasts w ++ l.

(** The last toast shown since [w] is one of [msgs]. *)
Definition ends_with (msgs : list string) (w w' : World) : Prop :=
  exists l msg ok, toasts w' = toasts w ++ l ++ [(msg, ok)] /\ In msg msgs.

(** A computation that, when it returns, has just shown one of [msgs]. *)
Definition finishes_with (msgs : list string) {A : Type} (m : M A) : Prop :=
  forall w,
    match m w with
    | (Ok _, w') => ends_with msgs w w'
    | (Throw _, w') => toast_grows w w'
    end.

(** A computation that always returns, having just shown one of
    [msgs]. *)
Definition closes (msgs : list string) {A : Type} (m : M A) : Prop :=
  forall w, exists a w', m w = (Ok a, w') /\ ends_with msgs w w'.

(** The messages [addToHistory] can end on. *)
Definition save_messages : list string :=
  ["Nothing to save."; "Database not ready."; "Save cancelled."; "Saved!";
   "Save failed — see console."]%string.

(** What [esc] makes of one code unit, were the four replacements a
    single pass. *)
Definition esc_unit (u : Z) : jsstring :=
  if u =? 38 then js "&amp;"
  else if u =? 60 then js "&lt;"
  else if u =? 62 then js "&gt;"
  else if u =? 34 then js "&quot;"
  else [u].

(* ================================================================== *)
(** * The cache of strength results: class LRUCache

    A [Map] from keys to values and a [Set] of keys, both kept by
    JavaScript in insertion order.  Keys are compared by [eqb] (the
    engine's SameValueZero), and [nullish] tells [null] and
    [undefined] from the other keys. *)

Module Lru.

Section Cache.

Variables K V : Type.
Variable eqb : K -> K -> bool.
Variable nullish : K -> bool.

(** [Map.prototype.has], [get], [set] and [delete]: [set] on a key that
    is present keeps its position. *)
Definition map_has (k : K) (m : list (K * V)) : bool :=
  existsb (fun p => eqb (fst p) k) m.

Definition map_get (k : K) (m : list (K * V)) : option V :=
  option_map snd (find (fun p => eqb (fst p) k) m).

Definition map_set (k : K) (v : V) (m : list (K * V)) : list (K * V) :=
  if map_has k m
  then map (fun p => if eqb (fst p) k then (fst p, v) else p) m
  else m ++ [(k, v)].

Definition map_delete (k : K) (m : list (K * V)) : list (K * V) :=
  filter (fun p => negb (eqb (fst p) k)) m.

(** [Set.prototype.delete] and [add]. *)
Definition set_delete (k : K) (s : list K) : list K :=
  filter (fun x => negb (eqb x k)) s.

Definition set_add (k : K) (s : list K) : list K :=
  if existsb (fun x => eqb x k) s then s else s ++ [k].

Record LRUCache : Type := mkLRU {
  capacity : Z;
  cache : list (K * V);
  keyOrder : list K
}.

(** [new LRUCache(capacity)]. *)
Definition new (capacity : Z) : LRUCache := mkLRU capacity [] [].

(** [get(key)]: the value, [None] for [null], and the cache after. *)
Definition get (key : K) (c : LRUCache) : option V * LRUCache :=
  if nullish key then (None, c)
  else if negb (map_has key (cache c)) then (None, c)
  else
    let value := map_get key (cache c) in
    (value,
     mkLRU (capacity c) (cache c)
       (set_add key (set_delete key (keyOrder c)))).

(** [set(key, value)].  The key order is never empty when the oldest
    key is read, a key having just been added. *)
Definition set (key : K) (value : V) (c : LRUCache) : LRUCache :=
  let order :=
    if map_has key (cache c) then set_delete key (keyOrder c)
    else keyOrder c in
  let cache' := map_set key value (cache c) in
  let order' := set_add key order in
  if capacity c <? Z.of_nat (length cache') then
    match order' with
    | oldestKey :: _ =>
        mkLRU (capacity c) (map_delete oldestKey cache')
          (set_delete oldestKey order')
    | [] => mkLRU (capacity c) cache' order'
    end
  else mkLRU (capacity c) cache' order'.

(** A call of one of the two methods. *)
Inductive Call : Type :=
| Get (key : K)
| Set_ (key : K) (value : V).

Definition call (c : LRUCache) (op : Call) : LRUCache :=
  match op with
  | Get key => snd (get key c)
  | Set_ key value => set key value c
  end.

(** The cache after a sequence of calls on a new one. *)
Definition after (capacity : Z) (ops : list Call) : LRUCache :=
  fold_left call ops (new capacity).

(** The two collections hold the same keys, each once, and no more
    entries than the capacity. *)
Definition consistent (c : LRUCache) : Prop :=
  NoDup (map fst (cache c))
  /\ NoDup (keyOrder c)
  /\ (forall k, In k (keyOrder c) <-> In k (map fst (cache c)))
  /\ Z.of_nat (length (cache c)) <= Z.max 0 (capacity c).

(** [set] is about to evict: the key is new and the cache is full. *)
Definition evicts (key : K) (c : LRUCache) : bool :=
  negb (map_has key (cache c))
  && (capacity c <=? Z.of_nat (length (cache c))).

End Cache.

Arguments map_has {K V} eqb k m.
Arguments map_get {K V} eqb k m.
Arguments map_set {K V} eqb k v m.
Arguments map_delete {K V} eqb k m.
Arguments set_delete {K} eqb k s.
Arguments set_add {K} eqb k s.
Arguments mkLRU {K V} capacity cache keyOrder.
Arguments capacity {K V} l.
Arguments cache {K V} l.
Arguments keyOrder {K V} l.
Arguments new {K} V capacity.
Arguments get {K V} eqb nullish key c.
Arguments set {K V} eqb key value c.
Arguments Get {K V} key.
Arguments Set_ {K V} key value.
Arguments call {K V} eqb nullish c op.
Arguments after {K V} eqb nullish capacity ops.
Arguments consistent {K V} c.
Arguments evicts {K V} eqb key c.

End Lru.


(** A cache of capacity two after [set(1, 10)], [set(2, 20)] and
    [get(1)], with numbers for keys and values. *)
Definition lru_calls : list (Lru.Call Z Z) :=
  [Lru.Set_ 1 10; Lru.Set_ 2 20; Lru.Get 1].

Definition lru_two : Lru.LRUCache Z Z :=
  Lru.after Z.eqb (fun _ => false) 2 lru_calls.


(* ================================================================== *)
(** * Random choices: app.js and the first application

    [draw n] is what the [n]-th call of [crypto.getRandomValues] puts
    into a [Uint32Array(1)]; the position in that sequence is the state.
    The rejection loops run on fuel: [None] is a loop still running when
    the fuel is spent.  Bounds are integers, as every caller passes a
    length or a literal. *)

Section Random.

Variable draw : nat -> Z.

(** [do { getRandomValues(buf) } while (buf[0] >= cap)]: the first draw
    below [cap], and the position after it. *)
Fixpoint draw_below (cap : Z) (fuel : nat) (pos : nat) : option (Z * nat) :=
  match fuel with
  | O => None
  | S fuel' =>
      let value := draw pos mod 0x100000000 in
      if cap <=? value then draw_below cap fuel' (S pos)
      else Some (value, S pos)
  end.

(** app.js: [secureRandom(max)]. *)
Definition secureRandom (fuel : nat) (max : Z) (pos : nat)
  : option (Z * nat) :=
  if max <=? 1 then Some (0, pos)
  else
    let cap := 0x100000000 / max * max in
    match draw_below cap fuel pos with
    | Some (value, pos') => Some (value mod max, pos')
    | None => None
    end.

(** The first application: [getSecureRandom(max)].  Without
    [crypto.getRandomValues] it falls back to
    [Math.floor(Math.random() * max)], kept here as [fallback max]. *)
Definition getSecureRandom (crypto : bool) (fallback : Z -> Z) (fuel : nat)
    (max : Z) (pos : nat) : option (Z * nat) :=
  if max <=? 0 then Some (0, pos)
  else if crypto then
    let threshold := 0xFFFFFFFF / max * max in
    match draw_below threshold fuel pos with
    | Some (randomValue, pos') => Some (randomValue mod max, pos')
    | None => None
    end
  else Some (fallback max, pos).

(** [arr[i] = x] on an index of the array. *)
Fixpoint set_nth {A : Type} (i : nat) (x : A) (arr : list A) : list A :=
  match arr, i with
  | [], _ => []
  | _ :: rest, O => x :: rest
  | a :: rest, S i' => a :: set_nth i' x rest
  end.

(** [[arr[i], arr[j]] = [arr[j], arr[i]]] for two indices of the array,
    as they are in both loops below. *)
Definition swap {A : Type} (i j : nat) (arr : list A) : list A :=
  match nth_error arr i, nth_error arr j with
  | Some x, Some y => set_nth j x (set_nth i y arr)
  | _, _ => arr
  end.

(** [for (let i = ...; i > 0; i--) { j = rand(i + 1); swap }]. *)
Fixpoint shuffle_loop {A : Type} (rand : Z -> nat -> option (Z * nat))
    (i : nat) (arr : list A) (pos : nat) : option (list A * nat) :=
  match i with
  | O => Some (arr, pos)
  | S i' =>
      match rand (Z.of_nat i + 1) pos with
      | Some (j, pos') => shuffle_loop rand i' (swap i (Z.to_nat j) arr) pos'
      | None => None
      end
  end.

(** app.js: [shuffle(arr)]. *)
Definition shuffle {A : Type} (fuel : nat) (arr : list A) (pos : nat)
  : option (list A * nat) :=
  shuffle_loop (secureRandom fuel) (length arr - 1) arr pos.

(** The first application: [shuffleString(str)], on the code units of
    the string. *)
Definition shuffleString (crypto : bool) (fallback : Z -> Z) (fuel : nat)
    (str : jsstring) (pos : nat) : option (jsstring * nat) :=
  shuffle_loop (getSecureRandom crypto fallback fuel) (length str - 1) str pos.

(** The loop of [generateRandomChars]: [count] characters of [charSet];
    [charAt] gives the empty string outside the string. *)
Fixpoint random_chars (rand : Z -> nat -> option (Z * nat))
    (charSet : jsstring) (count : nat) (pos : nat)
  : option (jsstring * nat) :=
  match count with
  | O => Some ([], pos)
  | S count' =>
      match rand (Z.of_nat (length charSet)) pos with
      | Some (randomIndex, pos') =>
          match random_chars rand charSet count' pos' with
          | Some (rest, pos'') =>
              Some (match nth_error charSet (Z.to_nat randomIndex) with
                    | Some c => c :: rest
                    | None => rest
                    end, pos'')
          | None => None
          end
      | None => None
      end
  end.

(** The first application: [generateRandomChars(charSet, count)]. *)
Definition generateRandomChars (crypto : bool) (fallback : Z -> Z)
    (fuel : nat) (charSet : jsstring) (count : Z) (pos : nat)
  : option (jsstring * nat) :=
  if js_falsy charSet || (count <=? 0) then Some ([], pos)
  else if Z.of_nat (length charSet) =? 0 then Some ([], pos)
  else
    random_chars (getSecureRandom crypto fallback fuel) charSet
      (Z.to_nat count) pos.

(** Among any [fuel] draws in a row one has its top bit clear: such a
    draw is below every cap the two samplers compute. *)
Definition lively (fuel : nat) : Prop :=
  forall pos,
    exists n, (n < fuel)%nat /\ draw (pos + n) mod 0x100000000 < 0x80000000.

End Random.

(** The number of values below [n] that satisfy [p]. *)
Fixpoint count_below (p : Z -> bool) (n : nat) : nat :=
  match n with
  | O => 0
  | S n' => count_below p n' + (if p (Z.of_nat n') then 1 else 0)
  end.

(** How many of the accepted 32-bit values, those below [cap], give the
    result [r]. *)
Definition ways (cap max r : Z) : nat :=
  count_below (fun value => value mod max =? r) (Z.to_nat cap).


(* ================================================================== *)
(** * Cleaning of typed input *)

(** The code units [String.prototype.trim] removes: WhiteSpace and
    LineTerminator of the language. *)
Definition is_whitespace (u : Z) : bool :=
  ((9 <=? u) && (u <=? 13)) || (u =? 0x20) || (u =? 0xA0) || (u =? 0x1680)
  || ((0x2000 <=? u) && (u <=? 0x200A)) || (u =? 0x2028) || (u =? 0x2029)
  || (u =? 0x202F) || (u =? 0x205F) || (u =? 0x3000) || (u =? 0xFEFF).

Fixpoint trim_start (s : jsstring) : jsstring :=
  match s with
  | [] => []
  | u :: rest => if is_whitespace u then trim_start rest else s
  end.

Definition trim_end (s : jsstring) : jsstring := rev (trim_start (rev s)).

(** [s.trim()]. *)
Definition js_trim (s : jsstring) : jsstring := trim_end (trim_start s).

(** A character class of a regular expression without the [u] flag: code
    units and ranges of code units. *)
Inductive ClassItem : Type :=
| Single (c : Z)
| Range (lo hi : Z).

Definition class_has (items : list ClassItem) (u : Z) : bool :=
  existsb (fun item =>
             match item with
             | Single c => u =? c
             | Range lo hi => (lo <=? u) && (u <=? hi)
             end) items.

(** [s.replace(/[...]/g, '')] and [s.replace(/[^...]/g, '')]. *)
Definition remove_class (items : list ClassItem) (s : jsstring) : jsstring :=
  filter (fun u => negb (class_has items u)) s.

Definition keep_class (items : list ClassItem) (s : jsstring) : jsstring :=
  filter (class_has items) s.

(** What the first application's [sanitizeInput] is given: [null] or
    [undefined], a number (with its text), a string, or something else
    (with the text [String] makes of it). *)
Inductive Input : Type :=
| Nullish
| Number (text : jsstring)
| Text (s : jsstring)
| Other (text : jsstring).

(** The first application: [sanitizeInput(input)]: the string is
    trimmed, then loses the less-than, greater-than, double quote,
    apostrophe and ampersand characters, then everything outside
    [\x20-\x7E]. *)
Definition sanitizeInput (input : Input) : jsstring :=
  match input with
  | Nullish => []
  | Number text => text
  | Text s | Other s =>
      keep_class [Range 0x20 0x7E]
        (remove_class [Single 60; Single 62; Single 34; Single 39; Single 38]
           (js_trim s))
  end.

(** The passphrase dialog of the beta page. *)
Module Modal.

(** The negated class of the dialog, item by item as the expression
    lists them: digits, letters, twenty-three punctuation characters, and
    one range, from the closing parenthesis to the underscore, made by
    the hyphen between them. *)
Definition allowed : list ClassItem :=
  [Range 48 57; Range 97 122; Range 65 90;
   Single 33; Single 64; Single 35; Single 36; Single 37; Single 94;
   Single 38; Single 42; Single 40; Range 41 95; Single 61; Single 43;
   Single 91; Single 93; Single 123; Single 125; Single 124; Single 59;
   Single 58; Single 44; Single 46; Single 60; Single 62; Single 63].

(** [sanitizeInput(value)] on a string. *)
Definition sanitizeInput (value : jsstring) : jsstring :=
  keep_class allowed value.

(** What a handler leaves of the dialog: still open with a message, or
    closed with the callback called on a passphrase or on [null]. *)
Inductive Outcome : Type :=
| Open (message : string)
| Closed (passphrase : option jsstring).

(** [handleSubmit()], from the text of the input and the state of the
    check box; the second component is the [tempPassphrase] item of
    [sessionStorage], whose writes are taken to succeed. *)
Definition handleSubmit (value : jsstring) (remember : bool)
    (session : option jsstring) : Outcome * option jsstring :=
  let passphrase := sanitizeInput (js_trim value) in
  if js_falsy passphrase then (Open "Please enter a passphrase", session)
  else (Closed (Some passphrase),
        if remember then Some passphrase else session).

(** [handleCancel()], also run on Escape. *)
Definition handleCancel (session : option jsstring)
  : Outcome * option jsstring :=
  (Closed None, session).

(** The code units the class lets through, as intervals. *)
Definition passes (u : Z) : Prop :=
  u = 33 \/ 35 <= u <= 38 \/ 40 <= u <= 95 \/ 97 <= u <= 125.

End Modal.

(** Printable ASCII without the five characters the first application
    strips. *)
Definition plain_unit (u : Z) : Prop :=
  0x20 <= u <= 0x7E /\ u <> 60 /\ u <> 62 /\ u <> 34 /\ u <> 39 /\ u <> 38.


(* ================================================================== *)
(** * beta/history.js: the stored history

    The beta module keeps the history as an array in memory and, sealed
    as one string, in the [secureGeneratorHistory] item of
    [localStorage].  The page state below adds these to the state of the
    platform.  [JSON], base64 and the strength estimator are parameters;
    writes to [localStorage] are taken to succeed, the error log kept in
    a second item and the rendering of the list are left out, and a
    dialog is given by the answer it calls back with. *)

Module BetaStore.

Record Item : Type := mkItem {
  item_value : jsstring;
  item_type : jsstring;
  item_timestamp : jsstring
}.

(** What [JSON.parse] returns: an array (of items), or another value,
    truthy or not. *)
Inductive Json : Type :=
| JArray (items : list Item)
| JOther (truthy : bool).

Record Page : Type := mkPage {
  world : World;
  passwordHistory : list Item;
  deletedItems : list (Item * Z);
  undoOffers : list (Z * Item * jsstring); (* undo buttons on the page *)
  stored : option jsstring;               (* the [localStorage] item *)
  tempPassphrase : option jsstring;
  lastActionTime : Z
}.

Definition new_page (w : World) (stored : option jsstring) : Page :=
  mkPage w [] [] [] stored None 0.

Definition set_world (w : World) (p : Page) : Page :=
  mkPage w (passwordHistory p) (deletedItems p) (undoOffers p) (stored p)
    (tempPassphrase p) (lastActionTime p).

Definition set_history (h : list Item) (p : Page) : Page :=
  mkPage (world p) h (deletedItems p) (undoOffers p) (stored p)
    (tempPassphrase p) (lastActionTime p).

Definition set_deleted (d : list (Item * Z)) (p : Page) : Page :=
  mkPage (world p) (passwordHistory p) d (undoOffers p) (stored p)
    (tempPassphrase p) (lastActionTime p).

Definition set_offers (o : list (Z * Item * jsstring)) (p : Page) : Page :=
  mkPage (world p) (passwordHistory p) (deletedItems p) o (stored p)
    (tempPassphrase p) (lastActionTime p).

Definition set_stored (s : option jsstring) (p : Page) : Page :=
  mkPage (world p) (passwordHistory p) (deletedItems p) (undoOffers p) s
    (tempPassphrase p) (lastActionTime p).

Definition set_temp (t : option jsstring) (p : Page) : Page :=
  mkPage (world p) (passwordHistory p) (deletedItems p) (undoOffers p)
    (stored p) t (lastActionTime p).

Definition set_last (t : Z) (p : Page) : Page :=
  mkPage (world p) (passwordHistory p) (deletedItems p) (undoOffers p)
    (stored p) (tempPassphrase p) t.

(** Computations on the page: state and exceptions, as for the vault. *)
Definition B (A : Type) : Type := Page -> Res A * Page.

Definition pure {A : Type} (a : A) : B A := fun p => (Ok a, p).

Definition raise {A : Type} (e : JsError) : B A := fun p => (Throw e, p).

Definition and_then {A C : Type} (m : B A) (k : A -> B C) : B C :=
  fun p =>
    match m p with
    | (Ok a, p') => k a p'
    | (Throw e, p') => (Throw e, p')
    end.

Definition attempt {A : Type} (m : B A) (h : JsError -> B A) : B A :=
  fun p =>
    match m p with
    | (Ok a, p') => (Ok a, p')
    | (Throw e, p') => h e p'
    end.

Definition look {A : Type} (f : Page -> A) : B A := fun p => (Ok (f p), p).

Definition update (f : Page -> Page) : B unit := fun p => (Ok tt, f p).

(** A computation of the platform, run on the page. *)
Definition lift {A : Type} (m : M A) : B A :=
  fun p => let (r, w) := m (world p) in (r, set_world w p).

Declare Scope page_scope.
Delimit Scope page_scope with page.
Notation "x <- m ;; k" := (and_then m (fun x => k))
  (at level 61, m at next level, right associativity) : page_scope.
Notation "m ;; k" := (and_then m (fun _ => k))
  (at level 61, right associativity) : page_scope.

Section Store.

Variable pf : Platform.
Variable stringify : list Item -> jsstring.       (* [JSON.stringify] *)
Variable parse : jsstring -> option Json.         (* [None]: it throws *)
Variable btoa : bytes -> jsstring.   (* [btoa(String.fromCharCode(...b))] *)
Variable atob : jsstring -> option bytes.  (* octets; [None]: it throws *)
Variable zxcvbn : option (jsstring -> Z).  (* the score, where loaded *)

Definition MAX_HISTORY : Z := 10.
Definition RATE_LIMIT_MS : Z := 1000.
Definition VALID_TYPES : list jsstring := [js "password"; js "pin"; js "phrase"].

Definition showError (message : string) (isSuccess : bool) : B unit :=
  lift (toast message isSuccess).

Definition handleError (error : JsError) (defaultMessage : string) : B unit :=
  lift (Beta.handleError error defaultMessage).

(** [throttle(fn)], called. *)
Definition throttle (fn : B unit) : B unit :=
  (now <- lift (Date_now pf) ;;
   last <- look lastActionTime ;;
   if now - last <? RATE_LIMIT_MS then
     showError "Please wait before performing another action." false
   else
     update (set_last now) ;;
     fn)%page.

(** Returns the base64 text, or [None] for [null]. *)
Definition encryptData (data : list Item) (passphrase : jsstring)
  : M (option jsstring) :=
  (try_catch
     (let dataBuffer := Encoding.encode (stringify data) in
      salt <- getRandomValues pf 16 ;;
      iv <- getRandomValues pf 12 ;;
      keyResult <- Beta.deriveKeyFromPassphrase pf passphrase salt ;;
      match keyResult with
      | None => throw (Error "Key derivation failed")
      | Some (key, _) =>
          encryptedBuffer <- subtle_encrypt pf iv key dataBuffer ;;
          ret (Some (btoa (salt ++ iv ++ encryptedBuffer)))
      end)
     (fun error =>
        Beta.handleError error "Failed to encrypt history data." ;;
        ret None))%vault.

(** Returns the parsed value, [JOther false] standing for [null]. *)
Definition decryptData (encryptedData : jsstring) (passphrase : jsstring)
  : M Json :=
  (try_catch
     (match atob encryptedData with
      | None => throw (DOMException "InvalidCharacterError")
      | Some fullBuffer =>
          let salt := firstn 16 fullBuffer in
          let iv := firstn 12 (skipn 16 fullBuffer) in
          let data := skipn 28 fullBuffer in
          keyResult <- Beta.deriveKeyFromPassphrase pf passphrase salt ;;
          match keyResult with
          | None => ret (JOther false)
          | Some (key, _) =>
              decryptedBuffer <- subtle_decrypt pf iv key data ;;
              match parse (Encoding.decode decryptedBuffer) with
              | Some value => ret value
              | None => throw (Error "Unexpected token")
              end
          end
      end)
     (fun err =>
        Beta.handleError err
          "Decryption failed. Incorrect passphrase or corrupted history." ;;
        ret (JOther false)))%vault.

Definition saveHistory (passphrase : jsstring) : B unit :=
  (attempt
     (history <- look passwordHistory ;;
      encryptedHistory <- lift (encryptData history passphrase) ;;
      match encryptedHistory with
      | Some text =>
          if negb (js_falsy (js_trim text))
          then update (set_stored (Some text))
          else raise (Error "Invalid encrypted history data")
      | None => raise (Error "Invalid encrypted history data")
      end)
     (fun error => handleError error "Failed to save history."))%page.

Definition loadHistory (passphrase : jsstring) : B bool :=
  (encrypted <- look stored ;;
   match encrypted with
   | None => update (set_history []) ;; pure false
   | Some text =>
       if js_falsy text then update (set_history []) ;; pure false
       else
         decrypted <- lift (decryptData text passphrase) ;;
         match decrypted with
         | JArray items => update (set_history items) ;; pure true
         | JOther _ => pure false
         end
   end)%page.

(** [value.replace(...)] with the class of the less-than,
    greater-than, ampersand, double quote and apostrophe characters. *)
Definition sanitizeValue (value : jsstring) : jsstring :=
  remove_class [Single 60; Single 62; Single 38; Single 34; Single 39] value.

Definition weak (passphrase : jsstring) : bool :=
  match zxcvbn with
  | Some score => score passphrase <? 3
  | None => false
  end.

(** [unshift(item)], then one [pop()] above [MAX_HISTORY]. *)
Definition unshift_capped (item : Item) (history : list Item) : list Item :=
  if MAX_HISTORY <? Z.of_nat (length (item :: history))
  then removelast (item :: history)
  else item :: history.

(** [addToHistory(value, type, timestamp)], the dialog answering with
    [reply]. *)
Definition addToHistory (value type timestamp : jsstring)
    (reply : option jsstring) : B unit :=
  throttle
    (if negb (existsb (js_eqb type) VALID_TYPES)
     then showError "Invalid history item type." false
     else
       let sanitizedValue := sanitizeValue value in
       match reply with
       | None => showError "Please set an encryption passphrase." false
       | Some passphrase =>
           if js_falsy passphrase
           then showError "Please set an encryption passphrase." false
           else if weak passphrase
           then showError
                  "Passphrase is too weak. Please use a stronger passphrase."
                  false
           else
             update (set_temp (Some passphrase)) ;;
             isValid <- loadHistory passphrase ;;
             if negb isValid
             then showError "Invalid encryption passphrase." false ;;
                  update (set_temp None)
             else
               update (fun p =>
                         set_history
                           (unshift_capped
                              (mkItem sanitizedValue type timestamp)
                              (passwordHistory p)) p) ;;
               saveHistory passphrase ;;
               update (set_temp None)
       end)%page.

(** [splice(index, 1)] and [splice(index, 0, item)]. *)
Definition splice_out (index : nat) (l : list Item) : list Item :=
  firstn index l ++ skipn (S index) l.

Definition splice_in (index : nat) (item : Item) (l : list Item) : list Item :=
  firstn index l ++ item :: skipn index l.

Definition removeFromHistory (index : Z) (passphrase : jsstring) : B unit :=
  throttle
    (history <- look passwordHistory ;;
     if (0 <=? index) && (index <? Z.of_nat (length history)) then
       match nth_error history (Z.to_nat index) with
       | Some deletedItem =>
           update (set_history (splice_out (Z.to_nat index) history)) ;;
           update (fun p =>
                     let pushed := deletedItems p ++ [(deletedItem, index)] in
                     set_deleted
                       (if 5 <? Z.of_nat (length pushed) then tl pushed
                        else pushed) p) ;;
           saveHistory passphrase ;;
           update (fun p =>
                     set_offers
                       (undoOffers p ++ [(index, deletedItem, passphrase)]) p)
       | None => pure tt
       end
     else pure tt)%page.

(** A click on the [n]-th undo button still on the page. *)
Definition undo (n : nat) : B unit :=
  (offers <- look undoOffers ;;
   match nth_error offers n with
   | Some (index, deletedItem, passphrase) =>
       update (set_offers (firstn n offers ++ skipn (S n) offers)) ;;
       update (fun p =>
                 set_history
                   (splice_in (Z.to_nat index) deletedItem (passwordHistory p))
                   p) ;;
       update (fun p => set_deleted (removelast (deletedItems p)) p) ;;
       saveHistory passphrase
   | None => pure tt
   end)%page.

(** [clearHistory()], the confirmation dialog answering with
    [confirmed] and a passphrase. *)
Definition clearHistory (confirmed : bool) (passphrase : option jsstring)
  : B bool :=
  (if confirmed then
     update (set_temp passphrase) ;;
     update (set_history []) ;;
     update (set_stored None) ;;
     showError "History cleared successfully." true ;;
     update (set_temp None) ;;
     pure true
   else pure false)%page.

Definition resetPasswordHistory : B unit :=
  (update (set_history []) ;;
   update (set_stored None))%page.

(** [setEncryptionPassphrase(passphrase)]; [None] is a value that is
    not a string. *)
Definition setEncryptionPassphrase (passphrase : option jsstring) : B bool :=
  (match passphrase with
   | None => showError "Invalid passphrase." false ;; pure false
   | Some text =>
       if js_falsy (js_trim text)
       then showError "Invalid passphrase." false ;; pure false
       else if weak text
       then showError
              "Passphrase is too weak. Please use a stronger passphrase."
              false ;;
            pure false
       else pure true
   end)%page.

(** What the page can be asked to do. *)
Inductive Action : Type :=
| Add (value type timestamp : jsstring) (reply : option jsstring)
| Remove (index : Z) (passphrase : jsstring)
| Undo (n : nat)
| Clear (confirmed : bool) (passphrase : option jsstring)
| Reset
| Load (passphrase : jsstring)
| SetPassphrase (passphrase : option jsstring).

Definition act (a : Action) (p : Page) : Page :=
  match a with
  | Add value type timestamp reply =>
      snd (addToHistory value type timestamp reply p)
  | Remove index passphrase => snd (removeFromHistory index passphrase p)
  | Undo n => snd (undo n p)
  | Clear confirmed passphrase => snd (clearHistory confirmed passphrase p)
  | Reset => snd (resetPasswordHistory p)
  | Load passphrase => snd (loadHistory passphrase p)
  | SetPassphrase passphrase => snd (setEncryptionPassphrase passphrase p)
  end.

Definition acts (l : list Action) (p : Page) : Page := fold_left (fun q a => act a q) l p.

End Store.

(** A call that did nothing but show the message [msg]: the history in
    memory, the stored text, the undo data and the passphrase kept for
    the call are what they were, no key was derived and no random octet
    drawn. *)
Definition only_said (msg : string) (p p' : Page) : Prop :=
  new_toasts (world p) (world p') = [(msg, false)]
  /\ passwordHistory p' = passwordHistory p
  /\ stored p' = stored p
  /\ deletedItems p' = deletedItems p
  /\ undoOffers p' = undoOffers p
  /\ tempPassphrase p' = tempPassphrase p
  /\ kdf_calls (world p') = kdf_calls (world p)
  /\ drawn (world p') = drawn (world p).

(** Nothing stored, nothing in memory, nothing to undo. *)
Definition blank (p : Page) : Prop :=
  stored p = None /\ passwordHistory p = [] /\ undoOffers p = []
  /\ tempPassphrase p = None.

End BetaStore.


(** Stand-ins to run the beta history on: a base64 that brackets the
    octets with two letters, and a JSON that knows two arrays by the
    length of their text. *)
Module BetaDemo.

Definition btoa (b : bytes) : jsstring := 65 :: b ++ [65].

Definition atob (s : jsstring) : option bytes := Some (removelast (tl s)).

Definition older : BetaStore.Item :=
  BetaStore.mkItem (js "4711") (js "pin") (js "2024-01-01T00:00:00.000Z").

Definition newer : BetaStore.Item :=
  BetaStore.mkItem (js "x7Qp") (js "password")
    (js "2025-01-01T00:00:00.000Z").

Definition stringify (l : list BetaStore.Item) : jsstring :=
  repeat 120 (length l).

Definition parse (s : jsstring) : option BetaStore.Json :=
  match s with
  | [_] => Some (BetaStore.JArray [older])
  | [_; _] => Some (BetaStore.JArray [newer; older])
  | _ => None
  end.

Definition salt : bytes := repeat 1 16.
Definition iv : bytes := repeat 2 12.

(** The history [[older]] sealed under "hunter2". *)
Definition blob : jsstring :=
  btoa (salt ++ iv
        ++ gcm_encrypt Demo.platform
             (key_material (beta_derived_key Demo.platform (js "hunter2") salt))
             iv (Encoding.encode (stringify [older]))).

(** A page that finds [blob] stored, a second after the clock's start. *)
Definition page : BetaStore.Page :=
  BetaStore.new_page (set_ticks 1 fresh_world) (Some blob).

End BetaDemo.


(* ================================================================== *)
(** * app.js: the password generator

    [generatePassword] from what it reads off the form: the result of
    each [parseInt] ([None] for [NaN]) and the check box. *)

Record PasswordForm : Type := mkForm {
  form_length : option Z;
  form_lowercase : option Z;
  form_uppercase : option Z;
  form_numbers : option Z;
  form_special : option Z;
  form_exclude_ambiguous : bool
}.

(** What the generator leaves: a toast, or the result it sets. *)
Inductive Generated : Type :=
| Refused (message : string)
| Result (value : jsstring) (type : jsstring).

Definition CHARACTER_SETS_lowercase : jsstring := js "abcdefghijklmnopqrstuvwxyz".
Definition CHARACTER_SETS_uppercase : jsstring := js "ABCDEFGHIJKLMNOPQRSTUVWXYZ".
Definition CHARACTER_SETS_numbers : jsstring := js "0123456789".
Definition CHARACTER_SETS_special : jsstring := js "!@#$%^&*()-_=+[]{}|;:,.<>?".

(** [Math.max(0, parseInt(...) || 0)]. *)
Definition count_of (parsed : option Z) : Z :=
  Z.max 0 (match parsed with Some n => n | None => 0 end).

(** The four [sets], by the check box. *)
Definition set_lowercase (noAmbig : bool) : jsstring :=
  if noAmbig
  then remove_class [Single 105; Single 108] CHARACTER_SETS_lowercase
  else CHARACTER_SETS_lowercase.

Definition set_uppercase (noAmbig : bool) : jsstring :=
  if noAmbig
  then remove_class [Single 73; Single 79] CHARACTER_SETS_uppercase
  else CHARACTER_SETS_uppercase.

Definition set_numbers (noAmbig : bool) : jsstring :=
  if noAmbig
  then remove_class [Single 48; Single 49] CHARACTER_SETS_numbers
  else CHARACTER_SETS_numbers.

Definition set_special : jsstring := CHARACTER_SETS_special.

Definition minReq (form : PasswordForm) : Z :=
  count_of (form_lowercase form) + count_of (form_uppercase form)
  + count_of (form_numbers form) + count_of (form_special form).

(** [fill]: the sets of the types asked for. *)
Definition fill (form : PasswordForm) : jsstring :=
  let noAmbig := form_exclude_ambiguous form in
  (if 0 <? count_of (form_lowercase form) then set_lowercase noAmbig else [])
  ++ (if 0 <? count_of (form_uppercase form) then set_uppercase noAmbig
      else [])
  ++ (if 0 <? count_of (form_numbers form) then set_numbers noAmbig else [])
  ++ (if 0 <? count_of (form_special form) then set_special else []).

Section Generator.

Variable draw : nat -> Z.

(** [add(type, n)]: [n] characters of the set, a set being never
    empty. *)
Definition add (fuel : nat) (pool : jsstring) (n : Z) (pos : nat)
  : option (jsstring * nat) :=
  if js_falsy pool then Some ([], pos)
  else random_chars (secureRandom draw fuel) pool (Z.to_nat n) pos.

Definition generatePassword (fuel : nat) (form : PasswordForm) (pos : nat)
  : option (Generated * nat) :=
  let noAmbig := form_exclude_ambiguous form in
  if minReq form =? 0 then
    Some (Refused "Set at least one character type.", pos)
  else
    match add fuel (set_lowercase noAmbig) (count_of (form_lowercase form))
            pos with
    | None => None
    | Some (c1, pos1) =>
    match add fuel (set_uppercase noAmbig) (count_of (form_uppercase form))
            pos1 with
    | None => None
    | Some (c2, pos2) =>
    match add fuel (set_numbers noAmbig) (count_of (form_numbers form))
            pos2 with
    | None => None
    | Some (c3, pos3) =>
    match add fuel set_special (count_of (form_special form)) pos3 with
    | None => None
    | Some (c4, pos4) =>
        let chars := c1 ++ c2 ++ c3 ++ c4 in
        let rem :=
          match form_length form with
          | Some len => Z.max len (minReq form) - Z.of_nat (length chars)
          | None => 0            (* [NaN]: the loop does not run *)
          end in
        match random_chars (secureRandom draw fuel) (fill form)
                (Z.to_nat rem) pos4 with
        | None => None
        | Some (c5, pos5) =>
            match shuffle draw fuel (chars ++ c5) pos5 with
            | None => None
            | Some (value, pos6) => Some (Result value (js "password"), pos6)
            end
        end
    end end end end.

End Generator.

(** The characters the generator leaves out on request. *)
Definition ambiguous (u : Z) : bool :=
  (u =? 105) || (u =? 108) || (u =? 73) || (u =? 79) || (u =? 48) || (u =? 49).

(** How many code units of [s] are in [set]. *)
Definition count_in (set s : jsstring) : nat :=
  length (filter (fun u => existsb (Z.eqb u) set) s).


(* ================================================================== *)
(** * The first application: the basic strength estimate *)

Record StrengthInfo : Type := mkStrength {
  score : Z;
  label : string;
  crackTimeText : string;
  entropy_text : string;
  suggestions : list string
}.

(** [/[...]/.test(password)]: some code unit is in the class, or, for a
    negated class, outside it. *)
Definition test_class (items : list ClassItem) (s : jsstring) : bool :=
  existsb (class_has items) s.

Definition test_not_class (items : list ClassItem) (s : jsstring) : bool :=
  existsb (fun u => negb (class_has items u)) s.

Definition basic_score (password : jsstring) : Z :=
  let length := Z.of_nat (length password) in
  let hasLower := test_class [Range 97 122] password in
  let hasUpper := test_class [Range 65 90] password in
  let hasNumber := test_class [Range 48 57] password in
  let hasSpecial :=
    test_not_class [Range 97 122; Range 65 90; Range 48 57] password in
  (if 12 <=? length then 20 else 0)
  + (if 16 <=? length then 20 else 0)
  + (if hasLower && hasUpper then 20 else 0)
  + (if hasNumber then 20 else 0)
  + (if hasSpecial then 20 else 0).

Definition strength_label (score : Z) : string :=
  if score <? 20 then "Very Weak"
  else if score <? 40 then "Weak"
  else if score <? 60 then "Medium"
  else if score <? 80 then "Strong"
  else "Very Strong".

(** The cache of the application: [new LRUCache(10)], with passwords
    for keys. *)
Definition StrengthCache : Type := Lru.LRUCache jsstring StrengthInfo.

Definition strengthCache : StrengthCache := Lru.new StrengthInfo 10.

(** [calculateBasicStrength(password)]: the record it builds and
    displays, and the cache after it. *)
Definition calculateBasicStrength (password : jsstring)
    (cache : StrengthCache) : StrengthInfo * StrengthCache :=
  let score := basic_score password in
  let strengthInfo :=
    mkStrength score (strength_label score) "Estimation unavailable"
      "Unknown" [] in
  (strengthInfo, Lru.set js_eqb password strengthInfo cache).

(** The look-up [calculateStrength] begins with. *)
Definition cached_strength (password : jsstring) (cache : StrengthCache)
  : option StrengthInfo * StrengthCache :=
  Lru.get js_eqb (fun _ => false) password cache.


(** An earlier copy of the application counts the same five criteria
    one by one and looks the level up in a table of five. *)
Module Earlier.

Record Level : Type := mkLevel {
  level_class : string;
  percentage : Z;
  level_label : string
}.

Definition strengthLevels : list Level :=
  [mkLevel "strength-very-weak" 25 "Very Weak";
   mkLevel "strength-weak" 40 "Weak";
   mkLevel "strength-medium" 60 "Medium";
   mkLevel "strength-strong" 80 "Strong";
   mkLevel "strength-very-strong" 100 "Very Strong"].

(** What goes into the cache: the level with the score and the text. *)
Record Cached : Type := mkCached {
  cached_level : Level;
  cached_score : Z;
  cached_crackTimeText : string
}.

Definition basic_points (password : jsstring) : Z :=
  let length := Z.of_nat (length password) in
  let hasLower := test_class [Range 97 122] password in
  let hasUpper := test_class [Range 65 90] password in
  let hasNumber := test_class [Range 48 57] password in
  let hasSpecial :=
    test_not_class [Range 97 122; Range 65 90; Range 48 57] password in
  (if 12 <=? length then 1 else 0)
  + (if 16 <=? length then 1 else 0)
  + (if hasLower && hasUpper then 1 else 0)
  + (if hasNumber then 1 else 0)
  + (if hasSpecial then 1 else 0).

(** [strengthLevels[score] || strengthLevels[0]]. *)
Definition level_of (score : Z) : Level :=
  match nth_error strengthLevels (Z.to_nat score) with
  | Some level => level
  | None => mkLevel "strength-very-weak" 25 "Very Weak"
  end.

(** [calculateBasicStrength(password)]: the level displayed, and the
    cache after it. *)
Definition calculateBasicStrength (password : jsstring)
    (cache : Lru.LRUCache jsstring Cached)
  : Level * Lru.LRUCache jsstring Cached :=
  let score := basic_points password in
  let strengthInfo := level_of score in
  (strengthInfo,
   Lru.set js_eqb password
     (mkCached strengthInfo score "Estimation unavailable") cache).

End Earlier.


(* ================================================================== *)
(** * Requests that overlap

    The save button calls [addToHistory] and does not wait for it, and
    the buttons of the panel can be pressed while an earlier request is
    still waiting.  The page then holds several calls and resumes them
    as what they wait for arrives, in an order the program does not
    choose: any order is allowed below. *)

(** The call a request makes. *)
Definition request (pf : Platform) (q : Request) : Async unit :=
  match q with
  | Save value type reply => Async.addToHistory pf value type reply
  | View id reply =>
      (Async.viewItem pf id reply ;; sync (ret tt))%async
  | Delete id reply => Async.deleteItem pf id reply
  end.

(** What happens on the page: the user makes a request, or the [i]-th
    call made so far is resumed. *)
Inductive Event : Type :=
| Call (q : Request)
| Resume (i : nat).

(** The [i]-th call of a list runs its next piece; a settled call, or
    none, leaves everything as it is. *)
Fixpoint resume {A : Type} (i : nat) (calls : list (Task A)) (w : World)
    {struct calls} : list (Task A) * World :=
  match calls with
  | [] => ([], w)
  | t :: rest =>
      match i with
      | O =>
          match t with
          | Settled _ => (calls, w)
          | Suspended piece => let (t', w') := piece w in (t' :: rest, w')
          end
      | S i' => let (rest', w') := resume i' rest w in (t :: rest', w')
      end
  end.

(** The calls made so far, in the order they were made, and the state
    of the page. *)
Definition Loop : Type := list (Task unit) * World.

Definition react (pf : Platform) (s : Loop) (ev : Event) : Loop :=
  match ev with
  | Call q => let (t, w') := request pf q (snd s) in (fst s ++ [t], w')
  | Resume i => resume i (fst s) (snd s)
  end.

(** The page after a sequence of events. *)
Definition play (pf : Platform) (events : list Event) (s : Loop) : Loop :=
  fold_left (react pf) events s.

Definition settled {A : Type} (t : Task A) : bool :=
  match t with Settled _ => true | Suspended _ => false end.

(** Requests made in turn: each is made when the one before has settled,
    and nothing else runs while it waits. *)
Fixpoint in_turn (pf : Platform) (qs : list Request) (w : World) : World :=
  match qs with
  | [] => w
  | q :: qs' => in_turn pf qs' (snd (alone (request pf q) w))
  end.

(** A call keeps to [I] and returns values in [Q]: resumed on a state
    in [I] it leaves a state in [I], however often it is resumed and
    whatever ran in between, and a value it settles with is in [Q]. *)
Inductive respects {A : Type} (I : World -> Prop) (Q : A -> Prop)
  : Task A -> Prop :=
| respects_value (a : A) : Q a -> respects I Q (Settled (Ok a))
| respects_exception (e : JsError) : respects I Q (Settled (Throw e))
| respects_piece (piece : World -> Task A * World) :
    (forall w, I w -> I (snd (piece w))) ->
    (forall w, I w -> respects I Q (fst (piece w))) ->
    respects I Q (Suspended piece).

(** The same of a function to be called. *)
Definition keeps {A : Type} (I : World -> Prop) (Q : A -> Prop)
    (m : Async A) : Prop :=
  forall w, I w -> I (snd (m w)) /\ respects I Q (fst (m w)).

(** An [async] function left alone does what [m'] does. *)
Definition agrees {A : Type} (m : Async A) (m' : M A) : Prop :=
  forall w, alone m w = m' w.

(** A step that leaves the database and the cached key alone. *)
Definition quiet (w w' : World) : Prop :=
  db w' = db w /\ _cachedKey w' = _cachedKey w.

(** What requests keep of the vault as it was in [w0], however they
    overlap: the rows stay in key order below the key generator and the
    cache holds a cipher key, if that was so in [w0]; no identifier
    handed out before [w0] is given to a new row; and a master record
    present in [w0] stays as it is. *)
Definition vault_kept (w0 w : World) : Prop :=
  (world_ok w0 = true -> world_ok w = true /\ ids_not_reused w0 w)
  /\ meta_kept w0 w.

(** The value [getMasterRecord] may return while [vault_kept w0] holds. *)
Definition record_of (w0 : World) (rec : option MasterRecord) : Prop :=
  (exists r, meta_get 1 (master_rows w0) = Some r) -> rec <> None.

(** How often a call has to be resumed until it settles, when nothing
    else runs in between. *)
Fixpoint waits {A : Type} (t : Task A) (w : World) {struct t} : nat :=
  match t with
  | Settled _ => O
  | Suspended piece => let (t', w') := piece w in S (waits t' w')
  end.

(** The events of requests made in turn, the first of them being call
    number [i] of the page: each is resumed until it has settled, and
    only then is the next one made. *)
Fixpoint turns (pf : Platform) (qs : list Request) (i : nat) (w : World)
  : list Event :=
  match qs with
  | [] => []
  | q :: qs' =>
      let (t, w1) := request pf q w in
      (Call q :: repeat (Resume i) (waits t w1))
      ++ turns pf qs' (S i) (snd (finish t w1))
  end.

(** The request a call of [addToHistory] is. *)
Definition save_request (c : SaveCall) : Request :=
  Save (save_value c) (save_type c) (save_reply c).

(** Two races on the demonstration platform.  Of the orders allowed
    above the platform takes fewer: IndexedDB runs the transactions on
    a store one after the other, in the order they were opened.  Both
    races keep to that: transactions are served in the order they were
    opened, and none is served while an earlier one is unfinished. *)
Module Race.

(** The demonstration vault after 99 saves in turn, the key of the first
    still remembered. *)
Definition crowded : World :=
  saves_in_turn Demo.platform (repeat Demo.a_save 99) fresh_world.

(** A press on the save button.  The key is in the cache, so the dialog
    is not shown. *)
Definition press : Request :=
  Save (js "x7!Qp") (js "password") Demo.cancelled.

(** Two presses in a row.  The first call has asked for the rows of the
    store ([getAll] in [enforceLimit]) when the second press comes, and
    the second call asks for them as well.  The first is given the rows
    and deletes none, then the second.  After that the first call runs
    to its end, and then the second. *)
Definition two_presses : list Event :=
  [Call press; Resume 0]
  ++ [Call press; Resume 1]
  ++ [Resume 0; Resume 0]
  ++ [Resume 1; Resume 1]
  ++ repeat (Resume 0) 8
  ++ repeat (Resume 1) 8.

(** A first save on a new vault, answered with "hunter2". *)
Definition first_use : Request :=
  Save (js "x7!Qp") (js "password") Demo.hunter2.

(** Two first saves.  The first is made and its dialog answered; the
    call finds no master record, draws a salt and waits for its key.
    The second save is made then and its dialog answered; this call too
    finds no record, draws a salt and waits for its key. *)
Definition both_waiting : list Event :=
  [Call first_use] ++ repeat (Resume 0) 5
  ++ [Call first_use] ++ repeat (Resume 1) 5.

(** The first call gets its key, seals the marker and puts its record;
    then the second does the same. *)
Definition first_write : list Event := repeat (Resume 0) 6.
Definition second_write : list Event := repeat (Resume 1) 6.

(** The first call runs to its end, and then the second. *)
Definition to_the_end : list Event :=
  repeat (Resume 0) 15 ++ repeat (Resume 1) 15.

Definition two_first_uses : list Event :=
  both_waiting ++ first_write ++ second_write ++ to_the_end.

End Race.

(* ================================================================== *)
(** * Running the primitives *)

Section Primitives.

Variable pf : Platform.

Lemma deriveKey_run (passphrase : jsstring) (salt : bytes) (w : World) :
  deriveKey pf passphrase salt w
  = (Ok (derived_key pf passphrase salt),
     after_kdf (vault_kdf_call salt) w).
Proof. reflexivity. Qed.

Lemma valid_derived_key (passphrase : jsstring) (salt : bytes) :
  valid_key (derived_key pf passphrase salt) = true.
Proof. reflexivity. Qed.

Lemma valid_key_encrypt (k : CryptoKey) :
  valid_key k = true ->
  AlgName_eqb (key_algorithm k) AES_GCM
  && has_usage UseEncrypt (key_usages k) = true.
Proof.
  unfold valid_key. intros H.
  apply andb_true_iff in H as [H _]. exact H.
Qed.

Lemma valid_key_decrypt (k : CryptoKey) :
  valid_key k = true ->
  AlgName_eqb (key_algorithm k) AES_GCM
  && has_usage UseDecrypt (key_usages k) = true.
Proof.
  unfold valid_key. intros H.
  apply andb_true_iff in H as [H Hd].
  apply andb_true_iff in H as [Ha _].
  now rewrite Ha, Hd.
Qed.

Lemma aesEncrypt_run (plaintext : jsstring) (k : CryptoKey) (w : World) :
  valid_key k = true ->
  aesEncrypt pf plaintext k w
  = (Ok (next_random pf 12 w,
         gcm_encrypt pf (key_material k) (next_random pf 12 w)
           (Encoding.encode plaintext)),
     set_drawn (drawn w + 12) w).
Proof.
  intros Hk. unfold aesEncrypt, bind, getRandomValues, subtle_encrypt.
  now rewrite (valid_key_encrypt k Hk).
Qed.

Lemma aesDecrypt_run (iv data : bytes) (k : CryptoKey) (w : World) :
  valid_key k = true ->
  aesDecrypt pf iv data k w
  = (match recovered pf k iv data with
     | Some plain => Ok plain
     | None => Throw (DOMException "OperationError")
     end, w).
Proof.
  intros Hk. unfold aesDecrypt, bind, subtle_decrypt, recovered.
  rewrite (valid_key_decrypt k Hk).
  now destruct (gcm_decrypt pf (key_material k) iv data).
Qed.

(** [aesDecrypt] never changes the state, whatever the key. *)
Lemma aesDecrypt_state (iv data : bytes) (k : CryptoKey) (w : World) :
  snd (aesDecrypt pf iv data k w) = w.
Proof.
  unfold aesDecrypt, bind, subtle_decrypt.
  destruct (AlgName_eqb (key_algorithm k) AES_GCM
            && has_usage UseDecrypt (key_usages k)); [|reflexivity].
  now destruct (gcm_decrypt pf (key_material k) iv data).
Qed.

Lemma js_eqb_eq (a b : jsstring) : js_eqb a b = true <-> a = b.
Proof.
  unfold js_eqb. destruct (list_eq_dec Z.eq_dec a b); split;
    intros; congruence.
Qed.

(** [deriveAndVerify] on a vault that has its master record. *)
Lemma deriveAndVerify_initialized
    (passphrase : jsstring) (w : World) (d : Database)
    (record : MasterRecord) :
  db w = Some d ->
  meta_get 1 (meta d) = Some record ->
  deriveAndVerify pf passphrase w
  = (match recovered pf (derived_key pf passphrase (m_salt record))
             (m_iv record) (m_encryptedData record) with
     | Some plain =>
         if js_eqb plain VERIFY_PLAIN
         then Ok (derived_key pf passphrase (m_salt record))
         else Throw (Error "incorrect-password")
     | None => Throw (Error "incorrect-password")
     end,
     after_kdf (vault_kdf_call (m_salt record)) w).
Proof.
  intros Hdb Hrec.
  unfold deriveAndVerify, getMasterRecord, transaction.
  unfold bind at 1. unfold bind at 1. rewrite Hdb. unfold ret at 1.
  cbv beta iota. rewrite Hrec.
  unfold bind at 1. rewrite deriveKey_run.
  unfold try_catch, bind.
  rewrite aesDecrypt_run by apply valid_derived_key.
  destruct (recovered pf _ _ _) as [plain|]; [|reflexivity].
  now destruct (js_eqb plain VERIFY_PLAIN).
Qed.

(** [deriveAndVerify] on a vault without master record. *)
Lemma deriveAndVerify_uninitialized
    (passphrase : jsstring) (w : World) (d : Database) :
  db w = Some d ->
  meta_get 1 (meta d) = None ->
  let salt := next_random pf 32 w in
  let key := derived_key pf passphrase salt in
  let iv := next_random pf 12 (set_drawn (drawn w + 32) w) in
  let data :=
    gcm_encrypt pf (key_material key) iv (Encoding.encode VERIFY_PLAIN) in
  deriveAndVerify pf passphrase w
  = (Ok key,
     set_db (Some (mkDatabase (meta_put (mkMaster 1 salt iv data) (meta d))
                     (history d) (keygen d)))
       (set_drawn (drawn w + 32 + 12)
          (after_kdf (vault_kdf_call salt) w))).
Proof.
  intros Hdb Hrec.
  unfold deriveAndVerify, getMasterRecord, transaction.
  unfold bind at 1. unfold bind at 1. rewrite Hdb. unfold ret at 1.
  cbv beta iota. rewrite Hrec.
  unfold bind at 1. unfold getRandomValues at 1. cbv beta iota.
  unfold bind at 1. rewrite deriveKey_run.
  unfold bind at 1. rewrite aesEncrypt_run by apply valid_derived_key.
  cbv beta iota.
  unfold put_meta, commit, transaction, bind, modify, ret.
  simpl. rewrite Hdb. reflexivity.
Qed.

End Primitives.

(* ================================================================== *)
(** * The async functions left alone *)

Lemma Task_induction (A : Type) (P : Task A -> Prop) :
  (forall r, P (Settled r)) ->
  (forall piece, (forall w, P (fst (piece w))) -> P (Suspended piece)) ->
  forall t, P t.
Proof.
  intros HS HP. fix IH 1. intros [r | piece].
  - apply HS.
  - apply HP. intros w. apply IH.
Qed.

Lemma alone_settled_then {A B : Type} (m : Async A) (k : Res A -> Async B)
    (w : World) :
  alone (settled_then m k) w = (let (r, w') := alone m w in alone (k r) w').
Proof.
  unfold alone, settled_then. destruct (m w) as [t w0]. revert w0.
  induction t as [r | piece IH] using Task_induction; intros w0.
  - reflexivity.
  - cbn [on_settled finish]. specialize (IH w0).
    destruct (piece w0) as [t' w1]. exact (IH w1).
Qed.

Section Agrees.

Lemma agrees_sync {A : Type} (m : M A) : agrees (sync m) m.
Proof. intros w. unfold alone, sync. now destruct (m w). Qed.

Lemma agrees_promised {A : Type} (m : M A) : agrees (promised m) m.
Proof. intros w. unfold alone, promised. cbn. now destruct (m w). Qed.

Lemma agrees_await {A : Type} (m : Async A) (m' : M A) :
  agrees m m' -> agrees (await m) m'.
Proof.
  intros H w. unfold await. rewrite alone_settled_then, H.
  now destruct (m' w).
Qed.

Lemma agrees_abind {A B : Type} (m : Async A) (k : A -> Async B)
    (m' : M A) (k' : A -> M B) :
  agrees m m' -> (forall a, agrees (k a) (k' a)) ->
  agrees (abind m k) (bind m' k').
Proof.
  intros Hm Hk w. unfold abind, bind. rewrite alone_settled_then, Hm.
  destruct (m' w) as [[a | e] w1]; [apply Hk | apply agrees_sync].
Qed.

Lemma agrees_atry {A : Type} (m : Async A) (h : JsError -> Async A)
    (m' : M A) (h' : JsError -> M A) :
  agrees m m' -> (forall e, agrees (h e) (h' e)) ->
  agrees (atry m h) (try_catch m' h').
Proof.
  intros Hm Hh w. unfold atry, try_catch. rewrite alone_settled_then, Hm.
  destruct (m' w) as [[a | e] w1]; [apply agrees_sync | apply Hh].
Qed.

Lemma agrees_same {A : Type} (m : Async A) (m1 m2 : M A) :
  agrees m m1 -> (forall w, m1 w = m2 w) -> agrees m m2.
Proof. intros H E w. now rewrite H. Qed.

End Agrees.

(** Splits an [async] function along the structure it shares with the
    function run without interruption. *)
Ltac agrees_split known :=
  repeat first
    [ solve [known]
    | apply agrees_sync
    | apply agrees_promised
    | apply agrees_await
    | apply agrees_abind; [| intros ?]
    | apply agrees_atry; [| intros ?]
    | match goal with
      | |- agrees (match ?x with _ => _ end) _ => destruct x
      | |- agrees (if ?x then _ else _) _ => destruct x
      | |- agrees (let '(_, _) := ?x in _) _ => destruct x
      end ].

Section AsyncAlone.

Variable pf : Platform.

Lemma agrees_deriveKey (p : jsstring) (salt : bytes) :
  agrees (Async.deriveKey pf p salt) (deriveKey pf p salt).
Proof. unfold Async.deriveKey, deriveKey. agrees_split fail. Qed.

Lemma agrees_aesEncrypt (s : jsstring) (k : CryptoKey) :
  agrees (Async.aesEncrypt pf s k) (aesEncrypt pf s k).
Proof. unfold Async.aesEncrypt, aesEncrypt. agrees_split fail. Qed.

Lemma agrees_aesDecrypt (iv data : bytes) (k : CryptoKey) :
  agrees (Async.aesDecrypt pf iv data k) (aesDecrypt pf iv data k).
Proof. unfold Async.aesDecrypt, aesDecrypt. agrees_split fail. Qed.

(** A wait that brings nothing: the completion of a transaction, or the
    answer of the dialog, which the model is given beforehand. *)
Lemma agrees_wait {A : Type} (m : Async A) (m' : M A) :
  agrees m m' -> agrees (abind (await (promised (ret tt))) (fun _ => m)) m'.
Proof.
  intros H.
  exact (agrees_abind _ _ (ret tt) (fun _ => m')
           (agrees_await _ _ (agrees_promised _)) (fun _ => H)).
Qed.

Lemma agrees_deriveAndVerify (p : jsstring) :
  agrees (Async.deriveAndVerify pf p) (deriveAndVerify pf p).
Proof.
  unfold Async.deriveAndVerify, deriveAndVerify, Async.getMasterRecord.
  apply agrees_abind; [agrees_split fail|].
  intros [record|].
  - agrees_split ltac:(first [apply agrees_deriveKey | apply agrees_aesDecrypt]).
  - apply agrees_abind; [agrees_split fail|]. intros salt.
    apply agrees_abind; [agrees_split ltac:(apply agrees_deriveKey)|].
    intros key.
    apply agrees_abind; [agrees_split ltac:(apply agrees_aesEncrypt)|].
    intros [iv data].
    apply agrees_abind; [agrees_split fail|]. intros _.
    apply agrees_wait, agrees_sync.
Qed.

Lemma agrees_getMasterKey (r : PromptReply) :
  agrees (Async.getMasterKey pf r) (getMasterKey pf r).
Proof.
  unfold Async.getMasterKey, getMasterKey.
  apply agrees_abind; [agrees_split fail|].
  intros [k|]; [agrees_split fail|].
  apply agrees_abind; [agrees_split fail|]. intros ui.
  destruct (negb ui); [agrees_split fail|].
  assert (H : agrees (Async.onPassphrase pf r) (onPassphrase pf r)).
  { unfold Async.onPassphrase, onPassphrase.
    agrees_split ltac:(apply agrees_deriveAndVerify). }
  unfold Async.showPassphraseModal.
  intros w. rewrite <- H. unfold abind. rewrite alone_settled_then.
  reflexivity.
Qed.

Lemma agrees_enforceLimit : agrees Async.enforceLimit enforceLimit.
Proof.
  unfold Async.enforceLimit, enforceLimit.
  eapply agrees_same.
  - apply agrees_abind; [agrees_split fail|]. intros all.
    instantiate (1 := fun all =>
      if MAX_HISTORY <=? Z.of_nat (length all)
      then forEach (slice0 (Z.of_nat (length all) - MAX_HISTORY + 1)
                      (sort_by_id all))
             (fun item => delete_history (e_id item))
      else ret tt).
    cbv beta. agrees_split fail.
  - intros w. unfold bind, transaction, ret. now destruct (db w).
Qed.

Lemma agrees_addToHistory (value type : jsstring) (r : PromptReply) :
  agrees (Async.addToHistory pf value type r) (addToHistory pf value type r).
Proof.
  unfold Async.addToHistory, addToHistory.
  destruct (js_falsy value); [apply agrees_sync|].
  apply agrees_abind; [agrees_split fail|].
  intros [d|]; [|apply agrees_sync].
  apply agrees_abind; [agrees_split ltac:(apply agrees_getMasterKey)|].
  intros [key|]; [|apply agrees_sync].
  apply agrees_atry; [|intros e; apply agrees_sync].
  apply agrees_abind; [agrees_split ltac:(apply agrees_enforceLimit)|].
  intros _.
  apply agrees_abind; [agrees_split ltac:(apply agrees_aesEncrypt)|].
  intros [iv data].
  apply agrees_abind; [agrees_split fail|]. intros timestamp.
  apply agrees_abind; [agrees_split fail|]. intros _.
  apply agrees_wait, agrees_sync.
Qed.

Lemma agrees_viewItem (id : Z) (r : PromptReply) :
  agrees (Async.viewItem pf id r) (viewItem pf id r).
Proof.
  unfold Async.viewItem, viewItem.
  apply agrees_abind; [agrees_split ltac:(apply agrees_getMasterKey)|].
  intros [key|]; [|apply agrees_sync].
  apply agrees_atry; [|intros e; apply agrees_sync].
  eapply agrees_same.
  - apply agrees_abind; [agrees_split fail|]. intros item.
    instantiate (1 := fun item =>
      match item with
      | None => toast "Item not found." false ;; ret None
      | Some item =>
          plain <- aesDecrypt pf (e_iv item) (e_encryptedData item) key ;;
          ret (Some plain)
      end).
    cbv beta. agrees_split ltac:(apply agrees_aesDecrypt).
  - intros w. unfold bind, transaction, ret. now destruct (db w).
Qed.

Lemma agrees_deleteItem (id : Z) (r : PromptReply) :
  agrees (Async.deleteItem pf id r) (deleteItem pf id r).
Proof.
  unfold Async.deleteItem, deleteItem.
  agrees_split ltac:(apply agrees_getMasterKey).
Qed.

(** A request left alone is the request run without interruption. *)
Lemma agrees_request (q : Request) : agrees (request pf q) (perform pf q).
Proof.
  destruct q; unfold request, perform.
  - apply agrees_addToHistory.
  - apply agrees_abind; [apply agrees_viewItem | intros; apply agrees_sync].
  - apply agrees_deleteItem.
Qed.

Lemma in_turn_run (qs : list Request) (w : World) :
  in_turn pf qs w = run pf qs w.
Proof.
  revert w. induction qs as [|q qs IH]; intros w; [reflexivity|].
  simpl. now rewrite agrees_request, IH.
Qed.

End AsyncAlone.

(* ================================================================== *)
(** * Relations kept by every step *)

Section Steps.

Variable R : World -> World -> Prop.
Hypothesis R_refl : forall w, R w w.
Hypothesis R_trans : forall a b c, R a b -> R b c -> R a c.

Lemma steps_ret {A : Type} (a : A) : steps R (ret a).
Proof. intros w. apply R_refl. Qed.

Lemma steps_throw {A : Type} (e : JsError) : steps R (@throw A e).
Proof. intros w. apply R_refl. Qed.

Lemma steps_gets {A : Type} (f : World -> A) : steps R (gets f).
Proof. intros w. apply R_refl. Qed.

Lemma steps_transaction : steps R transaction.
Proof. intros w. unfold transaction. destruct (db w); apply R_refl. Qed.

Lemma steps_bind {A B : Type} (m : M A) (k : A -> M B) :
  steps R m -> (forall a, steps R (k a)) -> steps R (bind m k).
Proof.
  intros Hm Hk w. unfold bind. specialize (Hm w).
  destruct (m w) as [[a|e] w1]; simpl in *.
  - eapply R_trans; [exact Hm | apply Hk].
  - exact Hm.
Qed.

Lemma steps_try_catch {A : Type} (m : M A) (h : JsError -> M A) :
  steps R m -> (forall e, steps R (h e)) -> steps R (try_catch m h).
Proof.
  intros Hm Hh w. unfold try_catch. specialize (Hm w).
  destruct (m w) as [[a|e] w1]; simpl in *.
  - exact Hm.
  - eapply R_trans; [exact Hm | apply Hh].
Qed.

Lemma steps_forEach {A : Type} (l : list A) (f : A -> M unit) :
  (forall x, steps R (f x)) -> steps R (forEach l f).
Proof.
  intros Hf. induction l as [|x l IH]; simpl.
  - apply steps_ret.
  - apply steps_bind; [apply Hf | intros _; exact IH].
Qed.

Lemma steps_modify (f : World -> World) :
  (forall w, R w (f w)) -> steps R (modify f).
Proof. intros Hf w. apply Hf. Qed.

Lemma steps_commit (f : Database -> Database) :
  (forall w d, db w = Some d -> R w (set_db (Some (f d)) w)) ->
  steps R (commit f).
Proof.
  intros Hf w. unfold commit, bind, transaction, modify.
  destruct (db w) as [d|] eqn:E; simpl; [now apply Hf | apply R_refl].
Qed.

End Steps.

(** Splits a computation along its binds, handlers and case analyses;
    [known] closes the steps that already have a lemma. *)
Ltac steps_split known Hrefl Htrans :=
  repeat first
    [ solve [known]
    | apply (steps_ret _ Hrefl)
    | apply (steps_throw _ Hrefl)
    | apply (steps_gets _ Hrefl)
    | apply (steps_transaction _ Hrefl)
    | apply (steps_bind _ Htrans); [| intros ?]
    | apply (steps_try_catch _ Htrans); [| intros ?]
    | apply (steps_forEach _ Hrefl Htrans); intros ?
    | match goal with
      | |- steps _ (match ?x with _ => _ end) => destruct x
      | |- steps _ (if ?x then _ else _) => destruct x
      | |- steps _ (let '(_, _) := ?x in _) => destruct x
      end ].

Section KdfGrows.

Variable pf : Platform.

Lemma kdf_grows_refl (w : World) : kdf_grows w w.
Proof. exists []. now rewrite app_nil_r. Qed.

Lemma kdf_grows_trans (a b c : World) :
  kdf_grows a b -> kdf_grows b c -> kdf_grows a c.
Proof.
  intros [l1 [E1 F1]] [l2 [E2 F2]]. exists (l1 ++ l2). split.
  - now rewrite E2, E1, app_assoc.
  - apply Forall_app. now split.
Qed.

Lemma kdf_grows_same (w w' : World) :
  kdf_calls w' = kdf_calls w -> kdf_grows w w'.
Proof. intros E. exists []. now rewrite app_nil_r. Qed.

Lemma strong_vault_kdf_call (salt : bytes) : strong_kdf (vault_kdf_call salt).
Proof.
  unfold strong_kdf, vault_kdf_call, PBKDF2_ITERS. simpl.
  repeat split. lia.
Qed.

Lemma kdf_grows_deriveKey (p : jsstring) (salt : bytes) :
  steps kdf_grows (deriveKey pf p salt).
Proof.
  intros w. rewrite deriveKey_run. simpl.
  exists [vault_kdf_call salt]. split; [reflexivity|].
  constructor; [apply strong_vault_kdf_call | constructor].
Qed.

Lemma kdf_grows_aesDecrypt (iv data : bytes) (k : CryptoKey) :
  steps kdf_grows (aesDecrypt pf iv data k).
Proof.
  intros w. rewrite aesDecrypt_state. apply kdf_grows_refl.
Qed.

Lemma kdf_grows_subtle_encrypt (iv data : bytes) (k : CryptoKey) :
  steps kdf_grows (subtle_encrypt pf iv k data).
Proof.
  intros w. unfold subtle_encrypt.
  destruct (_ && _); apply kdf_grows_refl.
Qed.

Ltac kdf_known :=
  first
    [ apply kdf_grows_deriveKey
    | apply kdf_grows_aesDecrypt
    | apply kdf_grows_subtle_encrypt
    | intros ?; apply kdf_grows_same; reflexivity
    | apply steps_commit; [apply kdf_grows_refl |];
      intros; apply kdf_grows_same; reflexivity ].

Lemma kdf_grows_aesEncrypt (s : jsstring) (k : CryptoKey) :
  steps kdf_grows (aesEncrypt pf s k).
Proof.
  unfold aesEncrypt.
  steps_split kdf_known kdf_grows_refl kdf_grows_trans.
Qed.

Lemma kdf_grows_deriveAndVerify (p : jsstring) :
  steps kdf_grows (deriveAndVerify pf p).
Proof.
  unfold deriveAndVerify, getMasterRecord, put_meta.
  steps_split ltac:(first [kdf_known | apply kdf_grows_aesEncrypt])
    kdf_grows_refl kdf_grows_trans.
Qed.

Lemma kdf_grows_getMasterKey (r : PromptReply) :
  steps kdf_grows (getMasterKey pf r).
Proof.
  unfold getMasterKey, onPassphrase, getCachedKey, setCachedKey, toast.
  steps_split ltac:(first [kdf_known | apply kdf_grows_deriveAndVerify])
    kdf_grows_refl kdf_grows_trans.
Qed.

Lemma kdf_grows_perform (q : Request) : steps kdf_grows (perform pf q).
Proof.
  destruct q; unfold perform, addToHistory, viewItem, deleteItem,
    enforceLimit, add_history, delete_history, clearKeyCache, toast.
  all: steps_split
         ltac:(first [kdf_known | apply kdf_grows_getMasterKey
                     | apply kdf_grows_aesEncrypt])
         kdf_grows_refl kdf_grows_trans.
Qed.

Lemma kdf_grows_run (qs : list Request) (w : World) :
  kdf_grows w (run pf qs w).
Proof.
  revert w. induction qs as [|q qs IH]; intros w; simpl.
  - apply kdf_grows_refl.
  - eapply kdf_grows_trans; [apply kdf_grows_perform | apply IH].
Qed.

End KdfGrows.

Section MetaKept.

Variable pf : Platform.

Lemma meta_kept_refl (w : World) : meta_kept w w.
Proof. intros _. reflexivity. Qed.

Lemma meta_kept_trans (a b c : World) :
  meta_kept a b -> meta_kept b c -> meta_kept a c.
Proof.
  intros Hab Hbc Ha. specialize (Hab Ha).
  rewrite <- Hab. apply Hbc. now rewrite Hab.
Qed.

Lemma meta_kept_same (w w' : World) :
  master_rows w' = master_rows w -> meta_kept w w'.
Proof. intros E _. exact E. Qed.

Lemma meta_kept_deriveAndVerify (p : jsstring) :
  steps meta_kept (deriveAndVerify pf p).
Proof.
  intros w [r Hr]. unfold master_rows in *.
  destruct (db w) as [d|] eqn:Hdb; [|discriminate].
  rewrite (deriveAndVerify_initialized pf p w d r Hdb Hr). simpl.
  now rewrite Hdb.
Qed.

Ltac meta_known :=
  first
    [ apply meta_kept_deriveAndVerify
    | intros ?; rewrite aesDecrypt_state; apply meta_kept_refl
    | intros ?; apply meta_kept_same; reflexivity
    | apply steps_commit; [apply meta_kept_refl |];
      intros; apply meta_kept_same; unfold master_rows; simpl;
      match goal with H : db _ = Some _ |- _ => now rewrite H end ].

Lemma meta_kept_aesEncrypt (s : jsstring) (k : CryptoKey) :
  steps meta_kept (aesEncrypt pf s k).
Proof.
  unfold aesEncrypt, subtle_encrypt.
  steps_split meta_known meta_kept_refl meta_kept_trans.
Qed.

Lemma meta_kept_getMasterKey (r : PromptReply) :
  steps meta_kept (getMasterKey pf r).
Proof.
  unfold getMasterKey, onPassphrase, getCachedKey, setCachedKey, toast.
  steps_split meta_known meta_kept_refl meta_kept_trans.
Qed.

Lemma meta_kept_perform (q : Request) : steps meta_kept (perform pf q).
Proof.
  destruct q; unfold perform, addToHistory, viewItem, deleteItem,
    enforceLimit, add_history, delete_history, clearKeyCache, toast.
  all: steps_split
         ltac:(first [meta_known | apply meta_kept_getMasterKey
                     | apply meta_kept_aesEncrypt])
         meta_kept_refl meta_kept_trans.
Qed.

Lemma meta_kept_run (qs : list Request) (w : World) :
  meta_kept w (run pf qs w).
Proof.
  revert w. induction qs as [|q qs IH]; intros w; simpl.
  - apply meta_kept_refl.
  - eapply meta_kept_trans; [apply meta_kept_perform | apply IH].
Qed.

End MetaKept.

(* ================================================================== *)
(** * The master verification protocol *)

Lemma meta_get_put (r : MasterRecord) (l : list MasterRecord) :
  meta_get (m_id r) (meta_put r l) = Some r.
Proof.
  unfold meta_get. induction l as [|x l IH]; simpl.
  - now rewrite Z.eqb_refl.
  - destruct (m_id x =? m_id r) eqn:E; simpl.
    + now rewrite Z.eqb_refl.
    + destruct (m_id r <? m_id x); simpl.
      * now rewrite Z.eqb_refl.
      * now rewrite E.
Qed.

(** The first-save scenario: the entry saved under "hunter2" is revealed
    with the same passphrase. *)
Example first_save_is_revealed :
  fst (viewItem Demo.platform 1 Demo.hunter2 Demo.locked)
  = Ok (Some (js "Tr0ub4dor&3")).
Proof. reflexivity. Qed.

(** The wrong-password scenario: nothing is revealed, the user is told,
    and the entry is still there. *)
Example wrong_password_reveals_nothing :
  fst (viewItem Demo.platform 1 Demo.mistyped Demo.locked) = Ok None
  /\ toasts (snd (viewItem Demo.platform 1 Demo.mistyped Demo.locked))
     = toasts Demo.locked ++ [("Wrong master password."%string, false)]
  /\ rows (snd (viewItem Demo.platform 1 Demo.mistyped Demo.locked))
     = rows Demo.locked.
Proof. repeat split. Qed.

(** C1. On an initialized vault [deriveAndVerify] returns the derived key
    exactly when the stored verification ciphertext opens under that key
    to the marker.  When the tag does not validate, and when the text
    that comes out is not the marker, it throws the one error
    'incorrect-password' and leaves the same state behind, so the caller
    cannot tell the two causes apart. *)
Theorem C1_deriveAndVerify_verdict :
  forall (pf : Platform) (passphrase : jsstring) (w : World)
         (d : Database) (record : MasterRecord),
    db w = Some d ->
    meta_get 1 (meta d) = Some record ->
    let key := derived_key pf passphrase (m_salt record) in
    let opened :=
      gcm_decrypt pf (key_material key) (m_iv record)
        (m_encryptedData record) in
    let after := after_kdf (vault_kdf_call (m_salt record)) w in
    (forall buf,
        opened = Some buf -> Encoding.decode buf = VERIFY_PLAIN ->
        deriveAndVerify pf passphrase w = (Ok key, after))
    /\ (opened = None ->
        deriveAndVerify pf passphrase w
        = (Throw (Error "incorrect-password"), after))
    /\ (forall buf,
        opened = Some buf -> Encoding.decode buf <> VERIFY_PLAIN ->
        deriveAndVerify pf passphrase w
        = (Throw (Error "incorrect-password"), after))
    /\ (forall k,
        fst (deriveAndVerify pf passphrase w) = Ok k ->
        k = key
        /\ exists buf, opened = Some buf /\ Encoding.decode buf = VERIFY_PLAIN).
Proof.
  intros pf passphrase w d record Hdb Hrec key opened after.
  pose proof (deriveAndVerify_initialized pf passphrase w d record Hdb Hrec)
    as Hrun.
  unfold recovered in Hrun. fold key in Hrun. fold opened in Hrun.
  fold after in Hrun.
  repeat split.
  - intros buf Ho Hd. rewrite Hrun, Ho. simpl.
    apply js_eqb_eq in Hd. now rewrite Hd.
  - intros Ho. now rewrite Hrun, Ho.
  - intros buf Ho Hd. rewrite Hrun, Ho. simpl.
    destruct (js_eqb (Encoding.decode buf) VERIFY_PLAIN) eqn:E;
      [|reflexivity].
    apply js_eqb_eq in E. contradiction.
  - rewrite Hrun in H. simpl in H.
    destruct opened as [buf|]; simpl in H; [|discriminate].
    destruct (js_eqb (Encoding.decode buf) VERIFY_PLAIN); congruence.
  - rewrite Hrun in H. simpl in H.
    destruct opened as [buf|]; simpl in H; [|discriminate].
    destruct (js_eqb (Encoding.decode buf) VERIFY_PLAIN) eqn:E;
      [|discriminate].
    exists buf. split; [reflexivity | now apply js_eqb_eq].
Qed.

(** C1 on the demonstration vault: a wrong passphrase is rejected, the
    right one returns the key. *)
Lemma C1_deriveAndVerify_verdict_witness :
  db Demo.locked = Some Demo.first_db
  /\ meta_get 1 (meta Demo.first_db) = Some Demo.master
  /\ fst (deriveAndVerify Demo.platform (js "wrong") Demo.locked)
     = Throw (Error "incorrect-password")
  /\ fst (deriveAndVerify Demo.platform (js "hunter2") Demo.locked)
     = Ok (derived_key Demo.platform (js "hunter2") (m_salt Demo.master)).
Proof.
  split; [reflexivity|]. split; [reflexivity|]. split.
  - destruct (C1_deriveAndVerify_verdict Demo.platform (js "wrong")
                Demo.locked Demo.first_db Demo.master eq_refl eq_refl)
      as (_ & Htag & _).
    rewrite Htag; reflexivity.
  - destruct (C1_deriveAndVerify_verdict Demo.platform (js "hunter2")
                Demo.locked Demo.first_db Demo.master eq_refl eq_refl)
      as (Hok & _).
    rewrite (Hok (Encoding.encode VERIFY_PLAIN)); reflexivity.
Defined.

(** C10. When the master record exists, [deriveAndVerify] leaves the
    database exactly as it was, the [meta] store and every row of the
    history, whether it returns a key or throws 'incorrect-password'. *)
Theorem C10_deriveAndVerify_store_unchanged :
  forall (pf : Platform) (passphrase : jsstring) (w : World)
         (d : Database) (record : MasterRecord),
    db w = Some d ->
    meta_get 1 (meta d) = Some record ->
    db (snd (deriveAndVerify pf passphrase w)) = db w
    /\ (fst (deriveAndVerify pf passphrase w)
        = Ok (derived_key pf passphrase (m_salt record))
        \/ fst (deriveAndVerify pf passphrase w)
           = Throw (Error "incorrect-password")).
Proof.
  intros pf passphrase w d record Hdb Hrec.
  rewrite (deriveAndVerify_initialized pf passphrase w d record Hdb Hrec).
  simpl. split; [reflexivity|].
  destruct (recovered pf _ _ _) as [plain|]; [|now right].
  destruct (js_eqb plain VERIFY_PLAIN); [now left | now right].
Qed.

(** C10 on the demonstration vault, for a rejected and an accepted
    passphrase. *)
Lemma C10_deriveAndVerify_store_unchanged_witness :
  db Demo.locked = Some Demo.first_db
  /\ meta_get 1 (meta Demo.first_db) = Some Demo.master
  /\ db (snd (deriveAndVerify Demo.platform (js "wrong") Demo.locked))
     = db Demo.locked
  /\ db (snd (deriveAndVerify Demo.platform (js "hunter2") Demo.locked))
     = db Demo.locked.
Proof.
  split; [reflexivity|]. split; [reflexivity|]. split.
  - apply (C10_deriveAndVerify_store_unchanged Demo.platform (js "wrong")
             Demo.locked Demo.first_db Demo.master eq_refl eq_refl).
  - apply (C10_deriveAndVerify_store_unchanged Demo.platform (js "hunter2")
             Demo.locked Demo.first_db Demo.master eq_refl eq_refl).
Defined.

Lemma length_next_random (pf : Platform) (n : nat) (w : World) :
  length (next_random pf n w) = n.
Proof. unfold next_random. now rewrite length_map, length_seq. Qed.

(* ================================================================== *)
(** * Key derivation parameters *)

Lemma new_kdf_calls_grows (w w' : World) :
  kdf_grows w w' -> Forall strong_kdf (new_kdf_calls w w').
Proof.
  intros [l [E F]]. unfold new_kdf_calls.
  now rewrite E, skipn_app, skipn_all, Nat.sub_diag.
Qed.

Lemma beta_deriveKeyFromPassphrase_run
    (pf : Platform) (passphrase : jsstring) (salt : bytes) (w : World) :
  Beta.deriveKeyFromPassphrase pf passphrase salt w
  = (Ok (Some (beta_derived_key pf passphrase salt, salt)),
     after_kdf (beta_kdf_call salt) w).
Proof. reflexivity. Qed.

(** C4, as the code has it.  Every derivation of the vault module goes
    through [deriveKey], which runs PBKDF2 with 250,000 iterations of
    SHA-512 and yields a 256-bit AES-GCM key; this holds for the
    derivations of [deriveAndVerify] and of every sequence of requests,
    on every path.  The beta module's [deriveKeyFromPassphrase] runs
    PBKDF2 with 100,000 iterations of SHA-256 (also for a 256-bit AES-GCM
    key). *)
Theorem C4_vault_derivations_strong :
  forall pf : Platform,
    (forall passphrase salt w,
        deriveKey pf passphrase salt w
        = (Ok (derived_key pf passphrase salt),
           after_kdf (vault_kdf_call salt) w)
        /\ strong_kdf (vault_kdf_call salt)
        /\ key_material (derived_key pf passphrase salt)
           = pbkdf2 pf SHA_512 250000 salt (Encoding.encode passphrase) 256
        /\ key_algorithm (derived_key pf passphrase salt) = AES_GCM
        /\ key_length (derived_key pf passphrase salt) = 256)
    /\ (forall passphrase w,
           Forall strong_kdf
             (new_kdf_calls w (snd (deriveAndVerify pf passphrase w))))
    /\ (forall qs w, Forall strong_kdf (new_kdf_calls w (run pf qs w)))
    /\ (forall passphrase salt w,
           Beta.deriveKeyFromPassphrase pf passphrase salt w
           = (Ok (Some (beta_derived_key pf passphrase salt, salt)),
              after_kdf (beta_kdf_call salt) w)
           /\ new_kdf_calls w
                (snd (Beta.deriveKeyFromPassphrase pf passphrase salt w))
              = [mkKdfCall (mkPbkdf2 salt 100000 SHA_256)
                           (mkDerived AES_GCM 256)]).
Proof.
  intros pf. split; [|split; [|split]].
  - intros passphrase salt w.
    split; [apply deriveKey_run|].
    split; [apply strong_vault_kdf_call|].
    repeat split.
  - intros passphrase w. apply new_kdf_calls_grows.
    apply kdf_grows_deriveAndVerify.
  - intros qs w. apply new_kdf_calls_grows. apply kdf_grows_run.
  - intros passphrase salt w.
    rewrite beta_deriveKeyFromPassphrase_run. split; [reflexivity|].
    unfold new_kdf_calls. simpl.
    now rewrite skipn_app, skipn_all, Nat.sub_diag.
Qed.

(** Against C4 as stated: the beta module derives with 100,000
    iterations of SHA-256, below what is asked of every derivation of
    the program. *)
Lemma C4_beta_derivation_is_weaker :
  ~ Forall strong_kdf
      (new_kdf_calls fresh_world
         (snd (Beta.deriveKeyFromPassphrase Demo.platform (js "hunter2")
                 [1; 2; 3; 4; 5; 6; 7; 8; 9; 10; 11; 12; 13; 14; 15; 16]
                 fresh_world))).
Proof.
  intros H. inversion H as [|c l [Hiter _] _]; subst.
  simpl in Hiter. unfold Beta.PBKDF2_ITERATIONS in Hiter. lia.
Qed.

(* ================================================================== *)
(** * The session key cache *)

Lemma getCachedKey_run (pf : Platform) (w : World) :
  getCachedKey pf w
  = match _cachedKey w with
    | None => (Ok None, w)
    | Some k =>
        (Ok (if clock pf (ticks w) <? to_number (_keyExpiry w)
             then Some k else None),
         set_ticks (S (ticks w)) w)
    end.
Proof.
  unfold getCachedKey, bind, gets, Date_now, ret.
  destruct (_cachedKey w); [|reflexivity].
  now destruct (clock pf (ticks w) <? to_number (_keyExpiry w)).
Qed.

(** C7. [getCachedKey] returns the cached key exactly when a key is
    cached and the clock reads a time before the stored expiry;
    otherwise it returns [null], just as it does when nothing was ever
    cached.  [setCachedKey] replaces whatever was cached and sets the
    expiry 30 minutes after the time it reads.  [clearKeyCache] empties
    key and expiry whatever they were. *)
Theorem C7_session_key_cache :
  forall (pf : Platform) (w : World),
    cache_paired w ->
    let now := clock pf (ticks w) in
    (forall k,
        fst (getCachedKey pf w) = Ok (Some k)
        <-> (_cachedKey w = Some k
             /\ exists e, _keyExpiry w = Some e /\ now < e))
    /\ (fst (getCachedKey pf w) = Ok None
        <-> ~ (exists k e,
                  _cachedKey w = Some k /\ _keyExpiry w = Some e /\ now < e))
    /\ (fst (getCachedKey pf w) = Ok None ->
        fst (getCachedKey pf w) = fst (getCachedKey pf (set_cache None None w)))
    /\ cache (snd (getCachedKey pf w)) = cache w
    /\ (forall k,
           cache (snd (setCachedKey pf k w))
           = (Some k, Some (now + 30 * 60 * 1000)))
    /\ cache (snd (clearKeyCache w)) = (None, None)
    /\ (forall k, cache_paired (snd (setCachedKey pf k w)))
    /\ cache_paired (snd (clearKeyCache w)).
Proof.
  intros pf w Hpair now.
  rewrite getCachedKey_run.
  unfold setCachedKey, clearKeyCache, bind, Date_now, modify, cache,
    cache_paired in *.
  destruct w as [d ck ke dr ti kc ts ui]. simpl in *. subst now.
  destruct ck as [k0|]; destruct ke as [e0|]; simpl.
  - destruct (clock pf ti <? e0) eqn:E; simpl;
      [apply Z.ltb_lt in E | apply Z.ltb_ge in E].
    + split.
      { intros k. split.
        - intros H. inversion H; subst. eauto.
        - intros [H _]. congruence. }
      split.
      { split; [discriminate|]. intros H. exfalso. apply H. eauto. }
      split; [discriminate|].
      repeat (split; [try reflexivity; intros; reflexivity|]).
      split; [intros k|]; split; (discriminate || auto).
    + split.
      { intros k. split; [discriminate|].
        intros [_ [e [He Hlt]]]. inversion He; subst. lia. }
      split.
      { split; [|reflexivity].
        intros _ [k [e [_ [He Hlt]]]]. inversion He; subst. lia. }
      split; [reflexivity|].
      repeat (split; [try reflexivity; intros; reflexivity|]).
      split; [intros k|]; split; (discriminate || auto).
  - destruct Hpair as [_ Hp]. specialize (Hp eq_refl). discriminate.
  - destruct Hpair as [Hp _]. specialize (Hp eq_refl). discriminate.
  - split.
    { intros k. split; [discriminate|]. intros [H _]. discriminate. }
    split.
    { split; [|reflexivity]. intros _ [k [e [H _]]]. discriminate. }
    split; [reflexivity|].
    repeat (split; [try reflexivity; intros; reflexivity|]).
    split; [intros k|]; split; (discriminate || auto).
Qed.

(** C7 on the demonstration vault, whose session is remembered. *)
Lemma C7_session_key_cache_witness :
  cache_paired Demo.first_save
  /\ fst (getCachedKey Demo.platform Demo.first_save)
     = Ok (Some (derived_key Demo.platform (js "hunter2")
                   (m_salt Demo.master)))
  /\ cache (snd (clearKeyCache Demo.first_save)) = (None, None).
Proof.
  assert (Hp : cache_paired Demo.first_save)
    by (split; intros H; discriminate H).
  split; [exact Hp|].
  destruct (C7_session_key_cache Demo.platform Demo.first_save Hp)
    as (_ & _ & _ & _ & _ & Hclear & _).
  split; [reflexivity | exact Hclear].
Defined.

(* ================================================================== *)
(** * The entry cipher: nonces *)

Section DrawnGrows.

Variable pf : Platform.

Lemma drawn_grows_refl (w : World) : drawn_grows w w.
Proof. unfold drawn_grows. lia. Qed.

Lemma drawn_grows_trans (a b c : World) :
  drawn_grows a b -> drawn_grows b c -> drawn_grows a c.
Proof. unfold drawn_grows. lia. Qed.

Ltac drawn_known :=
  first
    [ intros ?; rewrite aesDecrypt_state; apply drawn_grows_refl
    | intros ?; unfold drawn_grows; simpl; lia
    | apply steps_commit; [apply drawn_grows_refl |];
      intros; unfold drawn_grows; simpl; lia ].

Lemma drawn_grows_deriveKey (p : jsstring) (salt : bytes) :
  steps drawn_grows (deriveKey pf p salt).
Proof. intros w. rewrite deriveKey_run. unfold drawn_grows. simpl. lia. Qed.

Lemma drawn_grows_aesEncrypt (s : jsstring) (k : CryptoKey) :
  steps drawn_grows (aesEncrypt pf s k).
Proof.
  unfold aesEncrypt, subtle_encrypt.
  steps_split drawn_known drawn_grows_refl drawn_grows_trans.
Qed.

Lemma drawn_grows_deriveAndVerify (p : jsstring) :
  steps drawn_grows (deriveAndVerify pf p).
Proof.
  unfold deriveAndVerify, getMasterRecord, put_meta.
  steps_split
    ltac:(first [drawn_known | apply drawn_grows_aesEncrypt
                | apply drawn_grows_deriveKey])
    drawn_grows_refl drawn_grows_trans.
Qed.

Lemma drawn_grows_getMasterKey (r : PromptReply) :
  steps drawn_grows (getMasterKey pf r).
Proof.
  unfold getMasterKey, onPassphrase, getCachedKey, setCachedKey, toast.
  steps_split
    ltac:(first [drawn_known | apply drawn_grows_deriveAndVerify])
    drawn_grows_refl drawn_grows_trans.
Qed.

Lemma drawn_grows_perform (q : Request) : steps drawn_grows (perform pf q).
Proof.
  destruct q; unfold perform, addToHistory, viewItem, deleteItem,
    enforceLimit, add_history, delete_history, clearKeyCache, toast.
  all: steps_split
         ltac:(first [drawn_known | apply drawn_grows_getMasterKey
                     | apply drawn_grows_aesEncrypt])
         drawn_grows_refl drawn_grows_trans.
Qed.

Lemma drawn_grows_run (qs : list Request) (w : World) :
  drawn_grows w (run pf qs w).
Proof.
  revert w. induction qs as [|q qs IH]; intros w; simpl.
  - apply drawn_grows_refl.
  - eapply drawn_grows_trans; [apply drawn_grows_perform | apply IH].
Qed.

End DrawnGrows.

(** C6. Every call of [aesEncrypt] takes the next 12 octets of the
    random source as its nonce, seals the encoded plaintext under
    exactly that nonce, and returns the nonce next to the ciphertext.
    The nonce is read from the source alone, not from the database or
    the cache, and the octets it used are consumed: whatever requests
    follow, the source is read at later positions only, so no later
    nonce is made of octets an earlier one was made of. *)
Theorem C6_aesEncrypt_fresh_nonce :
  forall (pf : Platform) (plaintext : jsstring) (key : CryptoKey) (w : World),
    valid_key key = true ->
    let iv := map (entropy pf) (seq (drawn w) 12) in
    let after := set_drawn (drawn w + 12) w in
    aesEncrypt pf plaintext key w
    = (Ok (iv, gcm_encrypt pf (key_material key) iv
                 (Encoding.encode plaintext)),
       after)
    /\ length iv = 12%nat
    /\ (forall plaintext' key' w',
           valid_key key' = true -> drawn w' = drawn w ->
           exists data,
             fst (aesEncrypt pf plaintext' key' w') = Ok (iv, data))
    /\ (forall qs i j,
           (i < 12)%nat -> (j < 12)%nat ->
           (drawn w + i <> drawn (run pf qs after) + j)%nat).
Proof.
  intros pf plaintext key w Hk iv after.
  split; [apply (aesEncrypt_run pf plaintext key w Hk)|].
  split; [unfold iv; now rewrite length_map, length_seq|].
  split.
  - intros plaintext' key' w' Hk' Hd.
    rewrite (aesEncrypt_run pf plaintext' key' w' Hk').
    unfold next_random. rewrite Hd. simpl fst. fold iv. eauto.
  - intros qs i j Hi Hj.
    pose proof (drawn_grows_run pf qs after) as Hg.
    unfold drawn_grows, after in Hg. simpl in Hg. fold after in Hg. lia.
Qed.

(** C6 on the demonstration vault: the next nonce is made of the
    octets 56 to 67 of the source. *)
Lemma C6_aesEncrypt_fresh_nonce_witness :
  valid_key (derived_key Demo.platform (js "hunter2") (m_salt Demo.master))
  = true
  /\ fst (aesEncrypt Demo.platform (js "next")
            (derived_key Demo.platform (js "hunter2") (m_salt Demo.master))
            Demo.first_save)
     = Ok ([56; 57; 58; 59; 60; 61; 62; 63; 64; 65; 66; 67],
           gcm_encrypt Demo.platform
             (key_material
                (derived_key Demo.platform (js "hunter2")
                   (m_salt Demo.master)))
             [56; 57; 58; 59; 60; 61; 62; 63; 64; 65; 66; 67]
             (Encoding.encode (js "next"))).
Proof.
  split; [reflexivity|].
  destruct (C6_aesEncrypt_fresh_nonce Demo.platform (js "next")
              (derived_key Demo.platform (js "hunter2") (m_salt Demo.master))
              Demo.first_save eq_refl) as (Hrun & _).
  rewrite Hrun. reflexivity.
Defined.

(* ================================================================== *)
(** * Obtaining the master key *)

(** Looking at the cache only reads the clock. *)
Lemma getCachedKey_frame (pf : Platform) (w : World) :
  snd (getCachedKey pf w) = w
  \/ snd (getCachedKey pf w) = set_ticks (S (ticks w)) w.
Proof.
  rewrite getCachedKey_run. destruct (_cachedKey w); [now right | now left].
Qed.

(** [getMasterKey] when the cache gives no key. *)
Lemma getMasterKey_miss (pf : Platform) (r : PromptReply) (w : World) :
  fst (getCachedKey pf w) = Ok None ->
  getMasterKey pf r w
  = (if negb (uiLoaded (snd (getCachedKey pf w)))
     then toast "UI module not loaded." false ;; ret None
     else onPassphrase pf r) (snd (getCachedKey pf w)).
Proof.
  intros H. unfold getMasterKey. unfold bind at 1.
  destruct (getCachedKey pf w) as [res w1]. simpl in *. subst res.
  reflexivity.
Qed.

(** [getMasterKey] when no live key is cached and the dialog is
    dismissed: no key, and nothing but the clock and the toasts moved. *)
Lemma getMasterKey_cancelled (pf : Platform) (r : PromptReply) (w : World) :
  fst (getCachedKey pf w) = Ok None ->
  no_passphrase r = true ->
  exists w1, getMasterKey pf r w = (Ok None, w1) /\ same_vault w w1.
Proof.
  intros Hmiss Hno. rewrite (getMasterKey_miss pf r w Hmiss).
  pose proof (getCachedKey_frame pf w) as Hframe.
  set (w1 := snd (getCachedKey pf w)) in *.
  assert (Hsame : same_vault w w1)
    by (destruct Hframe as [E|E]; rewrite E; now repeat split).
  destruct Hsame as (Hd & Hc & Hk & Hr).
  unfold no_passphrase in Hno. unfold onPassphrase.
  unfold bind, gets, toast, modify, ret.
  destruct (uiLoaded w1); simpl.
  - destruct (reply_passphrase r) as [p|]; simpl.
    + rewrite Hno. eexists. split; [reflexivity|]. now repeat split.
    + eexists. split; [reflexivity|]. now repeat split.
  - eexists. split; [reflexivity|]. now repeat split.
Qed.

(** C8. A save whose passphrase dialog is dismissed (or answered with no
    passphrase) writes nothing: the database, with its [history] and
    [meta] stores, and the session cache are what they were before; no
    key was derived and no random octet drawn. *)
Theorem C8_cancelled_save_writes_nothing :
  forall (pf : Platform) (value type : jsstring) (reply : PromptReply)
         (w : World),
    fst (getCachedKey pf w) = Ok None ->
    no_passphrase reply = true ->
    let w' := snd (addToHistory pf value type reply w) in
    db w' = db w
    /\ rows w' = rows w
    /\ master_rows w' = master_rows w
    /\ cache w' = cache w
    /\ kdf_calls w' = kdf_calls w
    /\ drawn w' = drawn w.
Proof.
  intros pf value type reply w Hmiss Hno w'.
  assert (H : same_vault w w').
  { subst w'. unfold addToHistory.
    destruct (js_falsy value); [now repeat split|].
    unfold bind at 1. unfold gets at 1. cbv beta iota.
    destruct (db w) as [d|] eqn:Hdb; [|now repeat split].
    destruct (getMasterKey_cancelled pf reply w Hmiss Hno)
      as (w1 & Hrun & Hsame).
    unfold bind. rewrite Hrun.
    destruct Hsame as (Hd & Hc & Hk & Hr). now repeat split. }
  destruct H as (Hd & Hc & Hk & Hr).
  unfold rows, master_rows. rewrite Hd. now repeat split.
Qed.

(** C8 on the locked demonstration vault. *)
Lemma C8_cancelled_save_writes_nothing_witness :
  fst (getCachedKey Demo.platform Demo.locked) = Ok None
  /\ no_passphrase Demo.cancelled = true
  /\ db (snd (addToHistory Demo.platform (js "s3cret") (js "password")
                Demo.cancelled Demo.locked))
     = db Demo.locked.
Proof.
  split; [reflexivity|]. split; [reflexivity|].
  apply (C8_cancelled_save_writes_nothing Demo.platform (js "s3cret")
           (js "password") Demo.cancelled Demo.locked eq_refl eq_refl).
Defined.

(** C9. When [viewItem] has a key and the entry, and opening the entry
    under that key fails, the session cache is emptied: the reveal shows
    nothing, the next look at the cache finds no key, and the next
    request can only get a key by having [deriveAndVerify] derive it
    from a passphrase. *)
Theorem C9_failed_reveal_clears_cache :
  forall (pf : Platform) (id : Z) (reply : PromptReply) (w w1 : World)
         (key : CryptoKey) (d : Database) (item : Entry) (e : JsError),
    getMasterKey pf reply w = (Ok (Some key), w1) ->
    db w1 = Some d ->
    history_get id (history d) = Some item ->
    fst (aesDecrypt pf (e_iv item) (e_encryptedData item) key w1) = Throw e ->
    let w' := snd (viewItem pf id reply w) in
    fst (viewItem pf id reply w) = Ok None
    /\ cache w' = (None, None)
    /\ db w' = db w1
    /\ fst (getCachedKey pf w') = Ok None
    /\ (forall r k w'',
           getMasterKey pf r w' = (Ok (Some k), w'') ->
           exists p,
             reply_passphrase r = Some p
             /\ fst (deriveAndVerify pf p w') = Ok k).
Proof.
  intros pf id reply w w1 key d item e Hkey Hdb Hitem Hfail w'.
  assert (Hrun : viewItem pf id reply w
                 = (Ok None,
                    set_toasts
                      (toasts w1
                       ++ [("Decryption failed — wrong password or corrupted entry."%string,
                            false)])
                      (set_cache None None w1))).
  { unfold viewItem. unfold bind at 1. rewrite Hkey.
    unfold try_catch. unfold bind at 1. unfold transaction at 1.
    rewrite Hdb. rewrite Hitem. unfold bind at 1.
    pose proof (aesDecrypt_state pf (e_iv item) (e_encryptedData item)
                  key w1) as Hst.
    destruct (aesDecrypt pf (e_iv item) (e_encryptedData item) key w1)
      as [res w2]. simpl in Hfail, Hst. subst res w2.
    reflexivity. }
  subst w'. rewrite Hrun. simpl fst. simpl snd.
  split; [reflexivity|]. split; [reflexivity|]. split; [reflexivity|].
  split; [reflexivity|].
  intros r k w'' Hnext.
  rewrite getMasterKey_miss in Hnext by reflexivity.
  rewrite getCachedKey_run in Hnext. simpl in Hnext.
  destruct (uiLoaded w1); simpl in Hnext; [|discriminate].
  unfold onPassphrase in Hnext.
  destruct (reply_passphrase r) as [p|]; [|discriminate].
  exists p. split; [reflexivity|].
  destruct (js_falsy p); [discriminate|].
  unfold try_catch in Hnext. unfold bind at 1 in Hnext.
  destruct (deriveAndVerify pf p _) as [[k'|err] w2]; simpl.
  - unfold bind, ret in Hnext.
    destruct (reply_remember r); simpl in Hnext; congruence.
  - unfold bind, toast, modify, ret in Hnext.
    destruct (String.eqb (err_message err) "incorrect-password");
      simpl in Hnext; discriminate.
Qed.

(** C9 on the demonstration vault with a stale key in the cache. *)
Lemma C9_failed_reveal_clears_cache_witness :
  cache Demo.stale <> (None, None)
  /\ fst (viewItem Demo.platform 1 Demo.cancelled Demo.stale) = Ok None
  /\ cache (snd (viewItem Demo.platform 1 Demo.cancelled Demo.stale))
     = (None, None).
Proof.
  split; [discriminate|].
  destruct (C9_failed_reveal_clears_cache Demo.platform 1 Demo.cancelled
              Demo.stale (set_ticks 3 Demo.stale)
              (derived_key Demo.platform (js "other") (m_salt Demo.master))
              Demo.first_db
              (mkEntry 1 (js "password")
                 [44; 45; 46; 47; 48; 49; 50; 51; 52; 53; 54; 55]
                 (e_encryptedData
                    (hd (mkEntry 0 [] [] [] 0) (history Demo.first_db)))
                 1000)
              (DOMException "OperationError")
              eq_refl eq_refl eq_refl eq_refl)
    as (Hres & Hcache & _).
  split; assumption.
Defined.

(* ================================================================== *)
(** * Capacity of the history *)

Section Lists.

Context {A : Type}.

Lemma lastn_all (n : nat) (l : list A) :
  (length l <= n)%nat -> lastn n l = l.
Proof.
  intros H. unfold lastn.
  replace (length l - n)%nat with 0%nat by lia. reflexivity.
Qed.

Lemma length_lastn (n : nat) (l : list A) :
  length (lastn n l) = Nat.min n (length l).
Proof. unfold lastn. rewrite length_skipn. lia. Qed.

Lemma lastn_app_short (n : nat) (l b : list A) :
  (length b <= n)%nat -> lastn n (l ++ b) = lastn (n - length b) l ++ b.
Proof.
  intros H. unfold lastn. rewrite length_app, skipn_app.
  replace (length l + length b - n)%nat
    with (length l - (n - length b))%nat by lia.
  replace (length l - (n - length b) - length l)%nat with 0%nat by lia.
  reflexivity.
Qed.

Lemma lastn_app_long (n : nat) (l b : list A) :
  (n <= length b)%nat -> lastn n (l ++ b) = lastn n b.
Proof.
  intros H. unfold lastn. rewrite length_app, skipn_app.
  rewrite skipn_all2 by lia. simpl. f_equal. lia.
Qed.

Lemma lastn_lastn (n m : nat) (l : list A) :
  (n <= m)%nat -> lastn n (lastn m l) = lastn n l.
Proof.
  intros H. unfold lastn. rewrite length_skipn, skipn_skipn.
  f_equal. lia.
Qed.

(** Trimming a list before appending does not change the last [n]
    elements, as long as the trimmed list keeps [n - 1] of them and the
    appended part is not empty. *)
Lemma lastn_trim (n : nat) (l b : list A) :
  (1 <= length b)%nat ->
  lastn n (lastn (n - 1) l ++ b) = lastn n (l ++ b).
Proof.
  intros Hb. destruct (Nat.le_gt_cases n (length b)) as [Hn|Hn].
  - now rewrite !lastn_app_long.
  - rewrite !lastn_app_short by lia. now rewrite lastn_lastn by lia.
Qed.

End Lists.

Lemma ids_between_bounds (lo hi : Z) (l : list Entry) :
  ids_between lo l hi = true ->
  lo <= hi /\ Forall (fun e => lo <= e_id e < hi) l.
Proof.
  revert lo. induction l as [|e l IH]; intros lo H; simpl in H.
  - apply Z.leb_le in H. split; [exact H | constructor].
  - apply andb_true_iff in H as [Hlo Hrest]. apply Z.leb_le in Hlo.
    destruct (IH _ Hrest) as [Hhi Hall]. split; [lia|].
    constructor; [lia|].
    eapply Forall_impl; [|exact Hall]. simpl. intros x Hx. lia.
Qed.

Lemma ids_between_weaken (lo lo' hi : Z) (l : list Entry) :
  lo' <= lo -> ids_between lo l hi = true -> ids_between lo' l hi = true.
Proof.
  intros Hle H. destruct l as [|e l]; simpl in *.
  - apply Z.leb_le in H. apply Z.leb_le. lia.
  - apply andb_true_iff in H as [Hlo Hrest]. apply Z.leb_le in Hlo.
    rewrite Hrest, andb_true_r. apply Z.leb_le. lia.
Qed.

Lemma ids_between_skipn (k : nat) (lo hi : Z) (l : list Entry) :
  ids_between lo l hi = true -> ids_between lo (skipn k l) hi = true.
Proof.
  revert lo l. induction k as [|k IH]; intros lo l H; [exact H|].
  destruct l as [|e l]; [exact H|]. simpl in *.
  apply andb_true_iff in H as [Hlo Hrest]. apply Z.leb_le in Hlo.
  apply IH. eapply ids_between_weaken; [|exact Hrest]. lia.
Qed.

Lemma ids_between_snoc (lo : Z) (l : list Entry) (e : Entry) :
  ids_between lo l (e_id e) = true ->
  ids_between lo (l ++ [e]) (e_id e + 1) = true.
Proof.
  revert lo. induction l as [|x l IH]; intros lo H; simpl in *.
  - rewrite H. simpl. apply Z.leb_le. lia.
  - apply andb_true_iff in H as [Hlo Hrest].
    rewrite Hlo. simpl. now apply IH.
Qed.

(** Rows in key order are already in the order the comparator asks for. *)
Lemma sort_by_id_sorted (lo hi : Z) (l : list Entry) :
  ids_between lo l hi = true -> sort_by_id l = l.
Proof.
  revert lo. induction l as [|e l IH]; intros lo H; [reflexivity|].
  simpl in *. apply andb_true_iff in H as [Hlo Hrest].
  rewrite (IH _ Hrest). destruct l as [|x l]; [reflexivity|].
  simpl in *. apply andb_true_iff in Hrest as [Hx _].
  apply Z.leb_le in Hx.
  replace (e_id e <=? e_id x) with true; [reflexivity|].
  symmetry. apply Z.leb_le. lia.
Qed.

Lemma history_delete_fresh (key lo hi : Z) (l : list Entry) :
  key < lo -> ids_between lo l hi = true -> history_delete key l = l.
Proof.
  intros Hk H. apply ids_between_bounds in H as [_ Hall].
  unfold history_delete. induction Hall as [|e l He Hall IH]; [reflexivity|].
  simpl. replace (e_id e =? key) with false; [simpl; now rewrite IH|].
  symmetry. apply Z.eqb_neq. lia.
Qed.

Lemma history_delete_head (lo hi : Z) (e : Entry) (l : list Entry) :
  ids_between lo (e :: l) hi = true -> history_delete (e_id e) (e :: l) = l.
Proof.
  intros H. simpl in H. apply andb_true_iff in H as [_ Hrest].
  unfold history_delete. simpl. rewrite Z.eqb_refl. simpl.
  apply (history_delete_fresh (e_id e) (e_id e + 1) hi); [lia | exact Hrest].
Qed.

Lemma set_db_same (w : World) (d : Database) :
  db w = Some d ->
  set_db (Some (mkDatabase (meta d) (history d) (keygen d))) w = w.
Proof. destruct w, d. simpl. intros ->. reflexivity. Qed.

Lemma world_ok_elim (w : World) :
  world_ok w = true ->
  exists d,
    db w = Some d
    /\ ids_between 1 (history d) (keygen d) = true
    /\ (forall k, _cachedKey w = Some k -> valid_key k = true).
Proof.
  unfold world_ok. intros H. apply andb_true_iff in H as [Hd Hc].
  destruct (db w) as [d|]; [|discriminate].
  exists d. split; [reflexivity|]. split; [exact Hd|].
  intros k Hk. now rewrite Hk in Hc.
Qed.

Lemma world_ok_intro (w : World) (d : Database) :
  db w = Some d ->
  ids_between 1 (history d) (keygen d) = true ->
  (forall k, _cachedKey w = Some k -> valid_key k = true) ->
  world_ok w = true.
Proof.
  intros Hd Hids Hc. unfold world_ok. rewrite Hd, Hids. simpl.
  destruct (_cachedKey w) as [k|]; [now apply Hc | reflexivity].
Qed.

Section Capacity.

Variable pf : Platform.

(** Deleting the first [k] rows of a store in key order, one request per
    row, leaves the rows after them. *)
Lemma delete_oldest (k : nat) (l : list Entry) (lo hi : Z)
    (w : World) (d : Database) :
  db w = Some d ->
  history d = l ->
  ids_between lo l hi = true ->
  forEach (firstn k l) (fun item => delete_history (e_id item)) w
  = (Ok tt, set_db (Some (mkDatabase (meta d) (skipn k l) (keygen d))) w).
Proof.
  revert l lo w d. induction k as [|k IH]; intros l lo w d Hdb Hl Hids.
  - simpl. unfold ret. rewrite <- Hl. now rewrite set_db_same.
  - destruct l as [|e l].
    + simpl. unfold ret. rewrite <- Hl. now rewrite set_db_same.
    + simpl firstn. simpl skipn. simpl forEach. unfold bind at 1.
      unfold delete_history at 1, commit, bind, transaction, modify.
      rewrite Hdb. cbv beta iota. rewrite Hl.
      rewrite (history_delete_head lo hi e l Hids).
      simpl in Hids. apply andb_true_iff in Hids as [_ Hrest].
      rewrite (IH l (e_id e + 1)
                 (set_db (Some (mkDatabase (meta d) l (keygen d))) w)
                 (mkDatabase (meta d) l (keygen d))
                 eq_refl eq_refl Hrest).
      reflexivity.
Qed.

(** [enforceLimit] on a store in key order keeps the 99 newest rows. *)
Lemma enforceLimit_run (lo hi : Z) (w : World) (d : Database) :
  db w = Some d ->
  ids_between lo (history d) hi = true ->
  enforceLimit w
  = (Ok tt,
     set_db (Some (mkDatabase (meta d) (lastn 99 (history d)) (keygen d))) w).
Proof.
  intros Hdb Hids. unfold enforceLimit, bind, transaction. rewrite Hdb.
  unfold MAX_HISTORY.
  destruct (100 <=? Z.of_nat (length (history d))) eqn:E.
  - apply Z.leb_le in E.
    rewrite (sort_by_id_sorted lo hi _ Hids). unfold slice0.
    replace (Z.of_nat (length (history d)) - 100 + 1 <? 0) with false
      by (symmetry; apply Z.ltb_ge; lia).
    replace (Z.to_nat (Z.of_nat (length (history d)) - 100 + 1))
      with (length (history d) - 99)%nat by lia.
    apply (delete_oldest _ _ lo hi w d Hdb eq_refl Hids).
  - apply Z.leb_gt in E. unfold ret.
    rewrite lastn_all by lia. now rewrite set_db_same.
Qed.

(** What [deriveAndVerify] leaves of the history and of the cache, and
    the kind of key it returns. *)
Lemma deriveAndVerify_history (p : jsstring) (w : World) (d : Database) :
  db w = Some d ->
  exists d',
    db (snd (deriveAndVerify pf p w)) = Some d'
    /\ history d' = history d
    /\ keygen d' = keygen d
    /\ cache (snd (deriveAndVerify pf p w)) = cache w
    /\ (forall k, fst (deriveAndVerify pf p w) = Ok k -> valid_key k = true).
Proof.
  intros Hdb. destruct (meta_get 1 (meta d)) as [record|] eqn:Hrec.
  - rewrite (deriveAndVerify_initialized pf p w d record Hdb Hrec).
    exists d. simpl. repeat split; try assumption.
    intros k Hk. destruct (recovered pf _ _ _) as [plain|]; [|discriminate].
    destruct (js_eqb plain VERIFY_PLAIN); [|discriminate].
    inversion Hk. reflexivity.
  - rewrite (deriveAndVerify_uninitialized pf p w d Hdb Hrec).
    eexists. simpl. split; [reflexivity|]. simpl. repeat split.
    intros k Hk. inversion Hk. reflexivity.
Qed.

(** [onPassphrase] keeps the history and a usable cache, and never
    throws. *)
Lemma onPassphrase_history (r : PromptReply) (w : World) :
  world_ok w = true ->
  exists res w1,
    onPassphrase pf r w = (Ok res, w1)
    /\ world_ok w1 = true
    /\ rows w1 = rows w
    /\ next_id w1 = next_id w
    /\ (forall k, res = Some k -> valid_key k = true).
Proof.
  intros Hok. destruct (world_ok_elim w Hok) as (d & Hdb & Hids & Hc).
  unfold onPassphrase.
  destruct (reply_passphrase r) as [p|];
    [|exists None, w; repeat split; try assumption; discriminate].
  destruct (js_falsy p);
    [exists None, w; repeat split; try assumption; discriminate|].
  destruct (deriveAndVerify_history p w d Hdb)
    as (d' & Hdb' & Hh & Hg & Hcache & Hvalid).
  unfold try_catch. unfold bind at 1.
  destruct (deriveAndVerify pf p w) as [[k|err] w2]; simpl in *.
  - specialize (Hvalid k eq_refl).
    unfold cache in Hcache. inversion Hcache as [[Hck Hke]].
    destruct (reply_remember r).
    + eexists. eexists. unfold bind, setCachedKey, bind, Date_now, modify, ret.
      simpl. split; [reflexivity|].
      split; [|split; [|split]].
      * apply (world_ok_intro _ d'); simpl; [assumption| |].
        { now rewrite Hh, Hg. }
        { intros k0 Hk0. inversion Hk0; subst. exact Hvalid. }
      * unfold rows. simpl. now rewrite Hdb', Hdb.
      * unfold next_id. simpl. now rewrite Hdb', Hdb.
      * intros k0 Hk0. inversion Hk0; subst. exact Hvalid.
    + eexists. eexists. unfold bind, ret. simpl. split; [reflexivity|].
      split; [|split; [|split]].
      * apply (world_ok_intro _ d'); [assumption| |].
        { now rewrite Hh, Hg. }
        { intros k0 Hk0. apply Hc. congruence. }
      * unfold rows. now rewrite Hdb', Hdb.
      * unfold next_id. now rewrite Hdb', Hdb.
      * intros k0 Hk0. inversion Hk0; subst. exact Hvalid.
  - unfold cache in Hcache. inversion Hcache as [[Hck Hke]].
    exists None.
    destruct (String.eqb (err_message err) "incorrect-password");
      eexists; unfold bind, toast, modify, ret; simpl;
      (split; [reflexivity|]);
      (split; [|split; [|split]]);
      try (apply (world_ok_intro _ d'); simpl;
           [assumption | now rewrite Hh, Hg
           | intros k0 Hk0; apply Hc; congruence]);
      try (unfold rows; simpl; now rewrite Hdb', Hdb);
      try (unfold next_id; simpl; now rewrite Hdb', Hdb);
      try discriminate.
Qed.

End Capacity.

Section Saving.

Variable pf : Platform.

Lemma world_ok_set_ticks (n : nat) (w : World) :
  world_ok (set_ticks n w) = world_ok w.
Proof. reflexivity. Qed.

Lemma world_ok_set_toasts (l : list (string * bool)) (w : World) :
  world_ok (set_toasts l w) = world_ok w.
Proof. reflexivity. Qed.

(** [getMasterKey] keeps the history and a usable cache, never throws,
    and any key it returns is a cipher key. *)
Lemma getMasterKey_history (r : PromptReply) (w : World) :
  world_ok w = true ->
  exists res w1,
    getMasterKey pf r w = (Ok res, w1)
    /\ world_ok w1 = true
    /\ rows w1 = rows w
    /\ next_id w1 = next_id w
    /\ (forall k, res = Some k -> valid_key k = true).
Proof.
  intros Hok.
  assert (Hmiss : forall w0,
             world_ok w0 = true -> rows w0 = rows w ->
             next_id w0 = next_id w ->
             exists res w1,
               (ui <- gets uiLoaded ;;
                if negb ui
                then toast "UI module not loaded." false ;; ret None
                else onPassphrase pf r) w0 = (Ok res, w1)
               /\ world_ok w1 = true
               /\ rows w1 = rows w
               /\ next_id w1 = next_id w
               /\ (forall k, res = Some k -> valid_key k = true)).
  { intros w0 Hok0 Hr0 Hn0. unfold bind at 1. unfold gets at 1.
    cbv beta iota. destruct (uiLoaded w0); simpl.
    - destruct (onPassphrase_history pf r w0 Hok0)
        as (res & w1 & Hrun & Hok1 & Hr1 & Hn1 & Hv).
      exists res, w1. rewrite Hrun.
      repeat split; try assumption; congruence.
    - exists None. eexists. unfold bind, toast, modify, ret. simpl.
      split; [reflexivity|]. rewrite world_ok_set_toasts.
      repeat split; try assumption; discriminate. }
  unfold getMasterKey. unfold bind at 1. rewrite getCachedKey_run.
  destruct (_cachedKey w) as [k|] eqn:Hk.
  - destruct (clock pf (ticks w) <? to_number (_keyExpiry w)).
    + exists (Some k). eexists. unfold ret. split; [reflexivity|].
      rewrite world_ok_set_ticks. repeat split; try assumption.
      intros k0 Hk0. inversion Hk0; subst.
      destruct (world_ok_elim w Hok) as (_ & _ & _ & Hc). now apply Hc.
    + apply Hmiss; [now rewrite world_ok_set_ticks | reflexivity..].
  - apply Hmiss; [assumption | reflexivity..].
Qed.

(** One call of [addToHistory] returns, and either the history is as
    before, or the 99 newest rows are kept and one row is added under
    the next identifier. *)
Lemma addToHistory_outcome (value type : jsstring) (r : PromptReply)
    (w : World) :
  world_ok w = true ->
  exists w',
    addToHistory pf value type r w = (Ok tt, w')
    /\ world_ok w' = true
    /\ ((rows w' = rows w /\ next_id w' = next_id w)
        \/ (exists e,
               e_id e = next_id w
               /\ rows w' = lastn 99 (rows w) ++ [e]
               /\ next_id w' = next_id w + 1)).
Proof.
  intros Hok. unfold addToHistory.
  destruct (js_falsy value).
  { eexists. split; [reflexivity|]. rewrite world_ok_set_toasts.
    split; [assumption|]. left. split; reflexivity. }
  destruct (world_ok_elim w Hok) as (d & Hdb & Hids & Hc).
  unfold bind at 1. unfold gets at 1. cbv beta iota. rewrite Hdb.
  destruct (getMasterKey_history r w Hok)
    as (res & w1 & Hrun & Hok1 & Hr1 & Hn1 & Hv).
  unfold bind at 1. rewrite Hrun.
  destruct res as [key|].
  2:{ eexists. split; [reflexivity|]. rewrite world_ok_set_toasts.
      split; [assumption|]. left. split; assumption. }
  specialize (Hv key eq_refl).
  destruct (world_ok_elim w1 Hok1) as (d1 & Hdb1 & Hids1 & Hc1).
  unfold try_catch. unfold bind at 1.
  rewrite (enforceLimit_run 1 (keygen d1) w1 d1 Hdb1 Hids1).
  unfold bind at 1. rewrite (aesEncrypt_run pf _ key _ Hv).
  unfold bind, Date_now, add_history, commit, bind, transaction, modify,
    toast, modify. simpl.
  assert (Hrows : history d1 = rows w)
    by (unfold rows in Hr1; now rewrite Hdb1 in Hr1).
  assert (Hnext : keygen d1 = next_id w)
    by (unfold next_id in Hn1; now rewrite Hdb1 in Hn1).
  eexists. split; [reflexivity|]. split.
  - eapply world_ok_intro; simpl; [reflexivity | | exact Hc1].
    simpl. apply (ids_between_snoc 1 (lastn 99 (history d1))
                    (mkEntry (keygen d1) _ _ _ _)).
    simpl. unfold lastn. now apply ids_between_skipn.
  - right. eexists (mkEntry (keygen d1) _ _ _ _).
    rewrite <- Hrows, <- Hnext. unfold rows, next_id. simpl.
    split; [|split]; reflexivity.
Qed.

Lemma save_step (c : SaveCall) (w : World) :
  world_ok w = true ->
  world_ok (save pf c w) = true
  /\ ((rows (save pf c w) = rows w /\ next_id (save pf c w) = next_id w)
      \/ (exists e,
             e_id e = next_id w
             /\ rows (save pf c w) = lastn 99 (rows w) ++ [e]
             /\ next_id (save pf c w) = next_id w + 1)).
Proof.
  intros Hok.
  assert (E : save pf c w
              = snd (addToHistory pf (save_value c) (save_type c)
                       (save_reply c) w))
    by (unfold save; now rewrite agrees_addToHistory).
  rewrite E. clear E.
  destruct (addToHistory_outcome (save_value c) (save_type c)
              (save_reply c) w Hok) as (w' & Hrun & H).
  rewrite Hrun. exact H.
Qed.

End Saving.

Section Journal.

Variable pf : Platform.

Lemma inserted_none (w w' : World) :
  world_ok w = true -> rows w' = rows w -> inserted w w' = [].
Proof.
  intros Hok Hrows. destruct (world_ok_elim w Hok) as (d & Hdb & Hids & _).
  unfold inserted, next_id. rewrite Hrows. unfold rows. rewrite Hdb.
  apply ids_between_bounds in Hids as [_ Hall].
  induction Hall as [|e l He Hall IH]; [reflexivity|].
  simpl. replace (keygen d <=? e_id e) with false; [exact IH|].
  symmetry. apply Z.leb_gt. lia.
Qed.

Lemma inserted_one (w w' : World) (e : Entry) :
  world_ok w = true ->
  e_id e = next_id w ->
  rows w' = lastn 99 (rows w) ++ [e] ->
  inserted w w' = [e].
Proof.
  intros Hok He Hrows. destruct (world_ok_elim w Hok) as (d & Hdb & Hids & _).
  unfold inserted. rewrite Hrows, filter_app. simpl.
  rewrite He, Z.leb_refl.
  replace (filter (fun e0 => next_id w <=? e_id e0) (lastn 99 (rows w)))
    with (@nil Entry); [reflexivity|].
  symmetry. unfold next_id, rows. rewrite Hdb. unfold lastn.
  apply (ids_between_skipn (length (history d) - 99)) in Hids.
  apply ids_between_bounds in Hids as [_ Hall].
  induction Hall as [|x l Hx Hall IH]; [reflexivity|].
  simpl. replace (keygen d <=? e_id x) with false; [exact IH|].
  symmetry. apply Z.leb_gt. lia.
Qed.

Lemma consecutive_cons (n : Z) (k : nat) :
  n :: map (fun i => n + 1 + Z.of_nat i) (seq 0 k)
  = map (fun i => n + Z.of_nat i) (seq 0 (S k)).
Proof.
  simpl. rewrite Z.add_0_r. f_equal.
  rewrite <- seq_shift, map_map. apply map_ext. intros i. lia.
Qed.

(** The invariant of a sequence of saves. *)
Lemma saves_in_turn_journal (cs : list SaveCall) (w : World) :
  world_ok w = true ->
  (length (rows w) <= 100)%nat ->
  world_ok (saves_in_turn pf cs w) = true
  /\ (length (rows (saves_in_turn pf cs w)) <= 100)%nat
  /\ rows (saves_in_turn pf cs w) = lastn 100 (rows w ++ journal pf cs w)
  /\ map e_id (journal pf cs w)
     = map (fun i => next_id w + Z.of_nat i)
           (seq 0 (length (journal pf cs w)))
  /\ next_id (saves_in_turn pf cs w)
     = next_id w + Z.of_nat (length (journal pf cs w)).
Proof.
  revert w. induction cs as [|c cs IH]; intros w Hok Hlen.
  - simpl. rewrite app_nil_r, lastn_all by exact Hlen.
    repeat split; try assumption. lia.
  - simpl. destruct (save_step pf c w Hok) as [Hok1 Hstep].
    destruct Hstep as [[Hrows Hnext] | (e & He & Hrows & Hnext)].
    + rewrite (inserted_none w _ Hok Hrows). simpl.
      destruct (IH (save pf c w) Hok1) as (H1 & H2 & H3 & H4 & H5);
        [now rewrite Hrows|].
      rewrite Hrows in H3. rewrite Hnext in H4, H5.
      repeat split; assumption.
    + rewrite (inserted_one w _ e Hok He Hrows).
      assert (Hlen1 : (length (rows (save pf c w)) <= 100)%nat).
      { rewrite Hrows, length_app, length_lastn. cbn [length]. lia. }
      destruct (IH (save pf c w) Hok1 Hlen1) as (H1 & H2 & H3 & H4 & H5).
      split; [exact H1|]. split; [exact H2|]. split; [|split].
      * rewrite H3, Hrows, <- app_assoc.
        apply (lastn_trim 100). simpl. lia.
      * simpl app. simpl map. rewrite H4, Hnext, He.
        simpl length. apply consecutive_cons.
      * rewrite H5, Hnext. simpl app. simpl length. lia.
Qed.

End Journal.


(** ** Requests in turn, as the page sees them *)

Lemma resume_last {A : Type} (calls : list (Task A)) (t : Task A)
    (w : World) :
  resume (length calls) (calls ++ [t]) w
  = match t with
    | Settled _ => (calls ++ [t], w)
    | Suspended piece => let (t', w') := piece w in (calls ++ [t'], w')
    end.
Proof.
  induction calls as [|c calls IH]; simpl.
  - destruct t as [r | piece]; [reflexivity|]. now destruct (piece w).
  - rewrite IH. destruct t as [r | piece]; [reflexivity|].
    now destruct (piece w).
Qed.

(** Resumed as often as it waits, a call has settled, and the page is
    where the call left alone would have brought it. *)
Lemma play_waits (pf : Platform) (t : Task unit) (calls : list (Task unit))
    (w : World) :
  play pf (repeat (Resume (length calls)) (waits t w)) (calls ++ [t], w)
  = (calls ++ [Settled (fst (finish t w))], snd (finish t w)).
Proof.
  revert w. induction t as [r | piece IH] using Task_induction; intros w.
  - reflexivity.
  - cbn [waits finish]. specialize (IH w).
    destruct (piece w) as [t' w'] eqn:E. cbn [repeat play fold_left react].
    cbn [fst snd]. rewrite resume_last, E. exact (IH w').
Qed.

Lemma play_app (pf : Platform) (e1 e2 : list Event) (s : Loop) :
  play pf (e1 ++ e2) s = play pf e2 (play pf e1 s).
Proof. apply fold_left_app. Qed.

(** Requests made in turn: the page ends where [in_turn] says, with
    every call settled. *)
Lemma play_turns (pf : Platform) (qs : list Request)
    (calls : list (Task unit)) (w : World) :
  exists calls',
    play pf (turns pf qs (length calls) w) (calls, w)
    = (calls ++ calls', in_turn pf qs w)
    /\ forallb settled calls' = true.
Proof.
  revert calls w. induction qs as [|q qs IH]; intros calls w.
  - exists []. now rewrite app_nil_r.
  - cbn [turns in_turn]. unfold alone.
    destruct (request pf q w) as [t w1] eqn:E.
    rewrite play_app. cbn [play fold_left react fst snd]. rewrite E.
    fold (play pf (repeat (Resume (length calls)) (waits t w1))
            (calls ++ [t], w1)).
    rewrite play_waits.
    destruct (IH (calls ++ [Settled (fst (finish t w1))])
                (snd (finish t w1))) as (calls' & Hplay & Hall).
    rewrite length_app, Nat.add_comm in Hplay. cbn [length Nat.add] in Hplay.
    rewrite Hplay, <- app_assoc.
    exists (Settled (fst (finish t w1)) :: calls').
    split; [|exact Hall].
    now destruct (finish t w1).
Qed.

Lemma saves_in_turn_requests (pf : Platform) (cs : list SaveCall)
    (w : World) :
  in_turn pf (map save_request cs) w = saves_in_turn pf cs w.
Proof.
  revert w. induction cs as [|c cs IH]; intros w; [reflexivity|].
  simpl. now rewrite IH.
Qed.

(** C2. When [addToHistory] is called any number of times in turn, each
    call made when the one before has settled and left alone while it
    waits, the [history] store never holds more than 100 rows.  Before
    each insertion [enforceLimit] deletes the rows of smallest
    identifier and keeps the 99 newest, so the store holds at most 100
    once the pending row is in.  The rows retained are the last 100 of
    those that were there or were inserted, in insertion order, and
    identifiers are handed out in that order.  The state reached is the
    one the page is in after the events of these calls: each call made,
    then resumed until it has settled. *)
Theorem C2_history_capacity :
  forall (pf : Platform) (cs : list SaveCall) (w : World),
    world_ok w = true ->
    (length (rows w) <= 100)%nat ->
    let w' := saves_in_turn pf cs w in
    let added := journal pf cs w in
    (length (rows w') <= 100)%nat
    /\ rows w' = lastn 100 (rows w ++ added)
    /\ map e_id added
       = map (fun i => next_id w + Z.of_nat i) (seq 0 (length added))
    /\ world_ok w' = true
    /\ (forall d,
           db w = Some d ->
           alone Async.enforceLimit w
           = (Ok tt,
              set_db (Some (mkDatabase (meta d) (lastn 99 (history d))
                              (keygen d))) w))
    /\ (forall c,
           rows (save pf c w) = rows w
           \/ exists e,
                e_id e = next_id w
                /\ rows (save pf c w) = lastn 99 (rows w) ++ [e])
    /\ snd (play pf (turns pf (map save_request cs) 0 w) ([], w)) = w'.
Proof.
  intros pf cs w Hok Hlen w' added.
  destruct (saves_in_turn_journal pf cs w Hok Hlen) as (H1 & H2 & H3 & H4 & _).
  split; [exact H2|]. split; [exact H3|]. split; [exact H4|].
  split; [exact H1|]. split; [|split].
  - intros d Hdb. destruct (world_ok_elim w Hok) as (d0 & Hdb0 & Hids & _).
    assert (d0 = d) by congruence. subst d0.
    rewrite agrees_enforceLimit.
    exact (enforceLimit_run 1 (keygen d) w d Hdb Hids).
  - intros c. destruct (save_step pf c w Hok) as [_ Hstep].
    destruct Hstep as [[Hrows _] | (e & He & Hrows & _)];
      [now left | right; now exists e].
  - destruct (play_turns pf (map save_request cs) [] w) as (calls & Hplay & _).
    cbn [length] in Hplay. rewrite Hplay. cbn [snd].
    apply saves_in_turn_requests.
Qed.

(** C2 on the demonstration vault with 99 rows and two more saves in
    turn: the second of them evicts the row of identifier 1. *)
Lemma C2_history_capacity_witness :
  world_ok Race.crowded = true
  /\ (length (rows Race.crowded) <= 100)%nat
  /\ map e_id (rows (saves_in_turn Demo.platform [Demo.a_save; Demo.a_save]
                       Race.crowded))
     = map Z.of_nat (seq 2 100).
Proof.
  assert (Hok : world_ok Race.crowded = true) by (vm_compute; reflexivity).
  assert (Hlen : (length (rows Race.crowded) <= 100)%nat)
    by (vm_compute; lia).
  split; [exact Hok|]. split; [exact Hlen|].
  destruct (C2_history_capacity Demo.platform [Demo.a_save; Demo.a_save]
              Race.crowded Hok Hlen) as (_ & Hrows & _).
  rewrite Hrows. vm_compute. reflexivity.
Defined.

(** Against C2 as stated: on the same vault with 99 rows, two presses
    on the save button of which the second comes while the first call
    waits for the rows it asked for.  Each call counts 99 rows and
    deletes none, each adds its row and reports that it saved, and the
    store holds 101 rows. *)
Lemma C2_overlapping_saves_reach_101_rows :
  world_ok Race.crowded = true
  /\ length (rows Race.crowded) = 99%nat
  /\ forallb settled (fst (play Demo.platform Race.two_presses
                             ([], Race.crowded))) = true
  /\ new_toasts Race.crowded
       (snd (play Demo.platform Race.two_presses ([], Race.crowded)))
     = [("Saved!"%string, true); ("Saved!"%string, true)]
  /\ length (rows (snd (play Demo.platform Race.two_presses
                          ([], Race.crowded)))) = 101%nat.
Proof. vm_compute. repeat split. Qed.

(** The eviction scenario: after 101 saves in turn on a new vault the
    row of identifier 1 is gone and the rows 2 to 101 are there. *)
Example eviction_after_101_saves :
  map e_id (rows (saves_in_turn Demo.platform (repeat Demo.a_save 101)
                    fresh_world))
  = map Z.of_nat (seq 2 100).
Proof. vm_compute. reflexivity. Qed.

(* ================================================================== *)
(** * The text codecs: encoding and decoding back *)

Import Encoding.

Lemma lor_shiftl_low (a b n : Z) :
  0 <= n -> 0 <= b < 2 ^ n -> Z.lor (Z.shiftl a n) b = a * 2 ^ n + b.
Proof.
  intros Hn Hb.
  pose proof (Z.add_lor_land (Z.shiftl a n) b) as Hadd.
  assert (Hland : Z.land (Z.shiftl a n) b = 0).
  2:{ rewrite Hland in Hadd. rewrite Z.shiftl_mul_pow2 in * by lia. lia. }
  apply Z.bits_inj'. intros i Hi.
  rewrite Z.land_spec, Z.bits_0.
  destruct (Z.lt_ge_cases i n) as [Hlt|Hge].
  - rewrite Z.shiftl_spec_low by lia. reflexivity.
  - destruct (Z.eq_dec b 0) as [->|Hnz].
    + rewrite Z.bits_0. apply andb_false_r.
    + rewrite (Z.bits_above_log2 b i); [apply andb_false_r | lia |].
      apply Z.log2_lt_pow2; [lia|].
      apply Z.lt_le_trans with (2 ^ n); [lia|].
      apply Z.pow_le_mono_r; lia.
Qed.

Lemma land_low (x n : Z) : 0 <= n -> Z.land x (2 ^ n - 1) = x mod 2 ^ n.
Proof.
  intros Hn. rewrite <- Z.land_ones by lia. f_equal.
  rewrite Z.ones_equiv. lia.
Qed.

Lemma tail_byte (x : Z) : Z.lor 0x80 (Z.land x 0x3F) = 128 + x mod 64.
Proof.
  change 0x3F with (2 ^ 6 - 1). rewrite land_low by lia.
  change 0x80 with (Z.shiftl 2 6).
  rewrite lor_shiftl_low; [reflexivity | lia |].
  apply Z.mod_pos_bound. lia.
Qed.

Lemma accumulate (acc b : Z) :
  Z.lor (Z.shiftl acc 6) (Z.land b 0x3F) = acc * 64 + b mod 64.
Proof.
  change 0x3F with (2 ^ 6 - 1). rewrite land_low by lia.
  rewrite lor_shiftl_low; [reflexivity | lia |].
  apply Z.mod_pos_bound. lia.
Qed.

(** From here on [lia] also reasons about division and remainder. *)
Ltac Zify.zify_post_hook ::= Z.to_euclidean_division_equations.

Ltac decide_tests :=
  repeat match goal with
         | |- context [?a <=? ?b] =>
             destruct (Z.leb_spec a b); try lia
         | |- context [?a =? ?b] =>
             destruct (Z.eqb_spec a b); try lia
         end.

Lemma utf8_encode_cp_bytes (cp : Z) :
  0 <= cp ->
  utf8_encode_cp cp
  = if cp <=? 0x7F then [cp]
    else if cp <=? 0x7FF then [cp / 64 + 192; 128 + cp mod 64]
    else if cp <=? 0xFFFF then
      [cp / 4096 + 224; 128 + (cp / 64) mod 64; 128 + cp mod 64]
    else [cp / 262144 + 240; 128 + (cp / 4096) mod 64;
          128 + (cp / 64) mod 64; 128 + cp mod 64].
Proof.
  intros Hcp. unfold utf8_encode_cp.
  destruct (cp <=? 0x7F); [reflexivity|].
  destruct (cp <=? 0x7FF); [|destruct (cp <=? 0xFFFF)];
    cbn [utf8_tail]; rewrite !tail_byte;
    rewrite !Z.shiftr_div_pow2 by lia; simpl Z.of_nat; simpl Z.mul;
    rewrite ?Z.div_1_r; reflexivity.
Qed.

Lemma utf8_decode_ascii (b : Z) (rest : bytes) :
  0 <= b <= 0x7F -> utf8_decode None (b :: rest) = b :: utf8_decode None rest.
Proof.
  intros Hb. cbn [utf8_decode]. unfold utf8_lead.
  decide_tests. reflexivity.
Qed.

Lemma utf8_decode_lead2 (b : Z) (rest : bytes) :
  0xC2 <= b <= 0xDF ->
  utf8_decode None (b :: rest)
  = utf8_decode (Some (mkPending (b - 192) 1 0x80 0xBF)) rest.
Proof.
  intros Hb. cbn [utf8_decode]. unfold utf8_lead.
  change 0x1F with (2 ^ 5 - 1). rewrite land_low by lia.
  decide_tests. cbn [andb]. do 3 f_equal. lia.
Qed.

Lemma utf8_decode_lead3 (b : Z) (rest : bytes) :
  0xE0 <= b <= 0xEF ->
  utf8_decode None (b :: rest)
  = utf8_decode (Some (mkPending (b - 224) 2
                         (if b =? 0xE0 then 0xA0 else 0x80)
                         (if b =? 0xED then 0x9F else 0xBF))) rest.
Proof.
  intros Hb. cbn [utf8_decode]. unfold utf8_lead.
  change 0xF with (2 ^ 4 - 1). rewrite land_low by lia.
  replace (b mod 2 ^ 4) with (b - 224) by lia.
  destruct ((0 <=? b) && (b <=? 0x7F)) eqn:E1; [lia|].
  destruct ((0xC2 <=? b) && (b <=? 0xDF)) eqn:E2; [lia|].
  destruct ((0xE0 <=? b) && (b <=? 0xEF)) eqn:E3; [reflexivity|lia].
Qed.

Lemma utf8_decode_lead4 (b : Z) (rest : bytes) :
  0xF0 <= b <= 0xF4 ->
  utf8_decode None (b :: rest)
  = utf8_decode (Some (mkPending (b - 240) 3
                         (if b =? 0xF0 then 0x90 else 0x80)
                         (if b =? 0xF4 then 0x8F else 0xBF))) rest.
Proof.
  intros Hb. cbn [utf8_decode]. unfold utf8_lead.
  change 0x7 with (2 ^ 3 - 1). rewrite land_low by lia.
  replace (b mod 2 ^ 3) with (b - 240) by lia.
  destruct ((0 <=? b) && (b <=? 0x7F)) eqn:E1; [lia|].
  destruct ((0xC2 <=? b) && (b <=? 0xDF)) eqn:E2; [lia|].
  destruct ((0xE0 <=? b) && (b <=? 0xEF)) eqn:E3; [lia|].
  destruct ((0xF0 <=? b) && (b <=? 0xF4)) eqn:E4; [reflexivity|lia].
Qed.

Lemma utf8_decode_last (acc lo hi b : Z) (rest : bytes) :
  lo <= b <= hi ->
  utf8_decode (Some (mkPending acc 1 lo hi)) (b :: rest)
  = (acc * 64 + b mod 64) :: utf8_decode None rest.
Proof.
  intros Hb. cbn [utf8_decode lower upper bytes_left code_point].
  rewrite accumulate.
  destruct ((lo <=? b) && (b <=? hi)) eqn:E; [reflexivity|lia].
Qed.

Lemma utf8_decode_more (acc lo hi b : Z) (n : nat) (rest : bytes) :
  lo <= b <= hi ->
  utf8_decode (Some (mkPending acc (S (S n)) lo hi)) (b :: rest)
  = utf8_decode (Some (mkPending (acc * 64 + b mod 64) (S n) 0x80 0xBF)) rest.
Proof.
  intros Hb. cbn [utf8_decode lower upper bytes_left code_point].
  rewrite accumulate.
  destruct ((lo <=? b) && (b <=? hi)) eqn:E; [reflexivity|lia].
Qed.

(** The decoder reads back what the encoder wrote for a scalar value. *)
Lemma utf8_decode_encode_cp (cp : Z) (rest : bytes) :
  is_scalar cp ->
  utf8_decode None (utf8_encode_cp cp ++ rest) = cp :: utf8_decode None rest.
Proof.
  intros [Hrange Hsur]. rewrite utf8_encode_cp_bytes by lia.
  destruct (Z.leb_spec cp 0x7F).
  { cbn [app]. apply utf8_decode_ascii. lia. }
  destruct (Z.leb_spec cp 0x7FF).
  { cbn [app]. rewrite utf8_decode_lead2 by lia.
    rewrite utf8_decode_last by lia. f_equal. lia. }
  destruct (Z.leb_spec cp 0xFFFF).
  { cbn [app]. rewrite utf8_decode_lead3 by lia.
    rewrite utf8_decode_more
      by (destruct (Z.eqb_spec (cp / 4096 + 224) 0xE0);
          destruct (Z.eqb_spec (cp / 4096 + 224) 0xED); lia).
    rewrite utf8_decode_last by lia. f_equal. lia. }
  cbn [app]. rewrite utf8_decode_lead4 by lia.
  rewrite utf8_decode_more
    by (destruct (Z.eqb_spec (cp / 262144 + 240) 0xF0);
        destruct (Z.eqb_spec (cp / 262144 + 240) 0xF4); lia).
  rewrite utf8_decode_more by lia.
  rewrite utf8_decode_last by lia. f_equal. lia.
Qed.

Lemma utf8_decode_encode_all (cps : list Z) :
  Forall is_scalar cps ->
  utf8_decode None (flat_map utf8_encode_cp cps) = cps.
Proof.
  induction 1 as [|cp cps Hcp _ IH]; [reflexivity|].
  cbn [flat_map]. rewrite utf8_decode_encode_cp by exact Hcp.
  now rewrite IH.
Qed.

Lemma is_lead_spec (u : Z) : is_lead u = true <-> 0xD800 <= u <= 0xDBFF.
Proof. unfold is_lead. rewrite andb_true_iff, !Z.leb_le. tauto. Qed.

Lemma is_trail_spec (u : Z) : is_trail u = true <-> 0xDC00 <= u <= 0xDFFF.
Proof. unfold is_trail. rewrite andb_true_iff, !Z.leb_le. tauto. Qed.

Lemma is_unit_spec (u : Z) : is_unit u = true <-> 0 <= u <= 0xFFFF.
Proof. unfold is_unit. rewrite andb_true_iff, !Z.leb_le. tauto. Qed.

Lemma pair_value_eq (hi lo : Z) :
  pair_value hi lo = 0x10000 + (hi - 0xD800) * 1024 + (lo - 0xDC00).
Proof. unfold pair_value. now rewrite Z.shiftl_mul_pow2 by lia. Qed.

Lemma pair_value_scalar (hi lo : Z) :
  is_lead hi = true -> is_trail lo = true -> is_scalar (pair_value hi lo).
Proof.
  rewrite is_lead_spec, is_trail_spec, pair_value_eq.
  unfold is_scalar. lia.
Qed.

(** A pair of surrogates is what the decoder writes for the code point
    the encoder read from it. *)
Lemma units_of_pair (hi lo : Z) :
  is_lead hi = true -> is_trail lo = true ->
  units_of_cp (pair_value hi lo) = [hi; lo].
Proof.
  rewrite is_lead_spec, is_trail_spec, pair_value_eq. intros Hhi Hlo.
  unfold units_of_cp.
  destruct (Z.leb_spec (0x10000 + (hi - 0xD800) * 1024 + (lo - 0xDC00))
              0xFFFF); [lia|].
  rewrite Z.shiftr_div_pow2 by lia.
  change 0x3FF with (2 ^ 10 - 1). rewrite land_low by lia.
  f_equal; [lia|]. f_equal. lia.
Qed.

Lemma units_of_unit (u : Z) : is_unit u = true -> units_of_cp u = [u].
Proof.
  rewrite is_unit_spec. intros Hu. unfold units_of_cp.
  destruct (Z.leb_spec u 0xFFFF); [reflexivity|lia].
Qed.

(** A well-formed string is the UTF-16 form of its scalar values. *)
Lemma well_formed_scalars (n : nat) (s : jsstring) :
  (length s <= n)%nat ->
  well_formed s = true ->
  Forall is_scalar (to_scalars s)
  /\ flat_map units_of_cp (to_scalars s) = s.
Proof.
  revert s. induction n as [|n IH]; intros s Hlen Hwf.
  - destruct s; [split; [constructor | reflexivity] | simpl in Hlen; lia].
  - destruct s as [|u rest]; [split; [constructor | reflexivity]|].
    cbn [well_formed to_scalars] in *.
    apply andb_true_iff in Hwf as [Hu Hwf].
    destruct (is_lead u) eqn:Hlead.
    + destruct rest as [|t rest']; [discriminate|].
      apply andb_true_iff in Hwf as [Ht Hwf]. rewrite Ht.
      destruct (IH rest') as [Hall Hback];
        [simpl in Hlen; lia | exact Hwf |].
      split.
      * constructor; [now apply pair_value_scalar | exact Hall].
      * cbn [flat_map]. rewrite units_of_pair by assumption.
        now rewrite Hback.
    + apply andb_true_iff in Hwf as [Htrail Hwf].
      apply negb_true_iff in Htrail. rewrite Htrail.
      destruct (IH rest) as [Hall Hback];
        [simpl in Hlen; lia | exact Hwf |].
      split.
      * constructor; [|exact Hall].
        apply is_unit_spec in Hu.
        assert (Hnl : ~ 0xD800 <= u <= 0xDBFF)
          by (rewrite <- is_lead_spec; congruence).
        assert (Hnt : ~ 0xDC00 <= u <= 0xDFFF)
          by (rewrite <- is_trail_spec; congruence).
        unfold is_scalar. lia.
      * cbn [flat_map]. rewrite units_of_unit by assumption.
        now rewrite Hback.
Qed.

(** A string that does not start with U+FEFF has no byte order mark for
    the decoder to consume. *)
Lemma strip_bom_none (s : jsstring) :
  well_formed s = true ->
  starts_with_bom s = false ->
  strip_bom (to_scalars s) = to_scalars s.
Proof.
  intros Hwf Hbom. destruct s as [|u rest]; [reflexivity|].
  cbn [well_formed to_scalars starts_with_bom] in *.
  apply andb_true_iff in Hwf as [Hu Hwf].
  destruct (is_lead u) eqn:Hlead.
  - destruct rest as [|t rest']; [discriminate|].
    apply andb_true_iff in Hwf as [Ht Hwf]. rewrite Ht.
    cbn [strip_bom].
    apply is_lead_spec in Hlead. apply is_trail_spec in Ht.
    rewrite pair_value_eq. unfold BOM.
    destruct (Z.eqb_spec (0x10000 + (u - 0xD800) * 1024 + (t - 0xDC00))
                0xFEFF); [lia | reflexivity].
  - apply andb_true_iff in Hwf as [Htrail Hwf].
    apply negb_true_iff in Htrail. rewrite Htrail.
    cbn [strip_bom]. now rewrite Hbom.
Qed.

(** Decoding the encoding of a well-formed string without byte order
    mark gives the string back. *)
Lemma decode_encode (s : jsstring) :
  well_formed s = true ->
  starts_with_bom s = false ->
  decode (encode s) = s.
Proof.
  intros Hwf Hbom. unfold decode, encode.
  destruct (well_formed_scalars (length s) s (le_n _) Hwf) as [Hall Hback].
  rewrite utf8_decode_encode_all by exact Hall.
  rewrite strip_bom_none by assumption. exact Hback.
Qed.

Lemma strip_prefix_app (p l : bytes) : Demo.strip_prefix p (p ++ l) = Some l.
Proof.
  induction p as [|x p IH]; [reflexivity|].
  simpl. now rewrite Z.eqb_refl.
Qed.

Lemma demo_gcm_correct : gcm_correct Demo.platform.
Proof.
  intros key iv plaintext. simpl. unfold Demo.open, Demo.seal.
  apply strip_prefix_app.
Qed.

(* ================================================================== *)
(** * The entry cipher: sealing and opening *)

(** C5, as the code has it.  For every well-formed plaintext string that
    does not begin with U+FEFF and every valid key, what [aesEncrypt]
    returns opens under [aesDecrypt] with the same key to the plaintext,
    provided the platform's AES-GCM opens what it sealed. *)
Theorem C5_seal_then_open_roundtrip :
  forall (pf : Platform) (plaintext : jsstring) (key : CryptoKey) (w : World),
    gcm_correct pf ->
    valid_key key = true ->
    well_formed plaintext = true ->
    starts_with_bom plaintext = false ->
    seal_then_open pf plaintext key w = Ok plaintext
    /\ exists iv encryptedData w1,
         aesEncrypt pf plaintext key w = (Ok (iv, encryptedData), w1)
         /\ forall w2,
              aesDecrypt pf iv encryptedData key w2 = (Ok plaintext, w2).
Proof.
  intros pf plaintext key w Hgcm Hkey Hwf Hbom.
  assert (Hopen : forall iv w2,
             aesDecrypt pf iv
               (gcm_encrypt pf (key_material key) iv (encode plaintext))
               key w2
             = (Ok plaintext, w2)).
  { intros iv w2. rewrite (aesDecrypt_run pf _ _ key w2 Hkey).
    unfold recovered. rewrite Hgcm. simpl.
    now rewrite decode_encode. }
  unfold seal_then_open. rewrite (aesEncrypt_run pf plaintext key w Hkey).
  split.
  - now rewrite Hopen.
  - eexists. eexists. eexists. split; [reflexivity|]. apply Hopen.
Qed.

(** C5 on the demonstration platform. *)
Lemma C5_seal_then_open_roundtrip_witness :
  gcm_correct Demo.platform
  /\ valid_key Demo.key = true
  /\ well_formed (js "Tr0ub4dor&3") = true
  /\ starts_with_bom (js "Tr0ub4dor&3") = false
  /\ seal_then_open Demo.platform (js "Tr0ub4dor&3") Demo.key Demo.first_save
     = Ok (js "Tr0ub4dor&3").
Proof.
  split; [exact demo_gcm_correct|].
  split; [reflexivity|]. split; [reflexivity|]. split; [reflexivity|].
  apply (C5_seal_then_open_roundtrip Demo.platform (js "Tr0ub4dor&3")
           Demo.key Demo.first_save demo_gcm_correct eq_refl eq_refl eq_refl).
Defined.

(** Against C5 as stated: a string holding a surrogate on its own does
    not come back, the encoder writes U+FFFD in its place.  The key is
    valid and the cipher opens what it sealed. *)
Lemma C5_lone_surrogate_not_restored :
  gcm_correct Demo.platform
  /\ valid_key Demo.key = true
  /\ seal_then_open Demo.platform [0xD800] Demo.key Demo.first_save
     = Ok [0xFFFD]
  /\ seal_then_open Demo.platform [0xD800] Demo.key Demo.first_save
     <> Ok [0xD800].
Proof.
  split; [exact demo_gcm_correct|]. split; [reflexivity|].
  split; [reflexivity|]. discriminate.
Qed.

(** Neither does a string that begins with U+FEFF: the decoder takes it
    for a byte order mark and drops it. *)
Example leading_bom_not_restored :
  seal_then_open Demo.platform [0xFEFF; 0x41] Demo.key Demo.first_save
  = Ok [0x41].
Proof. reflexivity. Qed.

(* ================================================================== *)
(** * More on the vault: what reading never changes *)

Section SameHistory.

Variable pf : Platform.

Lemma same_history_refl (w : World) : same_history w w.
Proof. split; reflexivity. Qed.

Lemma same_history_trans (a b c : World) :
  same_history a b -> same_history b c -> same_history a c.
Proof. intros [H1 H2] [H3 H4]. split; congruence. Qed.

Ltac history_known :=
  first
    [ intros ?; rewrite aesDecrypt_state; apply same_history_refl
    | intros ?; split; reflexivity
    | apply steps_commit; [apply same_history_refl |];
      intros ? ? Hdb; unfold same_history, rows, next_id; simpl;
      rewrite Hdb; split; reflexivity ].

Lemma same_history_deriveAndVerify (p : jsstring) :
  steps same_history (deriveAndVerify pf p).
Proof.
  unfold deriveAndVerify, getMasterRecord, put_meta, deriveKey, aesEncrypt,
    subtle_encrypt, subtle_deriveKey, subtle_importKey.
  steps_split history_known same_history_refl same_history_trans.
Qed.

Lemma same_history_getMasterKey (r : PromptReply) :
  steps same_history (getMasterKey pf r).
Proof.
  unfold getMasterKey, onPassphrase, getCachedKey, setCachedKey, toast.
  steps_split ltac:(first [history_known | apply same_history_deriveAndVerify])
    same_history_refl same_history_trans.
Qed.

Lemma same_history_viewItem (id : Z) (r : PromptReply) :
  steps same_history (viewItem pf id r).
Proof.
  unfold viewItem, clearKeyCache, toast.
  steps_split ltac:(first [history_known | apply same_history_getMasterKey])
    same_history_refl same_history_trans.
Qed.

End SameHistory.

(** X1. Asking for the key, verifying a passphrase, asking whether a
    master password exists and revealing an entry never add, remove or
    alter an entry of the history, and never move its key generator,
    in any state and whatever they return. *)
Theorem X1_reading_keeps_the_history :
  forall (pf : Platform) (w : World),
    (forall p, same_history w (snd (deriveAndVerify pf p w)))
    /\ (forall r, same_history w (snd (getMasterKey pf r w)))
    /\ (forall id r, same_history w (snd (viewItem pf id r w)))
    /\ snd (hasMasterPassword w) = w.
Proof.
  intros pf w. split; [|split; [|split]].
  - intros p. apply same_history_deriveAndVerify.
  - intros r. apply same_history_getMasterKey.
  - intros id r. apply same_history_viewItem.
  - unfold hasMasterPassword, getMasterRecord, bind, transaction, ret.
    now destruct (db w).
Qed.

(* ================================================================== *)
(** * More on the vault: a rejected passphrase *)

Lemma new_toasts_app (w : World) (l : list (string * bool)) (w' : World) :
  toasts w' = toasts w ++ l -> new_toasts w w' = l.
Proof.
  intros E. unfold new_toasts.
  now rewrite E, skipn_app, skipn_all, Nat.sub_diag.
Qed.

(** The state [getCachedKey] leaves when it finds no key: the same, up
    to one reading of the clock. *)
Lemma getCachedKey_miss_state (pf : Platform) (w : World) :
  fst (getCachedKey pf w) = Ok None ->
  let w1 := snd (getCachedKey pf w) in
  db w1 = db w /\ cache w1 = cache w /\ toasts w1 = toasts w
  /\ uiLoaded w1 = uiLoaded w /\ kdf_calls w1 = kdf_calls w
  /\ drawn w1 = drawn w.
Proof.
  intros _ w1. subst w1.
  destruct (getCachedKey_frame pf w) as [E|E]; rewrite E; now repeat split.
Qed.

(** [getMasterKey] when the dialog is shown and answered. *)
Lemma getMasterKey_prompted (pf : Platform) (r : PromptReply)
    (p : jsstring) (w : World) :
  fst (getCachedKey pf w) = Ok None ->
  uiLoaded w = true ->
  reply_passphrase r = Some p ->
  js_falsy p = false ->
  getMasterKey pf r w
  = try_catch
      (key <- deriveAndVerify pf p ;;
       (if reply_remember r then setCachedKey pf key else ret tt) ;;
       ret (Some key))
      (fun err =>
         (if String.eqb (err_message err) "incorrect-password"
          then toast "Wrong master password." false
          else toast "Key derivation failed." false) ;;
         ret None)
      (snd (getCachedKey pf w)).
Proof.
  intros Hmiss Hui Hp Hf. rewrite (getMasterKey_miss pf r w Hmiss).
  destruct (getCachedKey_miss_state pf w Hmiss) as (_ & _ & _ & Hu & _).
  rewrite Hu, Hui. simpl. unfold onPassphrase. now rewrite Hp, Hf.
Qed.

(** [getMasterKey] on an initialized vault when the passphrase typed does
    not open the verification record. *)
Lemma getMasterKey_wrong (pf : Platform) (r : PromptReply) (p : jsstring)
    (w : World) (d : Database) (record : MasterRecord) :
  db w = Some d ->
  meta_get 1 (meta d) = Some record ->
  fst (getCachedKey pf w) = Ok None ->
  uiLoaded w = true ->
  reply_passphrase r = Some p ->
  js_falsy p = false ->
  recovered pf (derived_key pf p (m_salt record)) (m_iv record)
    (m_encryptedData record) <> Some VERIFY_PLAIN ->
  exists w',
    getMasterKey pf r w = (Ok None, w')
    /\ db w' = db w /\ cache w' = cache w
    /\ toasts w' = toasts w ++ [("Wrong master password."%string, false)].
Proof.
  intros Hdb Hrec Hmiss Hui Hp Hf Hwrong.
  rewrite (getMasterKey_prompted pf r p w Hmiss Hui Hp Hf).
  destruct (getCachedKey_miss_state pf w Hmiss) as (Hd & Hc & Ht & _).
  set (w1 := snd (getCachedKey pf w)) in *.
  assert (Hdb1 : db w1 = Some d) by congruence.
  unfold try_catch. unfold bind at 1.
  rewrite (deriveAndVerify_initialized pf p w1 d record Hdb1 Hrec).
  assert (Hres : match recovered pf (derived_key pf p (m_salt record))
                         (m_iv record) (m_encryptedData record) with
                 | Some plain =>
                     if js_eqb plain VERIFY_PLAIN
                     then Ok (derived_key pf p (m_salt record))
                     else Throw (Error "incorrect-password")
                 | None => Throw (Error "incorrect-password")
                 end = Throw (Error "incorrect-password")).
  { destruct (recovered pf _ _ _) as [plain|]; [|reflexivity].
    destruct (js_eqb plain VERIFY_PLAIN) eqn:E; [|reflexivity].
    apply js_eqb_eq in E. subst plain. now contradiction Hwrong. }
  rewrite Hres. eexists. split; [reflexivity|]. simpl.
  unfold cache in *. simpl. rewrite Ht. repeat split; assumption.
Qed.

(** X2. On an initialized vault, when no live key is cached and the
    passphrase typed does not open the verification record, nothing is
    saved, revealed or deleted: each request leaves the database and the
    session cache as they were, and the user is told "Wrong master
    password." *)
Theorem X2_wrong_passphrase_blocks_every_request :
  forall (pf : Platform) (r : PromptReply) (p : jsstring) (w : World)
         (d : Database) (record : MasterRecord),
    db w = Some d ->
    meta_get 1 (meta d) = Some record ->
    fst (getCachedKey pf w) = Ok None ->
    uiLoaded w = true ->
    reply_passphrase r = Some p ->
    js_falsy p = false ->
    recovered pf (derived_key pf p (m_salt record)) (m_iv record)
      (m_encryptedData record) <> Some VERIFY_PLAIN ->
    (forall value type,
        js_falsy value = false ->
        let w' := snd (addToHistory pf value type r w) in
        db w' = db w /\ cache w' = cache w
        /\ new_toasts w w'
           = [("Wrong master password."%string, false);
              ("Save cancelled."%string, false)])
    /\ (forall id,
           let w' := snd (viewItem pf id r w) in
           fst (viewItem pf id r w) = Ok None
           /\ db w' = db w /\ cache w' = cache w
           /\ new_toasts w w' = [("Wrong master password."%string, false)])
    /\ (forall id,
           let w' := snd (deleteItem pf id r w) in
           db w' = db w /\ cache w' = cache w
           /\ new_toasts w w' = [("Wrong master password."%string, false)]).
Proof.
  intros pf r p w d record Hdb Hrec Hmiss Hui Hp Hf Hwrong.
  destruct (getMasterKey_wrong pf r p w d record Hdb Hrec Hmiss Hui Hp Hf
              Hwrong) as (w1 & Hrun & Hd & Hc & Ht).
  split; [|split].
  - intros value type Hv w'.
    assert (Hw : w' = set_toasts
                        (toasts w1 ++ [("Save cancelled."%string, false)]) w1).
    { subst w'. unfold addToHistory. rewrite Hv.
      unfold bind at 1. unfold gets at 1. cbv beta iota. rewrite Hdb.
      unfold bind. now rewrite Hrun. }
    rewrite Hw. split; [exact Hd|]. split; [exact Hc|].
    apply new_toasts_app. simpl. rewrite Ht, <- app_assoc. reflexivity.
  - intros id w'.
    assert (Hw : viewItem pf id r w = (Ok None, w1))
      by (unfold viewItem, bind; now rewrite Hrun).
    subst w'. rewrite Hw. simpl.
    repeat split; try assumption. now apply new_toasts_app.
  - intros id w'.
    assert (Hw : deleteItem pf id r w = (Ok tt, w1))
      by (unfold deleteItem, bind; now rewrite Hrun).
    subst w'. rewrite Hw. simpl.
    repeat split; try assumption. now apply new_toasts_app.
Qed.

(** X2 on the locked demonstration vault with a mistyped passphrase. *)
Lemma X2_wrong_passphrase_blocks_every_request_witness :
  db Demo.locked = Some Demo.first_db
  /\ meta_get 1 (meta Demo.first_db) = Some Demo.master
  /\ fst (getCachedKey Demo.platform Demo.locked) = Ok None
  /\ rows (snd (deleteItem Demo.platform 1 Demo.mistyped Demo.locked))
     = rows Demo.locked.
Proof.
  split; [reflexivity|]. split; [reflexivity|]. split; [reflexivity|].
  assert (Hwrong : recovered Demo.platform
                     (derived_key Demo.platform (js "wrong")
                        (m_salt Demo.master))
                     (m_iv Demo.master) (m_encryptedData Demo.master)
                   <> Some VERIFY_PLAIN) by discriminate.
  destruct (X2_wrong_passphrase_blocks_every_request Demo.platform
              Demo.mistyped (js "wrong") Demo.locked Demo.first_db
              Demo.master eq_refl eq_refl eq_refl eq_refl eq_refl eq_refl
              Hwrong) as (_ & _ & Hdel).
  destruct (Hdel 1) as (Hd & _). unfold rows. now rewrite Hd.
Defined.

(* ================================================================== *)
(** * More on the vault: remembering the session *)

Section SameCache.

Variable pf : Platform.

Lemma same_cache_refl (w : World) : same_cache w w.
Proof. reflexivity. Qed.

Lemma same_cache_trans (a b c : World) :
  same_cache a b -> same_cache b c -> same_cache a c.
Proof. unfold same_cache. congruence. Qed.

Ltac cache_known :=
  first
    [ intros ?; reflexivity
    | apply steps_commit; [apply same_cache_refl |]; intros; reflexivity ].

Lemma same_cache_deriveAndVerify (p : jsstring) :
  steps same_cache (deriveAndVerify pf p).
Proof.
  unfold deriveAndVerify, getMasterRecord, put_meta, deriveKey, aesEncrypt,
    aesDecrypt, subtle_encrypt, subtle_decrypt, subtle_deriveKey,
    subtle_importKey.
  steps_split cache_known same_cache_refl same_cache_trans.
Qed.

End SameCache.

(** X3. When the dialog is answered with a passphrase that
    [deriveAndVerify] accepts, [getMasterKey] returns the key.  With
    "remember" set, the key is cached until 30 minutes after the time
    then read: while the clock reads less, any later [getMasterKey]
    returns that key at once, without dialog and without derivation;
    once the clock has reached the expiry, a dismissed dialog gives no
    key.  Without "remember", the cache stays as it was. *)
Theorem X3_remember_session :
  forall (pf : Platform) (r : PromptReply) (p : jsstring) (w w2 : World)
         (key : CryptoKey),
    fst (getCachedKey pf w) = Ok None ->
    uiLoaded w = true ->
    reply_passphrase r = Some p ->
    js_falsy p = false ->
    deriveAndVerify pf p (snd (getCachedKey pf w)) = (Ok key, w2) ->
    let w3 := snd (getMasterKey pf r w) in
    let expiry := clock pf (ticks w2) + 30 * 60 * 1000 in
    fst (getMasterKey pf r w) = Ok (Some key)
    /\ (reply_remember r = true ->
        cache w3 = (Some key, Some expiry)
        /\ forall w4 r',
             cache w4 = cache w3 ->
             (clock pf (ticks w4) < expiry ->
              getMasterKey pf r' w4
              = (Ok (Some key), set_ticks (S (ticks w4)) w4))
             /\ (expiry <= clock pf (ticks w4) ->
                 no_passphrase r' = true ->
                 fst (getMasterKey pf r' w4) = Ok None))
    /\ (reply_remember r = false -> cache w3 = cache w).
Proof.
  intros pf r p w w2 key Hmiss Hui Hp Hf Hverify w3 expiry.
  assert (Hrun : getMasterKey pf r w
                 = (Ok (Some key),
                    if reply_remember r
                    then set_cache (Some key) (Some expiry)
                           (set_ticks (S (ticks w2)) w2)
                    else w2)).
  { rewrite (getMasterKey_prompted pf r p w Hmiss Hui Hp Hf).
    unfold try_catch. unfold bind at 1. rewrite Hverify.
    destruct (reply_remember r); reflexivity. }
  subst w3. rewrite Hrun. simpl fst. simpl snd.
  split; [reflexivity|]. split.
  - intros Hrem. rewrite Hrem. split; [reflexivity|].
    intros w4 r' Hcache. unfold cache in Hcache. simpl in Hcache.
    inversion Hcache as [[Hk He]]. split.
    + intros Hlive. unfold getMasterKey, bind.
      rewrite getCachedKey_run, Hk, He. unfold to_number.
      apply Z.ltb_lt in Hlive. now rewrite Hlive.
    + intros Hdead Hno.
      assert (Hmiss4 : fst (getCachedKey pf w4) = Ok None).
      { rewrite getCachedKey_run, Hk, He. unfold to_number.
        apply Z.ltb_ge in Hdead. now rewrite Hdead. }
      destruct (getMasterKey_cancelled pf r' w4 Hmiss4 Hno)
        as (w5 & Hrun5 & _).
      now rewrite Hrun5.
  - intros Hrem. rewrite Hrem.
    pose proof (same_cache_deriveAndVerify pf p (snd (getCachedKey pf w)))
      as Hsame.
    rewrite Hverify in Hsame. unfold same_cache in Hsame. simpl in Hsame.
    rewrite Hsame.
    now destruct (getCachedKey_miss_state pf w Hmiss) as (_ & Hc & _).
Qed.

(** X3 on the locked demonstration vault, unlocked with "remember". *)
Lemma X3_remember_session_witness :
  fst (getCachedKey Demo.platform Demo.locked) = Ok None
  /\ fst (getMasterKey Demo.platform Demo.hunter2 Demo.locked)
     = Ok (Some Demo.key)
  /\ fst (getMasterKey Demo.platform Demo.cancelled
            (snd (getMasterKey Demo.platform Demo.hunter2 Demo.locked)))
     = Ok (Some Demo.key).
Proof.
  split; [reflexivity|].
  destruct (X3_remember_session Demo.platform Demo.hunter2 (js "hunter2")
              Demo.locked
              (after_kdf (vault_kdf_call (m_salt Demo.master)) Demo.locked)
              Demo.key eq_refl eq_refl eq_refl eq_refl eq_refl)
    as (Hkey & Hrem & _).
  split; [exact Hkey|].
  destruct (Hrem eq_refl) as (_ & Hlater).
  destruct (Hlater (snd (getMasterKey Demo.platform Demo.hunter2 Demo.locked))
              Demo.cancelled eq_refl) as (Hlive & _).
  rewrite Hlive; [reflexivity|]. vm_compute. reflexivity.
Defined.

(* ================================================================== *)
(** * More on the vault: errors end in a toast *)

Section Feedback.

Variable pf : Platform.

Lemma returns_ret {A : Type} (a : A) : returns (ret a).
Proof. intros w. now exists a, w. Qed.

Lemma returns_bind {A B : Type} (m : M A) (k : A -> M B) :
  returns m -> (forall a, returns (k a)) -> returns (bind m k).
Proof.
  intros Hm Hk w. destruct (Hm w) as (a & w1 & E). unfold bind. rewrite E.
  apply Hk.
Qed.

Lemma returns_try_catch {A : Type} (m : M A) (h : JsError -> M A) :
  (forall e, returns (h e)) -> returns (try_catch m h).
Proof.
  intros Hh w. unfold try_catch. destruct (m w) as [[a|e] w1].
  - now exists a, w1.
  - apply Hh.
Qed.

Lemma returns_toast (msg : string) (ok : bool) : returns (toast msg ok).
Proof. intros w. eexists. eexists. reflexivity. Qed.

Lemma returns_gets {A : Type} (f : World -> A) : returns (gets f).
Proof. intros w. eexists. eexists. reflexivity. Qed.

Lemma returns_getCachedKey : returns (getCachedKey pf).
Proof.
  intros w. rewrite getCachedKey_run.
  destruct (_cachedKey w); eexists; eexists; reflexivity.
Qed.

Ltac returns_split :=
  repeat first
    [ apply returns_ret
    | apply returns_toast
    | apply returns_gets
    | apply returns_getCachedKey
    | apply returns_try_catch; intros ?
    | apply returns_bind; [| intros ?]
    | match goal with
      | |- returns (match ?x with _ => _ end) => destruct x
      | |- returns (if ?x then _ else _) => destruct x
      end ].

Lemma returns_getMasterKey (r : PromptReply) : returns (getMasterKey pf r).
Proof. unfold getMasterKey, onPassphrase. returns_split. Qed.

Lemma returns_viewItem (id : Z) (r : PromptReply) :
  returns (viewItem pf id r).
Proof.
  unfold viewItem, clearKeyCache.
  repeat first
    [ apply returns_getMasterKey
    | apply returns_ret
    | apply returns_toast
    | apply returns_gets
    | apply returns_try_catch; intros ?
    | apply returns_bind; [| intros ?]
    | match goal with
      | |- returns (match ?x with _ => _ end) => destruct x
      end ].
  intros w. eexists. eexists. reflexivity.
Qed.

Lemma returns_deleteItem (id : Z) (r : PromptReply) :
  returns (deleteItem pf id r).
Proof.
  unfold deleteItem.
  repeat first
    [ apply returns_getMasterKey
    | apply returns_ret
    | apply returns_toast
    | apply returns_gets
    | apply returns_try_catch; intros ?
    | apply returns_bind; [| intros ?]
    | match goal with
      | |- returns (match ?x with _ => _ end) => destruct x
      end ].
Qed.

Lemma toast_grows_refl (w : World) : toast_grows w w.
Proof. exists []. now rewrite app_nil_r. Qed.

Lemma toast_grows_trans (a b c : World) :
  toast_grows a b -> toast_grows b c -> toast_grows a c.
Proof.
  intros [l1 E1] [l2 E2]. exists (l1 ++ l2). now rewrite E2, E1, app_assoc.
Qed.

Lemma toast_grows_ends (msgs : list string) (a b c : World) :
  toast_grows a b -> ends_with msgs b c -> ends_with msgs a c.
Proof.
  intros [l1 E1] (l2 & msg & ok & E2 & Hin).
  exists (l1 ++ l2), msg, ok. split; [|exact Hin].
  now rewrite E2, E1, <- !app_assoc.
Qed.

Ltac toasts_known :=
  first
    [ intros ?; rewrite aesDecrypt_state; apply toast_grows_refl
    | intros ?; eexists; simpl; reflexivity
    | intros ?; exists []; simpl; now rewrite app_nil_r
    | apply steps_commit; [apply toast_grows_refl |];
      intros; exists []; simpl; now rewrite app_nil_r ].

Lemma toast_grows_getMasterKey (r : PromptReply) :
  steps toast_grows (getMasterKey pf r).
Proof.
  unfold getMasterKey, onPassphrase, getCachedKey, setCachedKey,
    deriveAndVerify, getMasterRecord, put_meta, deriveKey, aesEncrypt,
    aesDecrypt, subtle_encrypt, subtle_decrypt, subtle_deriveKey,
    subtle_importKey, toast.
  steps_split toasts_known toast_grows_refl toast_grows_trans.
Qed.

Lemma closes_toast (msgs : list string) (msg : string) (ok : bool) :
  In msg msgs -> closes msgs (toast msg ok).
Proof.
  intros Hin w. eexists. eexists. split; [reflexivity|].
  exists [], msg, ok. split; [reflexivity | exact Hin].
Qed.

Lemma closes_bind {A B : Type} (msgs : list string) (m : M A)
    (k : A -> M B) :
  returns m -> steps toast_grows m -> (forall a, closes msgs (k a)) ->
  closes msgs (bind m k).
Proof.
  intros Hr Hs Hk w. destruct (Hr w) as (a & w1 & E).
  specialize (Hs w). unfold bind. rewrite E in *. simpl in Hs.
  destruct (Hk a w1) as (b & w2 & E2 & Hend).
  exists b, w2. split; [exact E2|].
  eapply toast_grows_ends; eassumption.
Qed.

Lemma closes_try_catch {A : Type} (msgs : list string) (m : M A)
    (h : JsError -> M A) :
  finishes_with msgs m -> (forall e, closes msgs (h e)) ->
  closes msgs (try_catch m h).
Proof.
  intros Hm Hh w. specialize (Hm w). unfold try_catch.
  destruct (m w) as [[a|e] w1].
  - exists a, w1. split; [reflexivity | exact Hm].
  - destruct (Hh e w1) as (b & w2 & E2 & Hend).
    exists b, w2. split; [exact E2|].
    eapply toast_grows_ends; eassumption.
Qed.

Lemma finishes_toast (msgs : list string) (msg : string) (ok : bool) :
  In msg msgs -> finishes_with msgs (toast msg ok).
Proof.
  intros Hin w. simpl. exists [], msg, ok. split; [reflexivity | exact Hin].
Qed.

Lemma finishes_bind {A B : Type} (msgs : list string) (m : M A)
    (k : A -> M B) :
  steps toast_grows m -> (forall a, finishes_with msgs (k a)) ->
  finishes_with msgs (bind m k).
Proof.
  intros Hs Hk w. specialize (Hs w). unfold bind.
  destruct (m w) as [[a|e] w1]; simpl in Hs; [|exact Hs].
  specialize (Hk a w1). destruct (k a w1) as [[b|e] w2].
  - eapply toast_grows_ends; eassumption.
  - eapply toast_grows_trans; eassumption.
Qed.

Lemma closes_addToHistory (value type : jsstring) (r : PromptReply) :
  closes save_messages (addToHistory pf value type r).
Proof.
  unfold addToHistory.
  destruct (js_falsy value); [apply closes_toast; simpl; tauto|].
  apply closes_bind; [apply returns_gets | toasts_known |].
  intros [d|]; [|apply closes_toast; simpl; tauto].
  apply closes_bind;
    [apply returns_getMasterKey | apply toast_grows_getMasterKey |].
  intros [key|]; [|apply closes_toast; simpl; tauto].
  apply closes_try_catch; [|intros e; apply closes_toast; simpl; tauto].
  unfold enforceLimit, aesEncrypt, subtle_encrypt, add_history.
  repeat first
    [ apply finishes_toast; simpl; tauto
    | apply finishes_bind; [| intros ?]
    | match goal with
      | |- finishes_with _ (let '(_, _) := ?x in _) => destruct x
      | |- finishes_with _ (if ?x then _ else _) => destruct x
      | |- finishes_with _ (match ?x with _ => _ end) => destruct x
      end ].
  all: try (unfold delete_history;
            steps_split toasts_known toast_grows_refl toast_grows_trans).
  all: intros w; simpl; apply toast_grows_refl.
Qed.

End Feedback.

(** X4. No failure escapes the vault's entry points: in every state,
    with the database open or not and whatever the dialog answers,
    [getMasterKey], [addToHistory], [viewItem] and [deleteItem] return
    and do not throw, and [addToHistory] has then just shown one of its
    five toasts. *)
Theorem X4_requests_never_throw :
  forall (pf : Platform) (w : World),
    (forall r, exists res w', getMasterKey pf r w = (Ok res, w'))
    /\ (forall value type r,
           exists w',
             addToHistory pf value type r w = (Ok tt, w')
             /\ ends_with save_messages w w')
    /\ (forall id r, exists res w', viewItem pf id r w = (Ok res, w'))
    /\ (forall id r, exists w', deleteItem pf id r w = (Ok tt, w')).
Proof.
  intros pf w. split; [|split; [|split]].
  - intros r. apply returns_getMasterKey.
  - intros value type r.
    destruct (closes_addToHistory pf value type r w) as ([] & w' & E & H).
    now exists w'.
  - intros id r. apply returns_viewItem.
  - intros id r. destruct (returns_deleteItem pf id r w) as ([] & w' & E).
    now exists w'.
Qed.

(* ================================================================== *)
(** * More on the vault: a saved value can be read back *)

Section SaveThenView.

Variable pf : Platform.

Lemma history_get_last (lo : Z) (l : list Entry) (e : Entry) :
  ids_between lo l (e_id e) = true ->
  history_get (e_id e) (l ++ [e]) = Some e.
Proof.
  intros H. apply ids_between_bounds in H as [_ Hall].
  unfold history_get. induction Hall as [|x l Hx Hall IH]; simpl.
  - now rewrite Z.eqb_refl.
  - replace (e_id x =? e_id e) with false; [exact IH|].
    symmetry. apply Z.eqb_neq. lia.
Qed.

(** A save that obtains a key stores exactly one new row: its text
    sealed under that key with the next twelve random octets, stamped
    with the clock, under the next identifier. *)
Lemma addToHistory_saved (value type : jsstring) (r : PromptReply)
    (key : CryptoKey) (w w1 : World) :
  world_ok w = true ->
  js_falsy value = false ->
  getMasterKey pf r w = (Ok (Some key), w1) ->
  exists w',
    addToHistory pf value type r w = (Ok tt, w')
    /\ world_ok w' = true
    /\ rows w'
       = lastn 99 (rows w)
         ++ [mkEntry (next_id w) type (next_random pf 12 w1)
               (gcm_encrypt pf (key_material key) (next_random pf 12 w1)
                  (encode value))
               (clock pf (ticks w1))]
    /\ next_id w' = next_id w + 1
    /\ cache w' = cache w1
    /\ toasts w' = toasts w1 ++ [("Saved!"%string, true)].
Proof.
  intros Hok Hval Hkey. unfold addToHistory. rewrite Hval.
  destruct (world_ok_elim w Hok) as (d & Hdb & Hids & Hc).
  unfold bind at 1. unfold gets at 1. cbv beta iota. rewrite Hdb.
  destruct (getMasterKey_history pf r w Hok)
    as (res & w1' & Hrun & Hok1 & Hr1 & Hn1 & Hv).
  rewrite Hkey in Hrun. inversion Hrun; subst res w1'. clear Hrun.
  unfold bind at 1. rewrite Hkey.
  specialize (Hv key eq_refl).
  destruct (world_ok_elim w1 Hok1) as (d1 & Hdb1 & Hids1 & Hc1).
  unfold try_catch. unfold bind at 1.
  rewrite (enforceLimit_run 1 (keygen d1) w1 d1 Hdb1 Hids1).
  unfold bind at 1. rewrite (aesEncrypt_run pf _ key _ Hv).
  unfold bind, Date_now, add_history, commit, bind, transaction, modify,
    toast, modify. simpl.
  assert (Hrows : history d1 = rows w)
    by (unfold rows in Hr1; now rewrite Hdb1 in Hr1).
  assert (Hnext : keygen d1 = next_id w)
    by (unfold next_id in Hn1; now rewrite Hdb1 in Hn1).
  eexists. split; [reflexivity|]. split; [|split; [|split; [|split]]].
  - eapply world_ok_intro; simpl; [reflexivity | | exact Hc1].
    simpl. apply (ids_between_snoc 1 (lastn 99 (history d1))
                    (mkEntry (keygen d1) _ _ _ _)).
    simpl. unfold lastn. now apply ids_between_skipn.
  - rewrite <- Hrows, <- Hnext. reflexivity.
  - rewrite <- Hnext. reflexivity.
  - reflexivity.
  - reflexivity.
Qed.

(** Reading a row with the key it was sealed under gives its text. *)
Lemma viewItem_opens (id : Z) (r : PromptReply) (key : CryptoKey)
    (item : Entry) (plain : jsstring) (w w2 : World) :
  world_ok w = true ->
  getMasterKey pf r w = (Ok (Some key), w2) ->
  history_get id (rows w) = Some item ->
  recovered pf key (e_iv item) (e_encryptedData item) = Some plain ->
  viewItem pf id r w = (Ok (Some plain), w2).
Proof.
  intros Hok Hkey Hget Hrec.
  destruct (getMasterKey_history pf r w Hok)
    as (res & w2' & Hrun & Hok2 & Hr2 & _ & Hv).
  rewrite Hkey in Hrun. inversion Hrun; subst res w2'. clear Hrun.
  specialize (Hv key eq_refl).
  destruct (world_ok_elim w2 Hok2) as (d2 & Hdb2 & _).
  unfold viewItem. unfold bind at 1. rewrite Hkey.
  unfold try_catch, bind at 1, transaction. rewrite Hdb2.
  assert (Hrows : history d2 = rows w)
    by (unfold rows in Hr2; now rewrite Hdb2 in Hr2).
  rewrite Hrows, Hget. unfold bind.
  rewrite (aesDecrypt_run pf _ _ key w2 Hv), Hrec. reflexivity.
Qed.

End SaveThenView.

(** X5. What is saved can be read back.  When the platform's AES-GCM
    opens what it sealed and a save of a well-formed text without
    leading U+FEFF obtains a key, the call stores one row under the next
    identifier (keeping the 99 newest of the others), holding the text
    sealed under that key with twelve fresh random octets and the time
    of the clock, and ends on the toast "Saved!"; a later [viewItem] of
    that identifier that obtains the same key returns the text. *)
Theorem X5_saved_value_is_revealed :
  forall (pf : Platform) (value type : jsstring) (r r' : PromptReply)
         (key : CryptoKey) (w w1 : World),
    gcm_correct pf ->
    world_ok w = true ->
    js_falsy value = false ->
    well_formed value = true ->
    starts_with_bom value = false ->
    getMasterKey pf r w = (Ok (Some key), w1) ->
    exists w',
      addToHistory pf value type r w = (Ok tt, w')
      /\ rows w'
         = lastn 99 (rows w)
           ++ [mkEntry (next_id w) type (next_random pf 12 w1)
                 (gcm_encrypt pf (key_material key) (next_random pf 12 w1)
                    (encode value))
                 (clock pf (ticks w1))]
      /\ toasts w' = toasts w1 ++ [("Saved!"%string, true)]
      /\ (fst (getMasterKey pf r' w') = Ok (Some key) ->
          fst (viewItem pf (next_id w) r' w') = Ok (Some value)).
Proof.
  intros pf value type r r' key w w1 Hgcm Hok Hval Hwf Hbom Hkey.
  destruct (addToHistory_saved pf value type r key w w1 Hok Hval Hkey)
    as (w' & Hrun & Hok' & Hrows & _ & _ & Htoasts).
  exists w'. split; [exact Hrun|]. split; [exact Hrows|].
  split; [exact Htoasts|].
  intros Hkey'. destruct (getMasterKey pf r' w') as [res w2] eqn:E.
  simpl in Hkey'. subst res.
  erewrite (viewItem_opens pf (next_id w) r' key _ value w' w2 Hok' E);
    [reflexivity | |].
  - rewrite Hrows.
    apply (history_get_last 1 (lastn 99 (rows w)) (mkEntry (next_id w) _ _ _ _)).
    simpl. destruct (world_ok_elim w Hok) as (d & Hdb & Hids & _).
    unfold rows, next_id, lastn. rewrite Hdb. now apply ids_between_skipn.
  - simpl. unfold recovered. rewrite Hgcm. simpl.
    now rewrite decode_encode.
Qed.

(** X5 on the demonstration platform: a second save, then a view. *)
Lemma X5_saved_value_is_revealed_witness :
  exists w',
    addToHistory Demo.platform (js "x7!Qp") (js "password") Demo.hunter2
      Demo.first_save = (Ok tt, w')
    /\ fst (viewItem Demo.platform 2 Demo.hunter2 w') = Ok (Some (js "x7!Qp")).
Proof.
  destruct (X5_saved_value_is_revealed Demo.platform (js "x7!Qp")
              (js "password") Demo.hunter2 Demo.hunter2 Demo.key
              Demo.first_save
              (snd (getMasterKey Demo.platform Demo.hunter2 Demo.first_save))
              demo_gcm_correct eq_refl eq_refl eq_refl eq_refl eq_refl)
    as (w' & Hrun & _ & _ & Hview).
  exists w'. split; [exact Hrun|].
  apply Hview.
  assert (Hw : w' = snd (addToHistory Demo.platform (js "x7!Qp")
                           (js "password") Demo.hunter2 Demo.first_save))
    by now rewrite Hrun.
  rewrite Hw. vm_compute. reflexivity.
Defined.

(* ================================================================== *)
(** * More on the vault: deleting a row *)

Section Deleting.

Variable pf : Platform.

Lemma ids_between_delete (key lo hi : Z) (l : list Entry) :
  ids_between lo l hi = true ->
  ids_between lo (history_delete key l) hi = true.
Proof.
  revert lo. induction l as [|e l IH]; intros lo H; [exact H|].
  simpl in H. apply andb_true_iff in H as [Hlo Hrest].
  unfold history_delete. simpl. destruct (e_id e =? key); simpl.
  - apply IH. apply Z.leb_le in Hlo.
    eapply ids_between_weaken; [|exact Hrest]. lia.
  - rewrite Hlo. simpl. now apply IH.
Qed.

Lemma history_get_delete (key : Z) (l : list Entry) :
  history_get key (history_delete key l) = None.
Proof.
  unfold history_get, history_delete.
  induction l as [|e l IH]; [reflexivity|]. simpl.
  destruct (e_id e =? key) eqn:E; simpl; [exact IH|]. now rewrite E.
Qed.

Lemma history_get_delete_other (key id : Z) (l : list Entry) :
  id <> key ->
  history_get id (history_delete key l) = history_get id l.
Proof.
  intros Hne. unfold history_get, history_delete.
  induction l as [|e l IH]; [reflexivity|]. simpl.
  destruct (e_id e =? key) eqn:E; simpl.
  - apply Z.eqb_eq in E.
    replace (e_id e =? id) with false; [exact IH|].
    symmetry. apply Z.eqb_neq. congruence.
  - now rewrite IH.
Qed.

(** In a store in key order a key names at most one row. *)
Lemma length_history_delete (key lo hi : Z) (l : list Entry) :
  ids_between lo l hi = true ->
  length l
  = (length (history_delete key l)
     + match history_get key l with Some _ => 1 | None => 0 end)%nat.
Proof.
  revert lo. induction l as [|e l IH]; intros lo H; [reflexivity|].
  destruct (e_id e =? key) eqn:E.
  - apply Z.eqb_eq in E. subst key.
    rewrite (history_delete_head lo hi e l H).
    unfold history_get. simpl. rewrite Z.eqb_refl. lia.
  - simpl in H. apply andb_true_iff in H as [_ Hrest].
    specialize (IH _ Hrest).
    unfold history_delete, history_get in *. simpl. rewrite E. simpl.
    lia.
Qed.

Lemma deleteItem_deleted (id : Z) (r : PromptReply) (key : CryptoKey)
    (w w1 : World) :
  world_ok w = true ->
  getMasterKey pf r w = (Ok (Some key), w1) ->
  exists w',
    deleteItem pf id r w = (Ok tt, w')
    /\ world_ok w' = true
    /\ rows w' = history_delete id (rows w)
    /\ next_id w' = next_id w
    /\ master_rows w' = master_rows w1
    /\ cache w' = cache w1
    /\ toasts w' = toasts w1 ++ [("Entry deleted."%string, true)].
Proof.
  intros Hok Hkey.
  destruct (getMasterKey_history pf r w Hok)
    as (res & w1' & Hrun & Hok1 & Hr1 & Hn1 & _).
  rewrite Hkey in Hrun. inversion Hrun; subst res w1'. clear Hrun.
  destruct (world_ok_elim w1 Hok1) as (d1 & Hdb1 & Hids1 & Hc1).
  assert (Hrows : history d1 = rows w)
    by (unfold rows in Hr1; now rewrite Hdb1 in Hr1).
  assert (Hnext : keygen d1 = next_id w)
    by (unfold next_id in Hn1; now rewrite Hdb1 in Hn1).
  unfold deleteItem. unfold bind at 1. rewrite Hkey.
  unfold try_catch, delete_history, commit, bind, transaction, modify,
    toast, modify. rewrite Hdb1. simpl.
  eexists. split; [reflexivity|].
  split; [|split; [|split; [|split; [|split]]]].
  - eapply world_ok_intro; simpl; [reflexivity | | exact Hc1].
    simpl. now apply ids_between_delete.
  - rewrite <- Hrows. reflexivity.
  - rewrite <- Hnext. reflexivity.
  - unfold master_rows. simpl. now rewrite Hdb1.
  - reflexivity.
  - reflexivity.
Qed.

(** Reading an identifier that names no row reports it and leaves the
    session cache alone. *)
Lemma viewItem_missing (id : Z) (r : PromptReply) (key : CryptoKey)
    (w w2 : World) :
  world_ok w = true ->
  getMasterKey pf r w = (Ok (Some key), w2) ->
  history_get id (rows w) = None ->
  viewItem pf id r w
  = (Ok None, set_toasts (toasts w2 ++ [("Item not found."%string, false)]) w2).
Proof.
  intros Hok Hkey Hget.
  destruct (getMasterKey_history pf r w Hok)
    as (res & w2' & Hrun & Hok2 & Hr2 & _ & _).
  rewrite Hkey in Hrun. inversion Hrun; subst res w2'. clear Hrun.
  destruct (world_ok_elim w2 Hok2) as (d2 & Hdb2 & _).
  unfold viewItem. unfold bind at 1. rewrite Hkey.
  unfold try_catch, bind at 1, transaction. rewrite Hdb2.
  assert (Hrows : history d2 = rows w)
    by (unfold rows in Hr2; now rewrite Hdb2 in Hr2).
  rewrite Hrows, Hget. reflexivity.
Qed.

End Deleting.

(** X6. [deleteItem] removes the row of the given identifier and nothing
    else.  In a usable vault the call returns; when no key is obtained
    the history is as before; when one is, the rows left are those of
    other identifiers, in their order, at most one row is gone, the key
    generator and the [meta] store are as [getMasterKey] left them, and
    the toast "Entry deleted." is shown, also when the identifier named
    no row.  A later [viewItem] of that identifier that obtains a key
    returns nothing and reports "Item not found.". *)
Theorem X6_delete_removes_the_row :
  forall (pf : Platform) (id : Z) (r : PromptReply) (w : World),
    world_ok w = true ->
    exists res w1 w',
      getMasterKey pf r w = (Ok res, w1)
      /\ deleteItem pf id r w = (Ok tt, w')
      /\ world_ok w' = true
      /\ next_id w' = next_id w
      /\ master_rows w' = master_rows w1
      /\ match res with
         | None => w' = w1 /\ rows w' = rows w
         | Some _ =>
             rows w' = history_delete id (rows w)
             /\ (forall e, In e (rows w') <-> In e (rows w) /\ e_id e <> id)
             /\ (forall id', id' <> id ->
                   history_get id' (rows w') = history_get id' (rows w))
             /\ length (rows w)
                = (length (rows w')
                   + match history_get id (rows w) with
                     | Some _ => 1
                     | None => 0
                     end)%nat
             /\ toasts w' = toasts w1 ++ [("Entry deleted."%string, true)]
             /\ forall r' key' w2,
                  getMasterKey pf r' w' = (Ok (Some key'), w2) ->
                  viewItem pf id r' w'
                  = (Ok None,
                     set_toasts
                       (toasts w2 ++ [("Item not found."%string, false)]) w2)
         end.
Proof.
  intros pf id r w Hok.
  destruct (getMasterKey_history pf r w Hok)
    as (res & w1 & Hrun & Hok1 & Hr1 & Hn1 & _).
  exists res, w1. destruct res as [key|].
  - destruct (deleteItem_deleted pf id r key w w1 Hok Hrun)
      as (w' & Hdel & Hok' & Hrows & Hnext & Hmeta & _ & Htoasts).
    exists w'. do 5 (split; [assumption|]).
    split; [exact Hrows|]. split; [|split; [|split; [|split]]].
    + intros e. rewrite Hrows. unfold history_delete.
      rewrite filter_In, negb_true_iff, Z.eqb_neq. tauto.
    + intros id' Hne. rewrite Hrows. now apply history_get_delete_other.
    + rewrite Hrows. destruct (world_ok_elim w Hok) as (d & Hdb & Hids & _).
      unfold rows. rewrite Hdb.
      apply (length_history_delete id 1 (keygen d)). exact Hids.
    + exact Htoasts.
    + intros r' key' w2 Hkey'.
      apply (viewItem_missing pf id r' key' w' w2 Hok' Hkey').
      rewrite Hrows. apply history_get_delete.
  - exists w1. unfold deleteItem. unfold bind at 1. rewrite Hrun.
    repeat split; try assumption; reflexivity.
Qed.

(** X6 on the demonstration vault: its only row is deleted. *)
Lemma X6_delete_removes_the_row_witness :
  rows (snd (deleteItem Demo.platform 1 Demo.hunter2 Demo.first_save)) = []
  /\ length (rows Demo.first_save) = 1%nat.
Proof.
  destruct (X6_delete_removes_the_row Demo.platform 1 Demo.hunter2
              Demo.first_save eq_refl)
    as (res & w1 & w' & Hkey & Hdel & _ & _ & _ & H).
  rewrite Hdel. simpl. split; [|reflexivity].
  assert (Hres : res = fst (let '(x, _) := getMasterKey Demo.platform
                                  Demo.hunter2 Demo.first_save in
                            match x with Ok a => (a, tt) | _ => (None, tt) end))
    by now rewrite Hkey.
  vm_compute in Hres. subst res. destruct H as (Hrows & _).
  rewrite Hrows. reflexivity.
Defined.

(* ================================================================== *)
(** * More on the vault: the store over any sequence of requests *)

Section Requests.

Variable pf : Platform.

Lemma world_ok_set_cache_none (w : World) :
  world_ok w = true -> world_ok (set_cache None None w) = true.
Proof.
  unfold world_ok. simpl. intros H. apply andb_true_iff in H as [H _].
  now rewrite H.
Qed.

Lemma viewItem_history (id : Z) (r : PromptReply) (w : World) :
  world_ok w = true ->
  exists res w',
    viewItem pf id r w = (Ok res, w')
    /\ world_ok w' = true
    /\ rows w' = rows w
    /\ next_id w' = next_id w.
Proof.
  intros Hok.
  destruct (getMasterKey_history pf r w Hok)
    as (res & w1 & Hrun & Hok1 & Hr1 & Hn1 & Hv).
  unfold viewItem. unfold bind at 1. rewrite Hrun.
  destruct res as [key|]; [|exists None, w1; tauto].
  specialize (Hv key eq_refl).
  destruct (world_ok_elim w1 Hok1) as (d1 & Hdb1 & _).
  unfold try_catch, bind at 1, transaction. rewrite Hdb1.
  destruct (history_get id (history d1)) as [item|].
  - unfold bind at 1. rewrite (aesDecrypt_run pf _ _ key w1 Hv).
    destruct (recovered pf key (e_iv item) (e_encryptedData item)) as [s|].
    + exists (Some s), w1. tauto.
    + eexists. eexists. split; [reflexivity|].
      rewrite world_ok_set_toasts.
      split; [now apply world_ok_set_cache_none|]. tauto.
  - eexists. eexists. split; [reflexivity|].
    rewrite world_ok_set_toasts. tauto.
Qed.

Lemma deleteItem_history (id : Z) (r : PromptReply) (w : World) :
  world_ok w = true ->
  world_ok (snd (deleteItem pf id r w)) = true
  /\ next_id (snd (deleteItem pf id r w)) = next_id w
  /\ (rows (snd (deleteItem pf id r w)) = rows w
      \/ rows (snd (deleteItem pf id r w)) = history_delete id (rows w)).
Proof.
  intros Hok.
  destruct (getMasterKey_history pf r w Hok)
    as (res & w1 & Hrun & Hok1 & Hr1 & Hn1 & _).
  destruct res as [key|].
  - destruct (deleteItem_deleted pf id r key w w1 Hok Hrun)
      as (w' & Hdel & Hok' & Hrows & Hnext & _).
    rewrite Hdel. simpl. tauto.
  - unfold deleteItem. unfold bind. rewrite Hrun. simpl. tauto.
Qed.

Lemma ids_not_reused_refl (w : World) : ids_not_reused w w.
Proof. split; [lia | tauto]. Qed.

Lemma ids_not_reused_trans (a b c : World) :
  ids_not_reused a b -> ids_not_reused b c -> ids_not_reused a c.
Proof.
  intros [H1 K1] [H2 K2]. split; [lia|].
  intros e He Hlt. apply K1; [|exact Hlt]. apply K2; [exact He | lia].
Qed.

Lemma In_lastn {A : Type} (n : nat) (l : list A) (x : A) :
  In x (lastn n l) -> In x l.
Proof.
  unfold lastn. intros H.
  rewrite <- (firstn_skipn (length l - n) l). apply in_or_app. now right.
Qed.

(** One request: the store stays in key order, no identifier is handed
    out again, no row of an old identifier appears or changes, and a
    store of at most 100 rows stays so. *)
Lemma perform_history (q : Request) (w : World) :
  world_ok w = true ->
  world_ok (snd (perform pf q w)) = true
  /\ ids_not_reused w (snd (perform pf q w))
  /\ ((length (rows w) <= 100)%nat ->
      (length (rows (snd (perform pf q w))) <= 100)%nat).
Proof.
  intros Hok. destruct q as [value type r | id r | id r]; simpl.
  - destruct (addToHistory_outcome pf value type r w Hok)
      as (w' & Hrun & Hok' & [[Hr Hn] | (e & He & Hr & Hn)]);
      rewrite Hrun; simpl; (split; [exact Hok'|]).
    + rewrite Hr. split; [|tauto]. split; [lia|]. now rewrite Hr.
    + split.
      * split; [lia|]. intros x Hx Hlt. rewrite Hr in Hx.
        apply in_app_or in Hx as [Hx | [Hx | []]].
        -- now apply In_lastn in Hx.
        -- subst x. lia.
      * intros _. rewrite Hr, length_app, length_lastn. cbn [length].
        pose proof (Nat.le_min_l 99 (length (rows w))). lia.
  - destruct (viewItem_history id r w Hok) as (res & w' & Hrun & Hok' & Hr & Hn).
    unfold bind. rewrite Hrun. simpl.
    split; [exact Hok'|]. rewrite Hr. split; [|tauto].
    split; [lia|]. now rewrite Hr.
  - destruct (deleteItem_history id r w Hok) as (Hok' & Hn & [Hr | Hr]).
    all: split; [exact Hok'|]; rewrite Hr.
    + split; [|tauto]. split; [lia|]. now rewrite Hr.
    + split.
      * split; [lia|]. intros x Hx _. rewrite Hr in Hx.
        unfold history_delete in Hx. now apply filter_In in Hx.
      * intros Hlen. unfold history_delete.
        pose proof (filter_length_le
                      (fun e => negb (e_id e =? id)) (rows w)). lia.
Qed.

End Requests.

(* ================================================================== *)
(** * More on the vault: resetting it *)

Lemma clearAll_run (w : World) (d : Database) :
  db w = Some d ->
  clearAll true w
  = (Ok tt,
     set_toasts (toasts w ++ [("Vault cleared."%string, true)])
       (set_db (Some (mkDatabase [] [] (keygen d)))
          (set_cache None None w))).
Proof.
  intros Hdb. unfold clearAll, clearKeyCache, commit, bind, transaction,
    modify, toast, modify. simpl. rewrite Hdb. reflexivity.
Qed.

Lemma hasMasterPassword_run (w : World) (d : Database) :
  db w = Some d ->
  hasMasterPassword w
  = (Ok (match meta_get 1 (meta d) with Some _ => true | None => false end),
     w).
Proof.
  intros Hdb. unfold hasMasterPassword, getMasterRecord, bind, transaction.
  rewrite Hdb. reflexivity.
Qed.

(** X8. Resetting the vault.  With the database open, a declined
    confirmation changes nothing; a confirmed [clearAll] empties the
    session cache, the history and the [meta] store, keeps the key
    generator where it was (identifiers are not handed out again), and
    shows "Vault cleared.".  The vault then has no master password, so
    the next [deriveAndVerify] accepts any passphrase: it returns the
    key derived from it and a fresh salt and stores a new master
    record. *)
Theorem X8_clearAll_resets_the_vault :
  forall (pf : Platform) (w : World) (d : Database),
    db w = Some d ->
    clearAll false w = (Ok tt, w)
    /\ exists w',
         clearAll true w = (Ok tt, w')
         /\ rows w' = []
         /\ master_rows w' = []
         /\ next_id w' = next_id w
         /\ cache w' = (None, None)
         /\ new_toasts w w' = [("Vault cleared."%string, true)]
         /\ fst (hasMasterPassword w') = Ok false
         /\ forall p,
              exists w2,
                deriveAndVerify pf p w'
                = (Ok (derived_key pf p (next_random pf 32 w)), w2)
                /\ fst (hasMasterPassword w2) = Ok true
                /\ rows w2 = []
                /\ next_id w2 = next_id w.
Proof.
  intros pf w d Hdb. split; [reflexivity|].
  eexists. split; [exact (clearAll_run w d Hdb)|].
  set (w' := set_toasts _ _).
  assert (Hdb' : db w' = Some (mkDatabase [] [] (keygen d))) by reflexivity.
  split; [reflexivity|]. split; [reflexivity|].
  split; [unfold next_id; now rewrite Hdb', Hdb|].
  split; [reflexivity|].
  split.
  { unfold new_toasts, w'. simpl.
    rewrite skipn_app, skipn_all, Nat.sub_diag. reflexivity. }
  split; [now rewrite (hasMasterPassword_run w' _ Hdb')|].
  intros p. eexists. split.
  - rewrite (deriveAndVerify_uninitialized pf p w' _ Hdb' eq_refl).
    reflexivity.
  - split; [|split].
    + erewrite hasMasterPassword_run by reflexivity.
      cbn [meta]. change 1 with (m_id (mkMaster 1 (next_random pf 32 w')
        (next_random pf 12 (set_drawn (drawn w' + 32) w'))
        (gcm_encrypt pf
           (key_material (derived_key pf p (next_random pf 32 w')))
           (next_random pf 12 (set_drawn (drawn w' + 32) w'))
           (encode VERIFY_PLAIN)))) at 1.
      now rewrite meta_get_put.
    + reflexivity.
    + unfold next_id. simpl. now rewrite Hdb.
Qed.

(** X8 on the demonstration vault. *)
Lemma X8_clearAll_resets_the_vault_witness :
  db Demo.first_save = Some Demo.first_db
  /\ rows (snd (clearAll true Demo.first_save)) = []
  /\ next_id (snd (clearAll true Demo.first_save)) = 2.
Proof.
  split; [reflexivity|].
  destruct (X8_clearAll_resets_the_vault Demo.platform Demo.first_save
              Demo.first_db eq_refl)
    as (_ & w' & Hrun & Hrows & _ & Hnext & _).
  rewrite Hrun. simpl. split; [exact Hrows|]. rewrite Hnext. reflexivity.
Defined.

(* ================================================================== *)
(** * Escaping for the history panel *)

Lemma replace_unit_flat_map (c : Z) (by_ : jsstring) (f : Z -> jsstring)
    (s : jsstring) :
  replace_unit c by_ (flat_map f s)
  = flat_map (fun u => replace_unit c by_ (f u)) s.
Proof.
  unfold replace_unit. induction s as [|u s IH]; [reflexivity|].
  simpl. now rewrite flat_map_app, IH.
Qed.

Lemma esc_one (u : Z) : esc [u] = esc_unit u.
Proof.
  unfold esc, esc_unit, replace_unit.
  destruct (u =? 38) eqn:E38; [apply Z.eqb_eq in E38; now subst u|].
  destruct (u =? 60) eqn:E60; [apply Z.eqb_eq in E60; now subst u|].
  destruct (u =? 62) eqn:E62; [apply Z.eqb_eq in E62; now subst u|].
  destruct (u =? 34) eqn:E34; [apply Z.eqb_eq in E34; now subst u|].
  simpl. rewrite E38. simpl. rewrite E60. simpl. rewrite E62. simpl.
  now rewrite E34.
Qed.

Lemma esc_flat_map (s : jsstring) : esc s = flat_map esc_unit s.
Proof.
  unfold esc. unfold replace_unit at 4.
  rewrite !replace_unit_flat_map.
  apply flat_map_ext. intros u. rewrite <- esc_one. unfold esc.
  replace (replace_unit 38 (js "&amp;") [u])
    with (if u =? 38 then js "&amp;" else [u]); [reflexivity|].
  unfold replace_unit. simpl. now rewrite app_nil_r.
Qed.

Lemma esc_unit_cancel (u v : Z) (a b : jsstring) :
  esc_unit u ++ a = esc_unit v ++ b -> u = v /\ a = b.
Proof.
  unfold esc_unit.
  destruct (u =? 38) eqn:U38; destruct (v =? 38) eqn:V38;
    try destruct (u =? 60) eqn:U60; try destruct (v =? 60) eqn:V60;
    try destruct (u =? 62) eqn:U62; try destruct (v =? 62) eqn:V62;
    try destruct (u =? 34) eqn:U34; try destruct (v =? 34) eqn:V34;
    repeat match goal with
           | H : (_ =? _) = true |- _ => apply Z.eqb_eq in H
           | H : (_ =? _) = false |- _ => apply Z.eqb_neq in H
           end;
    intros H; vm_compute in H; inversion H; subst;
    try (split; [congruence | reflexivity]); try lia; try congruence.
Qed.

(** X10. [esc] on a string.  The four replacements act as one pass over
    the code units (no entity produced is escaped again); the result
    holds no [<], [>] or double quote; a string without [&], [<], [>]
    and double quote is returned as it is; escaping distributes over
    concatenation; and different strings have different escapes. *)
Theorem X10_esc_is_a_faithful_escape :
  forall s t : jsstring,
    esc s = flat_map esc_unit s
    /\ Forall (fun u => u <> 60 /\ u <> 62 /\ u <> 34) (esc s)
    /\ (Forall (fun u => u <> 38 /\ u <> 60 /\ u <> 62 /\ u <> 34) s ->
        esc s = s)
    /\ esc (s ++ t) = esc s ++ esc t
    /\ (esc s = esc t -> s = t).
Proof.
  intros s t. split; [apply esc_flat_map|].
  rewrite !esc_flat_map. split; [|split; [|split]].
  - induction s as [|u s IH]; [constructor|].
    simpl. apply Forall_app. split; [|exact IH].
    unfold esc_unit.
    destruct (u =? 38); [|destruct (u =? 60) eqn:E60;
      [|destruct (u =? 62) eqn:E62; [|destruct (u =? 34) eqn:E34]]].
    5: apply Z.eqb_neq in E60, E62, E34.
    all: vm_compute js.
    all: repeat (apply Forall_cons; [lia|]); apply Forall_nil.
  - intros H. induction H as [|u s (H38 & H60 & H62 & H34) _ IH];
      [reflexivity|].
    simpl. rewrite IH. unfold esc_unit.
    apply Z.eqb_neq in H38, H60, H62, H34.
    now rewrite H38, H60, H62, H34.
  - apply flat_map_app.
  - revert t. induction s as [|u s IH]; intros [|v t] H.
    + reflexivity.
    + exfalso. simpl in H. unfold esc_unit in H.
      destruct (v =? 38), (v =? 60), (v =? 62), (v =? 34);
        discriminate.
    + exfalso. simpl in H. unfold esc_unit in H.
      destruct (u =? 38), (u =? 60), (u =? 62), (u =? 34);
        discriminate.
    + simpl in H. apply esc_unit_cancel in H as [-> H].
      f_equal. now apply IH.
Qed.

(** X10 on a tag. *)
Lemma X10_esc_is_a_faithful_escape_witness :
  esc (js "x7!Qp") = js "x7!Qp"
  /\ esc (js "<b>") = js "&lt;b&gt;".
Proof.
  destruct (X10_esc_is_a_faithful_escape (js "x7!Qp") (js "<b>"))
    as (_ & _ & Hsame & _).
  split; [|reflexivity].
  apply Hsame. vm_compute js.
  repeat (apply Forall_cons; [lia|]). apply Forall_nil.
Defined.

(* ================================================================== *)
(** * The cache of strength results *)

Section LruFacts.

Variables K V : Type.
Variable eqb : K -> K -> bool.
Hypothesis eqb_spec : forall a b, eqb a b = true <-> a = b.

Lemma lru_eqb_refl (k : K) : eqb k k = true.
Proof. now apply eqb_spec. Qed.

Lemma lru_eqb_false (a b : K) : eqb a b = false <-> a <> b.
Proof.
  split.
  - intros H E. apply eqb_spec in E. congruence.
  - intros H. destruct (eqb a b) eqn:E; [|reflexivity].
    apply eqb_spec in E. contradiction.
Qed.

Lemma map_has_In (k : K) (m : list (K * V)) :
  Lru.map_has eqb k m = true <-> In k (map fst m).
Proof.
  unfold Lru.map_has. rewrite existsb_exists, in_map_iff.
  split; intros (p & H1 & H2).
  - exists p. split; [now apply eqb_spec | exact H1].
  - exists p. split; [exact H2 | now apply eqb_spec].
Qed.

Lemma map_has_not_In (k : K) (m : list (K * V)) :
  Lru.map_has eqb k m = false <-> ~ In k (map fst m).
Proof.
  rewrite <- map_has_In. destruct (Lru.map_has eqb k m); split; congruence.
Qed.

Lemma map_get_absent (k : K) (m : list (K * V)) :
  Lru.map_has eqb k m = false -> Lru.map_get eqb k m = None.
Proof.
  unfold Lru.map_has, Lru.map_get. induction m as [|p m IH]; [reflexivity|].
  simpl. destruct (eqb (fst p) k); [discriminate | exact IH].
Qed.

Lemma keys_map_set (k : K) (v : V) (m : list (K * V)) :
  map fst (Lru.map_set eqb k v m)
  = if Lru.map_has eqb k m then map fst m else map fst m ++ [k].
Proof.
  unfold Lru.map_set. destruct (Lru.map_has eqb k m).
  - rewrite map_map. apply map_ext. intros p.
    now destruct (eqb (fst p) k).
  - now rewrite map_app.
Qed.

Lemma length_map_set (k : K) (v : V) (m : list (K * V)) :
  length (Lru.map_set eqb k v m)
  = if Lru.map_has eqb k m then length m else S (length m).
Proof.
  rewrite <- (length_map fst), keys_map_set.
  destruct (Lru.map_has eqb k m); [apply length_map|].
  rewrite length_app, length_map. simpl. lia.
Qed.

Lemma find_has (k : K) (m : list (K * V)) :
  Lru.map_has eqb k m
  = match find (fun p => eqb (fst p) k) m with
    | Some _ => true
    | None => false
    end.
Proof.
  unfold Lru.map_has. induction m as [|p m IH]; [reflexivity|].
  simpl. now destruct (eqb (fst p) k).
Qed.

Lemma map_get_update (k k' : K) (v : V) (m : list (K * V)) :
  Lru.map_get eqb k'
    (map (fun p => if eqb (fst p) k then (fst p, v) else p) m)
  = match find (fun p => eqb (fst p) k') m with
    | Some p => Some (if eqb (fst p) k then v else snd p)
    | None => None
    end.
Proof.
  unfold Lru.map_get. induction m as [|p m IH]; [reflexivity|].
  simpl. destruct (eqb (fst p) k) eqn:E; simpl;
    destruct (eqb (fst p) k') eqn:E'; simpl; try exact IH.
  - now rewrite E.
  - now rewrite E.
Qed.

Lemma map_get_snoc (k k' : K) (v : V) (m : list (K * V)) :
  Lru.map_has eqb k m = false ->
  Lru.map_get eqb k' (m ++ [(k, v)])
  = if eqb k' k then Some v else Lru.map_get eqb k' m.
Proof.
  unfold Lru.map_has, Lru.map_get. induction m as [|p m IH]; simpl.
  - intros _. destruct (eqb k k') eqn:E; destruct (eqb k' k) eqn:E2;
      try reflexivity.
    + apply eqb_spec in E. subst k'. now rewrite lru_eqb_refl in E2.
    + apply eqb_spec in E2. subst k'. now rewrite lru_eqb_refl in E.
  - destruct (eqb (fst p) k) eqn:E; [discriminate|]. simpl. intros H.
    destruct (eqb (fst p) k') eqn:E'; [|now apply IH].
    apply eqb_spec in E'. subst k'. now rewrite E.
Qed.

Lemma map_get_map_set (k k' : K) (v : V) (m : list (K * V)) :
  Lru.map_get eqb k' (Lru.map_set eqb k v m)
  = if eqb k' k then Some v else Lru.map_get eqb k' m.
Proof.
  unfold Lru.map_set. destruct (Lru.map_has eqb k m) eqn:Hhas;
    [|now apply map_get_snoc].
  rewrite map_get_update. unfold Lru.map_get.
  destruct (find (fun p => eqb (fst p) k') m) as [p|] eqn:F.
  - apply find_some in F as [_ F]. apply eqb_spec in F. subst k'.
    now destruct (eqb (fst p) k).
  - destruct (eqb k' k) eqn:E; [|reflexivity].
    apply eqb_spec in E. subst k'. rewrite find_has, F in Hhas.
    discriminate.
Qed.

Lemma keys_map_delete (k : K) (m : list (K * V)) :
  map fst (Lru.map_delete eqb k m) = Lru.set_delete eqb k (map fst m).
Proof.
  unfold Lru.map_delete, Lru.set_delete.
  induction m as [|p m IH]; [reflexivity|].
  simpl. destruct (eqb (fst p) k); simpl; now rewrite IH.
Qed.

Lemma map_get_map_delete (k k' : K) (m : list (K * V)) :
  Lru.map_get eqb k' (Lru.map_delete eqb k m)
  = if eqb k' k then None else Lru.map_get eqb k' m.
Proof.
  unfold Lru.map_get, Lru.map_delete.
  induction m as [|p m IH]; simpl.
  - now destruct (eqb k' k).
  - destruct (eqb (fst p) k) eqn:E; simpl.
    + rewrite IH. destruct (eqb k' k) eqn:E2; [reflexivity|].
      destruct (eqb (fst p) k') eqn:E3; [|reflexivity].
      apply eqb_spec in E, E3. subst. now rewrite lru_eqb_refl in E2.
    + destruct (eqb (fst p) k') eqn:E3; [|exact IH].
      apply eqb_spec in E3. subst k'. now rewrite E.
Qed.

Lemma In_set_delete (k x : K) (s : list K) :
  In x (Lru.set_delete eqb k s) <-> In x s /\ x <> k.
Proof.
  unfold Lru.set_delete. rewrite filter_In, negb_true_iff, lru_eqb_false.
  tauto.
Qed.

Lemma NoDup_set_delete (k : K) (s : list K) :
  NoDup s -> NoDup (Lru.set_delete eqb k s).
Proof. apply NoDup_filter. Qed.

Lemma set_delete_absent (k : K) (s : list K) :
  ~ In k s -> Lru.set_delete eqb k s = s.
Proof.
  unfold Lru.set_delete. induction s as [|x s IH]; [reflexivity|].
  simpl. intros H. destruct (eqb x k) eqn:E.
  - apply eqb_spec in E. tauto.
  - simpl. rewrite IH; tauto.
Qed.

Lemma set_delete_head (k : K) (s : list K) :
  NoDup (k :: s) -> Lru.set_delete eqb k (k :: s) = s.
Proof.
  intros H. inversion H; subst. unfold Lru.set_delete. simpl.
  rewrite lru_eqb_refl. simpl. now apply set_delete_absent.
Qed.

Lemma length_set_delete (k : K) (s : list K) :
  NoDup s -> In k s -> S (length (Lru.set_delete eqb k s)) = length s.
Proof.
  induction s as [|x s IH]; [contradiction|].
  intros Hnd [-> | Hin].
  - now rewrite set_delete_head.
  - inversion Hnd; subst. unfold Lru.set_delete in *. simpl.
    destruct (eqb x k) eqn:E.
    + apply eqb_spec in E. subst. contradiction.
    + simpl. now rewrite IH.
Qed.

Lemma set_add_absent (k : K) (s : list K) :
  ~ In k s -> Lru.set_add eqb k s = s ++ [k].
Proof.
  intros H. unfold Lru.set_add.
  destruct (existsb (fun x => eqb x k) s) eqn:E; [|reflexivity].
  apply existsb_exists in E as (x & Hx & E). apply eqb_spec in E.
  subst. contradiction.
Qed.

Lemma set_add_deleted (k : K) (s : list K) :
  Lru.set_add eqb k (Lru.set_delete eqb k s) = Lru.set_delete eqb k s ++ [k].
Proof. apply set_add_absent. rewrite In_set_delete. tauto. Qed.

Lemma NoDup_snoc (k : K) (s : list K) :
  NoDup s -> ~ In k s -> NoDup (s ++ [k]).
Proof.
  intros Hs Hk. apply NoDup_app; [exact Hs | repeat constructor; tauto |].
  intros x Hx [-> | []]. contradiction.
Qed.

Lemma consistent_new (cap : Z) : Lru.consistent (Lru.new (K := K) V cap).
Proof.
  unfold Lru.consistent. simpl. repeat split; try constructor; try tauto.
  lia.
Qed.

Lemma In_moved (k x : K) (s : list K) :
  In x (Lru.set_delete eqb k s ++ [k]) <-> In x s \/ x = k.
Proof.
  rewrite in_app_iff, In_set_delete. simpl.
  destruct (eqb x k) eqn:E.
  - apply eqb_spec in E. subst. tauto.
  - apply lru_eqb_false in E. split; [intuition congruence | tauto].
Qed.

Lemma NoDup_moved (k : K) (s : list K) :
  NoDup s -> NoDup (Lru.set_delete eqb k s ++ [k]).
Proof.
  intros H. apply NoDup_snoc; [now apply NoDup_set_delete|].
  rewrite In_set_delete. tauto.
Qed.

(** [set] in a consistent cache: either the new key pushes out the
    oldest one, or the key becomes the most recent one. *)
Lemma set_run (k : K) (v : V) (c : Lru.LRUCache K V) :
  Lru.consistent c ->
  Lru.set eqb k v c
  = if Lru.evicts eqb k c
    then Lru.mkLRU (Lru.capacity c)
           (Lru.map_delete eqb (hd k (Lru.keyOrder c))
              (Lru.cache c ++ [(k, v)]))
           (Lru.set_delete eqb (hd k (Lru.keyOrder c))
              (Lru.keyOrder c ++ [k]))
    else Lru.mkLRU (Lru.capacity c) (Lru.map_set eqb k v (Lru.cache c))
           (Lru.set_delete eqb k (Lru.keyOrder c) ++ [k]).
Proof.
  intros (Hk & Ho & Hsame & Hlen). unfold Lru.set, Lru.evicts.
  rewrite length_map_set.
  destruct (Lru.map_has eqb k (Lru.cache c)) eqn:Hhas; cbn [negb andb].
  - rewrite set_add_deleted.
    apply map_has_In in Hhas.
    assert (0 < length (Lru.cache c))%nat.
    { rewrite <- (length_map fst).
      destruct (map fst (Lru.cache c)); [contradiction | simpl; lia]. }
    replace (Lru.capacity c <? Z.of_nat (length (Lru.cache c))) with false;
      [reflexivity|].
    symmetry. apply Z.ltb_ge. lia.
  - assert (Hnot : ~ In k (Lru.keyOrder c)).
    { rewrite Hsame. now apply map_has_not_In. }
    rewrite (set_add_absent k _ Hnot).
    replace (Lru.capacity c <? Z.of_nat (S (length (Lru.cache c))))
      with (Lru.capacity c <=? Z.of_nat (length (Lru.cache c))).
    2:{ destruct (Lru.capacity c <=? Z.of_nat (length (Lru.cache c))) eqn:E;
        symmetry; [apply Z.ltb_lt; apply Z.leb_le in E
                  | apply Z.ltb_ge; apply Z.leb_gt in E]; lia. }
    unfold Lru.map_set. rewrite Hhas.
    destruct (Lru.capacity c <=? Z.of_nat (length (Lru.cache c))).
    + destruct (Lru.keyOrder c) as [|o rest]; reflexivity.
    + now rewrite (set_delete_absent k _ Hnot).
Qed.

Lemma consistent_set (k : K) (v : V) (c : Lru.LRUCache K V) :
  Lru.consistent c -> Lru.consistent (Lru.set eqb k v c).
Proof.
  intros Hc. rewrite (set_run k v c Hc).
  destruct Hc as (Hk & Ho & Hsame & Hlen).
  unfold Lru.evicts.
  destruct (Lru.map_has eqb k (Lru.cache c)) eqn:Hhas; simpl.
  - apply map_has_In in Hhas.
    unfold Lru.consistent. simpl.
    rewrite keys_map_set, length_map_set.
    replace (Lru.map_has eqb k (Lru.cache c)) with true
      by (symmetry; now apply map_has_In).
    split; [exact Hk|]. split; [now apply NoDup_moved|].
    split; [|exact Hlen].
    intros x. rewrite In_moved, Hsame. split; [|tauto].
    intros [H | ->]; assumption.
  - assert (Hnot : ~ In k (map fst (Lru.cache c)))
      by now apply map_has_not_In.
    assert (Hnot' : ~ In k (Lru.keyOrder c)) by now rewrite Hsame.
    destruct (Lru.capacity c <=? Z.of_nat (length (Lru.cache c))) eqn:E.
    + set (o := hd k (Lru.keyOrder c)).
      assert (Hin : In o (map fst (Lru.cache c) ++ [k])).
      { apply in_or_app. unfold o.
        destruct (Lru.keyOrder c) as [|x rest] eqn:Eo; simpl.
        - right. now left.
        - left. apply Hsame. now left. }
      unfold Lru.consistent. simpl.
      rewrite keys_map_delete, map_app. simpl.
      split; [apply NoDup_set_delete; now apply NoDup_snoc|].
      split; [apply NoDup_set_delete; now apply NoDup_snoc|].
      split.
      * intros x. rewrite !In_set_delete, !in_app_iff, Hsame. tauto.
      * rewrite <- (length_map fst), keys_map_delete, map_app. simpl.
        pose proof (length_set_delete o _
                      (NoDup_snoc k _ Hk Hnot) Hin) as Hl.
        rewrite length_app, length_map in Hl. simpl in Hl. lia.
    + apply Z.leb_gt in E. unfold Lru.consistent. simpl.
      rewrite keys_map_set, length_map_set, Hhas.
      split; [now apply NoDup_snoc|]. split; [now apply NoDup_moved|].
      split; [|lia].
      intros x. rewrite In_moved, in_app_iff, Hsame. simpl.
      split; intros [H | H]; auto. destruct H as [-> | []]. now right.
Qed.

Section Calls.

Variable nullish : K -> bool.

Lemma get_run (k : K) (c : Lru.LRUCache K V) :
  Lru.get eqb nullish k c
  = if nullish k || negb (Lru.map_has eqb k (Lru.cache c)) then (None, c)
    else (Lru.map_get eqb k (Lru.cache c),
          Lru.mkLRU (Lru.capacity c) (Lru.cache c)
            (Lru.set_delete eqb k (Lru.keyOrder c) ++ [k])).
Proof.
  unfold Lru.get. destruct (nullish k); [reflexivity|].
  destruct (Lru.map_has eqb k (Lru.cache c)); [|reflexivity].
  simpl. now rewrite set_add_deleted.
Qed.

Lemma consistent_get (k : K) (c : Lru.LRUCache K V) :
  Lru.consistent c -> Lru.consistent (snd (Lru.get eqb nullish k c)).
Proof.
  intros Hc. pose proof Hc as (Hk & Ho & Hsame & Hlen). rewrite get_run.
  destruct (nullish k || negb (Lru.map_has eqb k (Lru.cache c))) eqn:E;
    [exact Hc|].
  apply orb_false_iff in E as [_ E]. apply negb_false_iff in E.
  apply map_has_In in E.
  unfold Lru.consistent. simpl. split; [exact Hk|].
  split; [now apply NoDup_moved|]. split; [|exact Hlen].
  intros x. rewrite In_moved, Hsame. split; [|tauto].
  intros [H | ->]; assumption.
Qed.

Lemma capacity_call (c : Lru.LRUCache K V) (op : Lru.Call K V) :
  Lru.capacity (Lru.call eqb nullish c op) = Lru.capacity c.
Proof.
  destruct op as [k | k v]; simpl.
  - unfold Lru.get. destruct (nullish k); [reflexivity|].
    now destruct (Lru.map_has eqb k (Lru.cache c)).
  - unfold Lru.set.
    destruct (Lru.capacity c <? _); [|reflexivity].
    now destruct (Lru.set_add eqb k _).
Qed.

Lemma consistent_calls (ops : list (Lru.Call K V)) (c : Lru.LRUCache K V) :
  Lru.consistent c ->
  Lru.consistent (fold_left (Lru.call eqb nullish) ops c)
  /\ Lru.capacity (fold_left (Lru.call eqb nullish) ops c) = Lru.capacity c.
Proof.
  revert c. induction ops as [|op ops IH]; intros c Hc; [now split|].
  simpl. destruct (IH (Lru.call eqb nullish c op)) as [H1 H2].
  - destruct op as [k | k v]; simpl;
      [now apply consistent_get | now apply consistent_set].
  - split; [exact H1|]. now rewrite H2, capacity_call.
Qed.

End Calls.

End LruFacts.

(** X11. The strength cache stays consistent.  After any sequence of
    [get] and [set] calls on a new [LRUCache], its map and its key
    order hold the same keys, each once, the capacity is the one given
    to the constructor, and the map holds at most that many entries
    (none when the capacity is zero or negative). *)
Theorem X11_lru_cache_stays_consistent :
  forall (K V : Type) (eqb : K -> K -> bool) (nullish : K -> bool),
    (forall a b, eqb a b = true <-> a = b) ->
    forall (cap : Z) (ops : list (Lru.Call K V)),
      let c := Lru.after eqb nullish cap ops in
      Lru.consistent c
      /\ Lru.capacity c = cap
      /\ (length (Lru.cache c) <= Z.to_nat cap)%nat
      /\ length (Lru.keyOrder c) = length (Lru.cache c).
Proof.
  intros K V eqb nullish eqb_spec cap ops c.
  destruct (consistent_calls K V eqb eqb_spec nullish ops (Lru.new V cap)
              (consistent_new K V cap)) as [Hc Hcap].
  fold (Lru.after eqb nullish cap ops) in Hc, Hcap. fold c in Hc, Hcap.
  simpl in Hcap. split; [exact Hc|]. split; [exact Hcap|].
  destruct Hc as (Hk & Ho & Hsame & Hlen). split; [lia|].
  rewrite <- (length_map fst (Lru.cache c)).
  apply Nat.le_antisymm; apply NoDup_incl_length; try assumption;
    intros x Hx; now apply Hsame.
Qed.

(** X11 on a cache of two numbers. *)
Lemma X11_lru_cache_stays_consistent_witness :
  (forall a b, Z.eqb a b = true <-> a = b)
  /\ (length (Lru.cache lru_two) <= 2)%nat.
Proof.
  split; [exact Z.eqb_eq|].
  apply (X11_lru_cache_stays_consistent Z Z Z.eqb (fun _ => false)
           Z.eqb_eq 2 lru_calls).
Defined.

(** X12. What [set] and [get] do to a consistent cache.  After
    [set(key, value)] a lookup of the key finds the value, and every
    other key is as before, except that a new key put into a full cache
    pushes out the first key of the key order; the key order then is the
    old one with the key moved to the end, less the key pushed out.
    [get] of a key that is there moves it to the end of the key order and
    changes nothing else.  So with a capacity of at least one, [get]
    right after [set] returns the value; with a capacity of zero or less
    the cache stays empty and [get] returns nothing. *)
Theorem X12_lru_evicts_the_least_recently_used :
  forall (K V : Type) (eqb : K -> K -> bool) (nullish : K -> bool)
         (key : K) (value : V) (c : Lru.LRUCache K V),
    (forall a b, eqb a b = true <-> a = b) ->
    Lru.consistent c ->
    let c' := Lru.set eqb key value c in
    let oldest := hd key (Lru.keyOrder c) in
    (forall k,
        Lru.map_get eqb k (Lru.cache c')
        = if Lru.evicts eqb key c && eqb k oldest then None
          else if eqb k key then Some value
          else Lru.map_get eqb k (Lru.cache c))
    /\ Lru.keyOrder c'
       = (if Lru.evicts eqb key c then tl (Lru.keyOrder c ++ [key])
          else Lru.set_delete eqb key (Lru.keyOrder c) ++ [key])
    /\ (forall k,
           nullish k = false ->
           Lru.map_has eqb k (Lru.cache c) = true ->
           Lru.get eqb nullish k c
           = (Lru.map_get eqb k (Lru.cache c),
              Lru.mkLRU (Lru.capacity c) (Lru.cache c)
                (Lru.set_delete eqb k (Lru.keyOrder c) ++ [k])))
    /\ (1 <= Lru.capacity c ->
        nullish key = false ->
        fst (Lru.get eqb nullish key c') = Some value)
    /\ (Lru.capacity c <= 0 ->
        Lru.cache c' = []
        /\ fst (Lru.get eqb nullish key c') = None).
Proof.
  intros K V eqb nullish key value c eqb_spec Hc c' oldest.
  pose proof (set_run K V eqb eqb_spec key value c Hc) as Hrun.
  fold c' in Hrun. fold oldest in Hrun.
  pose proof Hc as (Hk & Ho & Hsame & Hlen).
  assert (Hget : forall k,
             Lru.map_get eqb k (Lru.cache c')
             = if Lru.evicts eqb key c && eqb k oldest then None
               else if eqb k key then Some value
               else Lru.map_get eqb k (Lru.cache c)).
  { intros k. rewrite Hrun. unfold Lru.evicts in *.
    destruct (Lru.map_has eqb key (Lru.cache c)) eqn:Hhas; cbn [negb andb].
    - cbn [Lru.cache]. apply (map_get_map_set K V eqb eqb_spec).
    - destruct (Lru.capacity c <=? Z.of_nat (length (Lru.cache c)));
        cbn [Lru.cache].
      + rewrite (map_get_map_delete K V eqb eqb_spec).
        destruct (eqb k oldest); [reflexivity|].
        now apply (map_get_snoc K V eqb eqb_spec).
      + apply (map_get_map_set K V eqb eqb_spec). }
  assert (Hfresh : Lru.evicts eqb key c = true ->
                   ~ In key (Lru.keyOrder c)).
  { unfold Lru.evicts. intros E. apply andb_true_iff in E as [E _].
    apply negb_true_iff in E.
    rewrite Hsame. now apply (map_has_not_In K V eqb eqb_spec). }
  split; [exact Hget|]. split; [|split; [|split]].
  - rewrite Hrun. destruct (Lru.evicts eqb key c) eqn:E; [|reflexivity].
    cbn [Lru.keyOrder]. unfold oldest.
    specialize (Hfresh eq_refl).
    destruct (Lru.keyOrder c) as [|o rest] eqn:Eo.
    + simpl. now rewrite (lru_eqb_refl K eqb eqb_spec).
    + cbn [hd app tl]. change (o :: rest ++ [key]) with (o :: (rest ++ [key])).
      apply (set_delete_head K eqb eqb_spec).
      change (o :: (rest ++ [key])) with ((o :: rest) ++ [key]).
      now apply NoDup_snoc.
  - intros k Hnull Hhas. rewrite (get_run K V eqb eqb_spec nullish).
    now rewrite Hnull, Hhas.
  - intros Hcap Hnull.
    assert (Hval : Lru.map_get eqb key (Lru.cache c') = Some value).
    { rewrite Hget, (lru_eqb_refl K eqb eqb_spec).
      destruct (Lru.evicts eqb key c) eqn:E; [|reflexivity].
      specialize (Hfresh eq_refl).
      unfold Lru.evicts in E. apply andb_true_iff in E as [_ E].
      apply Z.leb_le in E. unfold oldest.
      destruct (Lru.keyOrder c) as [|o rest] eqn:Eo.
      - exfalso. destruct (Lru.cache c) as [|p m] eqn:Ec;
          [simpl in E; lia|].
        apply (Hsame (fst p)). now left.
      - cbn [hd andb]. destruct (eqb key o) eqn:E2; [|reflexivity].
        apply eqb_spec in E2. subst o. exfalso. apply Hfresh. now left. }
    rewrite (get_run K V eqb eqb_spec nullish), Hnull. cbn [orb].
    destruct (Lru.map_has eqb key (Lru.cache c')) eqn:Hhas;
      [exact Hval|].
    rewrite (map_get_absent K V eqb key _ Hhas) in Hval. discriminate.
  - intros Hcap.
    assert (Hempty : Lru.cache c = []).
    { destruct (Lru.cache c); [reflexivity | simpl in Hlen; lia]. }
    assert (Hord : Lru.keyOrder c = []).
    { destruct (Lru.keyOrder c) as [|o rest]; [reflexivity|].
      exfalso. rewrite Hempty in Hsame. apply (Hsame o). now left. }
    assert (Hc' : Lru.cache c' = []).
    { rewrite Hrun. unfold oldest, Lru.evicts.
      rewrite Hempty, Hord. cbn [Lru.map_has existsb negb andb length].
      replace (Lru.capacity c <=? Z.of_nat 0) with true
        by (symmetry; apply Z.leb_le; lia).
      cbn [Lru.cache hd app]. unfold Lru.map_delete. simpl.
      now rewrite (lru_eqb_refl K eqb eqb_spec). }
    split; [exact Hc'|].
    rewrite (get_run K V eqb eqb_spec nullish), Hc'. simpl.
    now destruct (nullish key).
Qed.

(** X12 on a full cache of two numbers: the older one goes. *)
Lemma X12_lru_evicts_the_least_recently_used_witness :
  Lru.consistent lru_two
  /\ Lru.map_get Z.eqb 2 (Lru.cache (Lru.set Z.eqb 3 30 lru_two)) = None
  /\ Lru.map_get Z.eqb 1 (Lru.cache (Lru.set Z.eqb 3 30 lru_two)) = Some 10.
Proof.
  assert (Hc : Lru.consistent lru_two).
  { apply (consistent_calls Z Z Z.eqb Z.eqb_eq (fun _ => false) lru_calls
             (Lru.new Z 2) (consistent_new Z Z 2)). }
  split; [exact Hc|].
  destruct (X12_lru_evicts_the_least_recently_used Z Z Z.eqb
              (fun _ => false) 3 30 lru_two Z.eqb_eq Hc) as (Hget & _).
  split; rewrite Hget; reflexivity.
Defined.

(* ================================================================== *)
(** * Random choices *)

Section Sampling.

Variable draw : nat -> Z.

Lemma draw_below_inv (cap : Z) (fuel : nat) (pos : nat) (v : Z) (pos' : nat) :
  draw_below draw cap fuel pos = Some (v, pos') ->
  (pos < pos' <= pos + fuel)%nat
  /\ v = draw (pos' - 1) mod 0x100000000
  /\ 0 <= v < cap
  /\ forall i, (pos <= i < pos' - 1)%nat -> cap <= draw i mod 0x100000000.
Proof.
  revert pos. induction fuel as [|fuel IH]; intros pos H; [discriminate|].
  simpl in H. destruct (cap <=? draw pos mod 4294967296) eqn:E.
  - apply Z.leb_le in E. destruct (IH _ H) as (Hp & Hv & Hr & Hrej).
    split; [lia|]. split; [exact Hv|]. split; [exact Hr|].
    intros i Hi. destruct (Nat.eq_dec i pos) as [->|Hne]; [exact E|].
    apply Hrej. lia.
  - apply Z.leb_gt in E. inversion H; subst. clear H.
    replace (S pos - 1)%nat with pos by lia.
    split; [lia|]. split; [reflexivity|].
    split; [|intros i Hi; lia].
    pose proof (Z.mod_pos_bound (draw pos) 4294967296). lia.
Qed.

Lemma draw_below_total (cap : Z) (fuel : nat) (pos : nat) :
  (exists n, (n < fuel)%nat /\ draw (pos + n) mod 0x100000000 < cap) ->
  exists v pos', draw_below draw cap fuel pos = Some (v, pos').
Proof.
  revert pos. induction fuel as [|fuel IH]; intros pos (n & Hn & Hlt); [lia|].
  simpl. destruct (cap <=? draw pos mod 4294967296) eqn:E.
  - apply Z.leb_le in E. apply IH.
    destruct n as [|n]; [rewrite Nat.add_0_r in Hlt; lia|].
    exists n. split; [lia|].
    now replace (S pos + n)%nat with (pos + S n)%nat by lia.
  - eexists. eexists. reflexivity.
Qed.

Lemma draw_below_never (cap : Z) (fuel : nat) (pos : nat) :
  cap <= 0 -> draw_below draw cap fuel pos = None.
Proof.
  intros Hcap. revert pos. induction fuel as [|fuel IH]; intros pos;
    [reflexivity|].
  simpl. pose proof (Z.mod_pos_bound (draw pos) 4294967296).
  replace (cap <=? draw pos mod 4294967296) with true; [apply IH|].
  symmetry. apply Z.leb_le. lia.
Qed.

Lemma cap_high (span max : Z) :
  0xFFFFFFFF <= span -> 0 < max <= span ->
  0x80000000 <= span / max * max.
Proof.
  intros Hs Hm.
  destruct (Z_le_gt_dec max 0x80000000) as [Hle | Hgt].
  - pose proof (Z.mod_pos_bound span max).
    pose proof (Z.div_mod span max). nia.
  - assert (1 <= span / max) by (apply Z.div_le_lower_bound; lia).
    nia.
Qed.

End Sampling.

Lemma count_below_mod (m r : Z) (n : nat) :
  0 < m -> 0 <= r < m ->
  Z.of_nat (count_below (fun value => value mod m =? r) n)
  = Z.of_nat n / m + (if r <? Z.of_nat n mod m then 1 else 0).
Proof.
  intros Hm Hr. induction n as [|n IH].
  - cbn [count_below]. change (Z.of_nat 0) with 0.
    rewrite Z.div_0_l, Z.mod_0_l by lia.
    replace (r <? 0) with false by (symmetry; apply Z.ltb_ge; lia). lia.
  - cbn [count_below]. rewrite Nat2Z.inj_add, IH, Nat2Z.inj_succ.
    unfold Z.succ. set (a := Z.of_nat n).
    pose proof (Z.div_mod a m ltac:(lia)) as Hdm.
    pose proof (Z.mod_pos_bound a m Hm) as Hb.
    destruct (Z_lt_dec (a mod m + 1) m) as [Hlt | Hge].
    + assert (Hq : (a + 1) / m = a / m).
      { symmetry. apply (Z.div_unique (a + 1) m (a / m) (a mod m + 1)); lia. }
      assert (Hs : (a + 1) mod m = a mod m + 1).
      { symmetry. apply (Z.mod_unique (a + 1) m (a / m) (a mod m + 1)); lia. }
      rewrite Hq, Hs.
      destruct (Z.eqb_spec (a mod m) r); destruct (Z.ltb_spec r (a mod m));
        destruct (Z.ltb_spec r (a mod m + 1)); lia.
    + assert (Hq : (a + 1) / m = a / m + 1).
      { symmetry. apply (Z.div_unique (a + 1) m (a / m + 1) 0); lia. }
      assert (Hs : (a + 1) mod m = 0).
      { symmetry. apply (Z.mod_unique (a + 1) m (a / m + 1) 0); lia. }
      rewrite Hq, Hs.
      destruct (Z.eqb_spec (a mod m) r); destruct (Z.ltb_spec r (a mod m));
        destruct (Z.ltb_spec r 0); lia.
Qed.

(** Every result has the same number of accepted values behind it. *)
Lemma ways_even (span max r : Z) :
  0 <= span -> 0 < max -> 0 <= r < max ->
  ways (span / max * max) max r = Z.to_nat (span / max).
Proof.
  intros Hs Hm Hr. unfold ways.
  assert (Hq : 0 <= span / max) by (apply Z.div_pos; lia).
  apply Nat2Z.inj. rewrite count_below_mod by assumption.
  rewrite !Z2Nat.id by nia.
  rewrite Z.div_mul, Z.mod_mul by lia.
  replace (r <? 0) with false by (symmetry; apply Z.ltb_ge; lia). lia.
Qed.

(** The loop shared by the two samplers, for a bound it can serve. *)
Lemma sample_below (draw : nat -> Z) (span max : Z) (fuel pos : nat) :
  0xFFFFFFFF <= span -> 0 < max <= span ->
  let cap := span / max * max in
  let sample :=
    match draw_below draw cap fuel pos with
    | Some (value, pos') => Some (value mod max, pos')
    | None => None
    end in
  (forall r pos',
      sample = Some (r, pos') ->
      0 <= r < max
      /\ (pos < pos' <= pos + fuel)%nat
      /\ r = (draw (pos' - 1)%nat mod 0x100000000) mod max
      /\ draw (pos' - 1)%nat mod 0x100000000 < cap
      /\ forall i, (pos <= i < pos' - 1)%nat ->
                   cap <= draw i mod 0x100000000)
  /\ ((exists n, (n < fuel)%nat
                 /\ draw (pos + n)%nat mod 0x100000000 < 0x80000000) ->
      exists r pos', sample = Some (r, pos'))
  /\ (forall r, 0 <= r < max -> ways cap max r = Z.to_nat (span / max)).
Proof.
  intros Hs Hm cap sample. split; [|split].
  - intros r pos' H. unfold sample in H.
    destruct (draw_below draw cap fuel pos) as [[v p]|] eqn:E;
      [|discriminate].
    inversion H; subst. clear H.
    destruct (draw_below_inv draw cap fuel pos v pos' E)
      as (Hp & Hv & Hr & Hrej).
    split; [apply Z.mod_pos_bound; lia|]. split; [exact Hp|].
    split; [now rewrite Hv|]. split; [rewrite <- Hv; lia | exact Hrej].
  - intros (n & Hn & Hlt). unfold sample.
    destruct (draw_below_total draw cap fuel pos) as (v & pos' & E).
    + exists n. split; [exact Hn|].
      pose proof (cap_high span max Hs Hm). unfold cap. lia.
    + rewrite E. eexists. eexists. reflexivity.
  - intros r Hr. apply ways_even; lia.
Qed.

(** X13. app.js, [secureRandom(max)].  For [max <= 1] it returns 0
    without drawing.  For a bound up to 2^32 a returned number is the
    accepted draw modulo [max], so lies in [0, max); the draws before it
    were all rejected; the call returns as soon as a draw has its top bit
    clear; and every result has the same number of accepted 32-bit
    values behind it, [floor(2^32 / max)]: the choice has no modulo
    bias.  For a bound above 2^32 the loop rejects every draw and the
    call never returns. *)
Theorem X13_secureRandom_is_a_fair_choice :
  forall (draw : nat -> Z) (fuel : nat) (max : Z) (pos : nat),
    (max <= 1 -> secureRandom draw fuel max pos = Some (0, pos))
    /\ (1 < max <= 0x100000000 ->
        let cap := 0x100000000 / max * max in
        (forall r pos',
            secureRandom draw fuel max pos = Some (r, pos') ->
            0 <= r < max
            /\ (pos < pos' <= pos + fuel)%nat
            /\ r = (draw (pos' - 1)%nat mod 0x100000000) mod max
            /\ draw (pos' - 1)%nat mod 0x100000000 < cap
            /\ forall i, (pos <= i < pos' - 1)%nat ->
                         cap <= draw i mod 0x100000000)
        /\ ((exists n, (n < fuel)%nat
                       /\ draw (pos + n)%nat mod 0x100000000 < 0x80000000) ->
            exists r pos', secureRandom draw fuel max pos = Some (r, pos'))
        /\ (forall r, 0 <= r < max ->
                      ways cap max r = Z.to_nat (0x100000000 / max)))
    /\ (0x100000000 < max -> secureRandom draw fuel max pos = None).
Proof.
  intros draw fuel max pos. split; [|split].
  - intros H. unfold secureRandom.
    now replace (max <=? 1) with true by (symmetry; apply Z.leb_le; lia).
  - intros H. unfold secureRandom.
    replace (max <=? 1) with false by (symmetry; apply Z.leb_gt; lia).
    apply (sample_below draw 0x100000000 max fuel pos); lia.
  - intros H. unfold secureRandom.
    replace (max <=? 1) with false by (symmetry; apply Z.leb_gt; lia).
    rewrite Z.div_small by lia. now rewrite draw_below_never.
Qed.

(** X14. The first application, [getSecureRandom(max)].  For
    [max <= 0] it returns 0 without drawing; without
    [crypto.getRandomValues] it returns what the fallback gives.
    Otherwise, for a bound up to 0xFFFFFFFF, a returned number is the
    accepted draw modulo [max], so lies in [0, max), at least one draw is
    consumed (also for [max = 1]), the draw 0xFFFFFFFF is never accepted,
    the call returns as soon as a draw has its top bit clear, and every
    result has [floor(0xFFFFFFFF / max)] accepted values behind it.  For
    a bound above 0xFFFFFFFF the call never returns. *)
Theorem X14_getSecureRandom_is_a_fair_choice :
  forall (draw : nat -> Z) (fallback : Z -> Z) (fuel : nat) (max : Z)
         (pos : nat),
    (max <= 0 ->
     forall crypto,
       getSecureRandom draw crypto fallback fuel max pos = Some (0, pos))
    /\ (0 < max ->
        getSecureRandom draw false fallback fuel max pos
        = Some (fallback max, pos))
    /\ (0 < max <= 0xFFFFFFFF ->
        let threshold := 0xFFFFFFFF / max * max in
        (forall r pos',
            getSecureRandom draw true fallback fuel max pos = Some (r, pos') ->
            0 <= r < max
            /\ (pos < pos' <= pos + fuel)%nat
            /\ r = (draw (pos' - 1)%nat mod 0x100000000) mod max
            /\ draw (pos' - 1)%nat mod 0x100000000 < 0xFFFFFFFF
            /\ forall i, (pos <= i < pos' - 1)%nat ->
                         threshold <= draw i mod 0x100000000)
        /\ ((exists n, (n < fuel)%nat
                       /\ draw (pos + n)%nat mod 0x100000000 < 0x80000000) ->
            exists r pos',
              getSecureRandom draw true fallback fuel max pos = Some (r, pos'))
        /\ (forall r, 0 <= r < max ->
                      ways threshold max r = Z.to_nat (0xFFFFFFFF / max)))
    /\ (0xFFFFFFFF < max ->
        getSecureRandom draw true fallback fuel max pos = None).
Proof.
  intros draw fallback fuel max pos. split; [|split; [|split]].
  - intros H crypto. unfold getSecureRandom.
    now replace (max <=? 0) with true by (symmetry; apply Z.leb_le; lia).
  - intros H. unfold getSecureRandom.
    now replace (max <=? 0) with false by (symmetry; apply Z.leb_gt; lia).
  - intros H threshold. unfold getSecureRandom.
    replace (max <=? 0) with false by (symmetry; apply Z.leb_gt; lia).
    destruct (sample_below draw 0xFFFFFFFF max fuel pos ltac:(lia) H)
      as (Hret & Htot & Hways).
    fold threshold in Hret, Htot, Hways.
    split; [|split; [exact Htot | exact Hways]].
    intros r pos' E. destruct (Hret r pos' E) as (H1 & H2 & H3 & H4 & H5).
    repeat (split; [assumption|]). split; [|exact H5].
    assert (threshold <= 0xFFFFFFFF).
    { unfold threshold. pose proof (Z.mul_div_le 0xFFFFFFFF max). lia. }
    lia.
  - intros H. unfold getSecureRandom.
    replace (max <=? 0) with false by (symmetry; apply Z.leb_gt; lia).
    rewrite Z.div_small by lia. now rewrite draw_below_never.
Qed.

(** X13 on a die: each face has 715827882 accepted values behind it. *)
Lemma X13_secureRandom_is_a_fair_choice_witness :
  secureRandom (fun n => Z.of_nat n) 1 1 0 = Some (0, 0%nat)
  /\ ways (0x100000000 / 6 * 6) 6 3 = Z.to_nat 715827882.
Proof.
  destruct (X13_secureRandom_is_a_fair_choice (fun n => Z.of_nat n) 1 6 0)
    as (_ & H & _).
  destruct (H ltac:(lia)) as (_ & _ & Hways).
  split; [reflexivity|]. rewrite Hways by lia. reflexivity.
Defined.

(** X14 on a die. *)
Lemma X14_getSecureRandom_is_a_fair_choice_witness :
  getSecureRandom (fun n => Z.of_nat n) true (fun _ => 0) 1 6 0
  = Some (0, 1%nat)
  /\ ways (0xFFFFFFFF / 6 * 6) 6 3 = Z.to_nat 715827882.
Proof.
  destruct (X14_getSecureRandom_is_a_fair_choice (fun n => Z.of_nat n)
              (fun _ => 0) 1 6 0) as (_ & _ & H & _).
  destruct (H ltac:(lia)) as (_ & _ & Hways).
  split; [reflexivity|]. rewrite Hways by lia. reflexivity.
Defined.

(* ================================================================== *)
(** * Shuffling and drawing characters *)

Section Shuffling.

Context {A : Type}.

Lemma length_set_nth (i : nat) (x : A) (l : list A) :
  length (set_nth i x l) = length l.
Proof.
  revert i. induction l as [|a l IH]; intros [|i]; simpl; auto.
Qed.

Lemma nth_error_set_nth_same (i : nat) (x : A) (l : list A) :
  (i < length l)%nat -> nth_error (set_nth i x l) i = Some x.
Proof.
  revert i. induction l as [|a l IH]; intros [|i] H; simpl in *;
    try lia; [reflexivity | apply IH; lia].
Qed.

Lemma nth_error_set_nth_other (i j : nat) (x : A) (l : list A) :
  j <> i -> nth_error (set_nth i x l) j = nth_error l j.
Proof.
  revert i j. induction l as [|a l IH]; intros [|i] [|j] H; simpl;
    try reflexivity; try congruence.
  apply IH. congruence.
Qed.

Lemma set_nth_perm (i : nat) (a a' : A) (l : list A) :
  nth_error l i = Some a ->
  Permutation (a' :: l) (a :: set_nth i a' l).
Proof.
  revert i. induction l as [|b l IH]; intros [|i] H; simpl in *;
    try discriminate.
  - inversion H; subst. apply perm_swap.
  - eapply perm_trans; [apply perm_swap|].
    eapply perm_trans; [apply perm_skip, (IH i H)|]. apply perm_swap.
Qed.

Lemma swap_perm (i j : nat) (l : list A) : Permutation l (swap i j l).
Proof.
  unfold swap.
  destruct (nth_error l i) as [x|] eqn:Ei; [|reflexivity].
  destruct (nth_error l j) as [y|] eqn:Ej; [|reflexivity].
  apply (Permutation_cons_inv (a := y)).
  eapply perm_trans; [apply (set_nth_perm i x y l Ei)|].
  apply (set_nth_perm j y x).
  destruct (Nat.eq_dec j i) as [->|Hne].
  - apply nth_error_set_nth_same. apply nth_error_Some. congruence.
  - now rewrite nth_error_set_nth_other.
Qed.

Lemma shuffle_loop_perm (rand : Z -> nat -> option (Z * nat)) (i : nat)
    (arr arr' : list A) (pos pos' : nat) :
  (forall m p j p', rand m p = Some (j, p') -> (p <= p')%nat) ->
  shuffle_loop rand i arr pos = Some (arr', pos') ->
  Permutation arr arr' /\ (pos <= pos')%nat.
Proof.
  intros Hmono. revert arr pos. induction i as [|i IH]; intros arr pos H.
  - simpl in H. inversion H; subst. split; [reflexivity | lia].
  - cbn [shuffle_loop] in H.
    destruct (rand (Z.of_nat (S i) + 1) pos) as [[j p]|] eqn:E;
      [|discriminate].
    destruct (IH _ _ H) as [Hp Hle]. apply Hmono in E.
    split; [|lia].
    eapply perm_trans; [apply (swap_perm (S i) (Z.to_nat j))| exact Hp].
Qed.

Lemma shuffle_loop_total (rand : Z -> nat -> option (Z * nat)) (i : nat)
    (arr : list A) (pos : nat) :
  (forall m p, 1 < m <= Z.of_nat i + 1 -> exists j p', rand m p = Some (j, p')) ->
  exists arr' pos', shuffle_loop rand i arr pos = Some (arr', pos').
Proof.
  revert arr pos. induction i as [|i IH]; intros arr pos Hrand.
  - eexists. eexists. reflexivity.
  - cbn [shuffle_loop].
    destruct (Hrand (Z.of_nat (S i) + 1) pos ltac:(lia)) as (j & p & E).
    rewrite E. apply IH. intros m q Hm. apply Hrand. lia.
Qed.

End Shuffling.

Section Samplers.

Variable draw : nat -> Z.

Lemma secureRandom_pos (fuel : nat) (m : Z) (p : nat) (j : Z) (p' : nat) :
  secureRandom draw fuel m p = Some (j, p') -> (p <= p')%nat.
Proof.
  unfold secureRandom. destruct (m <=? 1).
  - intros H. inversion H. lia.
  - destruct (draw_below draw _ fuel p) as [[v q]|] eqn:E; [|discriminate].
    intros H. inversion H; subst.
    apply draw_below_inv in E. lia.
Qed.

Lemma secureRandom_total (fuel : nat) (m : Z) (p : nat) :
  lively draw fuel -> m <= 0x100000000 ->
  exists j p', secureRandom draw fuel m p = Some (j, p').
Proof.
  intros Hl Hm. unfold secureRandom. destruct (m <=? 1) eqn:E.
  - eexists. eexists. reflexivity.
  - apply Z.leb_gt in E.
    apply (sample_below draw 0x100000000 m fuel p); [lia | lia |].
    apply Hl.
Qed.

Lemma getSecureRandom_pos (crypto : bool) (fallback : Z -> Z) (fuel : nat)
    (m : Z) (p : nat) (j : Z) (p' : nat) :
  getSecureRandom draw crypto fallback fuel m p = Some (j, p') ->
  (p <= p')%nat.
Proof.
  unfold getSecureRandom. destruct (m <=? 0).
  - intros H. inversion H. lia.
  - destruct crypto; [|intros H; inversion H; lia].
    destruct (draw_below draw _ fuel p) as [[v q]|] eqn:E; [|discriminate].
    intros H. inversion H; subst.
    apply draw_below_inv in E. lia.
Qed.

Lemma getSecureRandom_total (fallback : Z -> Z) (fuel : nat) (m : Z)
    (p : nat) :
  lively draw fuel -> m <= 0xFFFFFFFF ->
  exists j p', getSecureRandom draw true fallback fuel m p = Some (j, p').
Proof.
  intros Hl Hm. unfold getSecureRandom. destruct (m <=? 0) eqn:E.
  - eexists. eexists. reflexivity.
  - apply Z.leb_gt in E.
    apply (sample_below draw 0xFFFFFFFF m fuel p); [lia | lia |].
    apply Hl.
Qed.

Lemma getSecureRandom_range (fallback : Z -> Z) (fuel : nat) (m : Z)
    (p : nat) (j : Z) (p' : nat) :
  0 < m ->
  getSecureRandom draw true fallback fuel m p = Some (j, p') ->
  0 <= j < m.
Proof.
  intros Hm. unfold getSecureRandom.
  replace (m <=? 0) with false by (symmetry; apply Z.leb_gt; lia).
  destruct (draw_below draw _ fuel p) as [[v q]|]; [|discriminate].
  intros H. inversion H; subst. apply Z.mod_pos_bound. lia.
Qed.

Lemma random_chars_spec (fallback : Z -> Z) (fuel : nat)
    (charSet : jsstring) (count : nat) (pos : nat) (s : jsstring)
    (pos' : nat) :
  charSet <> [] ->
  random_chars (getSecureRandom draw true fallback fuel) charSet count pos
  = Some (s, pos') ->
  length s = count /\ Forall (fun c => In c charSet) s /\ (pos <= pos')%nat.
Proof.
  intros Hne. revert pos s pos'.
  induction count as [|count IH]; intros pos s pos' H.
  - simpl in H. inversion H; subst. repeat split; [constructor | lia].
  - cbn [random_chars] in H.
    destruct (getSecureRandom draw true fallback fuel
                (Z.of_nat (length charSet)) pos) as [[j p]|] eqn:E;
      [|discriminate].
    destruct (random_chars _ charSet count p) as [[rest q]|] eqn:E2;
      [|discriminate].
    destruct (IH _ _ _ E2) as (Hlen & Hall & Hle).
    pose proof (getSecureRandom_pos _ _ _ _ _ _ _ E) as Hp.
    assert (Hlenpos : 0 < Z.of_nat (length charSet))
      by (destruct charSet; [congruence | simpl; lia]).
    pose proof (getSecureRandom_range _ _ _ _ _ _ Hlenpos E) as Hj.
    destruct (nth_error charSet (Z.to_nat j)) as [c|] eqn:En.
    + inversion H; subst. simpl. split; [reflexivity|].
      split; [|lia]. constructor; [|exact Hall].
      eapply nth_error_In; eassumption.
    + exfalso. apply nth_error_None in En. lia.
Qed.

Lemma random_chars_total (fallback : Z -> Z) (fuel : nat)
    (charSet : jsstring) (count : nat) (pos : nat) :
  lively draw fuel -> Z.of_nat (length charSet) <= 0xFFFFFFFF ->
  exists s pos',
    random_chars (getSecureRandom draw true fallback fuel) charSet count pos
    = Some (s, pos').
Proof.
  intros Hl Hlen. revert pos. induction count as [|count IH]; intros pos.
  - eexists. eexists. reflexivity.
  - cbn [random_chars].
    destruct (getSecureRandom_total fallback fuel _ pos Hl Hlen)
      as (j & p & E).
    rewrite E. destruct (IH p) as (s & q & E2). rewrite E2.
    eexists. eexists. reflexivity.
Qed.

End Samplers.

(** X15. Shuffling.  What [shuffle] of app.js and [shuffleString] of the
    first application return is a rearrangement of the input: the same
    elements, each as often; and both return whenever, among any [fuel]
    draws in a row, one has its top bit clear. *)
Theorem X15_shuffle_rearranges :
  forall (draw : nat -> Z) (fuel : nat) (pos : nat),
    (forall (A : Type) (arr arr' : list A) pos',
        shuffle draw fuel arr pos = Some (arr', pos') ->
        Permutation arr arr'
        /\ length arr' = length arr
        /\ (pos <= pos')%nat)
    /\ (forall crypto fallback str str' pos',
           shuffleString draw crypto fallback fuel str pos = Some (str', pos') ->
           Permutation str str' /\ length str' = length str)
    /\ (lively draw fuel ->
        (forall (A : Type) (arr : list A),
            Z.of_nat (length arr) <= 0x100000000 ->
            exists arr' pos', shuffle draw fuel arr pos = Some (arr', pos'))
        /\ (forall fallback str,
               Z.of_nat (length str) <= 0xFFFFFFFF ->
               exists str' pos',
                 shuffleString draw true fallback fuel str pos
                 = Some (str', pos'))).
Proof.
  intros draw fuel pos. split; [|split].
  - intros A arr arr' pos' H.
    destruct (shuffle_loop_perm (secureRandom draw fuel) _ arr arr' pos pos'
                (secureRandom_pos draw fuel) H) as [Hp Hle].
    split; [exact Hp|]. split; [|exact Hle].
    symmetry. now apply Permutation_length.
  - intros crypto fallback str str' pos' H.
    destruct (shuffle_loop_perm (getSecureRandom draw crypto fallback fuel)
                _ str str' pos pos'
                (getSecureRandom_pos draw crypto fallback fuel) H)
      as [Hp _].
    split; [exact Hp|]. symmetry. now apply Permutation_length.
  - intros Hl. split.
    + intros A arr Hlen. apply shuffle_loop_total.
      intros m p Hm. apply secureRandom_total; [exact Hl | lia].
    + intros fallback str Hlen. apply shuffle_loop_total.
      intros m p Hm. apply getSecureRandom_total; [exact Hl | lia].
Qed.

(** X16. The first application, [generateRandomChars(charSet, count)].
    An empty character set or a count of zero or less gives the empty
    string without drawing.  Otherwise a returned string has [count]
    characters, each of them a character of [charSet]; and the call
    returns whenever, among any [fuel] draws in a row, one has its top
    bit clear. *)
Theorem X16_generateRandomChars_draws_from_the_set :
  forall (draw : nat -> Z) (fallback : Z -> Z) (fuel : nat)
         (charSet : jsstring) (count : Z) (pos : nat),
    (charSet = [] \/ count <= 0 ->
     forall crypto,
       generateRandomChars draw crypto fallback fuel charSet count pos
       = Some ([], pos))
    /\ (charSet <> [] -> 0 < count ->
        (forall s pos',
            generateRandomChars draw true fallback fuel charSet count pos
            = Some (s, pos') ->
            Z.of_nat (length s) = count
            /\ Forall (fun c => In c charSet) s
            /\ (pos <= pos')%nat)
        /\ (lively draw fuel ->
            Z.of_nat (length charSet) <= 0xFFFFFFFF ->
            exists s pos',
              generateRandomChars draw true fallback fuel charSet count pos
              = Some (s, pos'))).
Proof.
  intros draw fallback fuel charSet count pos. split.
  - intros H crypto. unfold generateRandomChars.
    destruct H as [-> | H]; [reflexivity|].
    replace (count <=? 0) with true by (symmetry; apply Z.leb_le; lia).
    now rewrite orb_true_r.
  - intros Hne Hc.
    assert (Hrun : generateRandomChars draw true fallback fuel charSet
                     count pos
                   = random_chars
                       (getSecureRandom draw true fallback fuel) charSet
                       (Z.to_nat count) pos).
    { unfold generateRandomChars.
      replace (count <=? 0) with false by (symmetry; apply Z.leb_gt; lia).
      destruct charSet as [|c cs]; [congruence|]. reflexivity. }
    rewrite Hrun. split.
    + intros s pos' H.
      destruct (random_chars_spec draw fallback fuel charSet _ pos s pos'
                  Hne H) as (Hlen & Hall & Hle).
      split; [lia|]. split; assumption.
    + intros Hl Hlen. now apply random_chars_total.
Qed.

Lemma lively_small (draw : nat -> Z) :
  (forall n, 0 <= draw n < 0x80000000) -> lively draw 1.
Proof.
  intros H pos. exists 0%nat. split; [lia|].
  specialize (H (pos + 0)%nat). rewrite Z.mod_small; lia.
Qed.

(** X15 on four numbers and draws that count up. *)
Lemma X15_shuffle_rearranges_witness :
  lively (fun n => Z.of_nat (n mod 7)) 1
  /\ exists arr' pos',
       shuffle (fun n => Z.of_nat (n mod 7)) 1 [1; 2; 3; 4] 0
       = Some (arr', pos')
       /\ Permutation [1; 2; 3; 4] arr'.
Proof.
  assert (Hl : lively (fun n => Z.of_nat (n mod 7)) 1).
  { apply lively_small. intros n.
    pose proof (Nat.mod_upper_bound n 7). lia. }
  split; [exact Hl|].
  destruct (X15_shuffle_rearranges (fun n => Z.of_nat (n mod 7)) 1 0)
    as (Hperm & _ & Htotal).
  destruct (Htotal Hl) as [Hshuffle _].
  destruct (Hshuffle Z [1; 2; 3; 4]) as (arr' & pos' & E);
    [simpl; lia|].
  exists arr', pos'. split; [exact E|]. now apply (Hperm Z _ _ pos').
Defined.

(** X16 on the digits. *)
Lemma X16_generateRandomChars_draws_from_the_set_witness :
  exists s pos',
    generateRandomChars (fun n => Z.of_nat (n mod 7)) true (fun _ => 0) 1
      (js "0123456789") 4 0 = Some (s, pos')
    /\ Z.of_nat (length s) = 4.
Proof.
  destruct (X16_generateRandomChars_draws_from_the_set
              (fun n => Z.of_nat (n mod 7)) (fun _ => 0) 1
              (js "0123456789") 4 0) as (_ & H).
  destruct H as (Hspec & Htotal); [discriminate | lia |].
  destruct Htotal as (s & pos' & E).
  - apply lively_small. intros n.
    pose proof (Nat.mod_upper_bound n 7). lia.
  - simpl. lia.
  - exists s, pos'. split; [exact E|]. now apply (Hspec s pos').
Defined.

(* ================================================================== *)
(** * Cleaning of typed input *)

Lemma filter_trim_start (p : Z -> bool) (s : jsstring) :
  (forall u, is_whitespace u = true -> p u = false) ->
  filter p (trim_start s) = filter p s.
Proof.
  intros Hp. induction s as [|u s IH]; [reflexivity|].
  simpl. destruct (is_whitespace u) eqn:E; [|reflexivity].
  now rewrite (Hp u E).
Qed.

Lemma filter_js_trim (p : Z -> bool) (s : jsstring) :
  (forall u, is_whitespace u = true -> p u = false) ->
  filter p (js_trim s) = filter p s.
Proof.
  intros Hp. unfold js_trim, trim_end.
  rewrite filter_rev, (filter_trim_start p _ Hp), filter_rev, rev_involutive.
  now apply filter_trim_start.
Qed.

Lemma trim_start_clean (s : jsstring) :
  match s with u :: _ => is_whitespace u = false | [] => True end ->
  trim_start s = s.
Proof. destruct s as [|u s]; [reflexivity|]. simpl. now intros ->. Qed.

Lemma passes_allowed (u : Z) :
  class_has Modal.allowed u = true <-> Modal.passes u.
Proof.
  unfold Modal.passes, class_has, Modal.allowed. cbn [existsb].
  rewrite !orb_true_iff, !andb_true_iff, !Z.leb_le, !Z.eqb_eq.
  split; [intros H | intros H]; lia.
Qed.

Lemma whitespace_not_allowed (u : Z) :
  is_whitespace u = true -> class_has Modal.allowed u = false.
Proof.
  intros H. destruct (class_has Modal.allowed u) eqn:E; [|reflexivity].
  apply passes_allowed in E. unfold Modal.passes in E.
  unfold is_whitespace in H.
  rewrite !orb_true_iff, !andb_true_iff, !Z.leb_le, !Z.eqb_eq in H. lia.
Qed.

(** X17. The passphrase dialog.  [sanitizeInput] keeps exactly the code
    units 33, 35 to 38, 40 to 95 and 97 to 125 (the hyphen between the
    closing parenthesis and the underscore makes a range, so the slash
    and the backslash pass, while space, both quotes, the backquote, the
    tilde and everything outside ASCII go); it does the same with or
    without the trim before it, is idempotent, and does not see spaces:
    two inputs that differ by spaces give the same passphrase.
    [handleSubmit] keeps the dialog open on an input with no allowed
    character; otherwise it calls back with the sanitized input, which
    is not empty, and stores it in the session when asked to remember;
    [handleCancel] calls back with [null] and stores nothing. *)
Theorem X17_dialog_passphrase_is_sanitized :
  forall (value : jsstring) (remember : bool) (session : option jsstring),
    Modal.sanitizeInput value
    = filter (fun u => (u =? 33) || ((35 <=? u) && (u <=? 38))
                       || ((40 <=? u) && (u <=? 95))
                       || ((97 <=? u) && (u <=? 125))) value
    /\ Forall Modal.passes (Modal.sanitizeInput value)
    /\ Modal.sanitizeInput (js_trim value) = Modal.sanitizeInput value
    /\ Modal.sanitizeInput (Modal.sanitizeInput value)
       = Modal.sanitizeInput value
    /\ (forall a b,
           Modal.sanitizeInput (a ++ [32] ++ b) = Modal.sanitizeInput (a ++ b))
    /\ Modal.handleSubmit value remember session
       = (if js_falsy (Modal.sanitizeInput value)
          then (Modal.Open "Please enter a passphrase", session)
          else (Modal.Closed (Some (Modal.sanitizeInput value)),
                if remember then Some (Modal.sanitizeInput value)
                else session))
    /\ (forall p session',
           Modal.handleSubmit value remember session
           = (Modal.Closed (Some p), session') ->
           p <> [] /\ Forall Modal.passes p)
    /\ Modal.handleCancel session = (Modal.Closed None, session).
Proof.
  intros value remember session.
  assert (Htrim : Modal.sanitizeInput (js_trim value)
                  = Modal.sanitizeInput value).
  { apply filter_js_trim. exact whitespace_not_allowed. }
  assert (Hall : forall s, Forall Modal.passes (Modal.sanitizeInput s)).
  { intros s. apply Forall_forall. intros u Hu.
    apply filter_In in Hu as [_ Hu]. now apply passes_allowed. }
  split; [|split; [|split; [|split; [|split; [|split; [|split]]]]]].
  - unfold Modal.sanitizeInput, keep_class. apply filter_ext. intros u.
    destruct (class_has Modal.allowed u) eqn:E.
    + apply passes_allowed in E. unfold Modal.passes in E.
      symmetry. rewrite !orb_true_iff, !andb_true_iff, !Z.leb_le, Z.eqb_eq.
      lia.
    + symmetry. apply not_true_is_false. intros H.
      rewrite !orb_true_iff, !andb_true_iff, !Z.leb_le, Z.eqb_eq in H.
      assert (Hp : Modal.passes u) by (unfold Modal.passes; lia).
      apply passes_allowed in Hp. congruence.
  - apply Hall.
  - exact Htrim.
  - unfold Modal.sanitizeInput, keep_class.
    apply forallb_filter_id. apply forallb_forall. intros u Hu.
    now apply filter_In in Hu.
  - intros a b. unfold Modal.sanitizeInput, keep_class.
    now rewrite !filter_app.
  - unfold Modal.handleSubmit. now rewrite Htrim.
  - intros p session' H. unfold Modal.handleSubmit in H.
    rewrite Htrim in H.
    destruct (Modal.sanitizeInput value) as [|u s] eqn:E; [discriminate|].
    simpl in H. inversion H; subst. split; [discriminate|].
    rewrite <- E. apply Hall.
  - reflexivity.
Qed.

(** X17 on a passphrase of two words. *)
Lemma X17_dialog_passphrase_is_sanitized_witness :
  Modal.handleSubmit (js " correct horse ") true None
  = (Modal.Closed (Some (js "correcthorse")), Some (js "correcthorse")).
Proof.
  destruct (X17_dialog_passphrase_is_sanitized (js " correct horse ") true
              None) as (_ & _ & _ & _ & _ & H & _).
  rewrite H. reflexivity.
Defined.

Lemma filter_both {A : Type} (p q : A -> bool) (l : list A) :
  filter p (filter q l) = filter (fun u => p u && q u) l.
Proof.
  induction l as [|a l IH]; [reflexivity|]. simpl.
  destruct (q a); simpl; [destruct (p a); now rewrite IH|].
  now rewrite andb_false_r.
Qed.

Lemma length_trim_start (l : jsstring) :
  (length (trim_start l) <= length l)%nat.
Proof.
  induction l as [|x l IH]; [simpl; lia|]. simpl.
  destruct (is_whitespace x); simpl; lia.
Qed.

(** A string the trim leaves alone does not end in white space. *)
Lemma js_trim_fixed_end (s : jsstring) :
  js_trim s = s -> trim_start (rev s) = rev s.
Proof.
  intros Ht. unfold js_trim, trim_end in Ht.
  destruct s as [|u s']; [reflexivity|].
  assert (Hu : is_whitespace u = false).
  { destruct (is_whitespace u) eqn:E; [|reflexivity]. exfalso.
    simpl in Ht. rewrite E in Ht.
    apply (f_equal (@length Z)) in Ht. rewrite length_rev in Ht.
    pose proof (length_trim_start (rev (trim_start s'))) as H1.
    rewrite length_rev in H1. pose proof (length_trim_start s').
    simpl in Ht. lia. }
  simpl in Ht. rewrite Hu in Ht.
  apply (f_equal (@rev Z)) in Ht. now rewrite rev_involutive in Ht.
Qed.

(** X18. The first application, [sanitizeInput].  [null] and
    [undefined] give the empty string and a number its own text; a
    string is trimmed and then keeps, in order, exactly its printable
    ASCII characters other than the five stripped ones, so the result is
    never longer than the input.  A string of such characters with no
    space at either end is returned as it is.  The trim comes first, so
    a space that follows a stripped character at the start stays: the
    result can begin with a space, and sanitizing it again changes it. *)
Theorem X18_sanitizeInput_keeps_plain_text :
  forall s : jsstring,
    sanitizeInput Nullish = []
    /\ (forall text, sanitizeInput (Number text) = text)
    /\ sanitizeInput (Other s) = sanitizeInput (Text s)
    /\ sanitizeInput (Text s)
       = filter (fun u => (0x20 <=? u) && (u <=? 0x7E)
                          && negb ((u =? 60) || (u =? 62) || (u =? 34)
                                   || (u =? 39) || (u =? 38)))
           (js_trim s)
    /\ Forall plain_unit (sanitizeInput (Text s))
    /\ (length (sanitizeInput (Text s)) <= length (js_trim s))%nat
    /\ (Forall plain_unit s -> js_trim s = s -> sanitizeInput (Text s) = s)
    /\ (Forall plain_unit s -> js_trim s = s -> s <> [] ->
        sanitizeInput (Text (60 :: 32 :: s)) = 32 :: s
        /\ sanitizeInput (Text (32 :: s)) = s).
Proof.
  intros s.
  assert (Hone : forall t,
             sanitizeInput (Text t)
             = filter (fun u => (0x20 <=? u) && (u <=? 0x7E)
                                && negb ((u =? 60) || (u =? 62) || (u =? 34)
                                         || (u =? 39) || (u =? 38)))
                 (js_trim t)).
  { intros t. unfold sanitizeInput, keep_class, remove_class.
    rewrite filter_both. apply filter_ext. intros u.
    unfold class_has. cbn [existsb]. now rewrite !orb_false_r, !orb_assoc. }
  assert (Hplain : forall u,
             (0x20 <=? u) && (u <=? 0x7E)
             && negb ((u =? 60) || (u =? 62) || (u =? 34)
                      || (u =? 39) || (u =? 38)) = true <-> plain_unit u).
  { intros u. unfold plain_unit.
    rewrite !andb_true_iff, negb_true_iff, !orb_false_iff, !Z.leb_le,
      !Z.eqb_neq. tauto. }
  assert (Hfix : forall t, Forall plain_unit t ->
                 filter (fun u => (0x20 <=? u) && (u <=? 0x7E)
                                  && negb ((u =? 60) || (u =? 62) || (u =? 34)
                                           || (u =? 39) || (u =? 38))) t = t).
  { intros t Ht. apply forallb_filter_id. apply forallb_forall.
    intros u Hu. apply Hplain. rewrite Forall_forall in Ht. now apply Ht. }
  split; [reflexivity|]. split; [reflexivity|]. split; [reflexivity|].
  split; [apply Hone|]. split; [|split; [|split]].
  - rewrite Hone. apply Forall_forall. intros u Hu.
    apply filter_In in Hu as [_ Hu]. now apply Hplain.
  - rewrite Hone. apply filter_length_le.
  - intros Hs Ht. rewrite Hone, Ht. now apply Hfix.
  - intros Hs Ht Hne.
    pose proof (js_trim_fixed_end s Ht) as Hend.
    assert (Htrim1 : js_trim (60 :: 32 :: s) = 60 :: 32 :: s).
    { unfold js_trim, trim_end. cbn [trim_start].
      replace (is_whitespace 60) with false by reflexivity.
      cbn [rev]. rewrite <- !app_assoc. cbn [app].
      replace (trim_start (rev s ++ [32; 60])) with (rev s ++ [32; 60]).
      - rewrite rev_app_distr, rev_involutive. reflexivity.
      - destruct (rev s) as [|x l] eqn:Er.
        + apply (f_equal (@rev Z)) in Er. rewrite rev_involutive in Er.
          simpl in Er. congruence.
        + simpl in *. destruct (is_whitespace x); [|reflexivity].
          exfalso. apply (f_equal (@length Z)) in Hend.
          pose proof (length_trim_start l). simpl in Hend. lia. }
    assert (Htrim2 : js_trim (32 :: s) = s).
    { unfold js_trim. cbn [trim_start].
      replace (is_whitespace 32) with true by reflexivity.
      exact Ht. }
    split.
    + rewrite Hone, Htrim1. cbn [filter].
      replace ((32 <=? 60) && (60 <=? 126)
               && negb ((60 =? 60) || (60 =? 62) || (60 =? 34)
                        || (60 =? 39) || (60 =? 38))) with false
        by reflexivity.
      replace ((32 <=? 32) && (32 <=? 126)
               && negb ((32 =? 60) || (32 =? 62) || (32 =? 34)
                        || (32 =? 39) || (32 =? 38))) with true
        by reflexivity.
      now rewrite Hfix.
    + rewrite Hone, Htrim2. now apply Hfix.
Qed.

(** X18 on a tag typed before a word. *)
Lemma X18_sanitizeInput_keeps_plain_text_witness :
  sanitizeInput (Text (js "< abc")) = js " abc"
  /\ sanitizeInput (Text (js " abc")) = js "abc".
Proof.
  destruct (X18_sanitizeInput_keeps_plain_text (js "abc"))
    as (_ & _ & _ & _ & _ & _ & _ & H).
  apply H; [|reflexivity | discriminate].
  vm_compute js. repeat (apply Forall_cons; [unfold plain_unit; lia|]).
  apply Forall_nil.
Defined.

(* ================================================================== *)
(** * beta/history.js: the stored history *)

Section BetaStoreFacts.

Import BetaStore.

Variable pf : Platform.
Variable stringify : list Item -> jsstring.
Variable parse : jsstring -> option Json.
Variable btoa : bytes -> jsstring.
Variable atob : jsstring -> option bytes.
Variable zxcvbn : option (jsstring -> Z).

Ltac page_cases :=
  repeat (simpl;
          match goal with
          | |- context [if ?c then _ else _] =>
              destruct c eqn:?; simpl in *; try discriminate
          | |- context [match ?x with Some _ => _ | None => _ end] =>
              destruct x eqn:?; simpl in *; try discriminate
          end).

Lemma blank_act (a : Action) (p : Page) :
  blank p -> blank (act pf stringify parse btoa atob zxcvbn a p).
Proof.
  unfold blank. destruct p as [w h d o s t l]. simpl.
  intros (-> & -> & -> & ->).
  destruct a as [value type timestamp reply | index passphrase | n
                | confirmed passphrase | | passphrase | passphrase];
    simpl.
  - unfold addToHistory, throttle, loadHistory, showError.
    cbv [and_then lift look update pure Date_now toast modify world
         lastActionTime set_world set_last set_temp set_history stored].
    simpl. page_cases; auto.
  - unfold removeFromHistory, throttle, showError.
    cbv [and_then lift look update pure Date_now toast modify world
         lastActionTime set_world set_last passwordHistory].
    simpl.
    destruct (clock pf (ticks w) - l <? RATE_LIMIT_MS); simpl; [auto|].
    replace ((0 <=? index) && (index <? 0)) with false; [simpl; auto|].
    symmetry. apply andb_false_iff.
    destruct (Z.leb_spec 0 index); [right; apply Z.ltb_ge; lia | now left].
  - unfold undo. cbv [and_then look undoOffers pure]. simpl.
    destruct n; simpl; auto.
  - unfold clearHistory, showError.
    destruct confirmed; cbv [and_then lift update pure toast modify]; simpl;
      auto.
  - cbv [resetPasswordHistory and_then update]. simpl. auto.
  - unfold loadHistory. cbv [and_then look update pure]. simpl. auto.
  - unfold setEncryptionPassphrase, showError.
    cbv [and_then lift pure toast modify]. simpl.
    destruct passphrase as [text|]; simpl; [|auto].
    destruct (js_falsy (js_trim text)); simpl; [auto|].
    destruct (weak zxcvbn text); simpl; auto.
Qed.

End BetaStoreFacts.

(** X19. The beta history never gets its first entry.  On a page with
    nothing stored, nothing in memory and nothing to undo, every
    sequence of actions ([addToHistory] with any answer of the dialog,
    [removeFromHistory], undo, [clearHistory], [resetPasswordHistory],
    [loadHistory], [setEncryptionPassphrase]) leaves it so:
    [loadHistory] reports failure when nothing is stored, and
    [addToHistory] saves only after a successful load. *)
Theorem X19_beta_history_is_never_started :
  forall (pf : Platform) (stringify : list BetaStore.Item -> jsstring)
         (parse : jsstring -> option BetaStore.Json)
         (btoa : bytes -> jsstring) (atob : jsstring -> option bytes)
         (zxcvbn : option (jsstring -> Z))
         (actions : list BetaStore.Action) (p : BetaStore.Page),
    BetaStore.blank p ->
    BetaStore.blank
      (BetaStore.acts pf stringify parse btoa atob zxcvbn actions p).
Proof.
  intros pf stringify parse btoa atob zxcvbn actions.
  induction actions as [|a actions IH]; intros p Hp; [exact Hp|].
  simpl. apply IH. now apply blank_act.
Qed.

(** X19 on a new page of the demonstration platform. *)
Lemma X19_beta_history_is_never_started_witness :
  BetaStore.blank (BetaStore.new_page fresh_world None)
  /\ BetaStore.stored
       (BetaStore.acts Demo.platform (fun _ => js "[]") (fun _ => None)
          (fun b => b) (fun s => Some s) None
          [BetaStore.Add (js "x7!Qp") (js "password") (js "2025") 
             (Some (js "hunter2"));
           BetaStore.Remove 0 (js "hunter2")]
          (BetaStore.new_page fresh_world None)) = None.
Proof.
  assert (H : BetaStore.blank (BetaStore.new_page fresh_world None))
    by (repeat split; reflexivity).
  split; [exact H|].
  apply (X19_beta_history_is_never_started Demo.platform (fun _ => js "[]")
           (fun _ => None) (fun b => b) (fun s => Some s) None
           [BetaStore.Add (js "x7!Qp") (js "password") (js "2025")
              (Some (js "hunter2"));
            BetaStore.Remove 0 (js "hunter2")]
           (BetaStore.new_page fresh_world None) H).
Defined.



Section BetaStoreRuns.

Import BetaStore.

Variable pf : Platform.
Variable stringify : list Item -> jsstring.
Variable parse : jsstring -> option Json.
Variable btoa : bytes -> jsstring.
Variable atob : jsstring -> option bytes.
Variable zxcvbn : option (jsstring -> Z).




End BetaStoreRuns.





Section BetaStoreOutcomes.

Import BetaStore.

Variable pf : Platform.
Variable stringify : list Item -> jsstring.
Variable parse : jsstring -> option Json.
Variable btoa : bytes -> jsstring.
Variable atob : jsstring -> option bytes.
Variable zxcvbn : option (jsstring -> Z).



End BetaStoreOutcomes.

Lemma new_toasts_one (w w' : World) (said : string * bool) :
  toasts w' = toasts w ++ [said] -> new_toasts w w' = [said].
Proof.
  intros E. unfold new_toasts.
  now rewrite E, skipn_app, skipn_all, Nat.sub_diag.
Qed.

Ltac said_only :=
  repeat match goal with |- _ /\ _ => split end;
  try reflexivity; apply new_toasts_one; reflexivity.

(** X21. A call of the beta [addToHistory] that is turned down.  Within
    a second of the last accepted action the throttle refuses the call
    and leaves the time of that action alone.  Otherwise the call is
    accepted and that time becomes the reading of the clock; the call is
    then turned down for a type that is not one of the three, for a
    dialog that gives no passphrase or an empty one, and for a
    passphrase the estimator scores below 3.  In all four cases the call
    returns having shown the one message of its case and done nothing
    else: it derived no key, drew no random octet, and changed neither
    the history in memory, the stored text, the undo data nor the
    passphrase kept for the call. *)
Theorem X21_beta_add_turned_down :
  forall (pf : Platform) (stringify : list BetaStore.Item -> jsstring)
         (parse : jsstring -> option BetaStore.Json)
         (btoa : bytes -> jsstring) (atob : jsstring -> option bytes)
         (zxcvbn : option (jsstring -> Z))
         (value type timestamp : jsstring) (reply : option jsstring)
         (p : BetaStore.Page),
    let now := clock pf (ticks (BetaStore.world p)) in
    let call :=
      BetaStore.addToHistory pf stringify parse btoa atob zxcvbn value type
        timestamp reply p in
    (now - BetaStore.lastActionTime p < BetaStore.RATE_LIMIT_MS ->
     fst call = Ok tt
     /\ BetaStore.only_said "Please wait before performing another action."
          p (snd call)
     /\ BetaStore.lastActionTime (snd call) = BetaStore.lastActionTime p)
    /\ (BetaStore.RATE_LIMIT_MS <= now - BetaStore.lastActionTime p ->
        (existsb (js_eqb type) BetaStore.VALID_TYPES = false ->
         fst call = Ok tt
         /\ BetaStore.only_said "Invalid history item type." p (snd call)
         /\ BetaStore.lastActionTime (snd call) = now)
        /\ (existsb (js_eqb type) BetaStore.VALID_TYPES = true ->
            reply = None \/ reply = Some [] ->
            fst call = Ok tt
            /\ BetaStore.only_said "Please set an encryption passphrase."
                 p (snd call)
            /\ BetaStore.lastActionTime (snd call) = now)
        /\ (existsb (js_eqb type) BetaStore.VALID_TYPES = true ->
            forall passphrase,
              reply = Some passphrase ->
              passphrase <> [] ->
              BetaStore.weak zxcvbn passphrase = true ->
              fst call = Ok tt
              /\ BetaStore.only_said
                   "Passphrase is too weak. Please use a stronger passphrase."
                   p (snd call)
              /\ BetaStore.lastActionTime (snd call) = now)).
Proof.
  intros pf stringify parse btoa atob zxcvbn value type timestamp reply p
    now call.
  destruct p as [w h d o s t l]. unfold call, now. clear call now.
  cbn [BetaStore.world BetaStore.lastActionTime].
  unfold BetaStore.addToHistory, BetaStore.throttle, BetaStore.showError.
  unfold BetaStore.and_then, BetaStore.look, BetaStore.lift,
    BetaStore.update, BetaStore.only_said.
  cbn [Date_now toast modify BetaStore.world BetaStore.set_world
       BetaStore.passwordHistory BetaStore.deletedItems BetaStore.undoOffers
       BetaStore.stored BetaStore.tempPassphrase BetaStore.lastActionTime].
  split.
  - intros Hlt. apply Z.ltb_lt in Hlt. rewrite Hlt.
    cbn [fst snd BetaStore.world BetaStore.set_world
         BetaStore.passwordHistory BetaStore.deletedItems
         BetaStore.undoOffers BetaStore.stored BetaStore.tempPassphrase
         BetaStore.lastActionTime].
    said_only.
  - intros Hge. apply Z.ltb_ge in Hge. rewrite Hge.
    cbn [BetaStore.set_last BetaStore.world BetaStore.set_world
         BetaStore.passwordHistory BetaStore.deletedItems
         BetaStore.undoOffers BetaStore.stored BetaStore.tempPassphrase
         BetaStore.lastActionTime].
    split; [|split].
    + intros Htype. rewrite Htype.
      cbn [negb fst snd BetaStore.world BetaStore.set_world
           BetaStore.passwordHistory BetaStore.deletedItems
           BetaStore.undoOffers BetaStore.stored BetaStore.tempPassphrase
           BetaStore.lastActionTime].
      said_only.
    + intros Htype Hreply. rewrite Htype.
      destruct Hreply as [-> | ->];
        cbn [negb js_falsy fst snd BetaStore.world BetaStore.set_world
             BetaStore.passwordHistory BetaStore.deletedItems
             BetaStore.undoOffers BetaStore.stored BetaStore.tempPassphrase
             BetaStore.lastActionTime];
        said_only.
    + intros Htype passphrase -> Hne Hweak. rewrite Htype, Hweak.
      destruct passphrase as [|c passphrase]; [now contradiction Hne|].
      cbn [negb js_falsy fst snd BetaStore.world BetaStore.set_world
           BetaStore.passwordHistory BetaStore.deletedItems
           BetaStore.undoOffers BetaStore.stored BetaStore.tempPassphrase
           BetaStore.lastActionTime].
      said_only.
Qed.

(** X21 on the demonstration page: a second call within the second of
    the first, and a call without passphrase a second later. *)
Lemma X21_beta_add_turned_down_witness :
  BetaStore.only_said "Please wait before performing another action."
    (BetaStore.set_last 1000 BetaDemo.page)
    (snd (BetaStore.addToHistory Demo.platform BetaDemo.stringify
            BetaDemo.parse BetaDemo.btoa BetaDemo.atob None (js "x7Qp")
            (js "password") (js "2025") (Some (js "hunter2"))
            (BetaStore.set_last 1000 BetaDemo.page)))
  /\ BetaStore.only_said "Please set an encryption passphrase."
       BetaDemo.page
       (snd (BetaStore.addToHistory Demo.platform BetaDemo.stringify
               BetaDemo.parse BetaDemo.btoa BetaDemo.atob None (js "x7Qp")
               (js "password") (js "2025") None BetaDemo.page)).
Proof.
  split.
  - destruct (X21_beta_add_turned_down Demo.platform BetaDemo.stringify
                BetaDemo.parse BetaDemo.btoa BetaDemo.atob None (js "x7Qp")
                (js "password") (js "2025") (Some (js "hunter2"))
                (BetaStore.set_last 1000 BetaDemo.page)) as [Hwait _].
    apply Hwait. vm_compute. reflexivity.
  - destruct (X21_beta_add_turned_down Demo.platform BetaDemo.stringify
                BetaDemo.parse BetaDemo.btoa BetaDemo.atob None (js "x7Qp")
                (js "password") (js "2025") None BetaDemo.page)
      as [_ Hrest].
    destruct Hrest as (_ & Hnone & _); [vm_compute; discriminate|].
    apply Hnone; [reflexivity | now left].
Defined.





(* ================================================================== *)
(** * app.js: the password generator *)

Lemma random_chars_sound (rand : Z -> nat -> option (Z * nat))
    (charSet : jsstring) (count : nat) (pos : nat) (s : jsstring)
    (pos' : nat) :
  (forall m p j p', 0 < m -> rand m p = Some (j, p') -> 0 <= j < m) ->
  charSet <> [] ->
  random_chars rand charSet count pos = Some (s, pos') ->
  length s = count /\ Forall (fun c => In c charSet) s.
Proof.
  intros Hrange Hne. revert pos s pos'.
  induction count as [|count IH]; intros pos s pos' H.
  - simpl in H. inversion H; subst. now split.
  - cbn [random_chars] in H.
    destruct (rand (Z.of_nat (length charSet)) pos) as [[j p]|] eqn:E;
      [|discriminate].
    destruct (random_chars rand charSet count p) as [[rest q]|] eqn:E2;
      [|discriminate].
    destruct (IH _ _ _ E2) as (Hlen & Hall).
    assert (Hpos : 0 < Z.of_nat (length charSet))
      by (destruct charSet; [congruence | simpl; lia]).
    pose proof (Hrange _ _ _ _ Hpos E) as Hj.
    destruct (nth_error charSet (Z.to_nat j)) as [c|] eqn:En.
    + inversion H; subst. simpl. split; [reflexivity|].
      constructor; [|exact Hall]. eapply nth_error_In; eassumption.
    + exfalso. apply nth_error_None in En. lia.
Qed.

Lemma random_chars_returns (rand : Z -> nat -> option (Z * nat))
    (charSet : jsstring) (count : nat) (pos : nat) :
  (forall p, exists j p', rand (Z.of_nat (length charSet)) p = Some (j, p')) ->
  exists s pos', random_chars rand charSet count pos = Some (s, pos').
Proof.
  intros Hrand. revert pos. induction count as [|count IH]; intros pos.
  - eexists. eexists. reflexivity.
  - cbn [random_chars]. destruct (Hrand pos) as (j & p & E). rewrite E.
    destruct (IH p) as (s & q & E2). rewrite E2.
    eexists. eexists. reflexivity.
Qed.

Lemma secureRandom_range (draw : nat -> Z) (fuel : nat) (m : Z) (p : nat)
    (j : Z) (p' : nat) :
  0 < m -> secureRandom draw fuel m p = Some (j, p') -> 0 <= j < m.
Proof.
  intros Hm. unfold secureRandom. destruct (m <=? 1) eqn:E.
  - apply Z.leb_le in E. intros H. inversion H. lia.
  - destruct (draw_below draw _ fuel p) as [[v q]|]; [|discriminate].
    intros H. inversion H; subst. apply Z.mod_pos_bound. lia.
Qed.

Lemma Permutation_filter_length {A : Type} (f : A -> bool) (l l' : list A) :
  Permutation l l' -> length (filter f l) = length (filter f l').
Proof.
  intros H. induction H as [| x l l' H IH | x y l | l l' l'' H1 IH1 H2 IH2];
    simpl.
  - reflexivity.
  - destruct (f x); simpl; now rewrite IH.
  - destruct (f x), (f y); reflexivity.
  - now rewrite IH1.
Qed.

Lemma count_in_all (set s : jsstring) :
  Forall (fun c => In c set) s -> count_in set s = length s.
Proof.
  intros H. unfold count_in. induction H as [|c s Hc Hs IH]; [reflexivity|].
  simpl. replace (existsb (Z.eqb c) set) with true; [simpl; now rewrite IH|].
  symmetry. apply existsb_exists. exists c. split; [exact Hc|].
  apply Z.eqb_refl.
Qed.

Lemma count_in_app (set a b : jsstring) :
  count_in set (a ++ b) = (count_in set a + count_in set b)%nat.
Proof. unfold count_in. now rewrite filter_app, length_app. Qed.

Section GeneratorFacts.

Variable draw : nat -> Z.

Lemma add_sound (fuel : nat) (pool : jsstring) (n : Z) (pos : nat)
    (c : jsstring) (pos' : nat) :
  pool <> [] -> 0 <= n ->
  add draw fuel pool n pos = Some (c, pos') ->
  Z.of_nat (length c) = n /\ Forall (fun u => In u pool) c.
Proof.
  intros Hne Hn. unfold add. destruct pool as [|u pool]; [congruence|].
  cbn [js_falsy]. intros H.
  destruct (random_chars_sound (secureRandom draw fuel) (u :: pool) _ pos c
              pos' (secureRandom_range draw fuel) Hne H) as [Hlen Hall].
  split; [lia | exact Hall].
Qed.

Lemma add_returns (fuel : nat) (pool : jsstring) (n : Z) (pos : nat) :
  lively draw fuel ->
  Z.of_nat (length pool) <= 0x100000000 ->
  exists c pos', add draw fuel pool n pos = Some (c, pos').
Proof.
  intros Hl Hlen. unfold add. destruct (js_falsy pool).
  - eexists. eexists. reflexivity.
  - apply random_chars_returns. intros p.
    now apply secureRandom_total.
Qed.

End GeneratorFacts.

Lemma count_of_nonneg (x : option Z) : 0 <= count_of x.
Proof. unfold count_of. lia. Qed.

Lemma sets_not_empty (noAmbig : bool) :
  set_lowercase noAmbig <> [] /\ set_uppercase noAmbig <> []
  /\ set_numbers noAmbig <> [] /\ set_special <> [].
Proof. destruct noAmbig; repeat split; discriminate. Qed.

Lemma sets_unambiguous :
  forallb (fun u => negb (ambiguous u))
    (set_lowercase true ++ set_uppercase true ++ set_numbers true
     ++ set_special) = true.
Proof. reflexivity. Qed.

Lemma sets_in_fill (form : PasswordForm) :
  let noAmbig := form_exclude_ambiguous form in
  (0 < count_of (form_lowercase form) ->
   incl (set_lowercase noAmbig) (fill form))
  /\ (0 < count_of (form_uppercase form) ->
      incl (set_uppercase noAmbig) (fill form))
  /\ (0 < count_of (form_numbers form) ->
      incl (set_numbers noAmbig) (fill form))
  /\ (0 < count_of (form_special form) -> incl set_special (fill form)).
Proof.
  intros noAmbig. unfold fill. fold noAmbig.
  repeat split; intros H u Hu;
    apply Z.ltb_lt in H; rewrite H; rewrite !in_app_iff; tauto.
Qed.

Lemma fill_in_sets (form : PasswordForm) :
  incl (fill form)
    (set_lowercase (form_exclude_ambiguous form)
     ++ set_uppercase (form_exclude_ambiguous form)
     ++ set_numbers (form_exclude_ambiguous form) ++ set_special).
Proof.
  intros u. unfold fill. rewrite !in_app_iff.
  destruct (0 <? count_of (form_lowercase form)),
    (0 <? count_of (form_uppercase form)),
    (0 <? count_of (form_numbers form)),
    (0 <? count_of (form_special form)); simpl; tauto.
Qed.

Lemma fill_not_empty (form : PasswordForm) :
  minReq form <> 0 -> fill form <> [].
Proof.
  intros H. unfold minReq in H.
  pose proof (count_of_nonneg (form_lowercase form)).
  pose proof (count_of_nonneg (form_uppercase form)).
  pose proof (count_of_nonneg (form_numbers form)).
  pose proof (count_of_nonneg (form_special form)).
  destruct (sets_in_fill form) as (F1 & F2 & F3 & F4).
  destruct (sets_not_empty (form_exclude_ambiguous form))
    as (N1 & N2 & N3 & N4).
  assert (Hsome : forall set, set <> [] -> incl set (fill form) ->
                  fill form <> []).
  { intros [|u set] Hne Hincl; [congruence|].
    intros E. specialize (Hincl u (or_introl eq_refl)).
    rewrite E in Hincl. contradiction. }
  destruct (Z_lt_dec 0 (count_of (form_lowercase form)));
    [now apply (Hsome _ N1), F1|].
  destruct (Z_lt_dec 0 (count_of (form_uppercase form)));
    [now apply (Hsome _ N2), F2|].
  destruct (Z_lt_dec 0 (count_of (form_numbers form)));
    [now apply (Hsome _ N3), F3|].
  apply (Hsome _ N4), F4. lia.
Qed.

(** Characters added for a type are characters of [fill]. *)
Lemma added_in_fill (form : PasswordForm) (set c : jsstring) (n : Z) :
  (0 < n -> incl set (fill form)) ->
  Z.of_nat (length c) = n ->
  Forall (fun u => In u set) c ->
  Forall (fun u => In u (fill form)) c.
Proof.
  intros Hincl Hlen Hall. destruct c as [|u c]; [constructor|].
  eapply Forall_impl; [|exact Hall]. intros a Ha. apply Hincl; [|exact Ha].
  simpl in Hlen. lia.
Qed.

(** X23. app.js, [generatePassword].  With no character type asked for
    it only shows a toast.  Otherwise a password it sets has
    [max(length, minReq)] characters ([minReq] when the length is not a
    number), every one of them from the sets of the types asked for; at
    least as many lowercase letters, uppercase letters, digits and
    special characters as asked; and, with the ambiguous characters
    excluded, none of i, l, I, O, 0 and 1.  It returns whenever, among
    any [fuel] draws in a row, one has its top bit clear. *)
Theorem X23_generatePassword_meets_the_form :
  forall (draw : nat -> Z) (fuel : nat) (form : PasswordForm) (pos : nat),
    let noAmbig := form_exclude_ambiguous form in
    (minReq form = 0 ->
     generatePassword draw fuel form pos
     = Some (Refused "Set at least one character type.", pos))
    /\ (forall value type pos',
           generatePassword draw fuel form pos
           = Some (Result value type, pos') ->
           type = js "password"
           /\ Z.of_nat (length value)
              = match form_length form with
                | Some len => Z.max len (minReq form)
                | None => minReq form
                end
           /\ Forall (fun u => In u (fill form)) value
           /\ count_of (form_lowercase form)
              <= Z.of_nat (count_in (set_lowercase noAmbig) value)
           /\ count_of (form_uppercase form)
              <= Z.of_nat (count_in (set_uppercase noAmbig) value)
           /\ count_of (form_numbers form)
              <= Z.of_nat (count_in (set_numbers noAmbig) value)
           /\ count_of (form_special form)
              <= Z.of_nat (count_in set_special value)
           /\ (noAmbig = true -> Forall (fun u => ambiguous u = false) value))
    /\ (lively draw fuel ->
        match form_length form with
        | Some len => Z.max len (minReq form)
        | None => minReq form
        end <= 0x100000000 ->
        exists out pos', generatePassword draw fuel form pos = Some (out, pos')).
Proof.
  intros draw fuel form pos noAmbig.
  pose proof (count_of_nonneg (form_lowercase form)) as P1.
  pose proof (count_of_nonneg (form_uppercase form)) as P2.
  pose proof (count_of_nonneg (form_numbers form)) as P3.
  pose proof (count_of_nonneg (form_special form)) as P4.
  destruct (sets_not_empty noAmbig) as (N1 & N2 & N3 & N4).
  destruct (sets_in_fill form) as (I1 & I2 & I3 & I4). fold noAmbig in I1, I2, I3.
  split; [|split].
  - intros H. unfold generatePassword. now rewrite H.
  - intros value type pos' H. unfold generatePassword in H.
    fold noAmbig in H.
    destruct (minReq form =? 0) eqn:Emin; [discriminate|].
    apply Z.eqb_neq in Emin.
    destruct (add draw fuel (set_lowercase noAmbig) _ pos)
      as [[c1 pos1]|] eqn:E1; [|discriminate].
    destruct (add draw fuel (set_uppercase noAmbig) _ pos1)
      as [[c2 pos2]|] eqn:E2; [|discriminate].
    destruct (add draw fuel (set_numbers noAmbig) _ pos2)
      as [[c3 pos3]|] eqn:E3; [|discriminate].
    destruct (add draw fuel set_special _ pos3)
      as [[c4 pos4]|] eqn:E4; [|discriminate].
    destruct (random_chars (secureRandom draw fuel) (fill form) _ pos4)
      as [[c5 pos5]|] eqn:E5; [|discriminate].
    destruct (shuffle draw fuel ((c1 ++ c2 ++ c3 ++ c4) ++ c5) pos5)
      as [[v pos6]|] eqn:E6; [|discriminate].
    inversion H; subst v type pos6. clear H.
    destruct (add_sound draw fuel _ _ pos c1 pos1 N1 P1 E1) as [L1 A1].
    destruct (add_sound draw fuel _ _ pos1 c2 pos2 N2 P2 E2) as [L2 A2].
    destruct (add_sound draw fuel _ _ pos2 c3 pos3 N3 P3 E3) as [L3 A3].
    destruct (add_sound draw fuel _ _ pos3 c4 pos4 N4 P4 E4) as [L4 A4].
    destruct (random_chars_sound (secureRandom draw fuel) (fill form) _ pos4
                c5 pos5 (secureRandom_range draw fuel)
                (fill_not_empty form Emin) E5) as [L5 A5].
    destruct (shuffle_loop_perm (secureRandom draw fuel) _ _ value pos5 pos'
                (secureRandom_pos draw fuel) E6) as [Hperm _].
    assert (Hchars : Z.of_nat (length (c1 ++ c2 ++ c3 ++ c4)) = minReq form).
    { rewrite !length_app. unfold minReq. lia. }
    assert (Hfill : Forall (fun u => In u (fill form))
                      ((c1 ++ c2 ++ c3 ++ c4) ++ c5)).
    { repeat (apply Forall_app; split); try exact A5;
        eauto using added_in_fill. }
    assert (Hcount : forall set,
               count_in set value
               = count_in set ((c1 ++ c2 ++ c3 ++ c4) ++ c5)).
    { intros set. unfold count_in. symmetry.
      now apply Permutation_filter_length. }
    split; [reflexivity|]. split.
    { rewrite <- (Permutation_length Hperm), length_app, L5.
      rewrite Hchars. destruct (form_length form) as [len|]; lia. }
    split; [eapply Permutation_Forall; eassumption|].
    rewrite !Hcount, !count_in_app.
    rewrite (count_in_all _ c1 A1), (count_in_all _ c2 A2),
      (count_in_all _ c3 A3), (count_in_all _ c4 A4).
    repeat (split; [lia|]).
    intros Hno. eapply Permutation_Forall; [exact Hperm|].
    eapply Forall_impl; [|exact Hfill]. intros u Hu.
    apply fill_in_sets in Hu. fold noAmbig in Hu. rewrite Hno in Hu.
    pose proof sets_unambiguous as Hs. rewrite forallb_forall in Hs.
    apply Hs in Hu. now apply negb_true_iff in Hu.
  - intros Hl Hlen. unfold generatePassword. fold noAmbig.
    destruct (minReq form =? 0) eqn:Emin;
      [eexists; eexists; reflexivity|].
    apply Z.eqb_neq in Emin.
    assert (Hsmall : forall set,
               In set [set_lowercase noAmbig; set_uppercase noAmbig;
                       set_numbers noAmbig; set_special] ->
               Z.of_nat (length set) <= 0x100000000).
    { intros set Hset. destruct noAmbig; simpl in Hset;
        repeat (destruct Hset as [<- | Hset]; [vm_compute; discriminate|]);
        contradiction. }
    destruct (add_returns draw fuel (set_lowercase noAmbig)
                (count_of (form_lowercase form)) pos Hl)
      as (c1 & pos1 & E1); [apply Hsmall; simpl; tauto|].
    destruct (add_returns draw fuel (set_uppercase noAmbig)
                (count_of (form_uppercase form)) pos1 Hl)
      as (c2 & pos2 & E2); [apply Hsmall; simpl; tauto|].
    destruct (add_returns draw fuel (set_numbers noAmbig)
                (count_of (form_numbers form)) pos2 Hl)
      as (c3 & pos3 & E3); [apply Hsmall; simpl; tauto|].
    destruct (add_returns draw fuel set_special
                (count_of (form_special form)) pos3 Hl)
      as (c4 & pos4 & E4); [apply Hsmall; simpl; tauto|].
    rewrite E1, E2, E3, E4.
    destruct (add_sound draw fuel _ _ pos c1 pos1 N1 P1 E1) as [L1 _].
    destruct (add_sound draw fuel _ _ pos1 c2 pos2 N2 P2 E2) as [L2 _].
    destruct (add_sound draw fuel _ _ pos2 c3 pos3 N3 P3 E3) as [L3 _].
    destruct (add_sound draw fuel _ _ pos3 c4 pos4 N4 P4 E4) as [L4 _].
    assert (Hchars : Z.of_nat (length (c1 ++ c2 ++ c3 ++ c4)) = minReq form).
    { rewrite !length_app. unfold minReq. lia. }
    match goal with
    | |- context [random_chars ?r ?f ?n pos4] =>
        destruct (random_chars_returns r f n pos4) as (c5 & pos5 & E5)
    end.
    { intros p. apply secureRandom_total; [exact Hl|].
      assert (Hf : (length (fill form) <= 88)%nat).
      { unfold fill. rewrite !length_app.
        destruct (form_exclude_ambiguous form);
          destruct (0 <? count_of (form_lowercase form)),
            (0 <? count_of (form_uppercase form)),
            (0 <? count_of (form_numbers form)),
            (0 <? count_of (form_special form)); vm_compute; lia. }
      lia. }
    rewrite E5.
    destruct (random_chars_sound (secureRandom draw fuel) (fill form) _ pos4
                c5 pos5 (secureRandom_range draw fuel)
                (fill_not_empty form Emin) E5) as [L5 _].
    destruct (shuffle_loop_total (secureRandom draw fuel)
                (length ((c1 ++ c2 ++ c3 ++ c4) ++ c5) - 1)
                ((c1 ++ c2 ++ c3 ++ c4) ++ c5) pos5) as (v & pos6 & E6).
    { intros m p Hm. apply secureRandom_total; [exact Hl|].
      rewrite length_app, L5 in Hm.
      destruct (form_length form) as [len|]; lia. }
    unfold shuffle. rewrite E6. eexists. eexists. reflexivity.
Qed.

(** X23 on a form asking for twelve characters, two of each type, without
    the ambiguous ones. *)
Lemma X23_generatePassword_meets_the_form_witness :
  exists value pos',
    generatePassword (fun n => Z.of_nat (n mod 7)) 1
      (mkForm (Some 12) (Some 2) (Some 2) (Some 2) (Some 2) true) 0
    = Some (Result value (js "password"), pos')
    /\ Z.of_nat (length value) = 12.
Proof.
  destruct (X23_generatePassword_meets_the_form
              (fun n => Z.of_nat (n mod 7)) 1
              (mkForm (Some 12) (Some 2) (Some 2) (Some 2) (Some 2) true) 0)
    as (_ & Hsound & _).
  destruct (generatePassword (fun n => Z.of_nat (n mod 7)) 1
              (mkForm (Some 12) (Some 2) (Some 2) (Some 2) (Some 2) true) 0)
    as [[[message | value type] pos']|] eqn:E;
    try (vm_compute in E; discriminate).
  destruct (Hsound value type pos' eq_refl) as (-> & Hlen & _).
  exists value, pos'. split; [reflexivity | exact Hlen].
Defined.

(* ================================================================== *)
(** * The basic strength estimate *)

(** In a cache that can hold an entry, [get] right after [set] finds
    the value. *)
Lemma lru_get_after_set (K V : Type) (eqb : K -> K -> bool)
    (nullish : K -> bool) (key : K) (value : V) (c : Lru.LRUCache K V) :
  (forall a b, eqb a b = true <-> a = b) ->
  Lru.consistent c ->
  1 <= Lru.capacity c ->
  nullish key = false ->
  fst (Lru.get eqb nullish key (Lru.set eqb key value c)) = Some value.
Proof.
  intros eqb_spec Hc Hcap Hnull.
  pose proof Hc as (Hk & Ho & Hsame & Hlen).
  assert (Hval : Lru.map_get eqb key (Lru.cache (Lru.set eqb key value c))
                 = Some value).
  { rewrite (set_run K V eqb eqb_spec key value c Hc).
    unfold Lru.evicts.
    destruct (Lru.map_has eqb key (Lru.cache c)) eqn:Hhas; cbn [negb andb].
    - cbn [Lru.cache]. rewrite (map_get_map_set K V eqb eqb_spec).
      now rewrite (lru_eqb_refl K eqb eqb_spec).
    - assert (Hfresh : ~ In key (Lru.keyOrder c)).
      { rewrite Hsame. now apply (map_has_not_In K V eqb eqb_spec). }
      destruct (Lru.capacity c <=? Z.of_nat (length (Lru.cache c))) eqn:E;
        cbn [Lru.cache].
      + apply Z.leb_le in E.
        rewrite (map_get_map_delete K V eqb eqb_spec).
        destruct (Lru.keyOrder c) as [|o rest] eqn:Eo.
        * exfalso. destruct (Lru.cache c) as [|p m] eqn:Ec;
            [simpl in E; lia|].
          apply (Hsame (fst p)). now left.
        * cbn [hd]. destruct (eqb key o) eqn:E2.
          -- apply eqb_spec in E2. subst o. exfalso. apply Hfresh. now left.
          -- rewrite (map_get_snoc K V eqb eqb_spec) by exact Hhas.
             now rewrite (lru_eqb_refl K eqb eqb_spec).
      + rewrite (map_get_map_set K V eqb eqb_spec).
        now rewrite (lru_eqb_refl K eqb eqb_spec). }
  rewrite (get_run K V eqb eqb_spec nullish), Hnull. cbn [orb].
  destruct (Lru.map_has eqb key (Lru.cache (Lru.set eqb key value c)))
    eqn:Hhas; [exact Hval|].
  rewrite (map_get_absent K V eqb key _ Hhas) in Hval. discriminate.
Qed.

(** X24. The basic strength estimate of the first application.  The
    score is a multiple of 20 from 0 to 100: 20 for twelve characters, 20
    more for sixteen, 20 for both a lowercase and an uppercase letter, 20
    for a digit, 20 for a character that is neither letter nor digit; so
    it is 100 exactly when all five hold.  The label is "Very Weak"
    exactly for the score 0 and "Very Strong" exactly from 80 on.
    Adding characters never lowers the score.  The result goes into the
    cache under the password, where the next look-up finds it. *)
Theorem X24_basic_strength_estimate :
  forall (password : jsstring) (cache : StrengthCache),
    let info := fst (calculateBasicStrength password cache) in
    score info = basic_score password
    /\ In (score info) [0; 20; 40; 60; 80; 100]
    /\ (score info = 100 <->
        16 <= Z.of_nat (length password)
        /\ test_class [Range 97 122] password = true
        /\ test_class [Range 65 90] password = true
        /\ test_class [Range 48 57] password = true
        /\ test_not_class [Range 97 122; Range 65 90; Range 48 57] password
           = true)
    /\ (label info = "Very Weak"%string <-> score info = 0)
    /\ (label info = "Very Strong"%string <-> 80 <= score info)
    /\ (forall more, basic_score password <= basic_score (password ++ more))
    /\ (Lru.consistent cache -> 1 <= Lru.capacity cache ->
        fst (cached_strength password
               (snd (calculateBasicStrength password cache)))
        = Some info).
Proof.
  intros password cache info. unfold info. cbn [calculateBasicStrength fst snd score label].
  split; [reflexivity|].
  assert (Hscore : In (basic_score password) [0; 20; 40; 60; 80; 100]).
  { unfold basic_score.
    destruct (12 <=? Z.of_nat (length password)) eqn:E12;
      destruct (16 <=? Z.of_nat (length password)) eqn:E16;
      destruct (test_class [Range 97 122] password
                && test_class [Range 65 90] password);
      destruct (test_class [Range 48 57] password);
      destruct (test_not_class [Range 97 122; Range 65 90; Range 48 57]
                  password);
      try (apply Z.leb_le in E16; apply Z.leb_gt in E12; lia);
      simpl; tauto. }
  split; [exact Hscore|]. split; [|split; [|split; [|split]]].
  - unfold basic_score.
    destruct (12 <=? Z.of_nat (length password)) eqn:E12;
      destruct (16 <=? Z.of_nat (length password)) eqn:E16;
      destruct (test_class [Range 97 122] password);
      destruct (test_class [Range 65 90] password);
      destruct (test_class [Range 48 57] password);
      destruct (test_not_class [Range 97 122; Range 65 90; Range 48 57]
                  password);
      cbn [andb];
      try apply Z.leb_le in E12; try apply Z.leb_gt in E12;
      try apply Z.leb_le in E16; try apply Z.leb_gt in E16;
      split; intros H; try lia; try (repeat split; (lia || reflexivity));
      destruct H as (? & ? & ? & ? & ?); try discriminate; try lia.
  - unfold strength_label.
    simpl in Hscore.
    destruct Hscore as [<- | [<- | [<- | [<- | [<- | [<- | []]]]]]];
      simpl; split; intros H; (discriminate || reflexivity || lia).
  - unfold strength_label.
    simpl in Hscore.
    destruct Hscore as [<- | [<- | [<- | [<- | [<- | [<- | []]]]]]];
      simpl; split; intros H; (discriminate || reflexivity || lia).
  - intros more. unfold basic_score, test_class, test_not_class.
    rewrite !existsb_app, length_app, Nat2Z.inj_add.
    destruct (existsb (class_has [Range 97 122]) password);
      destruct (existsb (class_has [Range 65 90]) password);
      destruct (existsb (class_has [Range 48 57]) password);
      destruct (existsb
                  (fun u => negb (class_has [Range 97 122; Range 65 90;
                                             Range 48 57] u)) password);
      cbn [orb andb];
      repeat match goal with
             | |- context [if ?b then _ else _] => destruct b eqn:?
             end;
      repeat match goal with
             | H : (_ <=? _) = true |- _ => apply Z.leb_le in H
             | H : (_ <=? _) = false |- _ => apply Z.leb_gt in H
             end;
      lia.
  - intros Hc Hcap. unfold cached_strength.
    now apply (lru_get_after_set jsstring StrengthInfo js_eqb
                 (fun _ => false) password _ cache js_eqb_eq).
Qed.

(** X24 on a generated password of sixteen characters. *)
Lemma X24_basic_strength_estimate_witness :
  fst (cached_strength (js "x7!Qp2#Lm9$Rt4&Z")
         (snd (calculateBasicStrength (js "x7!Qp2#Lm9$Rt4&Z") strengthCache)))
  = Some (mkStrength 100 "Very Strong" "Estimation unavailable" "Unknown" []).
Proof.
  destruct (X24_basic_strength_estimate (js "x7!Qp2#Lm9$Rt4&Z") strengthCache)
    as (_ & _ & _ & _ & _ & _ & H).
  rewrite H; [reflexivity | apply consistent_new | vm_compute; discriminate].
Defined.

(** X25. The earlier copy of the basic estimate.  Its score counts the
    five criteria, so it is a twentieth of the later score and lies
    between 0 and 5; but its table has five levels, for 0 to 4, and
    a score off the table falls back to the first: a password that
    meets all five criteria is shown as "Very Weak" at 25 percent, where
    the later version says "Very Strong".  "Very Strong" is shown
    exactly for the score 4. *)
Theorem X25_earlier_estimate_falls_off_its_table :
  forall (password : jsstring) (cache : Lru.LRUCache jsstring Earlier.Cached),
    let points := Earlier.basic_points password in
    let shown := fst (Earlier.calculateBasicStrength password cache) in
    0 <= points <= 5
    /\ basic_score password = 20 * points
    /\ shown = Earlier.level_of points
    /\ (Earlier.level_label shown = "Very Strong"%string <-> points = 4)
    /\ (points = 5 ->
        shown = Earlier.mkLevel "strength-very-weak" 25 "Very Weak"
        /\ strength_label (basic_score password) = "Very Strong"%string)
    /\ (points = 5 <->
        16 <= Z.of_nat (length password)
        /\ test_class [Range 97 122] password = true
        /\ test_class [Range 65 90] password = true
        /\ test_class [Range 48 57] password = true
        /\ test_not_class [Range 97 122; Range 65 90; Range 48 57] password
           = true).
Proof.
  intros password cache points shown. unfold shown, points.
  cbn [Earlier.calculateBasicStrength fst].
  assert (Hlink : basic_score password = 20 * Earlier.basic_points password).
  { unfold basic_score, Earlier.basic_points.
    destruct (12 <=? Z.of_nat (length password));
      destruct (16 <=? Z.of_nat (length password));
      destruct (test_class [Range 97 122] password
                && test_class [Range 65 90] password);
      destruct (test_class [Range 48 57] password);
      destruct (test_not_class [Range 97 122; Range 65 90; Range 48 57]
                  password); reflexivity. }
  assert (Hrange : 0 <= Earlier.basic_points password <= 5).
  { unfold Earlier.basic_points.
    destruct (12 <=? Z.of_nat (length password));
      destruct (16 <=? Z.of_nat (length password));
      destruct (test_class [Range 97 122] password
                && test_class [Range 65 90] password);
      destruct (test_class [Range 48 57] password);
      destruct (test_not_class [Range 97 122; Range 65 90; Range 48 57]
                  password); lia. }
  split; [exact Hrange|]. split; [exact Hlink|]. split; [reflexivity|].
  split; [|split].
  - assert (Hcases : Earlier.basic_points password = 0
                     \/ Earlier.basic_points password = 1
                     \/ Earlier.basic_points password = 2
                     \/ Earlier.basic_points password = 3
                     \/ Earlier.basic_points password = 4
                     \/ Earlier.basic_points password = 5) by lia.
    destruct Hcases as [-> | [-> | [-> | [-> | [-> | ->]]]]];
      simpl; split; intros H; (discriminate || reflexivity || lia).
  - intros H5. rewrite Hlink, H5. split; reflexivity.
  - unfold Earlier.basic_points.
    destruct (12 <=? Z.of_nat (length password)) eqn:E12;
      destruct (16 <=? Z.of_nat (length password)) eqn:E16;
      destruct (test_class [Range 97 122] password);
      destruct (test_class [Range 65 90] password);
      destruct (test_class [Range 48 57] password);
      destruct (test_not_class [Range 97 122; Range 65 90; Range 48 57]
                  password);
      cbn [andb];
      try apply Z.leb_le in E12; try apply Z.leb_gt in E12;
      try apply Z.leb_le in E16; try apply Z.leb_gt in E16;
      split; intros H; try lia; try (repeat split; (lia || reflexivity));
      destruct H as (? & ? & ? & ? & ?); try discriminate; try lia.
Qed.

(** X25 on a generated password of sixteen characters. *)
Lemma X25_earlier_estimate_falls_off_its_table_witness :
  Earlier.level_label
    (fst (Earlier.calculateBasicStrength (js "x7!Qp2#Lm9$Rt4&Z")
            (Lru.new Earlier.Cached 10)))
  = "Very Weak"%string.
Proof.
  destruct (X25_earlier_estimate_falls_off_its_table (js "x7!Qp2#Lm9$Rt4&Z")
              (Lru.new Earlier.Cached 10)) as (_ & _ & _ & _ & H & _).
  destruct (H eq_refl) as [-> _]. reflexivity.
Defined.

(* ================================================================== *)
(** * What overlapping calls keep *)

Section Keeps.

Variable I : World -> Prop.

Lemma keeps_sync {A : Type} (Q : A -> Prop) (m : M A) :
  (forall w, I w -> I (snd (m w))) ->
  (forall w a, I w -> fst (m w) = Ok a -> Q a) ->
  keeps I Q (sync m).
Proof.
  intros HI HQ w Hw. unfold sync. specialize (HI w Hw).
  specialize (HQ w). destruct (m w) as [[a | e] w1]; simpl in *.
  - split; [exact HI|]. constructor. now apply HQ.
  - split; [exact HI|]. constructor.
Qed.

Lemma keeps_promised {A : Type} (Q : A -> Prop) (m : M A) :
  (forall w, I w -> I (snd (m w))) ->
  (forall w a, I w -> fst (m w) = Ok a -> Q a) ->
  keeps I Q (promised m).
Proof.
  intros HI HQ w Hw. unfold promised. simpl. split; [exact Hw|].
  constructor; intros w1 Hw1.
  - specialize (HI w1 Hw1). now destruct (m w1).
  - specialize (HQ w1). destruct (m w1) as [[a | e] w2]; simpl in *.
    + constructor. now apply HQ.
    + constructor.
Qed.

Lemma respects_on_settled {A B : Type} (Q : A -> Prop) (Q' : B -> Prop)
    (t : Task A) (k : Res A -> Async B) :
  respects I Q t ->
  (forall a, Q a -> keeps I Q' (k (Ok a))) ->
  (forall e, keeps I Q' (k (Throw e))) ->
  forall w, I w ->
    I (snd (on_settled t k w)) /\ respects I Q' (fst (on_settled t k w)).
Proof.
  intros Ht Hok Hthrow.
  induction Ht as [a Ha | e | piece Hstate Hrest IH]; intros w Hw.
  - now apply Hok.
  - now apply Hthrow.
  - cbn [on_settled fst snd]. split; [exact Hw|].
    constructor; intros w1 Hw1.
    + specialize (IH w1 Hw1). specialize (Hstate w1 Hw1).
      destruct (piece w1) as [t' w2]. now apply IH.
    + specialize (IH w1 Hw1). specialize (Hstate w1 Hw1).
      destruct (piece w1) as [t' w2]. now apply IH.
Qed.

Lemma keeps_settled_then {A B : Type} (Q : A -> Prop) (Q' : B -> Prop)
    (m : Async A) (k : Res A -> Async B) :
  keeps I Q m ->
  (forall a, Q a -> keeps I Q' (k (Ok a))) ->
  (forall e, keeps I Q' (k (Throw e))) ->
  keeps I Q' (settled_then m k).
Proof.
  intros Hm Hok Hthrow w Hw. unfold settled_then.
  destruct (Hm w Hw) as [Hw1 Ht]. destruct (m w) as [t w1].
  now apply (respects_on_settled Q Q').
Qed.

Lemma keeps_throw {A : Type} (Q : A -> Prop) (e : JsError) :
  keeps I Q (sync (throw e)).
Proof. apply keeps_sync; [now intros w Hw | discriminate]. Qed.

Lemma keeps_ret {A : Type} (Q : A -> Prop) (a : A) :
  Q a -> keeps I Q (sync (ret a)).
Proof.
  intros Ha. apply keeps_sync; [now intros w Hw|].
  intros w a0 _ E. inversion E. now subst.
Qed.

Lemma keeps_abind {A B : Type} (Q : A -> Prop) (Q' : B -> Prop)
    (m : Async A) (k : A -> Async B) :
  keeps I Q m -> (forall a, Q a -> keeps I Q' (k a)) ->
  keeps I Q' (abind m k).
Proof.
  intros Hm Hk. apply (keeps_settled_then Q Q'); [exact Hm | exact Hk |].
  intros e. apply keeps_throw.
Qed.

Lemma keeps_atry {A : Type} (Q : A -> Prop) (m : Async A)
    (h : JsError -> Async A) :
  keeps I Q m -> (forall e, keeps I Q (h e)) -> keeps I Q (atry m h).
Proof.
  intros Hm Hh. apply (keeps_settled_then Q Q); [exact Hm | | exact Hh].
  intros a Ha. now apply keeps_ret.
Qed.

Lemma keeps_await {A : Type} (Q : A -> Prop) (m : Async A) :
  keeps I Q m -> keeps I Q (await m).
Proof.
  intros Hm. apply (keeps_settled_then Q Q); [exact Hm | |].
  - intros a Ha w Hw. unfold resumes_with. simpl. split; [exact Hw|].
    constructor; intros w1 Hw1; [exact Hw1 | now constructor].
  - intros e w Hw. unfold resumes_with. simpl. split; [exact Hw|].
    constructor; intros w1 Hw1; [exact Hw1 | constructor].
Qed.

Lemma respects_weaken {A : Type} (Q Q' : A -> Prop) (t : Task A) :
  (forall a, Q a -> Q' a) -> respects I Q t -> respects I Q' t.
Proof.
  intros HQ Ht. induction Ht as [a Ha | e | piece Hstate Hrest IH].
  - constructor. now apply HQ.
  - constructor.
  - now constructor.
Qed.

Lemma keeps_weaken {A : Type} (Q Q' : A -> Prop) (m : Async A) :
  (forall a, Q a -> Q' a) -> keeps I Q m -> keeps I Q' m.
Proof.
  intros HQ Hm w Hw. destruct (Hm w Hw) as [H1 H2].
  split; [exact H1 | now apply (respects_weaken Q)].
Qed.

(** Resuming one of several calls that keep to [I]. *)
Lemma resume_respects {A : Type} (Q : A -> Prop) (i : nat)
    (calls : list (Task A)) (w : World) :
  I w -> Forall (respects I Q) calls ->
  I (snd (resume i calls w))
  /\ Forall (respects I Q) (fst (resume i calls w)).
Proof.
  intros Hw Hall. revert i.
  induction Hall as [|t rest Ht Hrest IH]; intros i.
  - now split.
  - destruct i as [|i]; cbn [resume].
    + destruct Ht as [a Ha | e | piece Hstate Hnext].
      * split; [exact Hw|]. constructor; [now constructor | exact Hrest].
      * split; [exact Hw|]. constructor; [constructor | exact Hrest].
      * specialize (Hstate w Hw). specialize (Hnext w Hw).
        destruct (piece w) as [t' w']. simpl in *.
        split; [exact Hstate|]. now constructor.
    + specialize (IH i). destruct (resume i rest w) as [rest' w'].
      simpl in *. destruct IH as [H1 H2]. split; [exact H1|].
      now constructor.
Qed.

(** Whatever the order in which requests are made and resumed, the page
    stays in [I] if every request keeps to it. *)
Lemma play_keeps (pf : Platform) (events : list Event) (s : Loop) :
  (forall q, keeps I (fun _ => True) (request pf q)) ->
  I (snd s) -> Forall (respects I (fun _ => True)) (fst s) ->
  I (snd (play pf events s))
  /\ Forall (respects I (fun _ => True)) (fst (play pf events s)).
Proof.
  intros Hq. revert s. induction events as [|ev events IH]; intros s Hw Hall.
  - now split.
  - cbn [play fold_left]. apply IH.
    + destruct ev as [q | i]; cbn [react].
      * destruct (Hq q (snd s) Hw) as [H1 _].
        now destruct (request pf q (snd s)).
      * now apply (resume_respects (fun _ => True)).
    + destruct ev as [q | i]; cbn [react].
      * destruct (Hq q (snd s) Hw) as [_ H2].
        destruct (request pf q (snd s)) as [t w']. simpl in *.
        apply Forall_app. split; [exact Hall | now constructor].
      * now apply (resume_respects (fun _ => True)).
Qed.

End Keeps.
(** Splits an [async] function along its binds, handlers, waits and
    case analyses; [leaf] closes the pieces. *)
Ltac keeps_along leaf :=
  repeat first
    [ solve [leaf]
    | apply keeps_await
    | eapply keeps_abind; [| intros ? ?]
    | apply keeps_atry; [| intros ?]
    | match goal with
      | |- keeps _ _ (match ?x with _ => _ end) => destruct x
      | |- keeps _ _ (if ?x then _ else _) => destruct x
      | |- keeps _ _ (let '(_, _) := ?x in _) => destruct x
      end ].

Lemma vault_kept_refl (w : World) : vault_kept w w.
Proof.
  split; [|apply meta_kept_refl].
  intros H. split; [exact H | apply ids_not_reused_refl].
Qed.

Lemma vault_kept_trans (a b c : World) :
  vault_kept a b -> vault_kept b c -> vault_kept a c.
Proof.
  intros [H1 M1] [H2 M2]. split.
  - intros Ha. destruct (H1 Ha) as [Hb I1]. destruct (H2 Hb) as [Hc I2].
    split; [exact Hc | now apply (ids_not_reused_trans a b c)].
  - now apply (meta_kept_trans a b c).
Qed.

Lemma vault_kept_quiet (w w' : World) : quiet w w' -> vault_kept w w'.
Proof.
  intros [Hdb Hkey]. split.
  - intros Hok. split.
    + unfold world_ok in *. now rewrite Hdb, Hkey.
    + unfold ids_not_reused, next_id, rows. rewrite Hdb. split; [lia | tauto].
  - intros _. unfold master_rows. now rewrite Hdb.
Qed.

(** A write to the [history] store that keeps it in key order, hands
    out no old identifier and brings no row under one. *)
Lemma vault_kept_history (w : World) (d : Database) (l : list Entry) (g : Z) :
  db w = Some d ->
  (ids_between 1 (history d) (keygen d) = true ->
   ids_between 1 l g = true
   /\ keygen d <= g
   /\ forall e, In e l -> e_id e < keygen d -> In e (history d)) ->
  vault_kept w (set_db (Some (mkDatabase (meta d) l g)) w).
Proof.
  intros Hdb H. split.
  - intros Hok. destruct (world_ok_elim w Hok) as (d0 & Hdb0 & Hids & Hc).
    assert (d0 = d) by congruence. subst d0.
    destruct (H Hids) as (Hl & Hg & Hold). split.
    + now apply (world_ok_intro _ (mkDatabase (meta d) l g)).
    + unfold ids_not_reused, next_id, rows. simpl. now rewrite Hdb.
  - intros _. unfold master_rows. simpl. now rewrite Hdb.
Qed.

Section VaultKept.

Variable pf : Platform.

Ltac kept_known :=
  first
    [ intros ?; apply vault_kept_quiet; split; reflexivity
    | apply steps_modify; intros ?; apply vault_kept_quiet; split; reflexivity ].

Ltac kept_split known :=
  steps_split ltac:(first [known | kept_known]) vault_kept_refl vault_kept_trans.

Lemma vault_kept_subtle_importKey (data : bytes) (name : AlgName)
    (extractable : bool) (usages : list KeyUsage) :
  steps vault_kept (subtle_importKey data name extractable usages).
Proof.
  unfold subtle_importKey. destruct name.
  - kept_split fail.
  - destruct (negb _); [kept_split fail|].
    destruct (negb _); [kept_split fail|].
    destruct usages; kept_split fail.
Qed.

Lemma vault_kept_subtle_deriveKey (params : Pbkdf2Params) (raw : CryptoKey)
    (derived : DerivedKeyParams) (extractable : bool)
    (usages : list KeyUsage) :
  steps vault_kept (subtle_deriveKey pf params raw derived extractable usages).
Proof. unfold subtle_deriveKey. kept_split fail. Qed.

Lemma vault_kept_subtle_encrypt (iv data : bytes) (k : CryptoKey) :
  steps vault_kept (subtle_encrypt pf iv k data).
Proof. unfold subtle_encrypt. kept_split fail. Qed.

Lemma vault_kept_subtle_decrypt (iv data : bytes) (k : CryptoKey) :
  steps vault_kept (subtle_decrypt pf iv k data).
Proof. unfold subtle_decrypt. kept_split fail. Qed.

Lemma vault_kept_getCachedKey : steps vault_kept (getCachedKey pf).
Proof. unfold getCachedKey. kept_split fail. Qed.

Lemma vault_kept_toast (msg : string) (ok : bool) :
  steps vault_kept (toast msg ok).
Proof. unfold toast. kept_split fail. Qed.

Lemma vault_kept_getMasterRecord : steps vault_kept getMasterRecord.
Proof. unfold getMasterRecord. kept_split fail. Qed.

(** Caching a cipher key. *)
Lemma vault_kept_setCachedKey (k : CryptoKey) :
  valid_key k = true -> steps vault_kept (setCachedKey pf k).
Proof.
  intros Hk w. unfold setCachedKey, bind, Date_now, modify. simpl. split.
  - intros Hok. split.
    + unfold world_ok in *. simpl. rewrite Hk.
      apply andb_true_iff in Hok as [Hd _]. now rewrite Hd.
    + unfold ids_not_reused, next_id, rows. simpl. split; [lia | tauto].
  - now apply meta_kept_same.
Qed.

Lemma vault_kept_clearKeyCache : steps vault_kept clearKeyCache.
Proof.
  intros w. unfold clearKeyCache, modify. simpl. split.
  - intros Hok. split; [now apply world_ok_set_cache_none|].
    unfold ids_not_reused, next_id, rows. simpl. split; [lia | tauto].
  - now apply meta_kept_same.
Qed.

Lemma vault_kept_delete_history (id : Z) :
  steps vault_kept (delete_history id).
Proof.
  unfold delete_history. apply steps_commit; [apply vault_kept_refl|].
  intros w d Hdb. apply vault_kept_history; [exact Hdb|].
  intros Hids. split; [now apply ids_between_delete|]. split; [lia|].
  intros e He _. unfold history_delete in He. now apply filter_In in He.
Qed.

Lemma vault_kept_add_history (type : jsstring) (iv data : bytes)
    (timestamp : Z) :
  steps vault_kept (add_history type iv data timestamp).
Proof.
  unfold add_history. apply steps_commit; [apply vault_kept_refl|].
  intros w d Hdb. apply vault_kept_history; [exact Hdb|].
  intros Hids. split; [|split; [lia|]].
  - now apply (ids_between_snoc 1 (history d)
                 (mkEntry (keygen d) type iv data timestamp)).
  - intros e He Hlt. apply in_app_or in He as [He | [He | []]];
      [exact He|]. subst e. simpl in Hlt. lia.
Qed.

(** Writing the master record where the vault had none in [w0]. *)
Lemma vault_kept_put_meta (w0 w : World) (r : MasterRecord) :
  ~ (exists r0, meta_get 1 (master_rows w0) = Some r0) ->
  vault_kept w0 w -> vault_kept w0 (snd (put_meta r w)).
Proof.
  intros Hnone [Hok _]. split; [|intros Hsome; now contradiction Hnone].
  intros Hok0. destruct (Hok Hok0) as [Hw Hids].
  destruct (world_ok_elim w Hw) as (d & Hdb & Hrows & Hc).
  unfold put_meta, commit, bind, transaction, modify. rewrite Hdb. simpl.
  split.
  - now apply (world_ok_intro _
                 (mkDatabase (meta_put r (meta d)) (history d) (keygen d))).
  - unfold ids_not_reused, next_id, rows in *. simpl. now rewrite Hdb in Hids.
Qed.

Variable w0 : World.

Lemma keeps_steps_sync {A : Type} (m : M A) :
  steps vault_kept m -> keeps (vault_kept w0) (fun _ => True) (sync m).
Proof.
  intros H. apply keeps_sync; [|trivial].
  intros w Hw. eapply vault_kept_trans; [exact Hw | apply H].
Qed.

Lemma keeps_steps_promised {A : Type} (m : M A) :
  steps vault_kept m -> keeps (vault_kept w0) (fun _ => True) (promised m).
Proof.
  intros H. apply keeps_promised; [|trivial].
  intros w Hw. eapply vault_kept_trans; [exact Hw | apply H].
Qed.

Ltac keeps_leaf known :=
  first
    [ known
    | apply keeps_steps_sync; kept_split known
    | apply keeps_steps_promised; kept_split known ].

Ltac keeps_split known := keeps_along ltac:(keeps_leaf known).

Ltac prims :=
  first
    [ apply vault_kept_subtle_importKey
    | apply vault_kept_subtle_deriveKey
    | apply vault_kept_subtle_encrypt
    | apply vault_kept_subtle_decrypt
    | apply vault_kept_getCachedKey
    | apply vault_kept_toast
    | apply vault_kept_getMasterRecord
    | apply vault_kept_clearKeyCache
    | apply vault_kept_delete_history
    | apply vault_kept_add_history ].

(** The key [deriveKey] returns is a cipher key. *)
Lemma keeps_deriveKey (p : jsstring) (salt : bytes) :
  keeps (vault_kept w0) (fun k => valid_key k = true)
    (Async.deriveKey pf p salt).
Proof.
  unfold Async.deriveKey.
  eapply keeps_abind; [keeps_split prims|]. intros raw _.
  apply keeps_promised.
  - intros w Hw. eapply vault_kept_trans; [exact Hw|].
    apply vault_kept_subtle_deriveKey.
  - intros w k _. unfold subtle_deriveKey. simpl.
    repeat match goal with
           | |- context [if ?c then _ else _] => destruct c
           end; simpl; intros E; inversion E; reflexivity.
Qed.

Lemma keeps_aesEncrypt (s : jsstring) (k : CryptoKey) :
  keeps (vault_kept w0) (fun _ => True) (Async.aesEncrypt pf s k).
Proof. unfold Async.aesEncrypt. keeps_split prims. Qed.

Lemma keeps_aesDecrypt (iv data : bytes) (k : CryptoKey) :
  keeps (vault_kept w0) (fun _ => True) (Async.aesDecrypt pf iv data k).
Proof. unfold Async.aesDecrypt. keeps_split prims. Qed.

(** While the vault keeps the master record it had in [w0], that record
    is what [getMasterRecord] finds. *)
Lemma keeps_getMasterRecord :
  keeps (vault_kept w0) (record_of w0) Async.getMasterRecord.
Proof.
  unfold Async.getMasterRecord. apply keeps_promised.
  - intros w Hw. eapply vault_kept_trans; [exact Hw|].
    apply vault_kept_getMasterRecord.
  - intros w rec [_ Hmeta] E Hsome. specialize (Hmeta Hsome).
    destruct Hsome as [r Hr]. rewrite <- Hmeta in Hr.
    unfold getMasterRecord, bind, transaction, master_rows in *.
    destruct (db w) as [d|]; [|discriminate].
    simpl in E. inversion E. congruence.
Qed.

Lemma keeps_deriveAndVerify (p : jsstring) :
  keeps (vault_kept w0) (fun k => valid_key k = true)
    (Async.deriveAndVerify pf p).
Proof.
  unfold Async.deriveAndVerify.
  eapply keeps_abind; [apply keeps_await, keeps_getMasterRecord|].
  intros [record|] Hrec.
  - eapply keeps_abind; [apply keeps_await, keeps_deriveKey|].
    intros key Hkey. apply keeps_atry.
    + eapply keeps_abind; [apply keeps_await, keeps_aesDecrypt|].
      intros plain _. destruct (negb _).
      * apply keeps_throw.
      * now apply keeps_ret.
    + intros e. apply keeps_throw.
  - assert (Hnone : ~ (exists r0, meta_get 1 (master_rows w0) = Some r0)).
    { intros Hsome. now apply (Hrec Hsome). }
    eapply keeps_abind; [keeps_split prims|]. intros salt _.
    eapply keeps_abind; [apply keeps_await, keeps_deriveKey|].
    intros key Hkey.
    eapply keeps_abind; [apply keeps_await, keeps_aesEncrypt|].
    intros [iv data] _.
    eapply (keeps_abind _ (fun _ => True)).
    { apply keeps_await, keeps_promised; [|trivial].
      intros w Hw. now apply vault_kept_put_meta. }
    intros _ _.
    eapply keeps_abind; [keeps_split prims|]. intros _ _.
    now apply keeps_ret.
Qed.

Lemma keeps_onPassphrase (r : PromptReply) :
  keeps (vault_kept w0) (fun _ => True) (Async.onPassphrase pf r).
Proof.
  unfold Async.onPassphrase.
  destruct (reply_passphrase r) as [p|]; [|keeps_split prims].
  destruct (js_falsy p); [keeps_split prims|].
  apply keeps_atry.
  - eapply keeps_abind; [apply keeps_await, keeps_deriveAndVerify|].
    intros key Hkey.
    eapply keeps_abind; [|intros; keeps_split prims].
    destruct (reply_remember r); [|keeps_split prims].
    apply keeps_steps_sync. now apply vault_kept_setCachedKey.
  - intros e. apply keeps_steps_sync.
    destruct (String.eqb _ _); kept_split prims.
Qed.

Lemma keeps_getMasterKey (r : PromptReply) :
  keeps (vault_kept w0) (fun _ => True) (Async.getMasterKey pf r).
Proof.
  unfold Async.getMasterKey, Async.showPassphraseModal.
  keeps_split ltac:(first [prims | apply keeps_onPassphrase]).
Qed.

Lemma keeps_enforceLimit :
  keeps (vault_kept w0) (fun _ => True) Async.enforceLimit.
Proof. unfold Async.enforceLimit. keeps_split prims. Qed.

(** Every request keeps the vault, whatever runs between its pieces. *)
Lemma keeps_request (q : Request) :
  keeps (vault_kept w0) (fun _ => True) (request pf q).
Proof.
  destruct q as [value type r | id r | id r];
    unfold request, Async.addToHistory, Async.viewItem, Async.deleteItem.
  all: keeps_split
         ltac:(first [prims | apply keeps_getMasterKey
                     | apply keeps_enforceLimit | apply keeps_aesEncrypt
                     | apply keeps_aesDecrypt]).
Qed.

End VaultKept.

(** From a page on which no call is waiting, any sequence of requests
    and resumptions keeps the vault. *)
Lemma play_vault_kept (pf : Platform) (events : list Event) (w : World) :
  vault_kept w (snd (play pf events ([], w))).
Proof.
  apply (play_keeps (vault_kept w) pf events ([], w)).
  - intros q. apply keeps_request.
  - apply vault_kept_refl.
  - constructor.
Qed.
(* ================================================================== *)
(** * Key derivations of requests that overlap *)

Section KdfOverlap.

Variable pf : Platform.
Variable w0 : World.

Lemma keeps_kdf_sync {A : Type} (m : M A) :
  steps kdf_grows m -> keeps (kdf_grows w0) (fun _ => True) (sync m).
Proof.
  intros H. apply keeps_sync; [|trivial].
  intros w Hw. eapply kdf_grows_trans; [exact Hw | apply H].
Qed.

Lemma keeps_kdf_promised {A : Type} (m : M A) :
  steps kdf_grows m -> keeps (kdf_grows w0) (fun _ => True) (promised m).
Proof.
  intros H. apply keeps_promised; [|trivial].
  intros w Hw. eapply kdf_grows_trans; [exact Hw | apply H].
Qed.

(** The derivation [deriveKey] asks the platform for. *)
Lemma kdf_grows_vault_derivation (salt : bytes) (raw : CryptoKey) :
  steps kdf_grows
    (subtle_deriveKey pf (mkPbkdf2 salt PBKDF2_ITERS SHA_512) raw
       (mkDerived AES_GCM 256) false [UseEncrypt; UseDecrypt]).
Proof.
  intros w. unfold subtle_deriveKey. simpl.
  repeat match goal with
         | |- context [if ?c then _ else _] => destruct c
         end; simpl; try apply kdf_grows_refl.
  exists [vault_kdf_call salt]. split; [reflexivity|].
  constructor; [apply strong_vault_kdf_call | constructor].
Qed.

Ltac kdf_piece :=
  first
    [ apply kdf_grows_vault_derivation
    | apply kdf_grows_subtle_encrypt
    | intros ?; apply kdf_grows_same; reflexivity
    | apply steps_modify; intros ?; apply kdf_grows_same; reflexivity
    | apply steps_commit; [apply kdf_grows_refl |];
      intros; apply kdf_grows_same; reflexivity ].

Ltac kdf_leaf :=
  first
    [ apply keeps_kdf_sync | apply keeps_kdf_promised ];
  unfold subtle_importKey, subtle_decrypt, getMasterRecord, put_meta,
    setCachedKey, getCachedKey, clearKeyCache, toast, add_history,
    delete_history;
  steps_split kdf_piece kdf_grows_refl kdf_grows_trans.

(** Every request runs strong derivations only, whatever runs between
    its pieces. *)
Lemma keeps_kdf_request (q : Request) :
  keeps (kdf_grows w0) (fun _ => True) (request pf q).
Proof.
  destruct q as [value type r | id r | id r];
    unfold request, Async.addToHistory, Async.viewItem, Async.deleteItem,
      Async.getMasterKey, Async.showPassphraseModal, Async.onPassphrase,
      Async.deriveAndVerify, Async.getMasterRecord, Async.enforceLimit,
      Async.deriveKey, Async.aesEncrypt, Async.aesDecrypt.
  all: keeps_along kdf_leaf.
Qed.

End KdfOverlap.

(** X26. Key derivations of requests that overlap.  Saves, views and
    deletions made from a page on which no call is waiting, and resumed
    in any order, only ever add to the log of derivations, and each
    derivation they add is PBKDF2 with 250,000 iterations of SHA-512
    for a 256-bit AES-GCM key. *)
Theorem X26_overlapping_requests_derive_strongly :
  forall (pf : Platform) (events : list Event) (w : World),
    kdf_grows w (snd (play pf events ([], w)))
    /\ Forall strong_kdf (new_kdf_calls w (snd (play pf events ([], w)))).
Proof.
  intros pf events w.
  assert (H : kdf_grows w (snd (play pf events ([], w)))).
  { apply (play_keeps (kdf_grows w) pf events ([], w)).
    - intros q. apply keeps_kdf_request.
    - apply kdf_grows_refl.
    - constructor. }
  split; [exact H | now apply new_kdf_calls_grows].
Qed.
(* ================================================================== *)
(** * The master record, first use and after *)

(** C3. Without a master record, and with no other call running while it
    waits, [deriveAndVerify] draws a fresh 32-octet salt and then a
    fresh 12-octet nonce from the random source, derives the key from
    the passphrase and that salt, seals the marker under the nonce,
    stores salt, nonce and ciphertext as the row of key 1 of the [meta]
    store, and returns the key.  From then on the row is there: whatever
    requests are made after the call has settled, and however they
    overlap, none of them writes the [meta] store again, nor does a
    later [deriveAndVerify]. *)
Theorem C3_first_use_creates_master_record :
  forall (pf : Platform) (passphrase : jsstring) (w : World) (d : Database),
    db w = Some d ->
    meta_get 1 (meta d) = None ->
    let salt := next_random pf 32 w in
    let key := derived_key pf passphrase salt in
    let iv := next_random pf 12 (set_drawn (drawn w + 32) w) in
    let data :=
      gcm_encrypt pf (key_material key) iv (Encoding.encode VERIFY_PLAIN) in
    let record := mkMaster 1 salt iv data in
    let w' := snd (alone (Async.deriveAndVerify pf passphrase) w) in
    fst (alone (Async.deriveAndVerify pf passphrase) w) = Ok key
    /\ length salt = 32%nat /\ (16 <= length salt)%nat
    /\ length iv = 12%nat
    /\ drawn w' = (drawn w + 32 + 12)%nat
    /\ new_kdf_calls w w' = [vault_kdf_call salt]
    /\ master_rows w' = meta_put record (meta d)
    /\ meta_get 1 (master_rows w') = Some record
    /\ (meta d = [] -> master_rows w' = [record])
    /\ rows w' = rows w
    /\ (forall events,
           master_rows (snd (play pf events ([], w'))) = master_rows w')
    /\ (forall events p,
           master_rows
             (snd (alone (Async.deriveAndVerify pf p)
                     (snd (play pf events ([], w')))))
           = master_rows w').
Proof.
  intros pf passphrase w d Hdb Hrec salt key iv data record w'.
  pose proof (deriveAndVerify_uninitialized pf passphrase w d Hdb Hrec)
    as Hrun.
  cbv zeta in Hrun. fold salt in Hrun. fold key in Hrun. fold iv in Hrun.
  fold data in Hrun. fold record in Hrun.
  rewrite <- agrees_deriveAndVerify in Hrun.
  assert (Hw' : w' = snd (alone (Async.deriveAndVerify pf passphrase) w))
    by reflexivity.
  rewrite Hrun in Hw'. simpl in Hw'.
  assert (Hget : meta_get 1 (master_rows w') = Some record).
  { rewrite Hw'. unfold master_rows. simpl.
    exact (meta_get_put record (meta d)). }
  assert (Hstay : exists r, meta_get 1 (master_rows w') = Some r)
    by (now exists record).
  assert (Hplay : forall events,
             master_rows (snd (play pf events ([], w'))) = master_rows w').
  { intros events. destruct (play_vault_kept pf events w') as [_ Hmeta].
    now apply Hmeta. }
  rewrite Hrun. simpl fst.
  split; [reflexivity|].
  split; [apply length_next_random|].
  split; [unfold salt; rewrite length_next_random; lia|].
  split; [apply length_next_random|].
  split; [now rewrite Hw'|].
  split.
  { rewrite Hw'. unfold new_kdf_calls. simpl.
    rewrite skipn_app, skipn_all, Nat.sub_diag. reflexivity. }
  split; [now rewrite Hw'|].
  split; [exact Hget|].
  split; [intros E; rewrite Hw'; unfold master_rows; simpl; now rewrite E|].
  split; [rewrite Hw'; unfold rows; simpl; now rewrite Hdb|].
  split; [exact Hplay|].
  intros events p. rewrite agrees_deriveAndVerify, <- (Hplay events).
  apply meta_kept_deriveAndVerify. now rewrite Hplay.
Qed.

(** C3 on a new vault. *)
Lemma C3_first_use_creates_master_record_witness :
  db fresh_world = Some empty_database
  /\ meta_get 1 (meta empty_database) = None
  /\ master_rows (snd (alone (Async.deriveAndVerify Demo.platform
                                (js "hunter2")) fresh_world))
     = [Demo.master].
Proof.
  split; [reflexivity|]. split; [reflexivity|].
  destruct (C3_first_use_creates_master_record Demo.platform (js "hunter2")
              fresh_world empty_database eq_refl eq_refl)
    as (_ & _ & _ & _ & _ & _ & _ & _ & Hone & _).
  rewrite (Hone eq_refl). reflexivity.
Defined.

(** Against C3 as stated: two first saves on a new vault, the second
    made while the first waits for its key.  Both calls find no master
    record.  The first puts the record made with its salt; the second
    replaces it by the record made with its own.  Both saves settle; the
    row of the first is sealed under the key of the replaced record, and
    with the session forgotten the passphrase that was given both times
    opens the second row and no longer the first. *)
Lemma C3_overlapping_first_uses_write_twice :
  master_rows (snd (play Demo.platform Race.both_waiting ([], fresh_world)))
  = []
  /\ map m_salt
       (master_rows
          (snd (play Demo.platform (Race.both_waiting ++ Race.first_write)
                  ([], fresh_world))))
     = [next_random Demo.platform 32 fresh_world]
  /\ map m_salt
       (master_rows
          (snd (play Demo.platform
                  (Race.both_waiting ++ Race.first_write
                   ++ Race.second_write) ([], fresh_world))))
     = [next_random Demo.platform 32 (set_drawn 32 fresh_world)]
  /\ forallb settled
       (fst (play Demo.platform Race.two_first_uses ([], fresh_world)))
     = true
  /\ map m_salt
       (master_rows
          (snd (play Demo.platform Race.two_first_uses ([], fresh_world))))
     = [next_random Demo.platform 32 (set_drawn 32 fresh_world)]
  /\ map e_id
       (rows (snd (play Demo.platform Race.two_first_uses
                     ([], fresh_world))))
     = [1; 2]
  /\ fst (alone (Async.viewItem Demo.platform 1 Demo.hunter2)
            (set_cache None None
               (snd (play Demo.platform Race.two_first_uses
                       ([], fresh_world)))))
     = Ok None
  /\ fst (alone (Async.viewItem Demo.platform 2 Demo.hunter2)
            (set_cache None None
               (snd (play Demo.platform Race.two_first_uses
                       ([], fresh_world)))))
     = Ok (Some (js "x7!Qp")).
Proof. vm_compute. repeat split. Qed.

(* ================================================================== *)
(** * The store over any requests *)

(** Requests in turn keep a store of at most 100 rows within 100. *)
Lemma in_turn_capacity (pf : Platform) (qs : list Request) (w : World) :
  world_ok w = true ->
  (length (rows w) <= 100)%nat ->
  (length (rows (in_turn pf qs w)) <= 100)%nat.
Proof.
  rewrite in_turn_run. revert w.
  induction qs as [|q qs IH]; intros w Hok Hlen; [exact Hlen|].
  destruct (perform_history pf q w Hok) as (Hok' & _ & Hlen').
  simpl. apply IH; [exact Hok' | now apply Hlen'].
Qed.

(** X7. Saves, views and deletions, whatever the dialog answers and
    however the requests overlap: made from a page on which no call is
    waiting, and resumed in any order, they leave the rows in increasing
    order of identifier, all below the key generator; the key generator
    never goes back; every row found afterwards under an identifier
    handed out before is a row that was there before, unchanged; and
    the master record, if there was one, is kept.  Requests made in
    turn are one such sequence of events, and with them a store of at
    most 100 rows never exceeds 100 rows. *)
Theorem X7_requests_keep_the_store_in_order :
  forall (pf : Platform) (events : list Event) (qs : list Request)
         (w : World),
    world_ok w = true ->
    world_ok (snd (play pf events ([], w))) = true
    /\ ids_not_reused w (snd (play pf events ([], w)))
    /\ meta_kept w (snd (play pf events ([], w)))
    /\ snd (play pf (turns pf qs 0 w) ([], w)) = in_turn pf qs w
    /\ ((length (rows w) <= 100)%nat ->
        (length (rows (in_turn pf qs w)) <= 100)%nat).
Proof.
  intros pf events qs w Hok.
  destruct (play_vault_kept pf events w) as [Hkept Hmeta].
  destruct (Hkept Hok) as [Hok' Hids].
  split; [exact Hok'|]. split; [exact Hids|]. split; [exact Hmeta|].
  split; [|now apply in_turn_capacity].
  destruct (play_turns pf qs [] w) as (calls & Hplay & _).
  cbn [length] in Hplay. now rewrite Hplay.
Qed.

(** X7 on the demonstration vault: a save and a deletion of the first
    row made one upon the other, a view of that row made while both
    wait, and the three resumed in turns. *)
Lemma X7_requests_keep_the_store_in_order_witness :
  world_ok Demo.first_save = true
  /\ world_ok
       (snd (play Demo.platform
               ([Call (Save (js "x7!Qp") (js "password") Demo.hunter2);
                 Call (Delete 1 Demo.hunter2); Resume 0; Resume 1;
                 Call (View 1 Demo.cancelled)]
                ++ concat (repeat [Resume 2; Resume 1; Resume 0] 12))
               ([], Demo.first_save))) = true.
Proof.
  split; [reflexivity|].
  apply (X7_requests_keep_the_store_in_order Demo.platform
           ([Call (Save (js "x7!Qp") (js "password") Demo.hunter2);
             Call (Delete 1 Demo.hunter2); Resume 0; Resume 1;
             Call (View 1 Demo.cancelled)]
            ++ concat (repeat [Resume 2; Resume 1; Resume 0] 12))
           [] Demo.first_save eq_refl).
Defined.

(** X9. The passphrase that set the vault up keeps opening it.  When the
    platform's AES-GCM opens what it sealed and the first
    [deriveAndVerify] of a vault has settled before anything else is
    called, the key it returned is returned again by [deriveAndVerify]
    with the same passphrase after any saves, views and deletions,
    however these overlap. *)
Theorem X9_setup_passphrase_keeps_opening :
  forall (pf : Platform) (p : jsstring) (w : World) (d : Database),
    gcm_correct pf ->
    db w = Some d ->
    meta_get 1 (meta d) = None ->
    exists key w1,
      alone (Async.deriveAndVerify pf p) w = (Ok key, w1)
      /\ forall events,
           fst (alone (Async.deriveAndVerify pf p)
                  (snd (play pf events ([], w1)))) = Ok key.
Proof.
  intros pf p w d Hgcm Hdb Hnone.
  eexists. eexists. split.
  { rewrite agrees_deriveAndVerify.
    exact (deriveAndVerify_uninitialized pf p w d Hdb Hnone). }
  set (salt := next_random pf 32 w).
  set (key := derived_key pf p salt).
  set (iv := next_random pf 12 (set_drawn (drawn w + 32) w)).
  set (data := gcm_encrypt pf (key_material key) iv (encode VERIFY_PLAIN)).
  set (record := mkMaster 1 salt iv data).
  set (w1 := set_db _ _).
  intros events.
  assert (Hm : meta_get 1 (master_rows w1) = Some record).
  { unfold master_rows, w1. simpl.
    change 1 with (m_id record) at 1. apply meta_get_put. }
  destruct (play_vault_kept pf events w1) as [_ Hkept].
  pose proof (Hkept (ex_intro _ record Hm)) as Hk.
  rewrite agrees_deriveAndVerify.
  destruct (db (snd (play pf events ([], w1)))) as [d'|] eqn:E.
  - unfold master_rows at 1 in Hk. rewrite E in Hk.
    rewrite (deriveAndVerify_initialized pf p _ d' record E)
      by (now rewrite Hk).
    cbn [fst]. unfold record. cbn [m_salt m_iv m_encryptedData].
    fold key. unfold recovered, data. rewrite Hgcm. cbn [option_map].
    rewrite decode_encode by reflexivity. reflexivity.
  - unfold master_rows at 1 in Hk. rewrite E in Hk.
    rewrite <- Hk in Hm. discriminate.
Qed.

(** X9 on the demonstration platform: after the first use, a save
    answered with a wrong passphrase and a deletion that overlap. *)
Lemma X9_setup_passphrase_keeps_opening_witness :
  exists key w1,
    alone (Async.deriveAndVerify Demo.platform (js "hunter2")) fresh_world
    = (Ok key, w1)
    /\ fst (alone (Async.deriveAndVerify Demo.platform (js "hunter2"))
              (snd (play Demo.platform
                      ([Call (Save (js "x7!Qp") (js "password")
                                Demo.mistyped);
                        Call (Delete 1 Demo.hunter2)]
                       ++ concat (repeat [Resume 1; Resume 0] 12))
                      ([], w1)))) = Ok key.
Proof.
  destruct (X9_setup_passphrase_keeps_opening Demo.platform (js "hunter2")
              fresh_world empty_database demo_gcm_correct eq_refl eq_refl)
    as (key & w1 & Hrun & Hlater).
  exists key, w1. split; [exact Hrun | apply Hlater].
Defined.
